(** * ESL: value encoding, garbage collector, compiler and interpreter thread

    A shallow embedding of the parts of the ESL runtime that the
    specification makes claims about:

    - [codegen/valueHelpersInline.cpp]: the NaN-boxed 64-bit [Value];
    - [MemoryManagment/garbageCollector.cpp]: [alloc], [mark], [sweep],
      [collect];
    - [Runtime/thread.cpp]: the call protocol, upvalue capture and the
      opcode handlers of the dispatch loop;
    - [codegen/compiler.cpp]: the emission of [switch] statements, jumps,
      loops, constants and struct literals, the compile-time construction
      of class objects, and the bookkeeping of scopes, locals and upvalues.

    Machine integers are [Z] with their wrap-around written out, heap
    pointers are addresses into a finite map of objects, and the C++
    exceptions thrown by [runtimeError] are an explicit error result. *)

From Stdlib Require Import ZArith Lia Bool List String.
From stdpp Require Import gmap strings list fin_maps pretty.

#[local] Set Warnings "-clear-no-such-hyp".

Local Open Scope Z_scope.

(** ** Value representation ([codegen/valueHelpersInline.cpp])

    [Value] is a 64-bit unsigned word.  A C++ [double] is carried as its
    IEEE-754 binary64 bit pattern, which is what the [reinterpret_cast] of
    [encodeDouble] and [decodeDouble] reads and writes. *)

Module ValueHelpers.

Definition Value := Z.

Definition MASK_SIGN        : Z := 0x8000000000000000.
Definition MASK_EXPONENT    : Z := 0x7ff0000000000000.
Definition MASK_QUIET       : Z := 0x0008000000000000.
Definition MASK_TYPE        : Z := 0x0007000000000000.
Definition MASK_SIGNATURE   : Z := 0xffff000000000000.
Definition MASK_FULL        : Z := 0xffffffffffffffff.
Definition MASK_NAN         : Z := 0x7ff0000000000000.
Definition MASK_PAYLOAD_INT : Z := 0x00000000ffffffff.
Definition MASK_PAYLOAD_OBJ : Z := 0x0000ffffffffffff.

Definition MASK_TYPE_NAN   : Z := 0x0000000000000000.
Definition MASK_TYPE_FALSE : Z := 0x0001000000000000.
Definition MASK_TYPE_TRUE  : Z := 0x0002000000000000.
Definition MASK_TYPE_NIL   : Z := 0x0003000000000000.
Definition MASK_TYPE_INT   : Z := 0x0004000000000000.
Definition MASK_TYPE_OBJ   : Z := MASK_SIGN.

Definition MASK_SIGNATURE_NAN   : Z := MASK_NAN.
Definition MASK_SIGNATURE_FALSE : Z := Z.lor MASK_NAN MASK_TYPE_FALSE.
Definition MASK_SIGNATURE_TRUE  : Z := Z.lor MASK_NAN MASK_TYPE_TRUE.
Definition MASK_SIGNATURE_NIL   : Z := Z.lor MASK_NAN MASK_TYPE_NIL.
Definition MASK_SIGNATURE_INT   : Z := Z.lor MASK_NAN MASK_TYPE_INT.
Definition MASK_SIGNATURE_OBJ   : Z := Z.lor (Z.lor MASK_SIGN MASK_NAN) MASK_TYPE_OBJ.

Inductive ValueType := DOUBLE | INT | BOOL | NIL | OBJ.

#[export] Instance ValueType_eq_dec : EqDecision ValueType.
Proof. solve_decision. Defined.

(** [~x] on a [uint64_t]. *)
Definition not64 (x : Z) : Z := Z.land (Z.lnot x) MASK_FULL.

(** The C++ [switch] of [getType] tries its labels in turn and falls out
    of the [switch] to [return ValueType::NIL]. *)
Definition getType (x : Value) : ValueType :=
  if negb (Z.land (not64 x) MASK_EXPONENT =? 0) then DOUBLE
  else
    let s := Z.land x MASK_SIGNATURE in
    if s =? MASK_SIGNATURE_NAN then DOUBLE
    else if (s =? MASK_SIGNATURE_FALSE) || (s =? MASK_SIGNATURE_TRUE) then BOOL
    else if s =? MASK_SIGNATURE_INT then INT
    else if s =? MASK_SIGNATURE_OBJ then OBJ
    else NIL.

(** [(uint32_t) x] for an [int32_t] x, and the conversion back that the
    return type of [decodeInt] performs. *)
Definition to_uint32 (x : Z) : Z := x mod 2 ^ 32.
Definition to_int32 (x : Z) : Z :=
  let u := x mod 2 ^ 32 in if u <? 2 ^ 31 then u else u - 2 ^ 32.

(** A [double] is its bit pattern: the casts change the type, not the bits. *)
Definition encodeDouble (bits : Z) : Value := bits.
Definition encodeInt (x : Z) : Value := Z.lor MASK_SIGNATURE_INT (to_uint32 x).
Definition encodeBool (x : bool) : Value :=
  if x then MASK_SIGNATURE_TRUE else MASK_SIGNATURE_FALSE.
Definition encodeObj (p : Z) : Value := Z.lor MASK_SIGNATURE_OBJ p.
Definition encodeNil : Value := MASK_SIGNATURE_NIL.
Definition decodeDouble (x : Value) : Z := x.
Definition decodeInt (x : Value) : Z := to_int32 (Z.land x MASK_PAYLOAD_INT).
Definition decodeBool (x : Value) : bool := negb (Z.land x MASK_TYPE_TRUE =? 0).
Definition decodeObj (x : Value) : Z := Z.land x MASK_PAYLOAD_OBJ.

Definition isDouble (x : Value) : bool := bool_decide (getType x = DOUBLE).
Definition isBool (x : Value) : bool := bool_decide (getType x = BOOL).
Definition isNil (x : Value) : bool := bool_decide (getType x = NIL).
Definition isInt (x : Value) : bool := bool_decide (getType x = INT).
Definition isObj (x : Value) : bool := bool_decide (getType x = OBJ).
Definition isNumber (x : Value) : bool := isDouble x || isInt x.

Definition isFalsey (x : Value) : bool :=
  bool_decide (getType x = NIL)
  || (bool_decide (getType x = BOOL) && negb (decodeBool x)).

(** The sixteen bits that decide the kind, and [getType] read off them. *)
Definition signature16 (x : Value) : Z := Z.shiftr x 48.

Definition getType16 (h : Z) : ValueType :=
  if negb (Z.land h 0x7ff0 =? 0x7ff0) then DOUBLE
  else
    let s := Z.land h 0xffff in
    if s =? 0x7ff0 then DOUBLE
    else if (s =? 0x7ff1) || (s =? 0x7ff2) then BOOL
    else if s =? 0x7ff4 then INT
    else if s =? 0xfff0 then OBJ
    else NIL.

(** Bit patterns of some doubles. *)
Definition NEG_INFINITY_BITS : Z := 0xfff0000000000000.
Definition POS_INFINITY_BITS : Z := 0x7ff0000000000000.
Definition QUIET_NAN_BITS    : Z := 0x7ff8000000000000.

End ValueHelpers.

(** ** Heap objects

    A pointer is an address into the heap map; the null pointer is
    address [0]. *)

Module Objects.
Import ValueHelpers.

(** The type tags that the predicates of [valueHelpersInline.cpp] test. *)
Inductive ObjType :=
| STRING | FUNC | NATIVE | BOUND_NATIVE | ARRAY | CLOSURE | CLASS
| INSTANCE | BOUND_METHOD | UPVALUE | FILE | MUTEX | FUTURE.

#[export] Instance ObjType_eq_dec : EqDecision ObjType.
Proof. solve_decision. Defined.

Definition nullptr : Z := 0.

(** Modelled from the spec: the heap object kinds of [Objects/objects.h],
    which is not among the sources.  Each kind carries the fields that the
    spec's data model lists and that the code reads and writes: a closure
    holds its function and its upvalue cells by pointer, a class its
    method table and an instance its class pointer and field map. *)
Inductive ObjData :=
| ObjString (str : string)
| ObjFunc (bytecodeOffset constantsOffset arity upvalueCount : Z) (name : string)
| ObjNativeFunc (func : Z) (arity : Z) (name : string)
| ObjBoundNativeFunc (func : Z) (arity : Z) (name : string) (receiver : Value)
| ObjArray (values : list Value) (numOfHeapPtr : Z)
| ObjClosure (func : Z) (upvals : list Z)
| ObjClass (name : string) (methods : gmap string Value) (superclass : Z)
| ObjInstance (klass : Z) (fields : gmap string Value)
| ObjBoundMethod (receiver : Value) (method : Z)
| ObjUpval (val : Value)
| ObjFile
| ObjMutex
| ObjFuture (thread : Z) (val : Value).

(** Modelled from the spec: the header every object starts with, the GC
    mark bit ([Obj] of [Objects/objects.h]).  The type tag is a function
    of the payload. *)
Record Obj := mkObj { marked : bool; data : ObjData }.

Definition type (o : Obj) : ObjType :=
  match data o with
  | ObjString _ => STRING
  | ObjFunc _ _ _ _ _ => FUNC
  | ObjNativeFunc _ _ _ => NATIVE
  | ObjBoundNativeFunc _ _ _ _ => BOUND_NATIVE
  | ObjArray _ _ => ARRAY
  | ObjClosure _ _ => CLOSURE
  | ObjClass _ _ _ => CLASS
  | ObjInstance _ _ => INSTANCE
  | ObjBoundMethod _ _ => BOUND_METHOD
  | ObjUpval _ => UPVALUE
  | ObjFile => FILE
  | ObjMutex => MUTEX
  | ObjFuture _ _ => FUTURE
  end.

(** A freshly constructed object is unmarked. *)
Definition new (d : ObjData) : Obj := mkObj false d.

Definition set_data (o : Obj) (d : ObjData) : Obj := mkObj (marked o) d.

(** The outcome of running code that can throw through [runtimeError] or
    touch memory it does not own (a dangling or null pointer, an index
    past the end of a vector): C++ gives the latter no meaning. *)
Inductive Result (A : Type) :=
| Ok (a : A)
| RuntimeError (errorCode : Z)
| Fault.
Arguments Ok {A} a.
Arguments RuntimeError {A} errorCode.
Arguments Fault {A}.

(** [isString], [isArray], ... : [isObj(x) && decodeObj(x)->type == T]. *)
Definition isObjOfType (h : gmap Z Obj) (t : ObjType) (x : Value) : Result bool :=
  if isObj x then
    match h !! decodeObj x with
    | Some o => Ok (bool_decide (type o = t))
    | None => Fault
    end
  else Ok false.

Section Equals.
(** [FLOAT_EQ] is a macro of [codegenDefs.h], which is not among the
    sources; [equals] applies it to the two 64-bit words.
    [toStringOther] stands for [Obj::toString] of the kinds other than
    strings ([Objects/objects.cpp], not among the sources). *)
Variable FLOAT_EQ : Value -> Value -> bool.
Variable toStringOther : gmap Z Obj -> ObjData -> string.

(** Modelled from the spec: [ObjString::toString] of
    [Objects/objects.cpp] returns the contents of the string (the spec
    calls the comparison of two strings content equality). *)
Definition toString (h : gmap Z Obj) (o : Obj) : string :=
  match data o with
  | ObjString s => s
  | d => toStringOther h d
  end.

Definition equals (h : gmap Z Obj) (x y : Value) : Result bool :=
  let type_x := getType x in
  if negb (bool_decide (type_x = getType y)) then Ok false
  else if bool_decide (type_x = DOUBLE) then Ok (FLOAT_EQ x y)
  else if bool_decide (type_x = OBJ) then
    match h !! decodeObj x with
    | None => Fault
    | Some ox =>
        if bool_decide (type ox = STRING) then
          match h !! decodeObj y with
          | None => Fault
          | Some oy => Ok (String.eqb (toString h ox) (toString h oy))
          end
        else Ok (x =? y)
    end
  else Ok (x =? y).
End Equals.

End Objects.

(** ** Garbage collector ([MemoryManagment/garbageCollector.cpp]) *)

Module GC.
Import ValueHelpers Objects.

(** Start size of the heap in KB. *)
Definition HEAP_START_SIZE : Z := 1024.

(** Modelled from the spec: the members of [GarbageCollector]
    ([garbageCollector.h] is not among the sources).  The two counters
    are 64-bit unsigned, [objects] and [markStack] are vectors of object
    pointers and [interned] maps the contents of a string to its
    object. *)
Record GarbageCollector := mkGC {
  heapSize : Z;
  heapSizeLimit : Z;
  shouldCollect : bool;
  objects : list Z;
  markStack : list Z;
  interned : gmap string Z;
}.

(** Modelled from the spec: what the collector uses of the VM
    ([Runtime/vm.cpp] is not among the sources): the request that all
    threads pause, which [unpauseAllThreads] and the notification of the
    children's condition variable withdraw, and the root objects that
    [vm->mark] pushes onto the mark stack. *)
Record VM := mkVM {
  pauseRequested : bool;
  roots : list Z;
}.

(** The collector together with what its functions read and write
    besides their own members: the memory the objects live in, the
    system-error sink and the VM it is attached to ([None]: [vm] is
    null). *)
Record World := mkWorld {
  gc : GarbageCollector;
  mem : gmap Z Obj;
  systemErrors : list string;
  vm : option VM;
}.

Definition wrap64 (x : Z) : Z := x mod 2 ^ 64.

Definition GarbageCollector_init : GarbageCollector :=
  {| heapSize := 0; heapSizeLimit := HEAP_START_SIZE * 1024;
     shouldCollect := false; objects := []; markStack := [];
     interned := ∅ |}.

Definition set_heapSize (v : Z) (g : GarbageCollector) : GarbageCollector :=
  {| heapSize := v; heapSizeLimit := heapSizeLimit g;
     shouldCollect := shouldCollect g; objects := objects g;
     markStack := markStack g; interned := interned g |}.

Definition set_shouldCollect (v : bool) (g : GarbageCollector) : GarbageCollector :=
  {| heapSize := heapSize g; heapSizeLimit := heapSizeLimit g;
     shouldCollect := v; objects := objects g;
     markStack := markStack g; interned := interned g |}.

Definition set_objects (v : list Z) (g : GarbageCollector) : GarbageCollector :=
  {| heapSize := heapSize g; heapSizeLimit := heapSizeLimit g;
     shouldCollect := shouldCollect g; objects := v;
     markStack := markStack g; interned := interned g |}.

Definition set_markStack (v : list Z) (g : GarbageCollector) : GarbageCollector :=
  {| heapSize := heapSize g; heapSizeLimit := heapSizeLimit g;
     shouldCollect := shouldCollect g; objects := objects g;
     markStack := v; interned := interned g |}.

Definition set_interned (v : gmap string Z) (g : GarbageCollector) : GarbageCollector :=
  {| heapSize := heapSize g; heapSizeLimit := heapSizeLimit g;
     shouldCollect := shouldCollect g; objects := objects g;
     markStack := markStack g; interned := v |}.

Definition pauseAllThreads (v : VM) : VM :=
  {| pauseRequested := true; roots := roots v |}.
Definition unpauseAllThreads (v : VM) : VM :=
  {| pauseRequested := false; roots := roots v |}.

Definition failed_allocation (size : Z) : string :=
  "Failed allocation, tried to allocate " +:+ pretty size +:+ " bytes".

(** [alloc].  [block] is what [new byte[size]] did: [Some p] when it
    returned the block at [p], [None] when it threw [std::bad_alloc]. *)
Definition alloc (size : Z) (block : option Z) (w : World) : Z * World :=
  let g1 := set_heapSize (wrap64 (heapSize (gc w) + size)) (gc w) in
  let over := heapSizeLimit g1 <? heapSize g1 in
  let g2 := if over then set_shouldCollect true g1 else g1 in
  let vm2 := if over then pauseAllThreads <$> vm w else vm w in
  let p := match block with Some p => p | None => nullptr end in
  let errs := match block with
              | Some _ => systemErrors w
              | None => systemErrors w ++ [failed_allocation size]
              end in
  (p, {| gc := set_objects (objects g2 ++ [p]) g2; mem := mem w;
         systemErrors := errs; vm := vm2 |}).

Definition markObj (object : Z) (g : GarbageCollector) : GarbageCollector :=
  set_markStack (markStack g ++ [object]) g.

Section Virtuals.
(** [Obj::trace] and [Obj::getSize] are virtual functions defined in
    [Objects/objects.cpp], which is not among the sources: [trace]
    gives the objects that tracing hands to [markObj], in order.  Both
    look at the payload of the object. *)
Variable trace : ObjData -> list Z.
Variable getSize : ObjData -> Z.

Definition set_marked (b : bool) (o : Obj) : Obj := mkObj b (data o).

(** [mark]: the loop runs while the mark stack is not empty; [fuel]
    bounds the number of iterations ([None]: more are needed). *)
Fixpoint mark (fuel : nat) (m : gmap Z Obj) (stack : list Z)
    : option (Result (gmap Z Obj * list Z)) :=
  match rev stack with
  | [] => Some (Ok (m, stack))
  | ptr :: below =>
      match fuel with
      | O => None
      | S fuel' =>
          let stack' := rev below in
          match m !! ptr with
          | None => Some Fault
          | Some o =>
              if marked o then mark fuel' m stack'
              else mark fuel' (<[ptr := set_marked true o]> m) (stack' ++ trace (data o))
          end
      end
  end.

Definition markRoots (w : World) : Result GarbageCollector :=
  match vm w with
  | None => Fault
  | Some v => Ok (set_markStack (markStack (gc w) ++ roots v) (gc w))
  end.

(** The first loop of [sweep]: entries of the intern map whose string
    is unmarked are erased. *)
Definition prune_interned (m : gmap Z Obj) (i : gmap string Z)
    : Result (gmap string Z) :=
  if bool_decide (map_Forall (fun _ p => is_Some (m !! p)) i) then
    Ok (filter (fun kv => (marked <$> m !! kv.2) = Some true) i)
  else Fault.

(** The second loop of [sweep], about to visit index [n - 1]. *)
Fixpoint sweep_objects (n : nat) (m : gmap Z Obj) (objs : list Z) (size : Z)
    : Result (gmap Z Obj * list Z * Z) :=
  match n with
  | O => Ok (m, objs, size)
  | S i =>
      match objs !! i with
      | None => Fault
      | Some obj =>
          match m !! obj with
          | None => Fault
          | Some o =>
              if negb (marked o) then
                sweep_objects i (delete obj m) (delete i objs) size
              else
                sweep_objects i (<[obj := set_marked false o]> m) objs
                  (wrap64 (size + getSize (data o)))
          end
      end
  end.

Definition sweep (m : gmap Z Obj) (g : GarbageCollector)
    : Result (gmap Z Obj * GarbageCollector) :=
  let g0 := set_heapSize 0 g in
  match prune_interned m (interned g0) with
  | Ok i' =>
      match sweep_objects (length (objects g0)) m (objects g0) (heapSize g0) with
      | Ok (m', objs', size') =>
          Ok (m', set_heapSize size' (set_objects objs' (set_interned i' g0)))
      | RuntimeError c => RuntimeError c
      | Fault => Fault
      end
  | RuntimeError c => RuntimeError c
  | Fault => Fault
  end.

(** [collect] (the VM's variant).  The statement
    [if (heapSize > heapSizeLimit) heapSizeLimit << 1;] evaluates the
    shift and drops its value. *)
Definition collect (fuel : nat) (w : World) : option (Result World) :=
  match markRoots w with
  | Ok g1 =>
      match mark fuel (mem w) (markStack g1) with
      | None => None
      | Some (Ok (m2, stack2)) =>
          match sweep m2 (set_markStack stack2 g1) with
          | Ok (m3, g3) =>
              let g4 := if heapSizeLimit g3 <? heapSize g3
                        then let _ := Z.shiftl (heapSizeLimit g3) 1 in g3
                        else g3 in
              let g5 := set_shouldCollect false g4 in
              Some (Ok {| gc := g5; mem := m3;
                          systemErrors := systemErrors w;
                          vm := unpauseAllThreads <$> vm w |})
          | RuntimeError c => Some (RuntimeError c)
          | Fault => Some Fault
          end
      | Some (RuntimeError c) => Some (RuntimeError c)
      | Some Fault => Some Fault
      end
  | RuntimeError c => Some (RuntimeError c)
  | Fault => Some Fault
  end.
End Virtuals.

End GC.

(** ** Interpreter thread ([Runtime/thread.cpp]) *)

Module CallFrame.
(** Modelled from the spec: [CallFrame] of [Runtime/thread.h] (not among
    the sources): the closure, the instruction pointer (an index into the
    shared bytecode) and the stack slot of the receiver. *)
Record t := mk { closure : Z; ip : Z; slots : Z }.
End CallFrame.

Module Builtin.
(** The builtin kinds [findNativeMethod] tells apart. *)
Inductive t := COMMON | STRING | ARRAY | FILE | MUTEX | FUTURE.
End Builtin.

Module OpCode.
(** The opcodes the dispatch loop has a [case] for, in the order of the
    labels ([OpCode] is an enumeration of [codegen/codegenDefs.h], which
    is not among the sources). *)
Inductive t :=
| POP | POPN | LOAD_INT
| CONSTANT | CONSTANT_LONG | NIL | TRUE | FALSE
| NEGATE | NOT | BIN_NOT | INCREMENT
| BITWISE_XOR | BITWISE_OR | BITWISE_AND
| ADD | SUBTRACT | MULTIPLY | DIVIDE | MOD | BITSHIFT_LEFT | BITSHIFT_RIGHT
| EQUAL | NOT_EQUAL | GREATER | GREATER_EQUAL | LESS | LESS_EQUAL
| GET_NATIVE
| DEFINE_GLOBAL | DEFINE_GLOBAL_LONG | GET_GLOBAL | GET_GLOBAL_LONG
| SET_GLOBAL | SET_GLOBAL_LONG
| GET_LOCAL | SET_LOCAL | GET_UPVALUE | SET_UPVALUE
| JUMP | JUMP_IF_FALSE | JUMP_IF_TRUE | JUMP_IF_FALSE_POP
| LOOP_IF_TRUE | LOOP | JUMP_POPN | SWITCH | SWITCH_LONG
| CALL | RETURN | CLOSURE | CLOSURE_LONG
| LAUNCH_ASYNC | AWAIT
| CREATE_ARRAY | GET | SET
| CLASS | GET_PROPERTY | GET_PROPERTY_LONG | SET_PROPERTY | SET_PROPERTY_LONG
| CREATE_STRUCT | CREATE_STRUCT_LONG | METHOD | INVOKE | INVOKE_LONG
| INHERIT | GET_SUPER | GET_SUPER_LONG | SUPER_INVOKE | SUPER_INVOKE_LONG.
End OpCode.

Module Thread.
Import ValueHelpers Objects.

(** Modelled from the spec: an entry of a builtin kind's method table
    ([BuiltinMethod] of [Runtime/vm.h], not among the sources): the stub
    and its arity, -1 for a variadic one. *)
Record BuiltinMethod := mkBuiltinMethod { func : Z; arity : Z }.

(** Modelled from the spec: the members of [Thread] ([Runtime/thread.h],
    not among the sources) that the handlers use, together with the
    globals of the VM, the memory of the heap objects and the local
    variables of [executeBytecode] that the handlers share ([frame], [ip],
    [slotStart], [constantOffset]).  The stack holds the slots below
    [stackTop], bottom first, and [frames] the call frames below
    [frameCount]. *)
Record Machine := mkMachine {
  stack : list Value;
  frames : list CallFrame.t;
  frame : nat;
  ip : Z;
  slotStart : Z;
  constantOffset : Z;
  globals : list Value;
  heap : gmap Z Obj;
}.

Definition set_stack (v : list Value) (s : Machine) : Machine :=
  {| stack := v; frames := frames s; frame := frame s; ip := ip s;
     slotStart := slotStart s; constantOffset := constantOffset s;
     globals := globals s; heap := heap s |}.

Definition set_frames (v : list CallFrame.t) (s : Machine) : Machine :=
  {| stack := stack s; frames := v; frame := frame s; ip := ip s;
     slotStart := slotStart s; constantOffset := constantOffset s;
     globals := globals s; heap := heap s |}.

Definition set_ip (v : Z) (s : Machine) : Machine :=
  {| stack := stack s; frames := frames s; frame := frame s; ip := v;
     slotStart := slotStart s; constantOffset := constantOffset s;
     globals := globals s; heap := heap s |}.

Definition set_heap (v : gmap Z Obj) (s : Machine) : Machine :=
  {| stack := stack s; frames := frames s; frame := frame s; ip := ip s;
     slotStart := slotStart s; constantOffset := constantOffset s;
     globals := globals s; heap := v |}.

Definition set_registers (f : nat) (i sl co : Z) (s : Machine) : Machine :=
  {| stack := stack s; frames := frames s; frame := f; ip := i;
     slotStart := sl; constantOffset := co;
     globals := globals s; heap := heap s |}.

(** Code that runs on the machine and either returns, throws through
    [runtimeError], or leaves the behaviour C++ defines. *)
Definition M (A : Type) : Type := Machine -> Result (A * Machine).

#[export] Instance M_ret : MRet M := fun A a s => Ok (a, s).
#[export] Instance M_bind : MBind M := fun A B k c s =>
  match c s with
  | Ok (a, s') => k a s'
  | RuntimeError e => RuntimeError e
  | Fault => Fault
  end.

Definition runtimeError {A} (errorCode : Z) : M A := fun _ => RuntimeError errorCode.
Definition fault {A} : M A := fun _ => Fault.
Definition get : M Machine := fun s => Ok (s, s).
Definition modify (f : Machine -> Machine) : M unit := fun s => Ok (tt, f s).
Definition lift {A} (o : option A) : M A :=
  match o with Some a => mret a | None => fault end.

Definition stackTop (s : Machine) : Z := Z.of_nat (length (stack s)).

(** The slot at index [i] of the stack array, for [0 <= i < stackTop]. *)
Definition slot (i : Z) : M Value := fun s =>
  if (0 <=? i) && (i <? stackTop s) then
    match stack s !! Z.to_nat i with Some v => Ok (v, s) | None => Fault end
  else Fault.

Definition set_slot (i : Z) (v : Value) : M unit := fun s =>
  if (0 <=? i) && (i <? stackTop s) then
    Ok (tt, set_stack (<[Z.to_nat i := v]> (stack s)) s)
  else Fault.

(** Heap access: a pointer read at the wrong kind is undefined. *)
Definition deref (p : Z) : M Obj := fun s =>
  match heap s !! p with Some o => Ok (o, s) | None => Fault end.

Definition store (p : Z) (d : ObjData) : M unit := fun s =>
  match heap s !! p with
  | Some o => Ok (tt, set_heap (<[p := set_data o d]> (heap s)) s)
  | None => Fault
  end.

Definition isOfType (t : ObjType) (x : Value) : M bool := fun s =>
  match isObjOfType (heap s) t x with
  | Ok b => Ok (b, s)
  | RuntimeError e => RuntimeError e
  | Fault => Fault
  end.

Definition set_globals (v : list Value) (s : Machine) : Machine :=
  {| stack := stack s; frames := frames s; frame := frame s; ip := ip s;
     slotStart := slotStart s; constantOffset := constantOffset s;
     globals := v; heap := heap s |}.

(** *** Integer arithmetic

    [decodeInt] returns an [int32_t], so [decodeInt(a) op decodeInt(b)] is
    computed in [int] (32 bits) whatever the type of the variable that
    receives it: C++ gives no meaning to a sum, difference, product or
    quotient that does not fit, to a division by zero, or to a shift by a
    negative count or by 32 or more. *)

Definition INT_MIN : Z := - 2 ^ 31.
Definition INT_MAX : Z := 2 ^ 31 - 1.

(** The operators [BINARY_OP] is used with, and those of [INT_BINARY_OP]. *)
Inductive BinaryOp := OpAdd | OpSub | OpMul | OpDiv.
Inductive IntBinaryOp := OpXor | OpOr | OpAnd | OpMod | OpShl | OpShr.

Definition int_in_range (r : Z) : option Z :=
  if (INT_MIN <=? r) && (r <=? INT_MAX) then Some r else None.

Definition int_arith (op : BinaryOp) (a b : Z) : option Z :=
  match op with
  | OpAdd => int_in_range (a + b)
  | OpSub => int_in_range (a - b)
  | OpMul => int_in_range (a * b)
  | OpDiv => if b =? 0 then None else int_in_range (Z.quot a b)
  end.

(** [<<] gives the value congruent to [a * 2 ^ b] modulo [2 ^ 32] and
    [>>] shifts in copies of the sign bit (C++20, which the sources
    need for [std::unordered_map::contains]). *)
Definition int_bitwise (op : IntBinaryOp) (a b : Z) : option Z :=
  match op with
  | OpXor => Some (Z.lxor a b)
  | OpOr => Some (Z.lor a b)
  | OpAnd => Some (Z.land a b)
  | OpMod => if b =? 0 then None
             else if (a =? INT_MIN) && (b =? -1) then None
             else Some (Z.rem a b)
  | OpShl => if (0 <=? b) && (b <? 32) then Some (to_int32 (a * 2 ^ b)) else None
  | OpShr => if (0 <=? b) && (b <? 32) then Some (Z.shiftr a b) else None
  end.

(** What a reference [Value&] of the [INCREMENT] handler refers to: a
    stack slot, the value of an upvalue cell, a global, a field of an
    instance or an element of an array. *)
Inductive Place :=
| PlaceSlot (index : Z)
| PlaceCell (upval : Z)
| PlaceGlobal (index : Z)
| PlaceField (instance : Z) (name : string)
| PlaceElement (arr : Z) (index : Z).

Section Interpreter.
(** [STACK_MAX] and [FRAMES_MAX] are constants of headers that are not
    among the sources.  [bytecode] and [constants] are the VM's code
    block, which execution only reads.  [nativeMethods] is the method table
    of each builtin kind ([vm->nativeClasses]).  [fresh] is the allocator:
    the address [new] returns for the next object, given the memory in use.
    [runNative] runs a native stub on the thread with an argument count and
    gives the boolean it returns. *)
Variable STACK_MAX : Z.
Variable FRAMES_MAX : Z.
Variable bytecode : list Z.
Variable constants : list Value.
Variable nativeMethods : Builtin.t -> gmap string BuiltinMethod.
Variable fresh : gmap Z Obj -> Z.
Variable runNative : Z -> Z -> M bool.

Definition push (val : Value) : M unit := fun s =>
  if STACK_MAX <=? stackTop s then RuntimeError 1
  else Ok (tt, set_stack (stack s ++ [val]) s).

Definition pop : M Value := fun s =>
  match rev (stack s) with
  | v :: below => Ok (v, set_stack (rev below) s)
  | [] => Fault
  end.

Definition popn (n : Z) : M unit := fun s =>
  if (0 <=? n) && (n <=? stackTop s) then
    Ok (tt, set_stack (take (Z.to_nat (stackTop s - n)) (stack s)) s)
  else Fault.

Definition peek (depth : Z) : M Value :=
  s ← get; slot (stackTop s - 1 - depth).

(** [stackTop[-1 - depth] = v]. *)
Definition poke (depth : Z) (v : Value) : M unit :=
  s ← get; set_slot (stackTop s - 1 - depth) v.

(** [new T(...)]: the object is placed at the address the allocator
    returns. *)
Definition new_object (d : ObjData) : M Z := fun s =>
  let p := fresh (heap s) in
  Ok (p, set_heap (<[p := new d]> (heap s)) s).

Definition READ_BYTE : M Z := fun s =>
  if 0 <=? ip s then
    match bytecode !! Z.to_nat (ip s) with
    | Some b => Ok (b, set_ip (ip s + 1) s)
    | None => Fault
    end
  else Fault.

Definition READ_SHORT : M Z :=
  hi ← READ_BYTE; lo ← READ_BYTE;
  mret (Z.lor (Z.shiftl hi 8) lo mod 2 ^ 16).

Definition constant_at (i : Z) : M Value := fun s =>
  let k := constantOffset s + i in
  if 0 <=? k then
    match constants !! Z.to_nat k with Some c => Ok (c, s) | None => Fault end
  else Fault.

Definition READ_CONSTANT : M Value := i ← READ_BYTE; constant_at i.
Definition READ_CONSTANT_LONG : M Value := i ← READ_SHORT; constant_at i.

(** [asString(v)->str], [asClosure(v)], ...: the casts assume the kind. *)
Definition string_of (v : Value) : M string :=
  o ← deref (decodeObj v);
  match data o with ObjString str => mret str | _ => fault end.

Definition READ_STRING : M string := c ← READ_CONSTANT; string_of c.
Definition READ_STRING_LONG : M string := c ← READ_CONSTANT_LONG; string_of c.

(** *** Calls *)

Definition closure_of (p : Z) : M (Z * list Z) :=
  o ← deref p;
  match data o with ObjClosure f upvals => mret (f, upvals) | _ => fault end.

Definition function_arity (f : Z) : M (Z * Z) :=
  o ← deref f;
  match data o with
  | ObjFunc bytecodeOffset _ arity _ _ => mret (arity, bytecodeOffset)
  | _ => fault
  end.

Definition call (closure : Z) (argCount : Z) : M unit :=
  '(f, _) ← closure_of closure;
  '(arity, bytecodeOffset) ← function_arity f;
  if negb (argCount =? arity) then runtimeError 2
  else
    s ← get;
    if Z.of_nat (length (frames s)) =? FRAMES_MAX then runtimeError 1
    else
      modify (set_frames
                (frames s ++ [CallFrame.mk closure bytecodeOffset
                                           (stackTop s - argCount - 1)])).

(** What follows a native stub that returned [true]:
    [stackTop[-2] = stackTop[-1]; stackTop--]. *)
Definition collapse_receiver : M unit :=
  v ← peek 0; poke 1 v;; popn 1.

Definition callValue (callee : Value) (argCount : Z) : M unit :=
  if isObj callee then
    o ← deref (decodeObj callee);
    match data o with
    | ObjClosure _ _ => call (decodeObj callee) argCount
    | ObjNativeFunc native arity _ =>
        if negb (arity =? -1) && negb (argCount =? arity) then runtimeError 2
        else
          b ← runNative native argCount;
          if b : bool then collapse_receiver else mret tt
    | ObjBoundNativeFunc native arity _ receiver =>
        poke argCount receiver;;
        if negb (arity =? -1) && negb (argCount =? arity) then runtimeError 2
        else
          b ← runNative native argCount;
          if b : bool then collapse_receiver else mret tt
    | ObjClass name methods _ =>
        inst ← new_object (ObjInstance (decodeObj callee) ∅);
        poke argCount (encodeObj inst);;
        match methods !! name with
        | Some ctor => call (decodeObj ctor) argCount
        | None => if negb (argCount =? 0) then runtimeError 2 else mret tt
        end
    | ObjBoundMethod receiver method =>
        poke argCount receiver;;
        call method argCount
    | _ => runtimeError 3
    end
  else runtimeError 3.

(** [captureUpvalue(slotStart + index)]: a new cell takes the value of the
    slot, and the slot is overwritten with the cell. *)
Definition captureUpvalue (local : Z) : M Z :=
  v ← slot local;
  upval ← new_object (ObjUpval v);
  set_slot local (encodeObj upval);;
  mret upval.

Definition class_methods (klass : Z) : M (string * gmap string Value * Z) :=
  o ← deref klass;
  match data o with
  | ObjClass name methods super => mret (name, methods, super)
  | _ => fault
  end.

Definition instance_of (v : Value) : M (Z * gmap string Value) :=
  o ← deref (decodeObj v);
  match data o with
  | ObjInstance klass fields => mret (klass, fields)
  | _ => fault
  end.

Definition defineMethod (name : string) : M unit :=
  method ← peek 0;
  k ← peek 1;
  '(cname, methods, super) ← class_methods (decodeObj k);
  store (decodeObj k) (ObjClass cname (<[name := method]> methods) super);;
  _ ← pop; mret tt.

Definition bindMethod (klass : Z) (name : string) : M bool :=
  '(_, methods, _) ← class_methods klass;
  match methods !! name with
  | None => mret false
  | Some m =>
      receiver ← peek 0;
      bound ← new_object (ObjBoundMethod receiver (decodeObj m));
      poke 0 (encodeObj bound);;
      mret true
  end.

Definition invokeFromClass (klass : Z) (methodName : string) (argCount : Z) : M bool :=
  '(_, methods, _) ← class_methods klass;
  match methods !! methodName with
  | None => mret false
  | Some m => call (decodeObj m) argCount;; mret true
  end.

Definition builtin_of (receiver : Value) : M Builtin.t :=
  if isObj receiver then
    o ← deref (decodeObj receiver);
    mret match type o with
         | STRING => Builtin.STRING
         | ARRAY => Builtin.ARRAY
         | FILE => Builtin.FILE
         | MUTEX => Builtin.MUTEX
         | FUTURE => Builtin.FUTURE
         | _ => Builtin.COMMON
         end
  else mret Builtin.COMMON.

Definition findNativeMethod (receiver : Value) (name : string) : M BuiltinMethod :=
  t ← builtin_of receiver;
  match nativeMethods t !! name with
  | Some m => mret m
  | None => runtimeError 4
  end.

Definition invoke (fieldName : string) (argCount : Z) : M unit :=
  receiver ← peek argCount;
  is_inst ← isOfType INSTANCE receiver;
  handled ←
    (if is_inst : bool then
       '(klass, fields) ← instance_of receiver;
       match fields !! fieldName with
       | Some f => poke argCount f;; callValue f argCount;; mret true
       | None =>
           if negb (klass =? nullptr) then invokeFromClass klass fieldName argCount
           else mret false
       end
     else mret false);
  if handled : bool then mret tt
  else
    native ← findNativeMethod receiver fieldName;
    if negb (arity native =? -1) && negb (argCount =? arity native) then runtimeError 2
    else
      b ← runNative (func native) argCount;
      if b : bool then collapse_receiver else mret tt.

Definition bindMethodToPrimitive (receiver : Value) (methodName : string) : M unit :=
  m ← findNativeMethod receiver methodName;
  p ← new_object (ObjBoundNativeFunc (func m) (arity m) methodName receiver);
  push (encodeObj p).

(** [STORE_FRAME] and [LOAD_FRAME]. *)
Definition STORE_FRAME : M unit := fun s =>
  match frames s !! frame s with
  | Some f =>
      Ok (tt, set_frames (<[frame s := CallFrame.mk (CallFrame.closure f) (ip s)
                                          (CallFrame.slots f)]> (frames s)) s)
  | None => Fault
  end.

Definition LOAD_FRAME : M unit :=
  s ← get;
  match length (frames s) with
  | O => fault
  | S n =>
      f ← lift (frames s !! n);
      '(fn, _) ← closure_of (CallFrame.closure f);
      o ← deref fn;
      match data o with
      | ObjFunc _ constantsOffset _ _ _ =>
          modify (set_registers n (CallFrame.ip f) (CallFrame.slots f) constantsOffset)
      | _ => fault
      end
  end.

(** The closure of the frame the loop runs in, and its upvalue cells. *)
Definition frame_upvals : M (list Z) :=
  s ← get;
  f ← lift (frames s !! frame s);
  '(_, upvals) ← closure_of (CallFrame.closure f);
  mret upvals.

(** *** Opcode handlers

    Each handler is the body of its [case] in the dispatch loop, entered
    with [ip] just past the opcode byte. *)

Definition upvalue_of (v : Value) : M Value :=
  o ← deref (decodeObj v);
  match data o with ObjUpval val => mret val | _ => fault end.

Definition upvalue_at (p : Z) : M Value :=
  o ← deref p;
  match data o with ObjUpval val => mret val | _ => fault end.

Definition op_GET_LOCAL : M unit :=
  slot_ ← READ_BYTE;
  s ← get;
  val ← slot (slotStart s + slot_);
  is_up ← isOfType UPVALUE val;
  if is_up : bool then
    v ← upvalue_of val; push v
  else push val.

Definition op_SET_LOCAL : M unit :=
  slot_ ← READ_BYTE;
  s ← get;
  val ← slot (slotStart s + slot_);
  is_up ← isOfType UPVALUE val;
  top ← peek 0;
  if is_up : bool then store (decodeObj val) (ObjUpval top)
  else set_slot (slotStart s + slot_) top.

Definition op_GET_UPVALUE : M unit :=
  slot_ ← READ_BYTE;
  upvals ← frame_upvals;
  cell ← lift (upvals !! Z.to_nat slot_);
  v ← upvalue_at cell;
  push v.

Definition op_SET_UPVALUE : M unit :=
  slot_ ← READ_BYTE;
  upvals ← frame_upvals;
  cell ← lift (upvals !! Z.to_nat slot_);
  _ ← upvalue_at cell;
  top ← peek 0;
  store cell (ObjUpval top).

(** The loop of [CLOSURE] over the upvalue array of the new closure: each
    turn reads an [(isLocal, index)] pair. *)
Fixpoint closure_upvals (n : nat) : M (list Z) :=
  match n with
  | O => mret []
  | S n' =>
      isLocal ← READ_BYTE;
      index ← READ_BYTE;
      upval ←
        (if negb (isLocal =? 0) then
           s ← get; captureUpvalue (slotStart s + index)
         else
           upvals ← frame_upvals; lift (upvals !! Z.to_nat index));
      rest ← closure_upvals n';
      mret (upval :: rest)
  end.

(** [new ObjClosure(func)] sizes the upvalue array by
    [func->upvalueCount]; the closure is allocated before its cells. *)
Definition make_closure (fn : Value) : M unit :=
  o ← deref (decodeObj fn);
  match data o with
  | ObjFunc _ _ _ upvalueCount _ =>
      closure ← new_object (ObjClosure (decodeObj fn) []);
      upvals ← closure_upvals (Z.to_nat upvalueCount);
      store closure (ObjClosure (decodeObj fn) upvals);;
      push (encodeObj closure)
  | _ => fault
  end.

Definition op_CLOSURE : M unit := fn ← READ_CONSTANT; make_closure fn.
Definition op_CLOSURE_LONG : M unit := fn ← READ_CONSTANT_LONG; make_closure fn.

Definition op_POP : M unit := popn 1.

Definition op_LOAD_INT : M unit := b ← READ_BYTE; push (encodeInt b).

Definition op_GET_GLOBAL : M unit :=
  index ← READ_BYTE;
  s ← get;
  val ← lift (globals s !! Z.to_nat index);
  push val.

Definition op_JUMP : M unit :=
  offset ← READ_SHORT; modify (fun s => set_ip (ip s + offset) s).

(** The scan of [SWITCH] over the case constants, from case [i] on with
    [n] cases left: every turn reads one constant index. *)
Fixpoint switch_scan (read : M Value) (n : nat) (i : Z) (val : Value) : M (option Z) :=
  match n with
  | O => mret None
  | S n' =>
      c ← read;
      if val =? c then mret (Some i) else switch_scan read n' (i + 1) val
  end.

Definition switch_on (read : M Value) (width : Z) : M unit :=
  val ← pop;
  caseNum ← READ_SHORT;
  s ← get;
  let offset := ip s + caseNum * width in
  found ← switch_scan read (Z.to_nat caseNum) 0 val;
  let jumpOffset := match found with
                    | Some i => offset + i * 2
                    | None => offset + caseNum * 2
                    end in
  modify (set_ip jumpOffset);;
  jmp ← READ_SHORT;
  modify (fun s => set_ip (ip s + jmp) s).

Definition op_SWITCH : M unit := switch_on READ_CONSTANT 1.
Definition op_SWITCH_LONG : M unit := switch_on READ_CONSTANT_LONG 2.

Definition op_CALL : M unit :=
  argCount ← READ_BYTE;
  STORE_FRAME;;
  callee ← peek argCount;
  callValue callee argCount;;
  LOAD_FRAME.

(** [RETURN]; the answer is whether the thread has returned from its
    outermost frame (what a child thread does then, settling its future,
    is in [RETURN_on_thread]). *)
Definition op_RETURN : M bool :=
  result ← pop;
  s ← get;
  match length (frames s) with
  | O => fault
  | S n =>
      modify (set_frames (take n (frames s)));;
      if (n =? 0)%nat then mret true
      else
        modify (fun s => set_stack (take (Z.to_nat (slotStart s)) (stack s)) s);;
        push result;;
        LOAD_FRAME;;
        mret false
  end.

(** *** Arrays and structs *)

Definition array_of (v : Value) : M (list Value * Z) :=
  o ← deref (decodeObj v);
  match data o with
  | ObjArray values numOfHeapPtr => mret (values, numOfHeapPtr)
  | _ => fault
  end.

(** [checkArrayBounds].  [index] is an [int32_t] and [values.size() - 1] a
    [size_t]: the subtraction wraps at 64 bits and the comparison converts
    [index] to the unsigned type. *)
Definition checkArrayBounds (field callee : Value) (values : list Value) : M Z :=
  if negb (isInt field) then runtimeError 3
  else
    let index := decodeInt field in
    if (index <? 0) || ((Z.of_nat (length values) - 1) mod 2 ^ 64 <? index mod 2 ^ 64)
    then runtimeError 9
    else mret index.

Definition op_GET : M unit :=
  field ← pop;
  callee ← pop;
  is_arr ← isOfType ARRAY callee;
  if is_arr : bool then
    '(values, _) ← array_of callee;
    index ← checkArrayBounds field callee values;
    v ← lift (values !! Z.to_nat index);
    push v
  else
    is_inst ← isOfType INSTANCE callee;
    is_struct ← (if is_inst : bool then
                   '(klass, _) ← instance_of callee; mret (klass =? nullptr)
                 else mret false);
    if is_struct : bool then
      is_str ← isOfType STRING field;
      if negb is_str then runtimeError 3
      else
        '(_, fields) ← instance_of callee;
        name ← string_of field;
        match fields !! name with
        | Some v => push v
        | None => runtimeError 4
        end
    else runtimeError 3.

Definition op_SET : M unit :=
  field ← pop;
  callee ← pop;
  val ← peek 0;
  is_arr ← isOfType ARRAY callee;
  if is_arr : bool then
    '(values, numOfHeapPtr) ← array_of callee;
    index ← checkArrayBounds field callee values;
    old ← lift (values !! Z.to_nat index);
    let n := if isObj val && negb (isObj old) then numOfHeapPtr + 1
             else if negb (isObj val) && isObj old then numOfHeapPtr - 1
             else numOfHeapPtr in
    store (decodeObj callee) (ObjArray (<[Z.to_nat index := val]> values) n)
  else
    is_inst ← isOfType INSTANCE callee;
    is_struct ← (if is_inst : bool then
                   '(klass, _) ← instance_of callee; mret (klass =? nullptr)
                 else mret false);
    if is_struct : bool then
      is_str ← isOfType STRING field;
      if negb is_str then runtimeError 3
      else
        '(klass, fields) ← instance_of callee;
        str ← string_of field;
        store (decodeObj callee) (ObjInstance klass (<[str := val]> fields))
    else runtimeError 3.

Definition property_of (inst : Value) (name : string) : M unit :=
  is_inst ← isOfType INSTANCE inst;
  found ←
    (if is_inst : bool then
       '(klass, fields) ← instance_of inst;
       match fields !! name with
       | Some v => push v;; mret true
       | None =>
           if negb (klass =? nullptr) then bindMethod klass name else mret false
       end
     else mret false);
  if found : bool then mret tt else bindMethodToPrimitive inst name.

Definition op_GET_PROPERTY : M unit :=
  inst ← pop; name ← READ_STRING; property_of inst name.
Definition op_GET_PROPERTY_LONG : M unit :=
  inst ← pop; name ← READ_STRING_LONG; property_of inst name.

Definition set_property (read : M string) : M unit :=
  inst ← pop;
  is_inst ← isOfType INSTANCE inst;
  if negb is_inst then runtimeError 3
  else
    '(klass, fields) ← instance_of inst;
    name ← read;
    val ← peek 0;
    store (decodeObj inst) (ObjInstance klass (<[name := val]> fields)).

Definition op_SET_PROPERTY : M unit := set_property READ_STRING.
Definition op_SET_PROPERTY_LONG : M unit := set_property READ_STRING_LONG.

(** The loop of [CREATE_STRUCT]: every turn reads a field name and pops
    its value. *)
Fixpoint struct_fields (read : M string) (n : nat) (fields : gmap string Value)
    : M (gmap string Value) :=
  match n with
  | O => mret fields
  | S n' =>
      name ← read;
      v ← pop;
      struct_fields read n' (<[name := v]> fields)
  end.

Definition create_struct (read : M string) : M unit :=
  numOfFields ← READ_BYTE;
  inst ← new_object (ObjInstance nullptr ∅);
  fields ← struct_fields read (Z.to_nat numOfFields) ∅;
  store inst (ObjInstance nullptr fields);;
  push (encodeObj inst).

Definition op_CREATE_STRUCT : M unit := create_struct READ_STRING.
Definition op_CREATE_STRUCT_LONG : M unit := create_struct READ_STRING_LONG.

(** The loop of [CREATE_ARRAY], with [i] values still to pop: the value
    popped goes to index [i - 1]. *)
Fixpoint array_values (i : nat) (values : list Value) (numOfHeapPtr : Z)
    : M (list Value * Z) :=
  match i with
  | O => mret (values, numOfHeapPtr)
  | S i' =>
      val ← pop;
      array_values i' (<[i' := val]> values)
        (if isObj val then numOfHeapPtr + 1 else numOfHeapPtr)
  end.

Definition op_CREATE_ARRAY : M unit :=
  size ← READ_BYTE;
  arr ← new_object (ObjArray (replicate (Z.to_nat size) encodeNil) 0);
  '(values, n) ← array_values (Z.to_nat size) (replicate (Z.to_nat size) encodeNil) 0;
  store arr (ObjArray values n);;
  push (encodeObj arr).

Definition op_INHERIT : M unit :=
  superclass ← peek 1;
  is_class ← isOfType CLASS superclass;
  if negb is_class then runtimeError 3
  else
    sub ← peek 0;
    '(_, super_methods, _) ← class_methods (decodeObj superclass);
    '(name, methods, super) ← class_methods (decodeObj sub);
    store (decodeObj sub) (ObjClass name (super_methods ∪ methods) super).

Definition invoke_op (read : M string) : M unit :=
  argCount ← READ_BYTE;
  method ← read;
  STORE_FRAME;;
  invoke method argCount;;
  LOAD_FRAME.

Definition op_INVOKE : M unit := invoke_op READ_STRING.
Definition op_INVOKE_LONG : M unit := invoke_op READ_STRING_LONG.

Definition super_invoke_op (read : M string) : M unit :=
  argCount ← READ_BYTE;
  method ← read;
  superclass ← pop;
  STORE_FRAME;;
  found ← invokeFromClass (decodeObj superclass) method argCount;
  if negb found then runtimeError 4 else LOAD_FRAME.

Definition op_SUPER_INVOKE : M unit := super_invoke_op READ_STRING.
Definition op_SUPER_INVOKE_LONG : M unit := super_invoke_op READ_STRING_LONG.

Definition get_super_op (read : M string) : M unit :=
  name ← read;
  superclass ← pop;
  found ← bindMethod (decodeObj superclass) name;
  if negb found then runtimeError 4 else mret tt.

Definition op_GET_SUPER : M unit := get_super_op READ_STRING.
Definition op_GET_SUPER_LONG : M unit := get_super_op READ_STRING_LONG.

(** *** Constants, literals and the stack *)

Definition op_POPN : M unit := nToPop ← READ_BYTE; popn nToPop.

Definition op_CONSTANT : M unit := constant ← READ_CONSTANT; push constant.
Definition op_CONSTANT_LONG : M unit := constant ← READ_CONSTANT_LONG; push constant.
Definition op_NIL : M unit := push encodeNil.
Definition op_TRUE : M unit := push (encodeBool true).
Definition op_FALSE : M unit := push (encodeBool false).

(** *** Globals *)

Definition global_at (index : Z) : M Value :=
  s ← get; lift (globals s !! Z.to_nat index).

Definition set_global (index : Z) (v : Value) : M unit := fun s =>
  if (0 <=? index) && (index <? Z.of_nat (length (globals s))) then
    Ok (tt, set_globals (<[Z.to_nat index := v]> (globals s)) s)
  else Fault.

Definition op_DEFINE_GLOBAL : M unit :=
  index ← READ_BYTE; v ← pop; set_global index v.
Definition op_DEFINE_GLOBAL_LONG : M unit :=
  index ← READ_SHORT; v ← pop; set_global index v.
Definition op_GET_GLOBAL_LONG : M unit :=
  index ← READ_SHORT; val ← global_at index; push val.
Definition op_SET_GLOBAL : M unit :=
  index ← READ_BYTE; v ← peek 0; set_global index v.
Definition op_SET_GLOBAL_LONG : M unit :=
  index ← READ_SHORT; v ← peek 0; set_global index v.

(** *** Jumps *)

Definition jump_by (offset : Z) : M unit := modify (fun s => set_ip (ip s + offset) s).

Definition op_JUMP_IF_FALSE : M unit :=
  offset ← READ_SHORT; v ← peek 0;
  if isFalsey v then jump_by offset else mret tt.
Definition op_JUMP_IF_TRUE : M unit :=
  offset ← READ_SHORT; v ← peek 0;
  if negb (isFalsey v) then jump_by offset else mret tt.
Definition op_JUMP_IF_FALSE_POP : M unit :=
  offset ← READ_SHORT; v ← pop;
  if isFalsey v then jump_by offset else mret tt.
Definition op_LOOP_IF_TRUE : M unit :=
  offset ← READ_SHORT; v ← pop;
  if negb (isFalsey v) then jump_by (- offset) else mret tt.
Definition op_LOOP : M unit := offset ← READ_SHORT; jump_by (- offset).
Definition op_JUMP_POPN : M unit :=
  n ← READ_BYTE; popn n;; offset ← READ_SHORT; jump_by offset.

(** *** Arithmetic

    The arithmetic of [double] is that of the machine: [double_arith]
    stands for [+], [-], [*] and [/] on two doubles, [double_neg] for the
    unary [-] and [double_of_int] for the conversion of an integer, all on
    bit patterns.  [concat] stands for [Value(a->concat(b))], the value
    that [ADD] pushes for two strings ([ObjString::concat] is defined in
    [Objects/objects.cpp], which is not among the sources). *)
Variable double_arith : BinaryOp -> Z -> Z -> Z.
Variable double_neg : Z -> Z.
Variable double_of_int : Z -> Z.
Variable concat : Z -> Z -> M Value.

Definition as_double (v : Value) : Z :=
  if isInt v then double_of_int (decodeInt v) else decodeDouble v.

Definition BINARY_OP (op : BinaryOp) : M unit :=
  a ← peek 1;
  b ← peek 0;
  if negb (isNumber a) || negb (isNumber b) then runtimeError 3
  else
    (if isInt a && isInt b then
       res ← lift (int_arith op (decodeInt a) (decodeInt b));
       poke 1 (if (INT_MIN <=? res) && (res <=? INT_MAX) then encodeInt res
               else encodeDouble (double_of_int res))
     else poke 1 (encodeDouble (double_arith op (as_double a) (as_double b))));;
    popn 1.

Definition INT_BINARY_OP (op : IntBinaryOp) : M unit :=
  a ← peek 1;
  b ← peek 0;
  if negb (isInt a) || negb (isInt b) then runtimeError 3
  else
    res ← lift (int_bitwise op (decodeInt a) (decodeInt b));
    poke 1 (encodeInt res);;
    popn 1.

Definition op_ADD : M unit :=
  b ← peek 0;
  a ← peek 1;
  if isNumber b && isNumber a then BINARY_OP OpAdd
  else
    b_str ← isOfType STRING b;
    a_str ← (if b_str : bool then isOfType STRING a else mret false);
    if b_str && a_str then
      b ← pop; a ← pop;
      v ← concat (decodeObj a) (decodeObj b);
      push v
    else runtimeError 3.

Definition op_SUBTRACT : M unit := BINARY_OP OpSub.
Definition op_MULTIPLY : M unit := BINARY_OP OpMul.
Definition op_DIVIDE : M unit := BINARY_OP OpDiv.
Definition op_MOD : M unit := INT_BINARY_OP OpMod.
Definition op_BITWISE_XOR : M unit := INT_BINARY_OP OpXor.
Definition op_BITWISE_OR : M unit := INT_BINARY_OP OpOr.
Definition op_BITWISE_AND : M unit := INT_BINARY_OP OpAnd.
Definition op_BITSHIFT_LEFT : M unit := INT_BINARY_OP OpShl.
Definition op_BITSHIFT_RIGHT : M unit := INT_BINARY_OP OpShr.

Definition op_NEGATE : M unit :=
  val ← pop;
  if negb (isNumber val) then runtimeError 3
  else if isInt val then
    r ← lift (int_arith OpSub 0 (decodeInt val)); push (encodeInt r)
  else push (encodeDouble (double_neg (decodeDouble val))).

Definition op_NOT : M unit := v ← pop; push (encodeBool (isFalsey v)).

Definition op_BIN_NOT : M unit :=
  v ← peek 0;
  if negb (isNumber v) then runtimeError 3
  else if negb (isInt v) then runtimeError 3
  else poke 0 (encodeInt (Z.lnot (decodeInt v))).

(** *** Equality *)

Variable FLOAT_EQ : Value -> Value -> bool.
Variable toStringOther : gmap Z Obj -> ObjData -> string.

Definition equals_values (x y : Value) : M bool := fun s =>
  match equals FLOAT_EQ toStringOther (heap s) x y with
  | Ok r => Ok (r, s)
  | RuntimeError e => RuntimeError e
  | Fault => Fault
  end.

Definition op_EQUAL : M unit :=
  b ← pop; a ← pop; r ← equals_values a b; push (encodeBool r).
Definition op_NOT_EQUAL : M unit :=
  b ← pop; a ← pop; r ← equals_values a b; push (encodeBool (negb r)).

(** *** [INCREMENT] *)

Definition place_read (l : Place) : M Value :=
  match l with
  | PlaceSlot i => slot i
  | PlaceCell p => upvalue_at p
  | PlaceGlobal i => global_at i
  | PlaceField inst name =>
      o ← deref inst;
      match data o with
      | ObjInstance _ fields => lift (fields !! name)
      | _ => fault
      end
  | PlaceElement arr i =>
      o ← deref arr;
      match data o with
      | ObjArray values _ => if 0 <=? i then lift (values !! Z.to_nat i) else fault
      | _ => fault
      end
  end.

Definition place_write (l : Place) (v : Value) : M unit :=
  match l with
  | PlaceSlot i => set_slot i v
  | PlaceCell p => _ ← upvalue_at p; store p (ObjUpval v)
  | PlaceGlobal i => set_global i v
  | PlaceField inst name =>
      o ← deref inst;
      match data o with
      | ObjInstance klass fields =>
          if bool_decide (is_Some (fields !! name))
          then store inst (ObjInstance klass (<[name := v]> fields))
          else fault
      | _ => fault
      end
  | PlaceElement arr i =>
      o ← deref arr;
      match data o with
      | ObjArray values n =>
          if (0 <=? i) && (i <? Z.of_nat (length values))
          then store arr (ObjArray (<[Z.to_nat i := v]> values) n)
          else fault
      | _ => fault
      end
  end.

(** The lambda [add]. *)
Definition increment_add (x : Value) (y : Z) : M Value :=
  if isInt x then r ← lift (int_arith OpAdd (decodeInt x) y); mret (encodeInt r)
  else mret (encodeDouble (double_arith OpAdd (decodeDouble x) (double_of_int y))).

(** The lambda [tryIncrement] on the place [val] refers to. *)
Definition tryIncrement (isPrefix : bool) (sign : Z) (val : Place) : M unit :=
  x ← place_read val;
  if negb (isNumber x) then runtimeError 3
  else if isPrefix then
    x' ← increment_add x sign; place_write val x';; push x'
  else
    push x;; x' ← increment_add x sign; place_write val x'.

(** The field of an instance that [INCREMENT] is about to change. *)
Definition field_place (inst : Value) (name : string) : M Place :=
  '(_, fields) ← instance_of inst;
  match fields !! name with
  | Some _ => mret (PlaceField (decodeObj inst) name)
  | None => runtimeError 4
  end.

Definition op_INCREMENT : M unit :=
  arg ← READ_BYTE;
  let sign := if Z.land arg 1 =? 1 then 1 else -1 in
  let isPrefix := Z.land arg 2 =? 2 in
  let type := Z.shiftr arg 2 in
  if type =? 0 then
    slot_ ← READ_BYTE;
    s ← get;
    num ← slot (slotStart s + slot_);
    is_up ← isOfType UPVALUE num;
    if is_up : bool then tryIncrement isPrefix sign (PlaceCell (decodeObj num))
    else tryIncrement isPrefix sign (PlaceSlot (slotStart s + slot_))
  else if type =? 1 then
    slot_ ← READ_BYTE;
    upvals ← frame_upvals;
    cell ← lift (upvals !! Z.to_nat slot_);
    tryIncrement isPrefix sign (PlaceCell cell)
  else if type =? 2 then
    index ← READ_BYTE;
    tryIncrement isPrefix sign (PlaceGlobal index)
  else if type =? 3 then
    index ← READ_SHORT;
    tryIncrement isPrefix sign (PlaceGlobal (index mod 256))
  else if (type =? 4) || (type =? 5) then
    inst ← pop;
    is_inst ← isOfType INSTANCE inst;
    if negb is_inst then runtimeError 3
    else
      name ← (if type =? 4 then READ_STRING else READ_STRING_LONG);
      val ← field_place inst name;
      tryIncrement isPrefix sign val
  else if type =? 6 then
    field ← pop;
    callee ← pop;
    is_arr ← isOfType ARRAY callee;
    if is_arr : bool then
      '(values, _) ← array_of callee;
      index ← checkArrayBounds field callee values;
      tryIncrement isPrefix sign (PlaceElement (decodeObj callee) index)
    else
      is_inst ← isOfType INSTANCE callee;
      if negb is_inst then runtimeError 3
      else
        is_str ← isOfType STRING field;
        if negb is_str then runtimeError 3
        else
          name ← string_of field;
          val ← field_place callee name;
          tryIncrement isPrefix sign val
  else runtimeError 6.

(** *** Classes *)

(** [CLASS]: [new ObjClass(name)] has no methods and no superclass. *)
Definition op_CLASS : M unit :=
  name ← READ_STRING_LONG;
  klass ← new_object (ObjClass name ∅ nullptr);
  push (encodeObj klass).

Definition op_METHOD : M unit := name ← READ_STRING_LONG; defineMethod name.

(** *** Comparisons

    [double_compare] stands for the comparisons of two doubles that the
    four handlers make, on bit patterns: [valA > valB],
    [valA >= valB - DBL_EPSILON], [valA < valB] and
    [valA < valB + DBL_EPSILON]. *)
Inductive Comparison := CmpGreater | CmpGreaterEqual | CmpLess | CmpLessEqual.
Variable double_compare : Comparison -> Z -> Z -> bool.

(** The body the four handlers share but for the comparison. *)
Definition compare_numbers (cmp : Comparison) : M unit :=
  a ← peek 1;
  b ← peek 0;
  if negb (isNumber a) || negb (isNumber b) then runtimeError 3
  else
    poke 1 (encodeBool (double_compare cmp (as_double a) (as_double b)));;
    popn 1.

Definition op_GREATER : M unit := compare_numbers CmpGreater.
Definition op_GREATER_EQUAL : M unit := compare_numbers CmpGreaterEqual.
Definition op_LESS : M unit := compare_numbers CmpLess.
Definition op_LESS_EQUAL : M unit := compare_numbers CmpLessEqual.

(** [nativeFuncs] is the table [vm->nativeFuncs] of the native function
    objects; an index past its end is undefined. *)
Variable nativeFuncs : list Z.

Definition op_GET_NATIVE : M unit :=
  index ← READ_SHORT;
  f ← lift (nativeFuncs !! Z.to_nat index);
  push (encodeObj f).

(** *** Threads

    The thread objects are no heap objects, and the pool of child threads
    is a member of [VM] ([Runtime/vm.h], not among the sources); of
    [ObjFuture] ([Objects/objects.cpp], not among the sources) the code
    uses the constructor, [startParallelExecution] and the shared future
    [fut].  [newThread] is the address [new Thread(vm)] returns;
    [unsettled] is the value that the constructor of [ObjFuture] gives
    to [val]; [launch t child newFut] is what the registration of the
    thread object at [t], in the state [child], in [vm->childThreads] and
    [newFut->startParallelExecution()] do; [wait] is
    [futToAwait->fut.wait()]; [eraseChildThread t] is the search of
    [vm->childThreads] for the thread at [t], which deletes the thread
    and erases the entry when it finds it, and tells whether it did. *)
Variable newThread : M Z.
Variable unsettled : Value.
Variable launch : Z -> Machine -> Z -> M unit.
Variable wait : Z -> M unit.
Variable eraseChildThread : Z -> M bool.

(** [Thread::Thread]: an empty stack and no frames.  The globals and the
    heap are those of the VM; [frame], [ip], [slotStart] and
    [constantOffset] are locals of [executeBytecode], which the new
    thread has not entered, and are given as 0. *)
Definition new_Thread (s : Machine) : Machine :=
  {| stack := []; frames := []; frame := 0; ip := 0; slotStart := 0;
     constantOffset := 0; globals := globals s; heap := heap s |}.

(** A member function called on another thread [t]: it runs on the
    stack and the frames of [t], with the globals and the heap shared,
    and what it throws is thrown in the caller.  The answer comes with
    the state [t] is left in. *)
Definition on_thread {A} (t : Machine) (m : M A) : M (A * Machine) := fun s =>
  match m (set_globals (globals s) (set_heap (heap s) t)) with
  | Ok (a, t') => Ok ((a, t'), set_globals (globals t') (set_heap (heap t') s))
  | RuntimeError e => RuntimeError e
  | Fault => Fault
  end.

Definition copyVal (val : Value) : M unit := push val.

(** [startThread(otherStack, num)], with [values] the [num] slots from
    [otherStack] on: [memcpy] writes them above [stackTop] (past the end
    of the stack array when they do not fit), and the first of them is
    the callee. *)
Definition startThread (values : list Value) : M unit :=
  s ← get;
  if STACK_MAX <? stackTop s + Z.of_nat (length values) then fault
  else
    modify (set_stack (stack s ++ values));;
    callee ← lift (head values);
    callValue callee (Z.of_nat (length values) - 1).

Definition op_LAUNCH_ASYNC : M unit :=
  argCount ← READ_BYTE;
  t ← newThread;
  newFut ← new_object (ObjFuture t unsettled);
  s ← get;
  let otherStack := stackTop s - 1 - argCount in
  if otherStack <? 0 then fault
  else
    '(_, child) ← on_thread (new_Thread s)
                    (copyVal (encodeObj newFut);;
                     startThread (drop (Z.to_nat otherStack) (stack s)));
    popn (argCount + 1);;
    launch t child newFut;;
    push (encodeObj newFut).

(** The lambda [deleteThread]: when the thread of the future is in the
    pool it is deleted and the future forgets it. *)
Definition deleteThread (_fut : Z) : M unit :=
  o ← deref _fut;
  match data o with
  | ObjFuture thread val =>
      found ← eraseChildThread thread;
      if found : bool then
        o' ← deref _fut;
        match data o' with
        | ObjFuture _ val' => store _fut (ObjFuture nullptr val')
        | _ => fault
        end
      else mret tt
  | _ => fault
  end.

Definition op_AWAIT : M unit :=
  val ← pop;
  is_fut ← isOfType FUTURE val;
  if negb is_fut then runtimeError 3
  else
    wait (decodeObj val);;
    deleteThread (decodeObj val);;
    o ← deref (decodeObj val);
    match data o with
    | ObjFuture _ v => push v
    | _ => fault
    end.

(** *** The dispatch

    [fut] is the local of [executeBytecode] of that name: the future in
    slot 0 of the thread's stack, null on the main thread. *)
Variable fut : Z.

(** [fut->val = val]. *)
Definition settle (val : Value) : M unit :=
  o ← deref fut;
  match data o with
  | ObjFuture thread _ => store fut (ObjFuture thread val)
  | _ => fault
  end.

(** [RETURN] on any thread: a child thread that returns from its
    outermost frame settles its future with the result, which [RETURN]
    popped, and deletes itself. *)
Definition RETURN_on_thread : M bool :=
  result ← peek 0;
  ended ← op_RETURN;
  if ended && negb (fut =? nullptr) then
    settle result;; deleteThread fut;; mret true
  else mret ended.

(** The [switch] of the loop, entered with [ip] just past the opcode
    byte: the body of the opcode's [case].  The answer is whether the
    loop ends there, which only [RETURN] does; every other body ends in
    [DISPATCH()]. *)
Definition DISPATCH (body : M unit) : M bool := body;; mret false.

Definition execute (op : OpCode.t) : M bool :=
  match op with
  | OpCode.POP => DISPATCH op_POP
  | OpCode.POPN => DISPATCH op_POPN
  | OpCode.LOAD_INT => DISPATCH op_LOAD_INT
  | OpCode.CONSTANT => DISPATCH op_CONSTANT
  | OpCode.CONSTANT_LONG => DISPATCH op_CONSTANT_LONG
  | OpCode.NIL => DISPATCH op_NIL
  | OpCode.TRUE => DISPATCH op_TRUE
  | OpCode.FALSE => DISPATCH op_FALSE
  | OpCode.NEGATE => DISPATCH op_NEGATE
  | OpCode.NOT => DISPATCH op_NOT
  | OpCode.BIN_NOT => DISPATCH op_BIN_NOT
  | OpCode.INCREMENT => DISPATCH op_INCREMENT
  | OpCode.BITWISE_XOR => DISPATCH op_BITWISE_XOR
  | OpCode.BITWISE_OR => DISPATCH op_BITWISE_OR
  | OpCode.BITWISE_AND => DISPATCH op_BITWISE_AND
  | OpCode.ADD => DISPATCH op_ADD
  | OpCode.SUBTRACT => DISPATCH op_SUBTRACT
  | OpCode.MULTIPLY => DISPATCH op_MULTIPLY
  | OpCode.DIVIDE => DISPATCH op_DIVIDE
  | OpCode.MOD => DISPATCH op_MOD
  | OpCode.BITSHIFT_LEFT => DISPATCH op_BITSHIFT_LEFT
  | OpCode.BITSHIFT_RIGHT => DISPATCH op_BITSHIFT_RIGHT
  | OpCode.EQUAL => DISPATCH op_EQUAL
  | OpCode.NOT_EQUAL => DISPATCH op_NOT_EQUAL
  | OpCode.GREATER => DISPATCH op_GREATER
  | OpCode.GREATER_EQUAL => DISPATCH op_GREATER_EQUAL
  | OpCode.LESS => DISPATCH op_LESS
  | OpCode.LESS_EQUAL => DISPATCH op_LESS_EQUAL
  | OpCode.GET_NATIVE => DISPATCH op_GET_NATIVE
  | OpCode.DEFINE_GLOBAL => DISPATCH op_DEFINE_GLOBAL
  | OpCode.DEFINE_GLOBAL_LONG => DISPATCH op_DEFINE_GLOBAL_LONG
  | OpCode.GET_GLOBAL => DISPATCH op_GET_GLOBAL
  | OpCode.GET_GLOBAL_LONG => DISPATCH op_GET_GLOBAL_LONG
  | OpCode.SET_GLOBAL => DISPATCH op_SET_GLOBAL
  | OpCode.SET_GLOBAL_LONG => DISPATCH op_SET_GLOBAL_LONG
  | OpCode.GET_LOCAL => DISPATCH op_GET_LOCAL
  | OpCode.SET_LOCAL => DISPATCH op_SET_LOCAL
  | OpCode.GET_UPVALUE => DISPATCH op_GET_UPVALUE
  | OpCode.SET_UPVALUE => DISPATCH op_SET_UPVALUE
  | OpCode.JUMP => DISPATCH op_JUMP
  | OpCode.JUMP_IF_FALSE => DISPATCH op_JUMP_IF_FALSE
  | OpCode.JUMP_IF_TRUE => DISPATCH op_JUMP_IF_TRUE
  | OpCode.JUMP_IF_FALSE_POP => DISPATCH op_JUMP_IF_FALSE_POP
  | OpCode.LOOP_IF_TRUE => DISPATCH op_LOOP_IF_TRUE
  | OpCode.LOOP => DISPATCH op_LOOP
  | OpCode.JUMP_POPN => DISPATCH op_JUMP_POPN
  | OpCode.SWITCH => DISPATCH op_SWITCH
  | OpCode.SWITCH_LONG => DISPATCH op_SWITCH_LONG
  | OpCode.CALL => DISPATCH op_CALL
  | OpCode.RETURN => RETURN_on_thread
  | OpCode.CLOSURE => DISPATCH op_CLOSURE
  | OpCode.CLOSURE_LONG => DISPATCH op_CLOSURE_LONG
  | OpCode.LAUNCH_ASYNC => DISPATCH op_LAUNCH_ASYNC
  | OpCode.AWAIT => DISPATCH op_AWAIT
  | OpCode.CREATE_ARRAY => DISPATCH op_CREATE_ARRAY
  | OpCode.GET => DISPATCH op_GET
  | OpCode.SET => DISPATCH op_SET
  | OpCode.CLASS => DISPATCH op_CLASS
  | OpCode.GET_PROPERTY => DISPATCH op_GET_PROPERTY
  | OpCode.GET_PROPERTY_LONG => DISPATCH op_GET_PROPERTY_LONG
  | OpCode.SET_PROPERTY => DISPATCH op_SET_PROPERTY
  | OpCode.SET_PROPERTY_LONG => DISPATCH op_SET_PROPERTY_LONG
  | OpCode.CREATE_STRUCT => DISPATCH op_CREATE_STRUCT
  | OpCode.CREATE_STRUCT_LONG => DISPATCH op_CREATE_STRUCT_LONG
  | OpCode.METHOD => DISPATCH op_METHOD
  | OpCode.INVOKE => DISPATCH op_INVOKE
  | OpCode.INVOKE_LONG => DISPATCH op_INVOKE_LONG
  | OpCode.INHERIT => DISPATCH op_INHERIT
  | OpCode.GET_SUPER => DISPATCH op_GET_SUPER
  | OpCode.GET_SUPER_LONG => DISPATCH op_GET_SUPER_LONG
  | OpCode.SUPER_INVOKE => DISPATCH op_SUPER_INVOKE
  | OpCode.SUPER_INVOKE_LONG => DISPATCH op_SUPER_INVOKE_LONG
  end.

End Interpreter.
End Thread.

(** ** Compiler ([codegen/compiler.cpp]) *)

Module Compiler.
Import ValueHelpers Objects.

(** [COMPILER_USE_LONG_INSTRUCTION] is not defined. *)
Definition SHORT_CONSTANT_LIMIT : Z := 255.
Definition UINT16_MAX : Z := 65535.

(** Modelled from the spec: [Chunk] of [codegenDefs.h] (not among the
    sources), an append-only byte array and a parallel constant array;
    [addConstant] appends and returns the index.  The line table is left
    out. *)
Record Chunk := mkChunk { bytecode : list Z; constants : list Value }.

(** What the functions below touch of the compiler: the chunk of the
    function being compiled, the globals array with its [defined] bits,
    the memory of the objects created at compile time and the number of
    diagnostics reported so far. *)
Record Compiler := mkCompiler {
  chunk : Chunk;
  globals : list (string * Value);
  definedGlobals : list bool;
  heap : gmap Z Obj;
  reported : nat;
}.

Definition set_chunk (c : Chunk) (s : Compiler) : Compiler :=
  {| chunk := c; globals := globals s; definedGlobals := definedGlobals s;
     heap := heap s; reported := reported s |}.
Definition set_globals (g : list (string * Value)) (s : Compiler) : Compiler :=
  {| chunk := chunk s; globals := g; definedGlobals := definedGlobals s;
     heap := heap s; reported := reported s |}.
Definition set_definedGlobals (d : list bool) (s : Compiler) : Compiler :=
  {| chunk := chunk s; globals := globals s; definedGlobals := d;
     heap := heap s; reported := reported s |}.
Definition set_heap (h : gmap Z Obj) (s : Compiler) : Compiler :=
  {| chunk := chunk s; globals := globals s; definedGlobals := definedGlobals s;
     heap := h; reported := reported s |}.
Definition set_reported (n : nat) (s : Compiler) : Compiler :=
  {| chunk := chunk s; globals := globals s; definedGlobals := definedGlobals s;
     heap := heap s; reported := n |}.

(** A visit returns, throws [CompilerException] after reporting, or
    indexes a vector out of range. *)
Inductive Outcome (A : Type) :=
| Done (a : A) (s : Compiler)
| Thrown (s : Compiler)
| Undefined.
Arguments Done {A} a s.
Arguments Thrown {A} s.
Arguments Undefined {A}.

Definition C (A : Type) : Type := Compiler -> Outcome A.

#[export] Instance C_ret : MRet C := fun A a s => Done a s.
#[export] Instance C_bind : MBind C := fun A B k c s =>
  match c s with
  | Done a s' => k a s'
  | Thrown s' => Thrown s'
  | Undefined => Undefined
  end.

Definition get : C Compiler := fun s => Done s s.
Definition modify (f : Compiler -> Compiler) : C unit := fun s => Done tt (f s).
Definition undefined {A} : C A := fun _ => Undefined.
Definition lift {A} (o : option A) : C A :=
  match o with Some a => mret a | None => undefined end.

(** [error]: the diagnostic goes to the error handler, then the exception
    is thrown. *)
Definition error {A} : C A := fun s => Thrown (set_reported (S (reported s)) s).

(** [try { body } catch (CompilerException e) {}]. *)
Definition try_catch {A} (body : C A) : C (option A) := fun s =>
  match body s with
  | Done a s' => Done (Some a) s'
  | Thrown s' => Done None s'
  | Undefined => Undefined
  end.

Definition size : C Z := s ← get; mret (Z.of_nat (length (bytecode (chunk s)))).

Definition emitByte (byte : Z) : C unit :=
  modify (fun s => set_chunk (mkChunk (bytecode (chunk s) ++ [byte mod 256])
                                      (constants (chunk s))) s).

Definition emitBytes (byte1 byte2 : Z) : C unit := emitByte byte1;; emitByte byte2.

(** Big endian. *)
Definition emit16Bit (number : Z) : C unit :=
  emitBytes (Z.land (Z.shiftr number 8) 0xff) (Z.land number 0xff).

Definition emitByteAnd16Bit (byte num : Z) : C unit := emitByte byte;; emit16Bit num.

Definition addConstant (value : Value) : C Z := fun s =>
  Done (Z.of_nat (length (constants (chunk s))))
       (set_chunk (mkChunk (bytecode (chunk s)) (constants (chunk s) ++ [value])) s).

Definition makeConstant (value : Value) : C Z :=
  constant ← addConstant value;
  if UINT16_MAX <? constant then error else mret constant.

Definition emitJump (jumpType : Z) : C Z :=
  emitByte jumpType;; emitBytes 0xff 0xff;;
  n ← size; mret (n - 2).

Definition set_byte (offset : Z) (byte : Z) : C unit := fun s =>
  if (0 <=? offset) && (offset <? Z.of_nat (length (bytecode (chunk s)))) then
    Done tt (set_chunk (mkChunk (<[Z.to_nat offset := byte mod 256]> (bytecode (chunk s)))
                                (constants (chunk s))) s)
  else Undefined.

Definition patchJump (offset : Z) : C unit :=
  n ← size;
  let jump := n - offset - 2 in
  if UINT16_MAX <? jump then error
  else
    set_byte offset (Z.land (Z.shiftr jump 8) 0xff);;
    set_byte (offset + 1) (Z.land jump 0xff).

Definition new_object (fresh : gmap Z Obj -> Z) (d : ObjData) : C Z := fun s =>
  let p := fresh (heap s) in Done p (set_heap (<[p := new d]> (heap s)) s).

(** *** Switch statements *)

(** The token of a case constant.  A number carries the value that
    [encodeNumber(std::stod(lexeme))] gives it ([encodeNumber] is not
    among the sources); [LitOther] is any other token. *)
Inductive Literal :=
| LitNumber (encoded : Value)
| LitTrue
| LitFalse
| LitNil
| LitString (contents : string)
| LitOther.

(** A case: whether its keyword is [default], its constants, and what
    compiling its statements in a scope of their own appends to the chunk.
    Scope jumps ([break] and [advance] inside the statements, which
    [patchScopeJumps] rewrites in place inside [body]) are left out. *)
Record CaseStmt := mkCase {
  isDefault : bool;
  caseConstants : list Literal;
  body : list Z;
  bodyConstants : list Value;
}.

Record SwitchStmt := mkSwitch {
  expr : list Z;
  cases : list CaseStmt;
  hasDefault : bool;
}.

Section Emit.
(** The numbers of the opcodes are fixed by an enumeration that is not
    among the sources; [fresh] is the allocator. *)
Variable OP_SWITCH : Z.
Variable OP_SWITCH_LONG : Z.
Variable OP_JUMP : Z.
Variable fresh : gmap Z Obj -> Z.

Definition literal_value (l : Literal) : C Value :=
  match l with
  | LitNumber v => mret v
  | LitTrue => mret (encodeBool true)
  | LitFalse => mret (encodeBool false)
  | LitNil => mret encodeNil
  | LitString temp => p ← new_object fresh (ObjString temp); mret (encodeObj p)
  | LitOther => error
  end.

(** The loop over the constants of one case. *)
Fixpoint case_constants (tokens : list Literal) (acc : list Z * bool) : C (list Z * bool) :=
  match tokens with
  | [] => mret acc
  | constant :: rest =>
      r ← try_catch (val ← literal_value constant; makeConstant val);
      match r with
      | Some c => case_constants rest (acc.1 ++ [c], acc.2 || (SHORT_CONSTANT_LIMIT <? c))
      | None => case_constants rest acc
      end
  end.

Fixpoint switch_constants (cs : list CaseStmt) (acc : list Z * bool) : C (list Z * bool) :=
  match cs with
  | [] => mret acc
  | c :: rest => acc' ← case_constants (caseConstants c) acc; switch_constants rest acc'
  end.

Fixpoint emit_all (emit : Z -> C unit) (l : list Z) : C unit :=
  match l with
  | [] => mret tt
  | x :: rest => emit x;; emit_all emit rest
  end.

(** [n] times: remember the position and emit a placeholder.  The
    positions go into a [vector<uint16_t>], which keeps their low 16
    bits. *)
Fixpoint jump_slots (n : nat) (jumps : list Z) : C (list Z) :=
  match n with
  | O => mret jumps
  | S n' => pos ← size; emit16Bit 0xffff;; jump_slots n' (jumps ++ [pos mod 2 ^ 16])
  end.

(** The loop that patches the jump of every constant of a case. *)
Fixpoint patch_case (constantNum : nat) (jumps : list Z) (i : nat) : C nat :=
  match constantNum with
  | O => mret i
  | S n' => j ← lift (jumps !! i); patchJump j;; patch_case n' jumps (S i)
  end.

Definition emit_body (c : CaseStmt) : C unit :=
  emit_all emitByte (body c);;
  modify (fun s => set_chunk (mkChunk (bytecode (chunk s))
                                      (constants (chunk s) ++ bodyConstants c)) s).

Fixpoint switch_cases (cs : list CaseStmt) (jumps : list Z) (i : nat)
    (implicitBreaks : list Z) : C (list Z) :=
  match cs with
  | [] => mret implicitBreaks
  | c :: rest =>
      i' ← (if isDefault c then
              j ← lift (jumps !! (length jumps - 1)%nat); patchJump j;; mret i
            else patch_case (length (caseConstants c)) jumps i);
      emit_body c;;
      b ← emitJump OP_JUMP;
      switch_cases rest jumps i' (implicitBreaks ++ [b])
  end.

(** [visitSwitchStmt].  The position of the default jump goes into the
    same [vector<uint16_t>] as the others.  When the statement has no
    default case the source assigns the current size to the last element
    of that local vector; nothing reads the vector afterwards and the
    chunk is not touched. *)
Definition visitSwitchStmt (stmt : SwitchStmt) : C unit :=
  emit_all emitByte (expr stmt);;
  '(constants, isLong) ← switch_constants (cases stmt) ([], false);
  (if isLong : bool then
     emitByteAnd16Bit OP_SWITCH_LONG (Z.of_nat (length constants));;
     emit_all emit16Bit constants
   else
     emitByteAnd16Bit OP_SWITCH (Z.of_nat (length constants));;
     emit_all emitByte constants);;
  jumps ← jump_slots (length constants) [];
  pos ← size;
  let jumps := jumps ++ [pos mod 2 ^ 16] in
  emit16Bit 0xffff;;
  implicitBreaks ← switch_cases (cases stmt) jumps 0 [];
  end_ ← size;
  let jumps := if negb (hasDefault stmt)
               then <[(length jumps - 1)%nat := end_ mod 2 ^ 16]> jumps else jumps in
  emit_all patchJump implicitBreaks.

(** *** Constants, loops and struct literals *)

Variable OP_CONSTANT : Z.
Variable OP_CONSTANT_LONG : Z.
Variable OP_LOOP_IF_TRUE : Z.
Variable OP_CREATE_STRUCT : Z.
Variable OP_CREATE_STRUCT_LONG : Z.

Definition emitConstant (value : Value) : C unit :=
  constant ← makeConstant value;
  if constant <=? SHORT_CONSTANT_LIMIT then emitBytes OP_CONSTANT constant
  else emitByteAnd16Bit OP_CONSTANT_LONG constant.

Definition emitLoop (start : Z) : C unit :=
  emitByte OP_LOOP_IF_TRUE;;
  n ← size;
  let offset := n - start + 2 in
  if UINT16_MAX <? offset then error else emit16Bit offset.

Definition identifierConstant (name : string) : C Z :=
  p ← new_object fresh (ObjString name);
  makeConstant (encodeObj p).

(** An entry of a struct literal: the name of the field and what
    compiling its expression appends to the chunk. *)
Record StructEntry := mkStructEntry {
  entryName : string;
  entryCode : list Z;
  entryConstants : list Value;
}.

Definition emit_entry (e : StructEntry) : C unit :=
  emit_all emitByte (entryCode e);;
  modify (fun s => set_chunk (mkChunk (bytecode (chunk s))
                                      (constants (chunk s) ++ entryConstants e)) s).

(** The loop over the fields of a struct literal. *)
Fixpoint struct_entries (fields : list StructEntry) (acc : list Z * bool)
    : C (list Z * bool) :=
  match fields with
  | [] => mret acc
  | entry :: rest =>
      emit_entry entry;;
      num ← identifierConstant (entryName entry);
      struct_entries rest (acc.1 ++ [num], acc.2 || (SHORT_CONSTANT_LIMIT <? num))
  end.

Definition visitStructLiteralExpr (fields : list StructEntry) : C unit :=
  '(constants, isLong) ← struct_entries fields ([], false);
  if negb isLong then
    emitBytes OP_CREATE_STRUCT (Z.of_nat (length constants));;
    emit_all emitByte (rev constants)
  else
    emitBytes OP_CREATE_STRUCT_LONG (Z.of_nat (length constants));;
    emit_all emit16Bit (rev constants).

End Emit.
(** *** Class declarations *)

(** A class declaration after name resolution: the slot [parseVar] gives
    the class, whether it inherits and what [resolveGlobal] (or
    [resolveModuleVariable]) answered for the inherited name ([-1]: not
    declared, [-2]: not yet initialised), and for every method its name
    and the closure that [method] compiled for it. *)
Record ClassDecl := mkClassDecl {
  className : string;
  index : Z;
  inherits : bool;
  resolved : Z;
  methods : list (string * Z);
}.

Section Classes.
Variable fresh : gmap Z Obj -> Z.

Definition isClass (v : Value) : C bool := fun s =>
  match isObjOfType (heap s) CLASS v with
  | Ok b => Done b s
  | _ => Undefined
  end.

Definition defineVar (index : Z) : C unit := fun s =>
  if (0 <=? index) && (index <? Z.of_nat (length (definedGlobals s))) then
    Done tt (set_definedGlobals (<[Z.to_nat index := true]> (definedGlobals s)) s)
  else Undefined.

Definition global_at (index : Z) : C (string * Value) := fun s =>
  if 0 <=? index then
    match globals s !! Z.to_nat index with
    | Some g => Done g s
    | None => Undefined
    end
  else Undefined.

(** [klass->methods.insert_or_assign(name, encodeObj(method(m, className)))]. *)
Definition add_method (klass : Z) (m : string * Z) : C unit := fun s =>
  match heap s !! klass with
  | Some o =>
      match data o with
      | ObjClass name methods super =>
          Done tt (set_heap (<[klass := set_data o
                                 (ObjClass name (<[m.1 := encodeObj m.2]> methods) super)]>
                               (heap s)) s)
      | _ => Undefined
      end
  | None => Undefined
  end.

Fixpoint add_methods (klass : Z) (ms : list (string * Z)) : C unit :=
  match ms with
  | [] => mret tt
  | m :: rest => add_method klass m;; add_methods klass rest
  end.

(** [visitClassDecl].  The superclass found is kept in [currentClass] for
    the [super] expressions of the methods; the class object is built from
    the name and the declaration's own methods. *)
Definition visitClassDecl (decl : ClassDecl) : C unit :=
  klass ← new_object fresh (ObjClass (className decl) ∅ nullptr);
  (if inherits decl then
     (if resolved decl =? -1 then error
      else if resolved decl =? -2 then error
      else mret tt);;
     '(_, val) ← global_at (resolved decl);
     is_class ← isClass val;
     if negb is_class then error else mret tt
   else mret tt);;
  defineVar (index decl);;
  add_methods klass (methods decl);;
  '(name, _) ← global_at (index decl);
  modify (fun s => set_globals (<[Z.to_nat (index decl) := (name, encodeObj klass)]>
                                  (globals s)) s).

End Classes.

End Compiler.

(** ** Locals, scopes and upvalues of the compiler ([codegen/compiler.cpp]) *)

Module Scopes.

(** Modelled from the spec: [Local] and [Upvalue] of [codegen/compiler.h]
    (not among the sources).  A local whose depth is [-1] has been
    declared and not yet initialised. *)
Record Local := mkLocal { name : string; depth : Z; isCaptured : bool }.
Record Upvalue := mkUpvalue { index : Z; isLocal : bool }.

(** Modelled from the spec: the members of [CurrentChunkInfo] that the
    functions below use: the array of locals with the number in use, the
    scope depth, the array of upvalues with the number in use (kept in
    [func->upvalueCount]) and the bytes of the chunk. *)
Record CurrentChunkInfo := mkInfo {
  locals : list Local;
  localCount : Z;
  scopeDepth : Z;
  upvalues : list Upvalue;
  upvalueCount : Z;
  hasCapturedLocals : bool;
  bytecode : list Z;
}.

(** The compiler: the info of the function being compiled, the infos
    that enclose it from the inside out ([current->enclosing] and so on)
    and the number of diagnostics reported. *)
Record Compiler := mkCompiler {
  current : CurrentChunkInfo;
  enclosing : list CurrentChunkInfo;
  reported : nat;
}.

Definition set_locals (v : list Local) (f : CurrentChunkInfo) : CurrentChunkInfo :=
  {| locals := v; localCount := localCount f; scopeDepth := scopeDepth f;
     upvalues := upvalues f; upvalueCount := upvalueCount f;
     hasCapturedLocals := hasCapturedLocals f; bytecode := bytecode f |}.
Definition set_localCount (v : Z) (f : CurrentChunkInfo) : CurrentChunkInfo :=
  {| locals := locals f; localCount := v; scopeDepth := scopeDepth f;
     upvalues := upvalues f; upvalueCount := upvalueCount f;
     hasCapturedLocals := hasCapturedLocals f; bytecode := bytecode f |}.
Definition set_scopeDepth (v : Z) (f : CurrentChunkInfo) : CurrentChunkInfo :=
  {| locals := locals f; localCount := localCount f; scopeDepth := v;
     upvalues := upvalues f; upvalueCount := upvalueCount f;
     hasCapturedLocals := hasCapturedLocals f; bytecode := bytecode f |}.
Definition set_upvalues (v : list Upvalue) (n : Z) (f : CurrentChunkInfo)
    : CurrentChunkInfo :=
  {| locals := locals f; localCount := localCount f; scopeDepth := scopeDepth f;
     upvalues := v; upvalueCount := n;
     hasCapturedLocals := hasCapturedLocals f; bytecode := bytecode f |}.
Definition set_hasCapturedLocals (v : bool) (f : CurrentChunkInfo) : CurrentChunkInfo :=
  {| locals := locals f; localCount := localCount f; scopeDepth := scopeDepth f;
     upvalues := upvalues f; upvalueCount := upvalueCount f;
     hasCapturedLocals := v; bytecode := bytecode f |}.
Definition set_bytecode (v : list Z) (f : CurrentChunkInfo) : CurrentChunkInfo :=
  {| locals := locals f; localCount := localCount f; scopeDepth := scopeDepth f;
     upvalues := upvalues f; upvalueCount := upvalueCount f;
     hasCapturedLocals := hasCapturedLocals f; bytecode := v |}.

(** A function returns, throws [CompilerException] after reporting, or
    indexes an array out of range. *)
Inductive Outcome (A : Type) :=
| Done (a : A) (s : Compiler)
| Thrown (s : Compiler)
| Undefined.
Arguments Done {A} a s.
Arguments Thrown {A} s.
Arguments Undefined {A}.

Definition C (A : Type) : Type := Compiler -> Outcome A.

#[export] Instance C_ret : MRet C := fun A a s => Done a s.
#[export] Instance C_bind : MBind C := fun A B k c s =>
  match c s with
  | Done a s' => k a s'
  | Thrown s' => Thrown s'
  | Undefined => Undefined
  end.

Definition get : C Compiler := fun s => Done s s.
Definition undefined {A} : C A := fun _ => Undefined.
Definition lift {A} (o : option A) : C A :=
  match o with Some a => mret a | None => undefined end.
Definition error {A} : C A := fun s =>
  Thrown {| current := current s; enclosing := enclosing s;
            reported := S (reported s) |}.

(** The info [func] steps out from [current]: the step to [func->enclosing]
    is the successor. *)
Definition info_at (func : nat) : C CurrentChunkInfo := fun s =>
  match func with
  | O => Done (current s) s
  | S k => match enclosing s !! k with Some f => Done f s | None => Undefined end
  end.

Definition set_info_at (func : nat) (f : CurrentChunkInfo) : C unit := fun s =>
  match func with
  | O => Done tt {| current := f; enclosing := enclosing s; reported := reported s |}
  | S k =>
      if bool_decide (k < length (enclosing s))%nat then
        Done tt {| current := current s; enclosing := <[k := f]> (enclosing s);
                   reported := reported s |}
      else Undefined
  end.

Definition modify_current (g : CurrentChunkInfo -> CurrentChunkInfo) : C unit :=
  f ← info_at 0; set_info_at 0 (g f).

Definition local_at (f : CurrentChunkInfo) (i : Z) : C Local :=
  if 0 <=? i then lift (locals f !! Z.to_nat i) else undefined.

Section Limits.
(** [LOCAL_MAX] and [UPVAL_MAX] are constants of [codegen/compiler.h], and
    the numbers of the opcodes are fixed by an enumeration: none of them
    is among the sources. *)
Variable LOCAL_MAX : Z.
Variable UPVAL_MAX : Z.
Variable OP_POP : Z.
Variable OP_POPN : Z.

Definition emitByte (byte : Z) : C unit :=
  modify_current (fun f => set_bytecode (bytecode f ++ [byte mod 256]) f).
Definition emitBytes (byte1 byte2 : Z) : C unit := emitByte byte1;; emitByte byte2.
Definition emit16Bit (number : Z) : C unit :=
  emitBytes (Z.land (Z.shiftr number 8) 0xff) (Z.land number 0xff).
Definition emitByteAnd16Bit (byte num : Z) : C unit := emitByte byte;; emit16Bit num.

Definition addLocal (name_ : string) : C unit :=
  f ← info_at 0;
  if localCount f =? LOCAL_MAX then error
  else
    local ← local_at f (localCount f);
    set_info_at 0 (set_localCount (localCount f + 1)
                     (set_locals (<[Z.to_nat (localCount f) :=
                                      mkLocal name_ (-1) (isCaptured local)]> (locals f)) f)).

(** The loop of [declareVar], about to look at the local [i - 1]. *)
Fixpoint declared_in_scope (f : CurrentChunkInfo) (name_ : string) (i : nat) : C unit :=
  match i with
  | O => mret tt
  | S i' =>
      local ← lift (locals f !! i');
      if negb (depth local =? -1) && (depth local <? scopeDepth f) then mret tt
      else if String.eqb name_ (name local) then error
      else declared_in_scope f name_ i'
  end.

Definition declareVar (name_ : string) : C unit :=
  f ← info_at 0;
  if scopeDepth f =? 0 then mret tt
  else
    declared_in_scope f name_ (Z.to_nat (localCount f));;
    addLocal name_.

Definition markInit : C unit :=
  f ← info_at 0;
  if scopeDepth f =? 0 then mret tt
  else
    local ← local_at f (localCount f - 1);
    set_info_at 0 (set_locals (<[Z.to_nat (localCount f - 1) :=
                                   mkLocal (name local) (scopeDepth f) (isCaptured local)]>
                                 (locals f)) f).

Definition beginScope : C unit :=
  modify_current (fun f => set_scopeDepth (scopeDepth f + 1) f).

(** The loop of [endScope], with [count] locals still in use: the number
    that stays in use. *)
Fixpoint locals_kept (f : CurrentChunkInfo) (count : nat) : C nat :=
  match count with
  | O => mret O
  | S count' =>
      local ← lift (locals f !! count');
      if scopeDepth f <? depth local then locals_kept f count' else mret count
  end.

Definition endScope : C unit :=
  modify_current (fun f => set_scopeDepth (scopeDepth f - 1) f);;
  f ← info_at 0;
  if localCount f <=? 0 then mret tt
  else
    kept ← locals_kept f (Z.to_nat (localCount f));
    let toPop := localCount f - Z.of_nat kept in
    set_info_at 0 (set_localCount (Z.of_nat kept) f);;
    if 0 <? toPop then
      if toPop =? 1 then emitByte OP_POP else emitBytes OP_POPN toPop
    else mret tt.

(** The loop of [resolveLocal], about to look at the local [i - 1]. *)
Fixpoint resolveLocal_from (f : CurrentChunkInfo) (name_ : string) (i : nat) : C Z :=
  match i with
  | O => mret (-1)
  | S i' =>
      local ← lift (locals f !! i');
      if String.eqb name_ (name local) then
        if depth local =? -1 then error else mret (Z.of_nat i')
      else resolveLocal_from f name_ i'
  end.

Definition resolveLocal (func : nat) (name_ : string) : C Z :=
  f ← info_at func;
  resolveLocal_from f name_ (Z.to_nat (localCount f)).

(** The loop of [addUpvalue] over the upvalues in use, from [i] on. *)
Fixpoint find_upvalue (ups : list Upvalue) (index_ : Z) (isLocal_ : bool) (i : Z)
    : option Z :=
  match ups with
  | [] => None
  | upval :: rest =>
      if (index upval =? index_) && Bool.eqb (isLocal upval) isLocal_ then Some i
      else find_upvalue rest index_ isLocal_ (i + 1)
  end.

(** [addUpvalue] works on [current], whichever function
    [resolveUpvalue] is looking at.  A search that runs past the end of
    the array without a match has read outside it. *)
Definition addUpvalue (index_ : Z) (isLocal_ : bool) : C Z :=
  f ← info_at 0;
  let count := upvalueCount f in
  match find_upvalue (take (Z.to_nat count) (upvalues f)) index_ isLocal_ 0 with
  | Some i => mret i
  | None =>
      if Z.of_nat (length (upvalues f)) <? count then undefined
      else if count =? UPVAL_MAX then error
      else if count <? 0 then undefined
      else
        _ ← lift (upvalues f !! Z.to_nat count);
        set_info_at 0 (set_upvalues (<[Z.to_nat count := mkUpvalue index_ isLocal_]>
                                       (upvalues f)) (count + 1) f);;
        mret count
  end.

(** [resolveUpvalue(func, name)] with [n] infos left outside [func]. *)
Fixpoint resolveUpvalue_from (n : nat) (func : nat) (name_ : string) : C Z :=
  match n with
  | O => mret (-1)
  | S n' =>
      local ← resolveLocal (S func) name_;
      if negb (local =? -1) then
        outer ← info_at (S func);
        captured ← local_at outer local;
        set_info_at (S func)
          (set_hasCapturedLocals true
             (set_locals (<[Z.to_nat local :=
                              mkLocal (name captured) (depth captured) true]>
                            (locals outer)) outer));;
        addUpvalue (local mod 256) true
      else
        upvalue ← resolveUpvalue_from n' (S func) name_;
        if negb (upvalue =? -1) then addUpvalue (upvalue mod 256) false
        else mret (-1)
  end.

Definition resolveUpvalue (func : nat) (name_ : string) : C Z :=
  s ← get;
  resolveUpvalue_from (length (enclosing s) - func) func name_.

(** [parseVar] and [defineVar] ([compiler.cpp], 993-1007 and 944-950).
    The search of the globals of the file and the table [definedGlobals]
    are not part of the state here: [findGlobal] and [defineGlobal] stand
    for what the two functions do in the global scope. *)
Variable OP_NIL : Z.
Variable OP_SET_GLOBAL : Z.
Variable OP_SET_GLOBAL_LONG : Z.
Variable findGlobal : string -> C Z.
Variable defineGlobal : Z -> C unit.

Definition parseVar (name_ : string) : C Z :=
  declareVar name_;;
  f ← info_at 0;
  if 0 <? scopeDepth f then mret 0
  else index_ ← findGlobal name_; mret (index_ mod 65536).

Definition defineVar (index_ : Z) : C unit :=
  f ← info_at 0;
  if 0 <? scopeDepth f then markInit else defineGlobal index_.

(** [visitVarDecl]: [value] is the visit of the initialiser, [None] for a
    declaration without one. *)
Definition visitVarDecl (name_ : string) (value : option (C unit)) : C unit :=
  global ← parseVar name_;
  match value with None => emitByte OP_NIL | Some expr => expr end;;
  defineVar global;;
  f ← info_at 0;
  if 0 <? scopeDepth f then mret tt
  else
    (if global <=? Compiler.SHORT_CONSTANT_LIMIT then emitBytes OP_SET_GLOBAL global
     else emitByteAnd16Bit OP_SET_GLOBAL_LONG global);;
    emitByte OP_POP.

(** [visitBlockStmt]: each statement is given by its visit. *)
Fixpoint accept_each (statements : list (C unit)) : C unit :=
  match statements with
  | [] => mret tt
  | node :: rest => node;; accept_each rest
  end.

Definition visitBlockStmt (statements : list (C unit)) : C unit :=
  beginScope;; accept_each statements;; endScope.

End Limits.

End Scopes.

(** * Properties *)

(** ** Bit-level facts about 64-bit words split at a bit position *)

Section BitSplit.

Lemma land_shiftl_r (x m k : Z) :
  0 <= k -> Z.land x (Z.shiftl m k) = Z.shiftl (Z.land (Z.shiftr x k) m) k.
Proof.
  intros Hk. apply Z.bits_inj'. intros n Hn.
  rewrite Z.land_spec.
  destruct (Z.lt_ge_cases n k) as [Hlt | Hge].
  - rewrite !Z.shiftl_spec_low by lia. apply andb_false_r.
  - rewrite !Z.shiftl_spec by lia.
    rewrite Z.land_spec, Z.shiftr_spec by lia.
    replace (n - k + k) with n by lia. reflexivity.
Qed.

Lemma shiftr_hi_lo (hi lo k : Z) :
  0 <= k -> 0 <= lo < 2 ^ k -> Z.shiftr (hi * 2 ^ k + lo) k = hi.
Proof.
  intros Hk Hlo. rewrite Z.shiftr_div_pow2 by lia.
  rewrite Z.add_comm, Z.div_add by lia.
  rewrite Z.div_small by lia. lia.
Qed.

Lemma lor_hi_lo (hi lo k : Z) :
  0 <= k -> 0 <= lo < 2 ^ k -> Z.lor (hi * 2 ^ k) lo = hi * 2 ^ k + lo.
Proof.
  intros Hk Hlo. symmetry. apply Z.add_nocarry_lor.
  rewrite Z.land_comm, <- Z.shiftl_mul_pow2 by lia.
  rewrite land_shiftl_r by lia.
  rewrite Z.shiftr_div_pow2, Z.div_small by lia.
  rewrite Z.land_0_l. apply Z.shiftl_0_l.
Qed.

Lemma land_lnot_l (x m : Z) : Z.land (Z.lnot x) m = m - Z.land x m.
Proof.
  rewrite (Z.land_comm (Z.lnot x)), (Z.land_comm x).
  symmetry. apply Z.sub_land_same_l.
Qed.

End BitSplit.

(** ** Value encoding *)

Module ValueFacts.
Import ValueHelpers.

Lemma shiftl_eqb (a c k : Z) :
  0 <= k -> (Z.shiftl a k =? Z.shiftl c k) = (a =? c).
Proof.
  intros Hk. rewrite !Z.shiftl_mul_pow2 by lia.
  assert (0 < 2 ^ k) by (apply Z.pow_pos_nonneg; lia).
  destruct (Z.eqb_spec a c) as [-> | Hne].
  - apply Z.eqb_refl.
  - apply Z.eqb_neq. nia.
Qed.

Lemma exponent_test (x : Z) :
  (Z.land (not64 x) MASK_EXPONENT =? 0)
  = (Z.land (signature16 x) 0x7ff0 =? 0x7ff0).
Proof.
  unfold not64, signature16. rewrite <- Z.land_assoc.
  change (Z.land MASK_FULL MASK_EXPONENT) with MASK_EXPONENT.
  rewrite land_lnot_l.
  change MASK_EXPONENT with (Z.shiftl 0x7ff0 48).
  rewrite land_shiftl_r by lia.
  rewrite <- (shiftl_eqb _ 0x7ff0 48) by lia.
  destruct (Z.eqb_spec (Z.shiftl (Z.land (Z.shiftr x 48) 0x7ff0) 48)
                       (Z.shiftl 0x7ff0 48)) as [-> | Hne].
  - reflexivity.
  - apply Z.eqb_neq. lia.
Qed.

Lemma signature_test (x c : Z) :
  (Z.land x MASK_SIGNATURE =? Z.shiftl c 48)
  = (Z.land (signature16 x) 0xffff =? c).
Proof.
  unfold signature16. change MASK_SIGNATURE with (Z.shiftl 0xffff 48).
  rewrite land_shiftl_r by lia. apply shiftl_eqb. lia.
Qed.

(** [getType] looks at the top sixteen bits only. *)
Lemma getType_signature16 (x : Value) : getType x = getType16 (signature16 x).
Proof.
  unfold getType, getType16. rewrite exponent_test.
  change MASK_SIGNATURE_NAN with (Z.shiftl 0x7ff0 48).
  change MASK_SIGNATURE_FALSE with (Z.shiftl 0x7ff1 48).
  change MASK_SIGNATURE_TRUE with (Z.shiftl 0x7ff2 48).
  change MASK_SIGNATURE_INT with (Z.shiftl 0x7ff4 48).
  change MASK_SIGNATURE_OBJ with (Z.shiftl 0xfff0 48).
  cbv zeta. rewrite !signature_test. reflexivity.
Qed.

Lemma to_uint32_range (x : Z) : 0 <= to_uint32 x < 2 ^ 32.
Proof. unfold to_uint32. apply Z.mod_pos_bound. lia. Qed.

Lemma encodeInt_sum (x : Z) : encodeInt x = 0x7ff4 * 2 ^ 48 + to_uint32 x.
Proof.
  unfold encodeInt. change MASK_SIGNATURE_INT with (0x7ff4 * 2 ^ 48).
  pose proof (to_uint32_range x). apply lor_hi_lo; lia.
Qed.

Lemma encodeObj_sum (p : Z) :
  0 <= p < 2 ^ 48 -> encodeObj p = 0xfff0 * 2 ^ 48 + p.
Proof.
  intros Hp. unfold encodeObj. change MASK_SIGNATURE_OBJ with (0xfff0 * 2 ^ 48).
  apply lor_hi_lo; lia.
Qed.

Lemma getType_encodeInt (x : Z) : getType (encodeInt x) = INT.
Proof.
  rewrite getType_signature16. unfold signature16.
  rewrite encodeInt_sum. pose proof (to_uint32_range x).
  rewrite shiftr_hi_lo by lia. reflexivity.
Qed.

Lemma decodeInt_encodeInt (x : Z) :
  - 2 ^ 31 <= x < 2 ^ 31 -> decodeInt (encodeInt x) = x.
Proof.
  intros Hx. unfold decodeInt. rewrite encodeInt_sum.
  change MASK_PAYLOAD_INT with (Z.ones 32). rewrite Z.land_ones by lia.
  pose proof (to_uint32_range x) as Hu.
  replace ((0x7ff4 * 2 ^ 48 + to_uint32 x) mod 2 ^ 32) with (to_uint32 x).
  2:{ replace (0x7ff4 * 2 ^ 48) with (0x7ff4 * 2 ^ 16 * 2 ^ 32) by lia.
      rewrite Z.add_comm, Z.mod_add by lia. rewrite Z.mod_small; lia. }
  unfold to_int32. rewrite (Z.mod_small (to_uint32 x)) by lia.
  unfold to_uint32 in *.
  destruct (Z_lt_le_dec x 0) as [Hneg | Hpos].
  - replace (x mod 2 ^ 32) with (x + 2 ^ 32).
    2:{ apply Z.mod_unique with (q := -1); lia. }
    destruct (Z.ltb_spec (x + 2 ^ 32) (2 ^ 31)); lia.
  - rewrite Z.mod_small by lia.
    destruct (Z.ltb_spec x (2 ^ 31)); lia.
Qed.

Lemma getType_encodeObj (p : Z) : 0 <= p < 2 ^ 48 -> getType (encodeObj p) = OBJ.
Proof.
  intros Hp. rewrite getType_signature16. unfold signature16.
  rewrite encodeObj_sum, shiftr_hi_lo by lia. reflexivity.
Qed.

Lemma decodeObj_encodeObj (p : Z) : 0 <= p < 2 ^ 48 -> decodeObj (encodeObj p) = p.
Proof.
  intros Hp. unfold decodeObj. rewrite encodeObj_sum by lia.
  change MASK_PAYLOAD_OBJ with (Z.ones 48). rewrite Z.land_ones by lia.
  rewrite Z.add_comm, Z.mod_add by lia. apply Z.mod_small. lia.
Qed.

(** The exponent field of a binary64 bit pattern. *)
Definition exponent_field (bits : Z) : Z := (bits / 2 ^ 52) mod 2 ^ 11.

Lemma signature16_exponent (d : Z) :
  Z.land (signature16 d) 0x7ff0 = Z.shiftl (exponent_field d) 4.
Proof.
  unfold signature16, exponent_field.
  change 0x7ff0 with (Z.shiftl (Z.ones 11) 4).
  rewrite land_shiftl_r by lia.
  rewrite Z.shiftr_shiftr by lia. rewrite Z.land_ones by lia.
  rewrite Z.shiftr_div_pow2 by lia. reflexivity.
Qed.

Lemma getType_finite_double (d : Z) :
  exponent_field d <> 0x7ff -> getType (encodeDouble d) = DOUBLE.
Proof.
  intros Hexp. unfold encodeDouble. rewrite getType_signature16.
  unfold getType16. rewrite signature16_exponent.
  change 0x7ff0 with (Z.shiftl 0x7ff 4) at 1.
  rewrite shiftl_eqb by lia.
  destruct (Z.eqb_spec (exponent_field d) 0x7ff); [contradiction | reflexivity].
Qed.

Lemma getType_double_iff (d : Z) :
  getType (encodeDouble d) = DOUBLE
  <-> exponent_field d <> 0x7ff \/ Z.land (signature16 d) 0xffff = 0x7ff0.
Proof.
  unfold encodeDouble. rewrite getType_signature16.
  unfold getType16. rewrite signature16_exponent.
  change 0x7ff0 with (Z.shiftl 0x7ff 4) at 1.
  rewrite shiftl_eqb by lia. cbv zeta.
  destruct (Z.eqb_spec (exponent_field d) 0x7ff) as [He | He]; cbn [negb].
  - destruct (Z.eqb_spec (Z.land (signature16 d) 0xffff) 0x7ff0) as [Hs | Hs].
    + split; [intros _; now right | reflexivity].
    + split.
      * repeat match goal with
               | |- context [if ?b then _ else _] => destruct b
               end; discriminate.
      * intros [Hc | Hc]; contradiction.
  - split; [intros _; now left | reflexivity].
Qed.

(** The round trips that hold: every int32, bool, nil and 48-bit object
    pointer decodes to itself after encoding and is classified under
    its own kind; [decodeDouble] after [encodeDouble] returns the bit
    pattern unchanged for every double (NaNs included, none is
    canonicalised); [getType] classifies an encoded double as [DOUBLE]
    exactly when its exponent field is not all ones or its top sixteen
    bits are [0x7ff0] (so every finite double and +infinity). *)
Theorem value_roundtrip :
  (forall x, - 2 ^ 31 <= x < 2 ^ 31 ->
      decodeInt (encodeInt x) = x /\ getType (encodeInt x) = INT)
  /\ (forall b, decodeBool (encodeBool b) = b /\ getType (encodeBool b) = BOOL)
  /\ getType encodeNil = NIL
  /\ (forall p, 0 <= p < 2 ^ 48 ->
      decodeObj (encodeObj p) = p /\ getType (encodeObj p) = OBJ)
  /\ (forall d, decodeDouble (encodeDouble d) = d)
  /\ (forall d, getType (encodeDouble d) = DOUBLE
        <-> exponent_field d <> 0x7ff \/ Z.land (signature16 d) 0xffff = 0x7ff0)
  /\ getType (encodeDouble POS_INFINITY_BITS) = DOUBLE.
Proof.
  split; [| split; [| split; [| split; [| split; [| split]]]]].
  - intros x Hx. split; [now apply decodeInt_encodeInt | apply getType_encodeInt].
  - intros [|]; split; reflexivity.
  - reflexivity.
  - intros q Hq. split; [now apply decodeObj_encodeObj | now apply getType_encodeObj].
  - reflexivity.
  - apply getType_double_iff.
  - reflexivity.
Qed.

Lemma value_roundtrip_witness :
  (decodeInt (encodeInt (- 2 ^ 31)) = - 2 ^ 31 /\ getType (encodeInt (- 2 ^ 31)) = INT)
  /\ (decodeObj (encodeObj 0x7f00deadbeef) = 0x7f00deadbeef
      /\ getType (encodeObj 0x7f00deadbeef) = OBJ)
  /\ getType (encodeDouble 0x3ff0000000000000) = DOUBLE.
Proof.
  destruct value_roundtrip as (Hint & _ & _ & Hobj & _ & Hdbl & _).
  split; [apply Hint; lia | split; [apply Hobj; lia |]].
  apply Hdbl. left. vm_compute. discriminate.
Defined.

(** C5: the round trip fails for the double -infinity.  Its bit pattern
    [0xfff0000000000000] is the object signature with an empty payload:
    [decodeDouble] gives the double back, but [getType] answers [OBJ]
    where the kind of the value is [DOUBLE], [isDouble] is false,
    [isObj] is true and [decodeObj] is the null pointer; +infinity, which
    differs in the sign bit only, is a [DOUBLE]. *)
Lemma neg_infinity_boxed_as_obj :
  decodeDouble (encodeDouble NEG_INFINITY_BITS) = NEG_INFINITY_BITS
  /\ getType (encodeDouble NEG_INFINITY_BITS) = OBJ
  /\ isDouble (encodeDouble NEG_INFINITY_BITS) = false
  /\ isObj (encodeDouble NEG_INFINITY_BITS) = true
  /\ decodeObj (encodeDouble NEG_INFINITY_BITS) = Objects.nullptr
  /\ encodeDouble NEG_INFINITY_BITS = encodeObj Objects.nullptr
  /\ getType (encodeDouble POS_INFINITY_BITS) = DOUBLE.
Proof. repeat split. Qed.

(** A quiet NaN is not a double either: no label of [getType] matches. *)
Lemma quiet_nan_boxed_as_nil : getType (encodeDouble QUIET_NAN_BITS) = NIL.
Proof. reflexivity. Qed.

End ValueFacts.

(** ** Equality of values *)

Module EqualsFacts.
Import ValueHelpers Objects ValueFacts.

Section WithHelpers.
Variable FLOAT_EQ : Value -> Value -> bool.
Variable toStringOther : gmap Z Obj -> ObjData -> string.

Abbreviation equals := (equals FLOAT_EQ toStringOther).

Lemma equals_different_kind (h : gmap Z Obj) (x y : Value) :
  getType x <> getType y -> equals h x y = Ok false.
Proof.
  intros Hk. unfold Objects.equals.
  rewrite bool_decide_eq_false_2 by assumption. reflexivity.
Qed.

(** An int never equals a double, whatever the numbers are. *)
Lemma equals_int_double (h : gmap Z Obj) (n d : Z) :
  getType (encodeDouble d) = DOUBLE ->
  equals h (encodeInt n) (encodeDouble d) = Ok false.
Proof.
  intros Hd. apply equals_different_kind.
  rewrite getType_encodeInt, Hd. discriminate.
Qed.

Lemma equals_doubles (h : gmap Z Obj) (x y : Value) :
  getType x = DOUBLE -> getType y = DOUBLE ->
  equals h x y = Ok (FLOAT_EQ x y).
Proof.
  intros Hx Hy. unfold Objects.equals. rewrite Hx, Hy. reflexivity.
Qed.

(** Two string objects are compared by contents, not by address. *)
Lemma equals_strings (h : gmap Z Obj) (x y : Value) (mx my : bool) (s t : string) :
  getType x = OBJ -> getType y = OBJ ->
  h !! decodeObj x = Some (mkObj mx (ObjString s)) ->
  h !! decodeObj y = Some (mkObj my (ObjString t)) ->
  equals h x y = Ok (String.eqb s t).
Proof.
  intros Hx Hy Hox Hoy. unfold Objects.equals.
  rewrite Hx, Hy, Hox, Hoy.
  repeat case_bool_decide; cbn in *; try congruence; reflexivity.
Qed.

(** Values that are neither doubles nor objects (nil, bool, int) are
    compared as 64-bit words, and so is an object that is not a string
    with any other object. *)
Lemma equals_immediate (h : gmap Z Obj) (x y : Value) :
  getType x = getType y -> getType x <> DOUBLE -> getType x <> OBJ ->
  equals h x y = Ok (x =? y).
Proof.
  intros Hk Hd Ho. unfold Objects.equals.
  rewrite bool_decide_eq_true_2 by assumption.
  rewrite !bool_decide_eq_false_2 by assumption. reflexivity.
Qed.

Lemma equals_non_string_object (h : gmap Z Obj) (x y : Value) (ox : Obj) :
  getType x = OBJ -> getType y = OBJ ->
  h !! decodeObj x = Some ox -> type ox <> STRING ->
  equals h x y = Ok (x =? y).
Proof.
  intros Hx Hy Hox Ht. unfold Objects.equals.
  rewrite Hx, Hy, Hox.
  repeat case_bool_decide; try congruence; reflexivity.
Qed.

(** [equals x x] holds for every value on which [FLOAT_EQ] is reflexive
    (the spec excepts NaN doubles) and whose object, if it is one, is
    allocated. *)
Lemma equals_refl (h : gmap Z Obj) (x : Value) :
  (getType x = DOUBLE -> FLOAT_EQ x x = true) ->
  (getType x = OBJ -> is_Some (h !! decodeObj x)) ->
  equals h x x = Ok true.
Proof.
  intros Hf Ho. unfold Objects.equals.
  rewrite bool_decide_eq_true_2 by reflexivity. cbn.
  destruct (decide (getType x = DOUBLE)) as [Hd | Hd].
  - rewrite bool_decide_eq_true_2 by assumption. now rewrite Hf.
  - rewrite bool_decide_eq_false_2 by assumption.
    destruct (decide (getType x = OBJ)) as [Hobj | Hobj].
    + rewrite bool_decide_eq_true_2 by assumption.
      destruct (Ho Hobj) as [ox Hox]. rewrite Hox.
      destruct (bool_decide (type ox = STRING)).
      * now rewrite String.eqb_refl.
      * now rewrite Z.eqb_refl.
    + rewrite bool_decide_eq_false_2 by assumption. now rewrite Z.eqb_refl.
Qed.

(** C6: the string branch of [equals] tests the kind of its first
    argument only.  When [x] is a string and [y] is an object of
    another kind whose [toString] text is the contents of [x], the two
    compare equal although the words differ and the claim's
    "otherwise" case asks for bitwise equality; with the arguments
    swapped the answer is the bitwise one. *)
Theorem equals_string_against_other_object
    (h : gmap Z Obj) (x y : Value) (mx : bool) (s : string) (oy : Obj) :
  getType x = OBJ -> getType y = OBJ ->
  h !! decodeObj x = Some (mkObj mx (ObjString s)) ->
  h !! decodeObj y = Some oy ->
  type oy <> STRING ->
  toStringOther h (data oy) = s ->
  x <> y ->
  equals h x y = Ok true /\ (x =? y) = false /\ equals h y x = Ok false.
Proof.
  intros Hx Hy Hox Hoy Ht Hs Hne.
  assert ((x =? y) = false) as Hxy by (now apply Z.eqb_neq).
  split; [| split; [assumption |]].
  - unfold Objects.equals. rewrite Hx, Hy, Hox, Hoy.
    repeat case_bool_decide; try congruence; cbn in *; try congruence.
    unfold toString. destruct oy as [my dy]. cbn in *.
    destruct dy; cbn in Ht; try congruence; rewrite Hs; now rewrite String.eqb_refl.
  - rewrite (equals_non_string_object h y x oy) by assumption.
    now rewrite Z.eqb_sym, Hxy.
Qed.

(** Comparing -infinity with itself takes the object branch and reads
    the object at the null pointer, where no object lives. *)
Lemma equals_neg_infinity (h : gmap Z Obj) :
  h !! nullptr = None ->
  equals h (encodeDouble NEG_INFINITY_BITS) (encodeDouble NEG_INFINITY_BITS)
  = Fault.
Proof.
  intros Hnull. unfold Objects.equals.
  change (decodeObj (encodeDouble NEG_INFINITY_BITS)) with nullptr.
  rewrite Hnull. reflexivity.
Qed.

End WithHelpers.

(** A heap holding the string ["<array>"] at [0x10] and an empty array
    at [0x20], with an array printed as ["<array>"]. *)
Definition example_heap : gmap Z Obj :=
  <[0x20 := new (ObjArray [] 0)]> (<[0x10 := new (ObjString "<array>")]> ∅).

Lemma equals_string_against_other_object_witness :
  Objects.equals Z.eqb (fun _ _ => "<array>"%string) example_heap
    (encodeObj 0x10) (encodeObj 0x20) = Ok true
  /\ (encodeObj 0x10 =? encodeObj 0x20) = false
  /\ Objects.equals Z.eqb (fun _ _ => "<array>"%string) example_heap
    (encodeObj 0x20) (encodeObj 0x10) = Ok false.
Proof.
  apply (equals_string_against_other_object Z.eqb (fun _ _ => "<array>"%string)
           example_heap (encodeObj 0x10) (encodeObj 0x20) false "<array>"
           (new (ObjArray [] 0))).
  - reflexivity.
  - reflexivity.
  - reflexivity.
  - reflexivity.
  - discriminate.
  - reflexivity.
  - discriminate.
Defined.

End EqualsFacts.

(** ** Garbage collector *)

Module GCFacts.
Import ValueHelpers Objects GC.

(** C10: every call of [alloc] appends exactly one entry to [objects],
    the value it returns, and leaves in [heapSize] the sum of the old
    counter and [size] reduced modulo [2 ^ 64], which is that sum
    whenever it fits the counter's 64 bits; when the allocation fails
    the entry and the returned pointer are null, the failure is
    reported to the system-error sink and the counter keeps the
    addition. *)
Theorem alloc_registers_block (size : Z) (block : option Z) (w : World) :
  let '(p, w') := alloc size block w in
  objects (gc w') = objects (gc w) ++ [p]
  /\ length (objects (gc w')) = S (length (objects (gc w)))
  /\ heapSize (gc w') = (heapSize (gc w) + size) mod 2 ^ 64
  /\ (0 <= heapSize (gc w) + size < 2 ^ 64 ->
      heapSize (gc w') = heapSize (gc w) + size)
  /\ mem w' = mem w
  /\ match block with
     | Some q => p = q /\ systemErrors w' = systemErrors w
     | None => p = nullptr
               /\ systemErrors w' = systemErrors w ++ [failed_allocation size]
     end.
Proof.
  unfold alloc. cbn.
  assert (heapSize (if heapSizeLimit (gc w) <? wrap64 (heapSize (gc w) + size)
                    then set_shouldCollect true
                           (set_heapSize (wrap64 (heapSize (gc w) + size)) (gc w))
                    else set_heapSize (wrap64 (heapSize (gc w) + size)) (gc w))
          = (heapSize (gc w) + size) mod 2 ^ 64) as Hcount
    by (destruct (_ <? _); reflexivity).
  split; [| split; [| split; [| split; [| split]]]].
  - destruct (_ <? _); reflexivity.
  - destruct (_ <? _); cbn; rewrite length_app; cbn; lia.
  - exact Hcount.
  - intros Hfit. rewrite Hcount. apply Z.mod_small. exact Hfit.
  - reflexivity.
  - destruct block; split; reflexivity.
Qed.

(** A collector that counts 100 bytes is asked for [2 ^ 64 - 50] more:
    the counter wraps and ends at 50, below where it started. *)
Definition counting_world : World :=
  {| gc := set_heapSize 100 GarbageCollector_init; mem := ∅;
     systemErrors := []; vm := None |}.

Lemma alloc_wraps_counter :
  heapSize (gc counting_world) = 100
  /\ heapSize (gc (alloc (2 ^ 64 - 50) (Some 0x10) counting_world).2) = 50
  /\ (heapSize (gc (alloc (2 ^ 64 - 50) (Some 0x10) counting_world).2)
      =? heapSize (gc counting_world) + (2 ^ 64 - 50)) = false
  /\ objects (gc (alloc (2 ^ 64 - 50) (Some 0x10) counting_world).2) = [0x10]
  /\ shouldCollect (gc (alloc (2 ^ 64 - 50) (Some 0x10) counting_world).2) = false.
Proof. vm_compute. repeat split. Qed.

(** The flag is raised, and the VM asked to pause, exactly when the
    counter has crossed the limit. *)
Lemma alloc_requests_collection (size : Z) (block : option Z) (w : World) :
  let w' := (alloc size block w).2 in
  heapSizeLimit (gc w') = heapSizeLimit (gc w)
  /\ shouldCollect (gc w')
     = (heapSizeLimit (gc w) <? heapSize (gc w')) || shouldCollect (gc w)
  /\ ((heapSizeLimit (gc w) <? heapSize (gc w')) = true ->
      pauseRequested <$> vm w' = (fun _ => true) <$> vm w).
Proof.
  unfold alloc. cbn.
  destruct (heapSizeLimit (gc w) <? wrap64 (heapSize (gc w) + size)) eqn:Hover; cbn.
  - rewrite Hover. repeat split. intros _. now destruct (vm w).
  - rewrite Hover. repeat split. discriminate.
Qed.

(** *** Sweep *)

Section Sweep.
Variable getSize : ObjData -> Z.

Definition is_marked (m : gmap Z Obj) (p : Z) : bool :=
  match m !! p with Some o => marked o | None => false end.

Definition size_at (m : gmap Z Obj) (p : Z) : Z :=
  match m !! p with Some o => getSize (data o) | None => 0 end.

Definition sumZ (l : list Z) : Z := foldr Z.add 0 l.

(** What the object loop makes of the object at [p] when it visits it. *)
Definition swept (m : gmap Z Obj) (p : Z) : option Obj :=
  match m !! p with
  | Some o => if marked o then Some (set_marked false o) else None
  | None => None
  end.

Lemma sumZ_app (l k : list Z) : sumZ (l ++ k) = sumZ l + sumZ k.
Proof.
  unfold sumZ. induction l as [| x l IH]; cbn; [reflexivity | rewrite IH; lia].
Qed.

Lemma wrap64_add_l (a b : Z) : wrap64 (wrap64 a + b) = wrap64 (a + b).
Proof. unfold wrap64. apply Zplus_mod_idemp_l. Qed.

Lemma filter_marked_ext (m1 m2 : gmap Z Obj) (l : list Z) :
  (forall p, p ∈ l -> m1 !! p = m2 !! p) ->
  filter (fun p => is_marked m1 p = true) l
  = filter (fun p => is_marked m2 p = true) l.
Proof.
  intros Hagree. induction l as [| x l IH]; [reflexivity |].
  rewrite !filter_cons.
  assert (is_marked m1 x = is_marked m2 x) as ->
    by (unfold is_marked; rewrite (Hagree x) by set_solver; reflexivity).
  rewrite IH by (intros p Hp; apply Hagree; set_solver).
  reflexivity.
Qed.

Lemma size_at_ext (m1 m2 : gmap Z Obj) (l : list Z) :
  (forall p, p ∈ l -> m1 !! p = m2 !! p) ->
  map (size_at m1) l = map (size_at m2) l.
Proof.
  intros Hagree. induction l as [| x l IH]; [reflexivity |].
  cbn [map].
  assert (size_at m1 x = size_at m2 x) as ->
    by (unfold size_at; rewrite (Hagree x) by set_solver; reflexivity).
  rewrite IH by (intros p Hp; apply Hagree; set_solver).
  reflexivity.
Qed.

(** The object loop, started at the end of [pre] with [post] behind
    it: the unmarked entries of [pre] are erased from the list and
    from memory, the marked ones stay with their mark cleared, and
    the sizes of the marked ones are added to the counter. *)
Lemma sweep_objects_spec (pre : list Z) :
  forall (m : gmap Z Obj) (post : list Z) (size : Z),
    NoDup pre ->
    (forall p, p ∈ pre -> is_Some (m !! p)) ->
    0 <= size < 2 ^ 64 ->
    exists m',
      sweep_objects getSize (length pre) m (pre ++ post) size
      = Ok (m', filter (fun p => is_marked m p = true) pre ++ post,
            wrap64 (size + sumZ (map (size_at m)
                                   (filter (fun p => is_marked m p = true) pre))))
      /\ (forall p, p ∈ pre -> m' !! p = swept m p)
      /\ (forall p, p ∉ pre -> m' !! p = m !! p).
Proof.
  induction pre as [| x pre IH] using rev_ind; intros m post size Hnd Hall Hsize.
  - exists m. cbn. rewrite Z.add_0_r.
    split; [| split].
    + unfold wrap64. rewrite Z.mod_small by lia. reflexivity.
    + intros p Hp. set_solver.
    + reflexivity.
  - apply NoDup_app in Hnd as (Hnd & Hfresh & _).
    assert (x ∉ pre) as Hx by (intros Hin; apply (Hfresh x Hin); set_solver).
    destruct (Hall x) as [o Ho]; [set_solver |].
    rewrite length_app. cbn [length]. rewrite Nat.add_1_r. cbn [sweep_objects].
    rewrite <- app_assoc. cbn [app].
    rewrite (list_lookup_middle pre post x (length pre)) by reflexivity.
    rewrite Ho.
    rewrite filter_app, filter_cons, filter_nil.
    assert (is_marked m x = marked o) as Hmx
      by (unfold is_marked; now rewrite Ho).
    rewrite Hmx.
    destruct (marked o) eqn:Hm; cbn [negb].
    + (* marked: the entry stays, its mark is cleared, its size counts *)
      destruct (IH (<[x := set_marked false o]> m) (x :: post)
                  (wrap64 (size + getSize (data o))) Hnd) as (m' & Hrun & Hin & Hout).
      { intros p Hp. rewrite lookup_insert_ne by set_solver. apply Hall. set_solver. }
      { unfold wrap64. apply Z.mod_pos_bound. lia. }
      exists m'. split; [| split].
      * rewrite Hrun.
        rewrite (filter_marked_ext (<[x := set_marked false o]> m) m pre)
          by (intros p Hp; apply lookup_insert_ne; set_solver).
        rewrite (size_at_ext (<[x := set_marked false o]> m) m)
          by (intros p Hp; apply lookup_insert_ne;
              apply list_elem_of_filter in Hp; set_solver).
        rewrite decide_True by reflexivity.
        rewrite <- app_assoc. cbn [app].
        rewrite map_app, sumZ_app. cbn [map sumZ foldr].
        assert (size_at m x = getSize (data o)) as ->
          by (unfold size_at; now rewrite Ho).
        rewrite wrap64_add_l. do 3 f_equal. lia.
      * intros p Hp. apply elem_of_app in Hp as [Hp | Hp].
        -- rewrite (Hin p Hp). unfold swept.
           rewrite lookup_insert_ne by set_solver. reflexivity.
        -- apply list_elem_of_singleton in Hp as ->.
           rewrite (Hout x Hx), lookup_insert_eq.
           unfold swept. rewrite Ho, Hm. reflexivity.
      * intros p Hp. rewrite Hout by set_solver.
        apply lookup_insert_ne. set_solver.
    + (* unmarked: the object is destroyed and its entry erased *)
      rewrite delete_middle.
      destruct (IH (delete x m) post size Hnd) as (m' & Hrun & Hin & Hout).
      { intros p Hp. rewrite lookup_delete_ne by set_solver. apply Hall. set_solver. }
      { exact Hsize. }
      exists m'. split; [| split].
      * rewrite Hrun.
        rewrite (filter_marked_ext (delete x m) m pre)
          by (intros p Hp; apply lookup_delete_ne; set_solver).
        rewrite (size_at_ext (delete x m) m)
          by (intros p Hp; apply lookup_delete_ne;
              apply list_elem_of_filter in Hp; set_solver).
        rewrite decide_False by discriminate.
        rewrite app_nil_r. reflexivity.
      * intros p Hp. apply elem_of_app in Hp as [Hp | Hp].
        -- rewrite (Hin p Hp). unfold swept.
           rewrite lookup_delete_ne by set_solver. reflexivity.
        -- apply list_elem_of_singleton in Hp as ->.
           rewrite (Hout x Hx), lookup_delete_eq.
           unfold swept. rewrite Ho, Hm. reflexivity.
      * intros p Hp. rewrite Hout by set_solver.
        apply lookup_delete_ne. set_solver.
Qed.

Lemma prune_interned_spec (m : gmap Z Obj) (i : gmap string Z) :
  map_Forall (fun _ p => is_Some (m !! p)) i ->
  exists i',
    prune_interned m i = Ok i'
    /\ forall s p, i' !! s = Some p <-> i !! s = Some p /\ is_marked m p = true.
Proof.
  intros Hall. unfold prune_interned.
  rewrite bool_decide_eq_true_2 by assumption.
  eexists. split; [reflexivity |].
  intros s p. rewrite map_lookup_filter_Some. cbn.
  unfold is_marked. destruct (m !! p) as [o |]; cbn; [| naive_solver].
  split; intros [? ?]; split; congruence.
Qed.

(** C7: after [sweep], every entry of [objects] that was unmarked has
    been destroyed and removed, every survivor has its mark cleared,
    [heapSize] is the sum of the sizes of exactly the survivors, and
    the intern map has lost exactly the entries whose string was
    unmarked when [sweep] began (the marks it is pruned by are those
    before the object loop clears them). *)
Theorem sweep_spec (m : gmap Z Obj) (g : GarbageCollector) :
  NoDup (objects g) ->
  (forall p, p ∈ objects g -> is_Some (m !! p)) ->
  map_Forall (fun _ p => is_Some (m !! p)) (interned g) ->
  0 <= sumZ (map (size_at m) (filter (fun p => is_marked m p = true) (objects g)))
    < 2 ^ 64 ->
  exists m' g',
    sweep getSize m g = Ok (m', g')
    /\ objects g' = filter (fun p => is_marked m p = true) (objects g)
    /\ (forall p, p ∈ objects g -> is_marked m p = false ->
          m' !! p = None /\ p ∉ objects g')
    /\ (forall p, p ∈ objects g' ->
          exists o o', m !! p = Some o /\ marked o = true
                       /\ m' !! p = Some o'
                       /\ marked o' = false /\ data o' = data o)
    /\ heapSize g' = sumZ (map (size_at m') (objects g'))
    /\ (forall s p, interned g' !! s = Some p
                    <-> interned g !! s = Some p /\ is_marked m p = true)
    /\ heapSizeLimit g' = heapSizeLimit g.
Proof.
  intros Hnd Hall Hint Hsum.
  destruct (prune_interned_spec m (interned g) Hint) as (i' & Hprune & Hi').
  destruct (sweep_objects_spec (objects g) m [] 0 Hnd Hall ltac:(lia))
    as (m' & Hrun & Hin & Hout).
  rewrite !app_nil_r in Hrun. rewrite Z.add_0_l in Hrun.
  unfold wrap64 in Hrun. rewrite Z.mod_small in Hrun by exact Hsum.
  exists m'. eexists. unfold sweep. cbn. rewrite Hprune, Hrun. cbn.
  split; [reflexivity |]. cbn.
  assert (forall p, p ∈ filter (fun p => is_marked m p = true) (objects g) ->
            exists o o', m !! p = Some o /\ marked o = true
                         /\ m' !! p = Some o'
                         /\ marked o' = false /\ data o' = data o) as Hsurv.
  { intros p Hp. apply list_elem_of_filter in Hp as [Hm Hp].
    rewrite (Hin p Hp). unfold swept. unfold is_marked in Hm.
    destruct (m !! p) as [o |]; [| discriminate].
    exists o, (set_marked false o). rewrite Hm. destruct o. cbn. auto. }
  split; [reflexivity | split; [| split; [exact Hsurv | split; [| split]]]].
  - intros p Hp Hm. split.
    + rewrite (Hin p Hp). unfold swept. unfold is_marked in Hm.
      destruct (m !! p) as [o |]; [now rewrite Hm | reflexivity].
    + intros Hq. apply list_elem_of_filter in Hq as [Hq _]. congruence.
  - f_equal. apply map_ext_in. intros p Hp.
    apply list_elem_of_In in Hp.
    destruct (Hsurv p Hp) as (o & o' & Ho & _ & Ho' & _ & Hd).
    unfold size_at. rewrite Ho, Ho', Hd. reflexivity.
  - exact Hi'.
  - reflexivity.
Qed.

End Sweep.

(** A heap of three objects, the array unmarked, and a collector that
    owns them and has interned both strings. *)
Definition swept_mem : gmap Z Obj :=
  <[0x30 := mkObj true (ObjString "b")]>
    (<[0x20 := mkObj false (ObjArray [] 0)]>
       (<[0x10 := mkObj true (ObjString "a")]> ∅)).

Definition swept_gc : GarbageCollector :=
  {| heapSize := 48; heapSizeLimit := HEAP_START_SIZE * 1024;
     shouldCollect := true; objects := [0x10; 0x20; 0x30]; markStack := [];
     interned := <["b" := 0x30]> (<["a" := 0x10]> ∅) |}.

Lemma sweep_spec_witness :
  exists m' g',
    sweep (fun _ => 16) swept_mem swept_gc = Ok (m', g')
    /\ objects g' = filter (fun p => is_marked swept_mem p = true) (objects swept_gc)
    /\ (forall p, p ∈ objects swept_gc -> is_marked swept_mem p = false ->
          m' !! p = None /\ p ∉ objects g')
    /\ (forall p, p ∈ objects g' ->
          exists o o', swept_mem !! p = Some o /\ marked o = true
                       /\ m' !! p = Some o'
                       /\ marked o' = false /\ data o' = data o)
    /\ heapSize g' = sumZ (map (size_at (fun _ => 16) m') (objects g'))
    /\ (forall s p, interned g' !! s = Some p
                    <-> interned swept_gc !! s = Some p /\ is_marked swept_mem p = true)
    /\ heapSizeLimit g' = heapSizeLimit swept_gc.
Proof.
  apply (sweep_spec (fun _ => 16) swept_mem swept_gc).
  - compute_done.
  - intros p Hp. cbn in Hp.
    repeat (apply elem_of_cons in Hp as [-> | Hp]; [compute_done |]).
    now apply elem_of_nil in Hp.
  - unfold swept_gc, swept_mem. cbn [interned].
    repeat (apply map_Forall_insert_2; [compute_done |]). apply map_Forall_empty.
  - vm_compute. split; [discriminate | reflexivity].
Defined.

(** *** Termination of the mark loop *)

Section Mark.
Variable trace : ObjData -> list Z.

(** The references that tracing the unmarked objects will still push. *)
Definition pending (m : gmap Z Obj) : nat :=
  map_fold (fun _ o n => if marked o then n else (n + length (trace (data o)))%nat) 0%nat m.

Lemma pending_mark (m : gmap Z Obj) (p : Z) (o : Obj) :
  m !! p = Some o -> marked o = false ->
  pending m = (pending (<[p := set_marked true o]> m) + length (trace (data o)))%nat.
Proof.
  intros Ho Hm. unfold pending.
  rewrite (map_fold_delete_L _ _ p o m); [| intros; repeat case_match; lia | exact Ho].
  rewrite <- (insert_delete_eq m p (set_marked true o)).
  rewrite map_fold_insert_L;
    [| intros; repeat case_match; lia | apply lookup_delete_eq].
  rewrite Hm. reflexivity.
Qed.

(** Every turn of the loop lowers the length of the mark stack plus the
    pending references by one, so that many turns are enough. *)
Lemma mark_terminates (fuel : nat) :
  forall (m : gmap Z Obj) (stack : list Z),
    (length stack + pending m <= fuel)%nat ->
    mark trace fuel m stack <> None.
Proof.
  induction fuel as [| fuel IH]; intros m stack Hfuel.
  - destruct stack as [| x stack]; [cbn; discriminate | cbn in Hfuel; lia].
  - destruct (rev stack) as [| ptr below] eqn:Hrev.
    + unfold mark. rewrite Hrev. destruct fuel; discriminate.
    + assert (length stack = S (length below)) as Hlen
        by (rewrite <- (length_rev stack), Hrev; reflexivity).
      cbn [mark]. rewrite Hrev.
      destruct (m !! ptr) as [o |] eqn:Ho; [| discriminate].
      destruct (marked o) eqn:Hm.
      * apply IH. rewrite length_rev in *. lia.
      * apply IH. rewrite (pending_mark m ptr o Ho Hm) in Hfuel.
        rewrite length_app, length_rev in *. lia.
Qed.

End Mark.

(** [collect] returns: with enough turns for its mark loop it ends,
    normally or in a fault (a root or a traced reference that points at no
    object, or no VM attached). *)
Lemma collect_returns (trace : ObjData -> list Z) (getSize : ObjData -> Z) (w : World) :
  exists fuel result, collect trace getSize fuel w = Some result.
Proof.
  unfold collect. destruct (markRoots w) as [g1 | e |] eqn:Hroots.
  - exists (length (markStack g1) + pending trace (mem w))%nat.
    pose proof (mark_terminates trace _ (mem w) (markStack g1) (le_n _)) as Hmark.
    destruct (mark _ _ _ _) as [[[m2 stack2] | e |] |]; [| eauto | eauto | congruence].
    destruct (sweep _ _ _) as [[m3 g3] | e |]; eauto.
  - exists 0%nat. eauto.
  - exists 0%nat. eauto.
Qed.

(** *** Collect *)

Lemma sweep_heapSizeLimit (getSize : ObjData -> Z) (m m' : gmap Z Obj)
    (g g' : GarbageCollector) :
  sweep getSize m g = Ok (m', g') -> heapSizeLimit g' = heapSizeLimit g.
Proof.
  unfold sweep. destruct (prune_interned _ _); try discriminate.
  destruct (sweep_objects _ _ _ _ _) as [[[m1 objs1] size1] | |]; try discriminate.
  intros [= <- <-]. reflexivity.
Qed.

(** C8: [collect] never changes [heapSizeLimit], also when the heap is
    still over the limit after the sweep: the shifted value is dropped.
    It does clear [shouldCollect] and withdraw the pause request. *)
Theorem collect_keeps_heapSizeLimit (trace : ObjData -> list Z)
    (getSize : ObjData -> Z) (fuel : nat) (w w' : World) :
  collect trace getSize fuel w = Some (Ok w') ->
  heapSizeLimit (gc w') = heapSizeLimit (gc w)
  /\ shouldCollect (gc w') = false
  /\ pauseRequested <$> vm w' = Some false.
Proof.
  unfold collect, markRoots. destruct (vm w) as [v |]; [| discriminate].
  destruct (mark _ _ _ _) as [[[m2 stack2] | |] |]; try discriminate.
  destruct (sweep _ _ _) as [[m3 g3] | |] eqn:Hsweep; try discriminate.
  intros [= <-]. cbn. apply sweep_heapSizeLimit in Hsweep. cbn in Hsweep.
  destruct (heapSizeLimit g3 <? heapSize g3); cbn; rewrite Hsweep; auto.
Qed.

(** One live string of two MiB, rooted in the VM, under the start limit
    of one MiB. *)
Definition crowded_world : World :=
  {| gc := {| heapSize := 2 * 1024 * 1024; heapSizeLimit := HEAP_START_SIZE * 1024;
              shouldCollect := true; objects := [0x10]; markStack := [];
              interned := ∅ |};
     mem := <[0x10 := new (ObjString "big")]> ∅;
     systemErrors := [];
     vm := Some {| pauseRequested := true; roots := [0x10] |} |}.

Lemma collect_keeps_heapSizeLimit_witness :
  exists w',
    collect (fun _ => []) (fun _ => 2 * 1024 * 1024) 4 crowded_world = Some (Ok w')
    /\ (heapSizeLimit (gc crowded_world) <? heapSize (gc w')) = true
    /\ heapSizeLimit (gc crowded_world) = 1048576
    /\ heapSizeLimit (gc w') = heapSizeLimit (gc crowded_world)
    /\ shouldCollect (gc w') = false
    /\ pauseRequested <$> vm w' = Some false.
Proof.
  eexists. split; [vm_compute; reflexivity |].
  split; [reflexivity | split; [reflexivity |]].
  eapply (collect_keeps_heapSizeLimit (fun _ => []) (fun _ => 2 * 1024 * 1024) 4
            crowded_world).
  vm_compute. reflexivity.
Defined.

End GCFacts.

(** ** Interpreter thread *)

Module ThreadFacts.
Import ValueHelpers Objects ValueFacts Thread.

Ltac run :=
  repeat first
    [ progress cbn [mbind mret M_bind M_ret]
    | progress unfold mbind, mret, M_bind, M_ret ].

Section WithVM.
Variable STACK_MAX : Z.
Variable FRAMES_MAX : Z.
Variable bytecode : list Z.
Variable constants : list Value.
Variable nativeMethods : Builtin.t -> gmap string BuiltinMethod.
Variable fresh : gmap Z Obj -> Z.
Variable runNative : Z -> Z -> M bool.
Variable double_arith : BinaryOp -> Z -> Z -> Z.
Variable double_neg : Z -> Z.
Variable double_of_int : Z -> Z.
Variable concat : Z -> Z -> M Value.
Variable FLOAT_EQ : Value -> Value -> bool.
Variable toStringOther : gmap Z Obj -> ObjData -> string.
Variable double_compare : Comparison -> Z -> Z -> bool.
Variable nativeFuncs : list Z.
Variable newThread : M Z.
Variable unsettled : Value.
Variable launch : Z -> Machine -> Z -> M unit.
Variable wait : Z -> M unit.
Variable eraseChildThread : Z -> M bool.
Variable fut : Z.

(** *** Error codes of the call protocol *)

Lemma call_arity_mismatch (s : Machine) (closure f : Z) (mc mf : bool)
    (upvals : list Z) (off coff arity ucount : Z) (name : string) (argCount : Z) :
  heap s !! closure = Some (mkObj mc (ObjClosure f upvals)) ->
  heap s !! f = Some (mkObj mf (ObjFunc off coff arity ucount name)) ->
  argCount <> arity ->
  call FRAMES_MAX closure argCount s = RuntimeError 2.
Proof.
  intros Hc Hf Hne. unfold call, closure_of, function_arity, deref. run.
  rewrite Hc. cbn. rewrite Hf. cbn.
  apply Z.eqb_neq in Hne. rewrite Hne. reflexivity.
Qed.

Lemma isOfType_object (s : Machine) (t : ObjType) (x : Value) (o : Obj) :
  isObj x = true -> heap s !! decodeObj x = Some o ->
  isOfType t x s = Ok (bool_decide (type o = t), s).
Proof.
  intros Hx Ho. unfold isOfType, isObjOfType. rewrite Hx, Ho. reflexivity.
Qed.

Lemma isOfType_true (s : Machine) (t : ObjType) (x : Value) (o : Obj) :
  isObj x = true -> heap s !! decodeObj x = Some o -> type o = t ->
  isOfType t x s = Ok (true, s).
Proof.
  intros Hx Ho Ht. rewrite (isOfType_object s t x o) by assumption.
  now rewrite bool_decide_eq_true_2.
Qed.

Lemma isOfType_false (s : Machine) (t : ObjType) (x : Value) (o : Obj) :
  isObj x = true -> heap s !! decodeObj x = Some o -> type o <> t ->
  isOfType t x s = Ok (false, s).
Proof.
  intros Hx Ho Ht. rewrite (isOfType_object s t x o) by assumption.
  now rewrite bool_decide_eq_false_2.
Qed.

Lemma isOfType_immediate (s : Machine) (t : ObjType) (x : Value) :
  isObj x = false -> isOfType t x s = Ok (false, s).
Proof. intros Hx. unfold isOfType, isObjOfType. rewrite Hx. reflexivity. Qed.

Lemma pop_top (s : Machine) (below : list Value) (v : Value) :
  stack s = below ++ [v] -> pop s = Ok (v, set_stack below s).
Proof.
  intros Hs. unfold pop. rewrite Hs, rev_app_distr. cbn.
  rewrite rev_involutive. reflexivity.
Qed.

Lemma slot_lookup (s : Machine) (i : Z) (v : Value) :
  0 <= i -> stack s !! Z.to_nat i = Some v -> slot i s = Ok (v, s).
Proof.
  intros Hi Hv. unfold slot, stackTop.
  apply lookup_lt_Some in Hv as Hlt.
  replace ((0 <=? i) && (i <? Z.of_nat (length (stack s)))) with true
    by (symmetry; apply andb_true_intro; split; [apply Z.leb_le | apply Z.ltb_lt]; lia).
  rewrite Hv. reflexivity.
Qed.

Lemma peek_lookup (s : Machine) (depth : Z) (v : Value) :
  0 <= stackTop s - 1 - depth ->
  stack s !! Z.to_nat (stackTop s - 1 - depth) = Some v ->
  peek depth s = Ok (v, s).
Proof. intros Hd Hv. unfold peek, get. run. now apply slot_lookup. Qed.

(** The object kinds [callValue] has a case for. *)
Definition callable (t : ObjType) : bool :=
  match t with
  | CLOSURE | NATIVE | BOUND_NATIVE | CLASS | BOUND_METHOD => true
  | _ => false
  end.

Lemma callValue_not_object (s : Machine) (callee : Value) (argCount : Z) :
  isObj callee = false ->
  callValue FRAMES_MAX fresh runNative callee argCount s = RuntimeError 3.
Proof. intros Hc. unfold callValue. rewrite Hc. reflexivity. Qed.

Lemma callValue_not_callable (s : Machine) (callee : Value) (o : Obj) (argCount : Z) :
  isObj callee = true ->
  heap s !! decodeObj callee = Some o ->
  callable (type o) = false ->
  callValue FRAMES_MAX fresh runNative callee argCount s = RuntimeError 3.
Proof.
  intros Hc Ho Ht. unfold callValue, deref. rewrite Hc. run. rewrite Ho. cbn.
  destruct o as [m d]. unfold type in Ht. cbn in *.
  destruct d; cbn in Ht; try discriminate; reflexivity.
Qed.

Lemma callValue_closure_arity (s : Machine) (callee : Value) (f : Z) (mc mf : bool)
    (upvals : list Z) (off coff arity ucount : Z) (name : string) (argCount : Z) :
  isObj callee = true ->
  heap s !! decodeObj callee = Some (mkObj mc (ObjClosure f upvals)) ->
  heap s !! f = Some (mkObj mf (ObjFunc off coff arity ucount name)) ->
  argCount <> arity ->
  callValue FRAMES_MAX fresh runNative callee argCount s = RuntimeError 2.
Proof.
  intros Hc Ho Hf Hne. unfold callValue, deref. rewrite Hc. run. rewrite Ho. cbn.
  eapply call_arity_mismatch; eassumption.
Qed.

(** [CALL argc] on a value that is no closure, native, bound native, class
    or bound method signals code 3, and on a closure of another arity
    code 2. *)
Lemma op_CALL_not_callable (s : Machine) (argCount : Z) (callee : Value) :
  0 <= ip s -> bytecode !! Z.to_nat (ip s) = Some argCount ->
  is_Some (frames s !! frame s) ->
  0 <= stackTop s - 1 - argCount ->
  stack s !! Z.to_nat (stackTop s - 1 - argCount) = Some callee ->
  (isObj callee = false
   \/ exists o, isObj callee = true /\ heap s !! decodeObj callee = Some o
                /\ callable (type o) = false) ->
  op_CALL FRAMES_MAX bytecode fresh runNative s = RuntimeError 3.
Proof.
  intros Hip Hb [f Hf] Hd Hv Hcallee.
  unfold op_CALL, READ_BYTE, STORE_FRAME. run.
  apply Z.leb_le in Hip. rewrite Hip, Hb. cbn. rewrite Hf. cbn.
  rewrite (peek_lookup _ argCount callee) by assumption.
  destruct Hcallee as [Hn | (o & Hobj & Ho & Ht)].
  - now rewrite callValue_not_object.
  - now rewrite (callValue_not_callable _ callee o).
Qed.

Lemma op_CALL_arity_mismatch (s : Machine) (argCount : Z) (callee : Value) (f : Z)
    (mc mf : bool) (upvals : list Z) (off coff arity ucount : Z) (name : string) :
  0 <= ip s -> bytecode !! Z.to_nat (ip s) = Some argCount ->
  is_Some (frames s !! frame s) ->
  0 <= stackTop s - 1 - argCount ->
  stack s !! Z.to_nat (stackTop s - 1 - argCount) = Some callee ->
  isObj callee = true ->
  heap s !! decodeObj callee = Some (mkObj mc (ObjClosure f upvals)) ->
  heap s !! f = Some (mkObj mf (ObjFunc off coff arity ucount name)) ->
  argCount <> arity ->
  op_CALL FRAMES_MAX bytecode fresh runNative s = RuntimeError 2.
Proof.
  intros Hip Hb [fr Hfr] Hd Hv Hobj Ho Hf Hne.
  unfold op_CALL, READ_BYTE, STORE_FRAME. run.
  apply Z.leb_le in Hip. rewrite Hip, Hb. cbn. rewrite Hfr. cbn.
  rewrite (peek_lookup _ argCount callee) by assumption.
  now rewrite (callValue_closure_arity _ callee f mc mf upvals off coff arity ucount name).
Qed.

(** *** Array bounds *)

Lemma isInt_encodeInt (i : Z) : isInt (encodeInt i) = true.
Proof. unfold isInt. rewrite getType_encodeInt. reflexivity. Qed.

(** An index below zero, and an index at or past the length of an array
    that is not empty, signal code 9. *)
Lemma checkArrayBounds_out_of_range
    (s : Machine) (i : Z) (callee : Value) (values : list Value) :
  - 2 ^ 31 <= i < 2 ^ 31 ->
  values <> [] ->
  i < 0 \/ Z.of_nat (length values) <= i ->
  checkArrayBounds (encodeInt i) callee values s = RuntimeError 9.
Proof.
  intros Hi Hne Hout. unfold checkArrayBounds.
  rewrite isInt_encodeInt, decodeInt_encodeInt by assumption. cbn [negb].
  assert (0 < Z.of_nat (length values)) by (destruct values; [congruence | cbn; lia]).
  assert (Z.of_nat (length values) < 2 ^ 31 \/ 2 ^ 31 <= Z.of_nat (length values)) as Hlen by lia.
  destruct (Z.ltb_spec i 0) as [Hneg | Hpos]; [reflexivity |].
  destruct Hout as [? | Hge]; [lia |].
  rewrite (Z.mod_small (Z.of_nat (length values) - 1)) by lia.
  rewrite (Z.mod_small i) by lia.
  destruct (Z.ltb_spec (Z.of_nat (length values) - 1) i); [reflexivity | lia].
Qed.

Lemma checkArrayBounds_in_range
    (s : Machine) (i : Z) (callee : Value) (values : list Value) :
  0 <= i < Z.of_nat (length values) -> i < 2 ^ 31 ->
  Z.of_nat (length values) < 2 ^ 64 ->
  checkArrayBounds (encodeInt i) callee values s = Ok (i, s).
Proof.
  intros Hi Hi32 Hlen. unfold checkArrayBounds.
  rewrite isInt_encodeInt, decodeInt_encodeInt by lia. cbn [negb].
  destruct (Z.ltb_spec i 0); [lia |].
  rewrite (Z.mod_small (Z.of_nat (length values) - 1)) by lia.
  rewrite (Z.mod_small i) by lia.
  destruct (Z.ltb_spec (Z.of_nat (length values) - 1) i); [lia | reflexivity].
Qed.

(** On an empty array the bound [values.size() - 1] wraps to the largest
    64-bit number, so no index from 0 on is rejected: the check returns
    the index. *)
Lemma checkArrayBounds_empty (s : Machine) (i : Z) (callee : Value) :
  0 <= i < 2 ^ 31 ->
  checkArrayBounds (encodeInt i) callee [] s = Ok (i, s).
Proof.
  intros Hi. unfold checkArrayBounds.
  rewrite isInt_encodeInt, decodeInt_encodeInt by lia. cbn [negb length].
  destruct (Z.ltb_spec i 0); [lia |].
  change ((Z.of_nat 0 - 1) mod 2 ^ 64) with (2 ^ 64 - 1).
  rewrite (Z.mod_small i) by lia.
  destruct (Z.ltb_spec (2 ^ 64 - 1) i); [lia | reflexivity].
Qed.

Lemma pop_two (s : Machine) (below : list Value) (callee field : Value) :
  stack s = below ++ [callee; field] ->
  pop s = Ok (field, set_stack (below ++ [callee]) s)
  /\ pop (set_stack (below ++ [callee]) s) = Ok (callee, set_stack below s).
Proof.
  intros Hs. split.
  - apply pop_top. rewrite Hs. now rewrite <- app_assoc.
  - rewrite (pop_top _ below callee) by reflexivity. reflexivity.
Qed.

(** X25: [GET] on a non-empty array with an int index that is negative or
    not below the number of elements signals code 9. *)
Lemma op_GET_index_out_of_range (s : Machine) (below : list Value)
    (callee : Value) (i : Z) (m : bool) (values : list Value) (n : Z) :
  stack s = below ++ [callee; encodeInt i] ->
  isObj callee = true ->
  heap s !! decodeObj callee = Some (mkObj m (ObjArray values n)) ->
  - 2 ^ 31 <= i < 2 ^ 31 ->
  values <> [] ->
  i < 0 \/ Z.of_nat (length values) <= i ->
  op_GET STACK_MAX s = RuntimeError 9.
Proof.
  intros Hs Hobj Ho Hi Hne Hout.
  destruct (pop_two s below callee (encodeInt i) Hs) as [Hp1 Hp2].
  unfold op_GET. run. rewrite Hp1, Hp2.
  rewrite (isOfType_true _ ARRAY callee (mkObj m (ObjArray values n))) by easy.
  cbn. unfold array_of, deref. run. cbn. rewrite Ho. cbn.
  now rewrite checkArrayBounds_out_of_range.
Qed.

(** C4: [GET] on an empty array with an index from 0 on does not signal
    code 9: the bounds check lets the index through and the handler reads
    past the end of the vector. *)
Theorem op_GET_empty_array (s : Machine) (below : list Value)
    (callee : Value) (i : Z) (m : bool) (n : Z) :
  stack s = below ++ [callee; encodeInt i] ->
  isObj callee = true ->
  heap s !! decodeObj callee = Some (mkObj m (ObjArray [] n)) ->
  0 <= i < 2 ^ 31 ->
  op_GET STACK_MAX s = Fault.
Proof.
  intros Hs Hobj Ho Hi.
  destruct (pop_two s below callee (encodeInt i) Hs) as [Hp1 Hp2].
  unfold op_GET. run. rewrite Hp1, Hp2.
  rewrite (isOfType_true _ ARRAY callee (mkObj m (ObjArray [] n))) by easy.
  cbn. unfold array_of, deref. run. cbn. rewrite Ho. cbn.
  rewrite checkArrayBounds_empty by assumption. reflexivity.
Qed.

(** *** Missing members *)

(** [GET] on a struct that has no field of the name given. *)
Lemma op_GET_missing_field (s : Machine) (below : list Value)
    (callee field : Value) (m mf : bool) (fields : gmap string Value) (name : string) :
  stack s = below ++ [callee; field] ->
  isObj callee = true ->
  heap s !! decodeObj callee = Some (mkObj m (ObjInstance nullptr fields)) ->
  isObj field = true ->
  heap s !! decodeObj field = Some (mkObj mf (ObjString name)) ->
  fields !! name = None ->
  op_GET STACK_MAX s = RuntimeError 4.
Proof.
  intros Hs Hobj Ho Hfobj Hf Hmiss.
  destruct (pop_two s below callee field Hs) as [Hp1 Hp2].
  unfold op_GET. run. rewrite Hp1, Hp2.
  rewrite (isOfType_false _ ARRAY callee (mkObj m (ObjInstance nullptr fields)))
    by easy.
  cbn.
  rewrite (isOfType_true _ INSTANCE callee (mkObj m (ObjInstance nullptr fields)))
    by easy.
  cbn. unfold instance_of, string_of, deref. run. cbn. rewrite Ho. cbn.
  rewrite (isOfType_true _ STRING field (mkObj mf (ObjString name))) by easy.
  cbn. rewrite Ho. cbn. rewrite Hf. cbn. rewrite Hmiss. reflexivity.
Qed.

(** Property access on an instance: the name is no field, no method of
    the instance's class (a struct has none) and no method of the common
    builtin table. *)
Lemma property_of_missing_member (s : Machine) (inst : Value) (m : bool)
    (klass : Z) (fields : gmap string Value) (name : string) :
  isObj inst = true ->
  heap s !! decodeObj inst = Some (mkObj m (ObjInstance klass fields)) ->
  fields !! name = None ->
  (klass = nullptr
   \/ exists mk cname methods super,
        heap s !! klass = Some (mkObj mk (ObjClass cname methods super))
        /\ methods !! name = None) ->
  nativeMethods Builtin.COMMON !! name = None ->
  property_of STACK_MAX nativeMethods fresh inst name s = RuntimeError 4.
Proof.
  intros Hobj Ho Hmiss Hk Hnat.
  unfold property_of. run.
  rewrite (isOfType_true _ INSTANCE inst (mkObj m (ObjInstance klass fields)))
    by easy.
  cbn. unfold instance_of, deref. run. rewrite Ho. cbn. rewrite Hmiss.
  assert (bindMethodToPrimitive STACK_MAX nativeMethods fresh inst name s
          = RuntimeError 4) as Hprim.
  { unfold bindMethodToPrimitive, findNativeMethod, builtin_of, deref. run.
    rewrite Hobj. run. rewrite Ho. cbn. rewrite Hnat. reflexivity. }
  destruct Hk as [-> | (mk & cname & methods & super & Hc & Hm)].
  - cbn. exact Hprim.
  - destruct (klass =? nullptr); cbn; [exact Hprim |].
    unfold bindMethod, class_methods, deref. run. rewrite Hc. cbn. rewrite Hm. cbn.
    exact Hprim.
Qed.

(** *** Upvalue capture *)

Lemma set_slot_run (s : Machine) (i : Z) (v : Value) :
  0 <= i < stackTop s ->
  set_slot i v s = Ok (tt, set_stack (<[Z.to_nat i := v]> (stack s)) s).
Proof.
  intros Hi. unfold set_slot.
  replace ((0 <=? i) && (i <? stackTop s)) with true
    by (symmetry; apply andb_true_intro; split; [apply Z.leb_le | apply Z.ltb_lt]; lia).
  reflexivity.
Qed.

Lemma captureUpvalue_run (s : Machine) (local : Z) (v : Value) :
  0 <= local -> stack s !! Z.to_nat local = Some v ->
  captureUpvalue fresh local s
  = Ok (fresh (heap s),
        set_stack (<[Z.to_nat local := encodeObj (fresh (heap s))]> (stack s))
          (set_heap (<[fresh (heap s) := new (ObjUpval v)]> (heap s)) s)).
Proof.
  intros Hl Hv. unfold captureUpvalue, new_object. run.
  rewrite (slot_lookup s local v) by assumption. cbn.
  rewrite set_slot_run; [reflexivity |].
  apply lookup_lt_Some in Hv. unfold stackTop. cbn. lia.
Qed.

(** X24: capturing a local that has been captured before makes a second
    cell, which holds the first cell and not the value of the local; the
    slot now refers to the second cell. *)
Lemma captureUpvalue_twice (s : Machine) (local : Z) (v : Value) :
  0 <= local -> stack s !! Z.to_nat local = Some v ->
  let p1 := fresh (heap s) in
  let h1 := <[p1 := new (ObjUpval v)]> (heap s) in
  let p2 := fresh h1 in
  (a ← captureUpvalue fresh local; b ← captureUpvalue fresh local; mret (a, b)) s
  = Ok ((p1, p2),
        set_stack (<[Z.to_nat local := encodeObj p2]> (stack s))
          (set_heap (<[p2 := new (ObjUpval (encodeObj p1))]> h1) s)).
Proof.
  intros Hl Hv p1 h1 p2. run.
  rewrite (captureUpvalue_run s local v) by assumption.
  apply lookup_lt_Some in Hv as Hlt.
  rewrite (captureUpvalue_run _ local (encodeObj p1)); cbn.
  - rewrite list_insert_insert_eq. reflexivity.
  - assumption.
  - now apply list_lookup_insert_eq.
Qed.

(** *** Switch dispatch *)

(** The operands of [SWITCH] from [i] on are the one-byte indices of the
    constants [cs]. *)
Inductive case_constants_at (co : Z) : Z -> list Value -> Prop :=
| case_constants_nil (i : Z) : case_constants_at co i []
| case_constants_cons (i k : Z) (c : Value) (rest : list Value) :
    0 <= i -> bytecode !! Z.to_nat i = Some k ->
    0 <= co + k -> constants !! Z.to_nat (co + k) = Some c ->
    case_constants_at co (i + 1) rest ->
    case_constants_at co i (c :: rest).

(** The case whose constant is the first that is the same word as [val]. *)
Fixpoint first_match (val : Value) (cs : list Value) : option Z :=
  match cs with
  | [] => None
  | c :: rest => if val =? c then Some 0 else Z.succ <$> first_match val rest
  end.

(** A big-endian 16-bit operand is stored at [i]. *)
Definition short_at (i n : Z) : Prop :=
  exists hi lo, 0 <= i /\ 0 <= hi < 256 /\ 0 <= lo < 256
                /\ bytecode !! Z.to_nat i = Some hi
                /\ bytecode !! Z.to_nat (i + 1) = Some lo
                /\ n = 256 * hi + lo.

Lemma READ_SHORT_at (s : Machine) (n : Z) :
  short_at (ip s) n -> READ_SHORT bytecode s = Ok (n, set_ip (ip s + 2) s).
Proof.
  intros (hi & lo & Hip & Hhi & Hlo & Hb1 & Hb2 & ->).
  unfold READ_SHORT, READ_BYTE. run.
  replace (0 <=? ip s) with true by (symmetry; apply Z.leb_le; lia).
  rewrite Hb1. cbn.
  replace (0 <=? ip s + 1) with true by (symmetry; apply Z.leb_le; lia).
  rewrite Hb2. cbn.
  rewrite Z.shiftl_mul_pow2 by lia.
  rewrite (lor_hi_lo hi lo 8) by lia.
  rewrite Z.mod_small by lia.
  do 2 f_equal; [lia |].
  unfold set_ip. cbn. f_equal. lia.
Qed.

Lemma READ_CONSTANT_at (s : Machine) (k : Z) (c : Value) :
  0 <= ip s -> bytecode !! Z.to_nat (ip s) = Some k ->
  0 <= constantOffset s + k -> constants !! Z.to_nat (constantOffset s + k) = Some c ->
  READ_CONSTANT bytecode constants s = Ok (c, set_ip (ip s + 1) s).
Proof.
  intros Hi Hb Hk Hc. unfold READ_CONSTANT, READ_BYTE, constant_at. run.
  apply Z.leb_le in Hi, Hk. rewrite Hi, Hb. cbn. rewrite Hk, Hc. reflexivity.
Qed.

Lemma switch_scan_run (cs : list Value) :
  forall (s : Machine) (i : Z) (val : Value),
    case_constants_at (constantOffset s) (ip s) cs ->
    exists ip',
      switch_scan (READ_CONSTANT bytecode constants) (length cs) i val s
      = Ok ((fun j => i + j) <$> first_match val cs, set_ip ip' s).
Proof.
  induction cs as [| c rest IH]; intros s i val Hcs.
  - exists (ip s). cbn. unfold mret, M_ret. do 2 f_equal. now destruct s.
  - inversion Hcs as [| i' k c' rest' Hi Hb Hk Hc Hrest]; subst.
    cbn [length switch_scan first_match]. run.
    rewrite (READ_CONSTANT_at s k c) by assumption.
    destruct (val =? c).
    + exists (ip s + 1). cbn. now rewrite Z.add_0_r.
    + destruct (IH (set_ip (ip s + 1) s) (i + 1) val Hrest) as [ip' Hrun].
      exists ip'. rewrite Hrun. f_equal. f_equal.
      destruct (first_match val rest); cbn; f_equal. lia.
Qed.

(** [SWITCH] leaves [ip] where the jump says that is stored for the first
    constant equal (as a 64-bit word) to the scrutinee, and where the
    jump of the last slot says when no constant is. *)
Lemma op_SWITCH_target (s : Machine) (below : list Value) (val : Value)
    (cs : list Value) (jmp : Z) :
  stack s = below ++ [val] ->
  short_at (ip s) (Z.of_nat (length cs)) ->
  case_constants_at (constantOffset s) (ip s + 2) cs ->
  let slot_ := ip s + 2 + Z.of_nat (length cs)
               + 2 * default (Z.of_nat (length cs)) (first_match val cs) in
  short_at slot_ jmp ->
  op_SWITCH bytecode constants s
  = Ok (tt, set_ip (slot_ + 2 + jmp) (set_stack below s)).
Proof.
  intros Hs Hn Hcs slot_ Hjmp.
  unfold op_SWITCH, switch_on. run.
  rewrite (pop_top s below val Hs).
  rewrite (READ_SHORT_at _ (Z.of_nat (length cs))) by exact Hn.
  unfold get. cbn. rewrite Nat2Z.id.
  destruct (switch_scan_run cs (set_ip (ip s + 2) (set_stack below s)) 0 val Hcs)
    as [ip' Hrun].
  rewrite Hrun. cbn. unfold modify. cbn.
  set (target := match (fun j => 0 + j) <$> first_match val cs with
                 | Some j => ip s + 2 + Z.of_nat (length cs) * 1 + j * 2
                 | None => ip s + 2 + Z.of_nat (length cs) * 1 + Z.of_nat (length cs) * 2
                 end).
  assert (target = slot_) as ->.
  { subst target slot_. destruct (first_match val cs); cbn; lia. }
  rewrite (READ_SHORT_at _ jmp) by exact Hjmp.
  reflexivity.
Qed.

(** *** Struct literals *)

Lemma peek_top (s : Machine) (below : list Value) (v : Value) :
  stack s = below ++ [v] -> peek 0 s = Ok (v, s).
Proof.
  intros Hs. apply peek_lookup; unfold stackTop; rewrite Hs, length_app; cbn; [lia |].
  replace (Z.to_nat (Z.of_nat (length below + 1) - 1 - 0)) with (length below) by lia.
  now rewrite list_lookup_middle.
Qed.

(** [SET] with a string key on a struct inserts or overwrites the field of
    that name, whatever the name is. *)
Lemma op_SET_struct (s : Machine) (below : list Value) (val callee field : Value)
    (m mf : bool) (fields : gmap string Value) (name : string) :
  stack s = below ++ [val; callee; field] ->
  isObj callee = true ->
  heap s !! decodeObj callee = Some (mkObj m (ObjInstance nullptr fields)) ->
  isObj field = true ->
  heap s !! decodeObj field = Some (mkObj mf (ObjString name)) ->
  op_SET s
  = Ok (tt, set_heap (<[decodeObj callee :=
                          mkObj m (ObjInstance nullptr (<[name := val]> fields))]> (heap s))
              (set_stack (below ++ [val]) s)).
Proof.
  intros Hs Hobj Ho Hfobj Hf.
  destruct (pop_two s (below ++ [val]) callee field) as [Hp1 Hp2];
    [rewrite Hs, <- app_assoc; reflexivity |].
  unfold op_SET. run. rewrite Hp1, Hp2.
  rewrite (peek_top _ below val) by reflexivity.
  rewrite (isOfType_false _ ARRAY callee (mkObj m (ObjInstance nullptr fields))) by easy.
  cbn.
  rewrite (isOfType_true _ INSTANCE callee (mkObj m (ObjInstance nullptr fields))) by easy.
  cbn. unfold instance_of, string_of, deref, store. run. cbn. rewrite Ho. cbn.
  rewrite (isOfType_true _ STRING field (mkObj mf (ObjString name))) by easy.
  cbn. rewrite Ho. cbn. rewrite Hf. cbn. rewrite Ho. reflexivity.
Qed.

Lemma READ_STRING_at (s : Machine) (i : Z) (c : Value) (mc : bool) (name : string) :
  0 <= ip s -> bytecode !! Z.to_nat (ip s) = Some i ->
  0 <= constantOffset s + i ->
  constants !! Z.to_nat (constantOffset s + i) = Some c ->
  heap s !! decodeObj c = Some (mkObj mc (ObjString name)) ->
  READ_STRING bytecode constants s = Ok (name, set_ip (ip s + 1) s).
Proof.
  intros Hip Hb Hk Hc Hs.
  unfold READ_STRING, READ_CONSTANT, READ_BYTE, constant_at, string_of, deref. run.
  apply Z.leb_le in Hip, Hk. rewrite Hip, Hb. cbn. rewrite Hk, Hc. cbn.
  rewrite Hs. reflexivity.
Qed.

(** [SET_PROPERTY] does not look at the class pointer: on a struct it
    inserts or overwrites the field named by its operand. *)
Lemma op_SET_PROPERTY_struct (s : Machine) (below : list Value) (val inst : Value)
    (m mc : bool) (klass : Z) (fields : gmap string Value)
    (i : Z) (c : Value) (name : string) :
  stack s = below ++ [val; inst] ->
  isObj inst = true ->
  heap s !! decodeObj inst = Some (mkObj m (ObjInstance klass fields)) ->
  0 <= ip s -> bytecode !! Z.to_nat (ip s) = Some i ->
  0 <= constantOffset s + i ->
  constants !! Z.to_nat (constantOffset s + i) = Some c ->
  heap s !! decodeObj c = Some (mkObj mc (ObjString name)) ->
  op_SET_PROPERTY bytecode constants s
  = Ok (tt, set_heap (<[decodeObj inst :=
                          mkObj m (ObjInstance klass (<[name := val]> fields))]> (heap s))
              (set_ip (ip s + 1) (set_stack (below ++ [val]) s))).
Proof.
  intros Hs Hobj Ho Hip Hb Hk Hc Hstr.
  unfold op_SET_PROPERTY, set_property. run.
  rewrite (pop_top s (below ++ [val]) inst) by (rewrite Hs, <- app_assoc; reflexivity).
  rewrite (isOfType_true _ INSTANCE inst (mkObj m (ObjInstance klass fields))) by easy.
  cbn. unfold instance_of, deref. run. cbn. rewrite Ho. cbn.
  rewrite (READ_STRING_at _ i c mc name) by assumption.
  rewrite (peek_top _ below val) by reflexivity.
  unfold store. cbn. rewrite Ho. reflexivity.
Qed.

(** The operands of [CREATE_STRUCT] from [ip] on name the fields [names]:
    each byte is the index of a string constant. *)
Inductive names_at (h : gmap Z Obj) (co : Z) : Z -> list string -> Prop :=
| names_at_nil (i : Z) : names_at h co i []
| names_at_cons (i k : Z) (c : Value) (mc : bool) (name : string) (rest : list string) :
    0 <= i -> bytecode !! Z.to_nat i = Some k ->
    0 <= co + k -> constants !! Z.to_nat (co + k) = Some c ->
    h !! decodeObj c = Some (mkObj mc (ObjString name)) ->
    names_at h co (i + 1) rest ->
    names_at h co i (name :: rest).

Lemma names_at_insert (h : gmap Z Obj) (co i : Z) (names : list string) (p : Z) (o : Obj) :
  h !! p = None -> names_at h co i names -> names_at (<[p := o]> h) co i names.
Proof.
  intros Hp. induction 1 as [| i k c mc name rest Hi Hb Hk Hc Hs _ IH];
    [constructor |].
  econstructor; try eassumption.
  rewrite lookup_insert_ne by congruence. exact Hs.
Qed.

(** The fields that the loop of [CREATE_STRUCT] builds from the names it
    reads and the values it pops. *)
Definition fields_of (acc : gmap string Value) (names : list string) (vals : list Value)
    : gmap string Value :=
  foldl (fun a nv => <[nv.1 := nv.2]> a) acc (zip names vals).

Lemma struct_fields_run (names : list string) :
  forall (s : Machine) (vals : list Value) (acc : gmap string Value) (below : list Value),
    names_at (heap s) (constantOffset s) (ip s) names ->
    length vals = length names ->
    stack s = below ++ rev vals ->
    struct_fields (READ_STRING bytecode constants) (length names) acc s
    = Ok (fields_of acc names vals,
          set_ip (ip s + Z.of_nat (length names)) (set_stack below s)).
Proof.
  induction names as [| name rest IH]; intros s vals acc below Hn Hlen Hs.
  - destruct vals; [| discriminate]. cbn in *. rewrite app_nil_r in Hs.
    unfold mret, M_ret. do 2 f_equal.
    destruct s as [st fr f i sl co g h]. cbn in *. subst st.
    unfold set_ip, set_stack. cbn. f_equal. lia.
  - destruct vals as [| v vs]; [discriminate |]. cbn in Hlen, Hs.
    inversion Hn as [| i k c mc name' rest' Hi Hb Hk Hc Hstr Hrest]; subst.
    cbn [length struct_fields]. run.
    rewrite (READ_STRING_at s k c mc name) by assumption.
    rewrite (pop_top _ (below ++ rev vs) v) by (cbn; rewrite Hs, app_assoc; reflexivity).
    rewrite (IH _ vs (<[name := v]> acc) below); cbn; try assumption; try lia; try reflexivity.
    unfold fields_of. cbn. do 2 f_equal.
    unfold set_ip, set_stack. cbn. f_equal. lia.
Qed.

(** [CREATE_STRUCT] builds a struct (an instance with a null class) whose
    field names are exactly the names that follow the opcode. *)
Lemma op_CREATE_STRUCT_fields (s : Machine) (names : list string)
    (vals below : list Value) :
  0 <= ip s ->
  bytecode !! Z.to_nat (ip s) = Some (Z.of_nat (length names)) ->
  names_at (heap s) (constantOffset s) (ip s + 1) names ->
  length vals = length names ->
  stack s = below ++ rev vals ->
  heap s !! fresh (heap s) = None ->
  Z.of_nat (length below) < STACK_MAX ->
  let p := fresh (heap s) in
  let fields := fields_of ∅ names vals in
  op_CREATE_STRUCT STACK_MAX bytecode constants fresh s
  = Ok (tt, set_heap (<[p := new (ObjInstance nullptr fields)]> (heap s))
              (set_ip (ip s + 1 + Z.of_nat (length names))
                      (set_stack (below ++ [encodeObj p]) s)))
  /\ dom fields = list_to_set names.
Proof.
  intros Hip Hb Hn Hlen Hs Hfresh Hroom p fields. split.
  - unfold op_CREATE_STRUCT, create_struct, READ_BYTE, new_object. run.
    apply Z.leb_le in Hip. rewrite Hip, Hb. cbn. rewrite Nat2Z.id.
    rewrite (struct_fields_run names _ vals ∅ below); cbn;
      [| now apply names_at_insert | assumption | assumption].
    unfold store, push, stackTop. cbn. rewrite lookup_insert_eq. cbn.
    destruct (Z.leb_spec STACK_MAX (Z.of_nat (length below))); [lia |].
    rewrite insert_insert_eq. reflexivity.
  - subst fields. unfold fields_of. clear -Hlen.
    assert (forall acc : gmap string Value,
               dom (foldl (fun a nv => <[nv.1 := nv.2]> a) acc (zip names vals))
               = list_to_set names ∪ dom acc) as Hgen.
    { revert vals Hlen. induction names as [| n rest IH]; intros vals Hlen acc.
      - cbn. set_solver.
      - destruct vals as [| v vs]; [discriminate |]. cbn.
        rewrite (IH vs) by (cbn in Hlen; lia). rewrite dom_insert_L. set_solver. }
    rewrite Hgen. set_solver.
Qed.

(** The [_LONG] forms read a 16-bit index of the constant. *)
Lemma READ_STRING_LONG_at (s : Machine) (i : Z) (c : Value) (mc : bool) (name : string) :
  short_at (ip s) i ->
  0 <= constantOffset s + i ->
  constants !! Z.to_nat (constantOffset s + i) = Some c ->
  heap s !! decodeObj c = Some (mkObj mc (ObjString name)) ->
  READ_STRING_LONG bytecode constants s = Ok (name, set_ip (ip s + 2) s).
Proof.
  intros Hsh Hk Hc Hs.
  unfold READ_STRING_LONG, READ_CONSTANT_LONG. run.
  rewrite (READ_SHORT_at s i Hsh). unfold constant_at, string_of, deref. run. cbn.
  apply Z.leb_le in Hk. rewrite Hk, Hc. cbn. rewrite Hs. reflexivity.
Qed.

Lemma op_SET_PROPERTY_LONG_struct (s : Machine) (below : list Value) (val inst : Value)
    (m mc : bool) (klass : Z) (fields : gmap string Value)
    (i : Z) (c : Value) (name : string) :
  stack s = below ++ [val; inst] ->
  isObj inst = true ->
  heap s !! decodeObj inst = Some (mkObj m (ObjInstance klass fields)) ->
  short_at (ip s) i ->
  0 <= constantOffset s + i ->
  constants !! Z.to_nat (constantOffset s + i) = Some c ->
  heap s !! decodeObj c = Some (mkObj mc (ObjString name)) ->
  op_SET_PROPERTY_LONG bytecode constants s
  = Ok (tt, set_heap (<[decodeObj inst :=
                          mkObj m (ObjInstance klass (<[name := val]> fields))]> (heap s))
              (set_ip (ip s + 2) (set_stack (below ++ [val]) s))).
Proof.
  intros Hs Hobj Ho Hsh Hk Hc Hstr.
  unfold op_SET_PROPERTY_LONG, set_property. run.
  rewrite (pop_top s (below ++ [val]) inst) by (rewrite Hs, <- app_assoc; reflexivity).
  rewrite (isOfType_true _ INSTANCE inst (mkObj m (ObjInstance klass fields))) by easy.
  cbn. unfold instance_of, deref. run. cbn. rewrite Ho. cbn.
  rewrite (READ_STRING_LONG_at _ i c mc name) by assumption.
  rewrite (peek_top _ below val) by reflexivity.
  unfold store. cbn. rewrite Ho. reflexivity.
Qed.

(** The operands of [CREATE_STRUCT_LONG] from [ip] on name the fields
    [names]: each pair of bytes is the index of a string constant. *)
Inductive names_at_long (h : gmap Z Obj) (co : Z) : Z -> list string -> Prop :=
| names_at_long_nil (i : Z) : names_at_long h co i []
| names_at_long_cons (i k : Z) (c : Value) (mc : bool) (name : string)
    (rest : list string) :
    short_at i k ->
    0 <= co + k -> constants !! Z.to_nat (co + k) = Some c ->
    h !! decodeObj c = Some (mkObj mc (ObjString name)) ->
    names_at_long h co (i + 2) rest ->
    names_at_long h co i (name :: rest).

Lemma names_at_long_insert (h : gmap Z Obj) (co i : Z) (names : list string)
    (p : Z) (o : Obj) :
  h !! p = None -> names_at_long h co i names -> names_at_long (<[p := o]> h) co i names.
Proof.
  intros Hp. induction 1 as [| i k c mc name rest Hsh Hk Hc Hs _ IH];
    [constructor |].
  econstructor; try eassumption.
  rewrite lookup_insert_ne by congruence. exact Hs.
Qed.

Lemma struct_fields_long_run (names : list string) :
  forall (s : Machine) (vals : list Value) (acc : gmap string Value) (below : list Value),
    names_at_long (heap s) (constantOffset s) (ip s) names ->
    length vals = length names ->
    stack s = below ++ rev vals ->
    struct_fields (READ_STRING_LONG bytecode constants) (length names) acc s
    = Ok (fields_of acc names vals,
          set_ip (ip s + 2 * Z.of_nat (length names)) (set_stack below s)).
Proof.
  induction names as [| name rest IH]; intros s vals acc below Hn Hlen Hs.
  - destruct vals; [| discriminate]. cbn in *. rewrite app_nil_r in Hs.
    unfold mret, M_ret. do 2 f_equal.
    destruct s as [st fr f i sl co g h]. cbn in *. subst st.
    unfold set_ip, set_stack. cbn. f_equal. lia.
  - destruct vals as [| v vs]; [discriminate |]. cbn in Hlen, Hs.
    inversion Hn as [| i k c mc name' rest' Hsh Hk Hc Hstr Hrest]; subst.
    cbn [length struct_fields]. run.
    rewrite (READ_STRING_LONG_at s k c mc name) by assumption.
    rewrite (pop_top _ (below ++ rev vs) v) by (cbn; rewrite Hs, app_assoc; reflexivity).
    rewrite (IH _ vs (<[name := v]> acc) below); cbn; try assumption; try lia; try reflexivity.
    unfold fields_of. cbn. do 2 f_equal.
    unfold set_ip, set_stack. cbn. f_equal. lia.
Qed.

Lemma dom_fields_of (names : list string) (vals : list Value) :
  length vals = length names -> dom (fields_of ∅ names vals) = list_to_set names.
Proof.
  intros Hlen. unfold fields_of.
  assert (forall acc : gmap string Value,
             dom (foldl (fun a nv => <[nv.1 := nv.2]> a) acc (zip names vals))
             = list_to_set names ∪ dom acc) as Hgen.
  { revert vals Hlen. induction names as [| n rest IH]; intros vals Hlen acc.
    - cbn. set_solver.
    - destruct vals as [| v vs]; [discriminate |]. cbn.
      rewrite (IH vs) by (cbn in Hlen; lia). rewrite dom_insert_L. set_solver. }
  rewrite Hgen. set_solver.
Qed.

Lemma op_CREATE_STRUCT_LONG_fields (s : Machine) (names : list string)
    (vals below : list Value) :
  0 <= ip s ->
  bytecode !! Z.to_nat (ip s) = Some (Z.of_nat (length names)) ->
  names_at_long (heap s) (constantOffset s) (ip s + 1) names ->
  length vals = length names ->
  stack s = below ++ rev vals ->
  heap s !! fresh (heap s) = None ->
  Z.of_nat (length below) < STACK_MAX ->
  let p := fresh (heap s) in
  let fields := fields_of ∅ names vals in
  op_CREATE_STRUCT_LONG STACK_MAX bytecode constants fresh s
  = Ok (tt, set_heap (<[p := new (ObjInstance nullptr fields)]> (heap s))
              (set_ip (ip s + 1 + 2 * Z.of_nat (length names))
                      (set_stack (below ++ [encodeObj p]) s)))
  /\ dom fields = list_to_set names.
Proof.
  intros Hip Hb Hn Hlen Hs Hfresh Hroom p fields.
  split; [| now apply dom_fields_of].
  unfold op_CREATE_STRUCT_LONG, create_struct, READ_BYTE, new_object. run.
  apply Z.leb_le in Hip. rewrite Hip, Hb. cbn. rewrite Nat2Z.id.
  rewrite (struct_fields_long_run names _ vals ∅ below); cbn;
    [| now apply names_at_long_insert | assumption | assumption].
  unfold store, push, stackTop. cbn. rewrite lookup_insert_eq. cbn.
  destruct (Z.leb_spec STACK_MAX (Z.of_nat (length below))); [lia |].
  rewrite insert_insert_eq. reflexivity.
Qed.

(** *** The field names of structs *)

(** The field names of [o], when [o] is a struct: an instance whose
    class pointer is null. *)
Definition names_of (o : Obj) : option (gset string) :=
  match data o with
  | ObjInstance klass fields => if klass =? nullptr then Some (dom fields) else None
  | _ => None
  end.

(** The field names of the struct at [p], when a struct lives there. *)
Definition struct_names (h : gmap Z Obj) (p : Z) : option (gset string) :=
  match h !! p with
  | Some o => names_of o
  | None => None
  end.

(** Every struct of [h] is a struct of [h'] with the same field names. *)
Definition keeps_structs (h h' : gmap Z Obj) : Prop :=
  forall p names, struct_names h p = Some names -> struct_names h' p = Some names.

(** Every struct of [h] is a struct of [h'] with the same field names,
    but for the struct at one address, which has its field names and
    [name]. *)
Definition writes_a_name (h h' : gmap Z Obj) : Prop :=
  exists (target : Z) (name : string),
    forall p names,
      struct_names h p = Some names ->
      struct_names h' p
      = Some (if bool_decide (p = target) then {[name]} ∪ names else names).

Lemma keeps_structs_refl (h : gmap Z Obj) : keeps_structs h h.
Proof. intros p names H. exact H. Qed.

Lemma keeps_structs_trans (h1 h2 h3 : gmap Z Obj) :
  keeps_structs h1 h2 -> keeps_structs h2 h3 -> keeps_structs h1 h3.
Proof. intros H12 H23 p names H. apply H23, H12, H. Qed.

Lemma keeps_structs_subseteq (h h' : gmap Z Obj) : h ⊆ h' -> keeps_structs h h'.
Proof.
  intros Hsub p names. unfold struct_names.
  destruct (h !! p) as [o |] eqn:Ho; [| discriminate].
  rewrite (lookup_weaken _ _ _ _ Ho Hsub). auto.
Qed.

(** Writing an object of the same struct names (or over an object that
    is no struct) keeps the structs. *)
Lemma keeps_structs_insert (h : gmap Z Obj) (p : Z) (o o' : Obj) :
  h !! p = Some o ->
  (forall names, names_of o = Some names -> names_of o' = Some names) ->
  keeps_structs h (<[p := o']> h).
Proof.
  intros Ho Hn q names. unfold struct_names.
  destruct (decide (q = p)) as [-> | Hne].
  - rewrite Ho, lookup_insert_eq. apply Hn.
  - rewrite lookup_insert_ne by congruence. auto.
Qed.

Lemma keeps_structs_insert_new (h : gmap Z Obj) (p : Z) (o : Obj) :
  h !! p = None -> keeps_structs h (<[p := o]> h).
Proof. intros Hp. apply keeps_structs_subseteq, insert_subseteq, Hp. Qed.

(** Code that leaves the heap as it is when it returns, and code that
    keeps the structs. *)
Definition pure {A} (m : M A) : Prop :=
  forall s a s', m s = Ok (a, s') -> heap s' = heap s.

Definition keeps {A} (m : M A) : Prop :=
  forall s a s', m s = Ok (a, s') -> keeps_structs (heap s) (heap s').

Lemma bind_Ok {A B} (m : M A) (k : A -> M B) (s : Machine) (r : B * Machine) :
  (m ≫= k) s = Ok r -> exists a s1, m s = Ok (a, s1) /\ k a s1 = Ok r.
Proof.
  unfold mbind, M_bind. destruct (m s) as [[a s1] | e |]; try discriminate.
  intros H. exists a, s1. auto.
Qed.

Lemma pure_keeps {A} (m : M A) : pure m -> keeps m.
Proof. intros H s a s' Hr. rewrite (H s a s' Hr). apply keeps_structs_refl. Qed.

Lemma pure_bind {A B} (m : M A) (k : A -> M B) :
  pure m -> (forall a, pure (k a)) -> pure (m ≫= k).
Proof.
  intros Hm Hk s b s' H. apply bind_Ok in H as (a & s1 & H1 & H2).
  rewrite (Hk a s1 b s' H2). exact (Hm s a s1 H1).
Qed.

Lemma keeps_bind {A B} (m : M A) (k : A -> M B) :
  keeps m -> (forall a, keeps (k a)) -> keeps (m ≫= k).
Proof.
  intros Hm Hk s b s' H. apply bind_Ok in H as (a & s1 & H1 & H2).
  exact (keeps_structs_trans _ _ _ (Hm s a s1 H1) (Hk a s1 b s' H2)).
Qed.

Lemma pure_ret {A} (a : A) : pure (mret a : M A).
Proof. intros s b s' H. injection H as _ <-. reflexivity. Qed.

Lemma pure_runtimeError {A} (e : Z) : pure (runtimeError e : M A).
Proof. intros s b s' H. discriminate. Qed.

Lemma pure_fault {A} : pure (fault : M A).
Proof. intros s b s' H. discriminate. Qed.

Lemma pure_lift {A} (o : option A) : pure (lift o).
Proof. destruct o; [apply pure_ret | apply pure_fault]. Qed.

Lemma pure_get : pure get.
Proof. intros s b s' H. injection H as _ <-. reflexivity. Qed.

Lemma pure_modify (f : Machine -> Machine) :
  (forall s, heap (f s) = heap s) -> pure (modify f).
Proof. intros Hf s b s' H. injection H as _ <-. apply Hf. Qed.

Lemma pure_slot (i : Z) : pure (slot i).
Proof. intros s a s' H. unfold slot in H. repeat case_match; simplify_eq. reflexivity. Qed.

Lemma pure_set_slot (i : Z) (v : Value) : pure (set_slot i v).
Proof. intros s a s' H. unfold set_slot in H. repeat case_match; simplify_eq. reflexivity. Qed.

Lemma pure_deref (p : Z) : pure (deref p).
Proof. intros s a s' H. unfold deref in H. repeat case_match; simplify_eq. reflexivity. Qed.

Lemma pure_isOfType (t : ObjType) (x : Value) : pure (isOfType t x).
Proof. intros s a s' H. unfold isOfType in H. repeat case_match; simplify_eq. reflexivity. Qed.

Lemma pure_pop : pure pop.
Proof. intros s a s' H. unfold pop in H. repeat case_match; simplify_eq. reflexivity. Qed.

Lemma pure_popn (n : Z) : pure (popn n).
Proof. intros s a s' H. unfold popn in H. repeat case_match; simplify_eq. reflexivity. Qed.

Lemma pure_set_global (i : Z) (v : Value) : pure (set_global i v).
Proof. intros s a s' H. unfold set_global in H. repeat case_match; simplify_eq. reflexivity. Qed.

Lemma pure_STORE_FRAME : pure STORE_FRAME.
Proof. intros s a s' H. unfold STORE_FRAME in H. repeat case_match; simplify_eq. reflexivity. Qed.

(** The opcodes that write a field of an instance under a name that the
    instruction gives. *)
Definition writes_field (op : OpCode.t) : bool :=
  match op with
  | OpCode.SET | OpCode.SET_PROPERTY | OpCode.SET_PROPERTY_LONG => true
  | _ => false
  end.

Abbreviation execute :=
  (execute STACK_MAX FRAMES_MAX bytecode constants nativeMethods fresh runNative
     double_arith double_neg double_of_int concat FLOAT_EQ toStringOther
     double_compare nativeFuncs newThread unsettled launch wait eraseChildThread
     fut).

Section Frame.

Lemma pure_push (v : Value) : pure (push STACK_MAX v).
Proof. intros s a s' H. unfold push in H. repeat case_match; simplify_eq. reflexivity. Qed.

Lemma pure_READ_BYTE : pure (READ_BYTE bytecode).
Proof. intros s a s' H. unfold READ_BYTE in H. repeat case_match; simplify_eq. reflexivity. Qed.

Lemma pure_constant_at (i : Z) : pure (constant_at constants i).
Proof. intros s a s' H. unfold constant_at in H. repeat case_match; simplify_eq. reflexivity. Qed.

Lemma pure_equals_values (x y : Value) : pure (equals_values FLOAT_EQ toStringOther x y).
Proof. intros s a s' H. unfold equals_values in H. repeat case_match; simplify_eq. reflexivity. Qed.

Create HintDb pure discriminated.
#[local] Hint Resolve pure_ret pure_runtimeError pure_fault pure_lift pure_get
  pure_slot pure_set_slot pure_deref pure_isOfType pure_pop pure_popn
  pure_set_global pure_STORE_FRAME pure_push pure_READ_BYTE pure_constant_at
  pure_equals_values : pure.

Ltac pure_step :=
  cbv beta zeta;
  lazymatch goal with
  | |- pure (mbind _ _) => apply pure_bind; [| intros]
  | |- pure (mret _) => apply pure_ret
  | |- pure (modify _) => apply pure_modify; intros; reflexivity
  | |- pure (match ?x with _ => _ end) => destruct x
  | |- pure _ => solve [auto with pure]
  end.
Ltac pure_tac := repeat pure_step.

Lemma pure_peek (d : Z) : pure (peek d).
Proof. unfold peek. pure_tac. Qed.
Lemma pure_poke (d : Z) (v : Value) : pure (poke d v).
Proof. unfold poke. pure_tac. Qed.
#[local] Hint Resolve pure_peek pure_poke : pure.

Lemma pure_READ_SHORT : pure (READ_SHORT bytecode).
Proof. unfold READ_SHORT. pure_tac. Qed.
#[local] Hint Resolve pure_READ_SHORT : pure.


Lemma pure_READ_CONSTANT : pure (READ_CONSTANT bytecode constants).
Proof. unfold READ_CONSTANT. pure_tac. Qed.
Lemma pure_READ_CONSTANT_LONG : pure (READ_CONSTANT_LONG bytecode constants).
Proof. unfold READ_CONSTANT_LONG. pure_tac. Qed.
Lemma pure_string_of (v : Value) : pure (string_of v).
Proof. unfold string_of. pure_tac. Qed.
#[local] Hint Resolve pure_READ_CONSTANT pure_READ_CONSTANT_LONG pure_string_of : pure.
Lemma pure_READ_STRING : pure (READ_STRING bytecode constants).
Proof. unfold READ_STRING. pure_tac. Qed.
Lemma pure_READ_STRING_LONG : pure (READ_STRING_LONG bytecode constants).
Proof. unfold READ_STRING_LONG. pure_tac. Qed.
Lemma pure_closure_of (p : Z) : pure (closure_of p).
Proof. unfold closure_of. pure_tac. Qed.
Lemma pure_function_arity (p : Z) : pure (function_arity p).
Proof. unfold function_arity. pure_tac. Qed.
#[local] Hint Resolve pure_READ_STRING pure_READ_STRING_LONG pure_closure_of
  pure_function_arity : pure.
Lemma pure_call (c n : Z) : pure (call FRAMES_MAX c n).
Proof. unfold call. pure_tac. Qed.
Lemma pure_collapse_receiver : pure collapse_receiver.
Proof. unfold collapse_receiver. pure_tac. Qed.
Lemma pure_class_methods (k : Z) : pure (class_methods k).
Proof. unfold class_methods. pure_tac. Qed.
Lemma pure_instance_of (v : Value) : pure (instance_of v).
Proof. unfold instance_of. pure_tac. Qed.
#[local] Hint Resolve pure_call pure_collapse_receiver pure_class_methods pure_instance_of : pure.
Lemma pure_invokeFromClass (k : Z) (n : string) (c : Z) :
  pure (invokeFromClass FRAMES_MAX k n c).
Proof. unfold invokeFromClass. pure_tac. Qed.
Lemma pure_builtin_of (v : Value) : pure (builtin_of v).
Proof. unfold builtin_of. pure_tac. Qed.
#[local] Hint Resolve pure_invokeFromClass pure_builtin_of : pure.
Lemma pure_findNativeMethod (v : Value) (n : string) :
  pure (findNativeMethod nativeMethods v n).
Proof. unfold findNativeMethod. pure_tac. Qed.
Lemma pure_LOAD_FRAME : pure LOAD_FRAME.
Proof. unfold LOAD_FRAME. pure_tac. Qed.
Lemma pure_frame_upvals : pure frame_upvals.
Proof. unfold frame_upvals. pure_tac. Qed.
Lemma pure_upvalue_of (v : Value) : pure (upvalue_of v).
Proof. unfold upvalue_of. pure_tac. Qed.
Lemma pure_upvalue_at (p : Z) : pure (upvalue_at p).
Proof. unfold upvalue_at. pure_tac. Qed.
Lemma pure_global_at (i : Z) : pure (global_at i).
Proof. unfold global_at. pure_tac. Qed.
Lemma pure_jump_by (i : Z) : pure (jump_by i).
Proof. unfold jump_by. pure_tac. Qed.
Lemma pure_checkArrayBounds (f c : Value) (l : list Value) : pure (checkArrayBounds f c l).
Proof. unfold checkArrayBounds. pure_tac. Qed.
Lemma pure_array_of (v : Value) : pure (array_of v).
Proof. unfold array_of. pure_tac. Qed.
Lemma pure_increment_add (x : Value) (y : Z) :
  pure (increment_add double_arith double_of_int x y).
Proof. unfold increment_add. pure_tac. Qed.
#[local] Hint Resolve pure_findNativeMethod pure_LOAD_FRAME pure_frame_upvals pure_upvalue_of
  pure_upvalue_at pure_global_at pure_jump_by pure_checkArrayBounds pure_array_of
  pure_increment_add : pure.
Lemma pure_place_read (l : Place) : pure (place_read l).
Proof. unfold place_read. pure_tac. Qed.
Lemma pure_field_place (v : Value) (n : string) : pure (field_place v n).
Proof. unfold field_place. pure_tac. Qed.
Lemma pure_switch_scan (read : M Value) (n : nat) :
  pure read -> forall i val, pure (switch_scan read n i val).
Proof. intros Hr. induction n; intros i val; cbn [switch_scan]; pure_tac. Qed.
Lemma pure_struct_fields (read : M string) (n : nat) :
  pure read -> forall f, pure (struct_fields read n f).
Proof. intros Hr. induction n; intros f; cbn [struct_fields]; pure_tac. Qed.
Lemma pure_array_values (n : nat) :
  forall l k, pure (array_values n l k).
Proof. induction n; intros l k; cbn [array_values]; pure_tac. Qed.
#[local] Hint Resolve pure_place_read pure_field_place pure_switch_scan pure_struct_fields
  pure_array_values : pure.
Lemma pure_switch_on (read : M Value) (w : Z) : pure read -> pure (switch_on bytecode read w).
Proof. intros Hr. unfold switch_on. pure_tac. Qed.
Lemma pure_BINARY_OP (op : BinaryOp) : pure (BINARY_OP double_arith double_of_int op).
Proof. unfold BINARY_OP. pure_tac. Qed.
Lemma pure_INT_BINARY_OP (op : IntBinaryOp) : pure (INT_BINARY_OP op).
Proof. unfold INT_BINARY_OP. pure_tac. Qed.
Lemma pure_compare_numbers (c : Comparison) :
  pure (compare_numbers double_of_int double_compare c).
Proof. unfold compare_numbers. pure_tac. Qed.
#[local] Hint Resolve pure_switch_on pure_BINARY_OP pure_INT_BINARY_OP pure_compare_numbers : pure.

(** **** Handlers that leave the heap alone *)

Lemma pure_DISPATCH (body : M unit) : pure body -> pure (DISPATCH body).
Proof. intros Hb. unfold DISPATCH. pure_tac. Qed.

Lemma pure_op_RETURN : pure (op_RETURN STACK_MAX).
Proof. unfold op_RETURN. pure_tac. Qed.

Lemma pure_op_GET : pure (op_GET STACK_MAX).
Proof. unfold op_GET. pure_tac. Qed.

Lemma pure_super_invoke_op (read : M string) :
  pure read -> pure (super_invoke_op FRAMES_MAX bytecode read).
Proof. intros Hr. unfold super_invoke_op. pure_tac. Qed.

(** **** Allocation

    The allocator returns an address that is not in use.  Code that
    only allocates leaves the objects that were there as they are. *)

Hypothesis fresh_is_new : forall h, h !! fresh h = None.

Definition grows {A} (m : M A) : Prop :=
  forall s a s', m s = Ok (a, s') -> heap s ⊆ heap s'.

Lemma pure_grows {A} (m : M A) : pure m -> grows m.
Proof. intros H s a s' Hr. now rewrite (H s a s' Hr). Qed.

Lemma grows_keeps {A} (m : M A) : grows m -> keeps m.
Proof. intros H s a s' Hr. apply keeps_structs_subseteq, (H s a s' Hr). Qed.

Lemma grows_bind {A B} (m : M A) (k : A -> M B) :
  grows m -> (forall a, grows (k a)) -> grows (m ≫= k).
Proof.
  intros Hm Hk s b s' H. apply bind_Ok in H as (a & s1 & H1 & H2).
  etrans; [exact (Hm s a s1 H1) | exact (Hk a s1 b s' H2)].
Qed.

Lemma new_object_Ok (d : ObjData) (s s' : Machine) (p : Z) :
  new_object fresh d s = Ok (p, s') ->
  p = fresh (heap s) /\ heap s !! p = None /\ heap s' = <[p := new d]> (heap s).
Proof.
  unfold new_object. intros H. injection H as <- <-.
  split; [reflexivity | split; [apply fresh_is_new | reflexivity]].
Qed.

Lemma grows_new_object (d : ObjData) : grows (new_object fresh d).
Proof.
  intros s p s' H. apply new_object_Ok in H as (_ & Hp & ->).
  now apply insert_subseteq.
Qed.

Ltac grows_step :=
  cbv beta zeta;
  lazymatch goal with
  | |- grows (mbind _ _) => apply grows_bind; [| intros]
  | |- grows (new_object _ _) => apply grows_new_object
  | |- grows (match ?x with _ => _ end) => destruct x
  | |- grows _ => first [solve [auto] | apply pure_grows; solve [pure_tac]]
  end.
Ltac grows_tac := repeat grows_step.

Lemma grows_captureUpvalue (l : Z) : grows (captureUpvalue fresh l).
Proof. unfold captureUpvalue. grows_tac. Qed.

Lemma grows_closure_upvals (n : nat) : grows (closure_upvals bytecode fresh n).
Proof.
  induction n; cbn [closure_upvals]; grows_tac. apply grows_captureUpvalue.
Qed.

(** **** Reads

    Code that leaves the machine in the state it found it in. *)

Definition reads {A} (m : M A) : Prop :=
  forall s a s', m s = Ok (a, s') -> s' = s.

Lemma reads_bind {A B} (m : M A) (k : A -> M B) :
  reads m -> (forall a, reads (k a)) -> reads (m ≫= k).
Proof.
  intros Hm Hk s b s' H. apply bind_Ok in H as (a & s1 & H1 & H2).
  rewrite (Hk a s1 b s' H2). exact (Hm s a s1 H1).
Qed.

Lemma reads_ret {A} (a : A) : reads (mret a : M A).
Proof. intros s b s' H. now injection H as _ <-. Qed.
Lemma reads_runtimeError {A} (e : Z) : reads (runtimeError e : M A).
Proof. intros s b s' H. discriminate. Qed.
Lemma reads_fault {A} : reads (fault : M A).
Proof. intros s b s' H. discriminate. Qed.
Lemma reads_lift {A} (o : option A) : reads (lift o).
Proof. destruct o; [apply reads_ret | apply reads_fault]. Qed.
Lemma reads_get : reads get.
Proof. intros s b s' H. now injection H as _ <-. Qed.
Lemma reads_slot (i : Z) : reads (slot i).
Proof. intros s a s' H. unfold slot in H. repeat case_match; simplify_eq. reflexivity. Qed.
Lemma reads_deref (p : Z) : reads (deref p).
Proof. intros s a s' H. unfold deref in H. repeat case_match; simplify_eq. reflexivity. Qed.
Lemma reads_isOfType (t : ObjType) (x : Value) : reads (isOfType t x).
Proof. intros s a s' H. unfold isOfType in H. repeat case_match; simplify_eq. reflexivity. Qed.
Lemma reads_constant_at (i : Z) : reads (constant_at constants i).
Proof. intros s a s' H. unfold constant_at in H. repeat case_match; simplify_eq. reflexivity. Qed.

Ltac reads_step :=
  cbv beta zeta;
  lazymatch goal with
  | |- reads (mbind _ _) => apply reads_bind; [| intros]
  | |- reads (mret _) => apply reads_ret
  | |- reads (match ?x with _ => _ end) => destruct x
  | |- reads _ =>
      solve [auto using reads_runtimeError, reads_fault, reads_lift, reads_get,
               reads_slot, reads_deref, reads_isOfType, reads_constant_at]
  end.
Ltac reads_tac := repeat reads_step.

Lemma reads_peek (d : Z) : reads (peek d).
Proof. unfold peek. reads_tac. Qed.
Lemma reads_upvalue_at (p : Z) : reads (upvalue_at p).
Proof. unfold upvalue_at. reads_tac. Qed.
Lemma reads_class_methods (p : Z) : reads (class_methods p).
Proof. unfold class_methods. reads_tac. Qed.
Lemma reads_instance_of (v : Value) : reads (instance_of v).
Proof. unfold instance_of. reads_tac. Qed.
Lemma reads_array_of (v : Value) : reads (array_of v).
Proof. unfold array_of. reads_tac. Qed.
Lemma reads_string_of (v : Value) : reads (string_of v).
Proof. unfold string_of. reads_tac. Qed.
Lemma reads_checkArrayBounds (f c : Value) (l : list Value) : reads (checkArrayBounds f c l).
Proof. unfold checkArrayBounds. reads_tac. Qed.

(** What the reads tell. *)
Lemma deref_Ok (p : Z) (s s' : Machine) (o : Obj) :
  deref p s = Ok (o, s') -> s' = s /\ heap s !! p = Some o.
Proof. unfold deref. intros H. case_match; simplify_eq. auto. Qed.

Lemma isOfType_Ok (t : ObjType) (x : Value) (s s' : Machine) :
  isOfType t x s = Ok (true, s') ->
  s' = s /\ exists o, heap s !! decodeObj x = Some o /\ type o = t.
Proof.
  unfold isOfType, isObjOfType. intros H.
  repeat case_match; simplify_eq. split; [reflexivity |].
  eexists. split; [reflexivity |]. now apply bool_decide_eq_true in H0.
Qed.

Lemma upvalue_at_Ok (p : Z) (s s' : Machine) (v : Value) :
  upvalue_at p s = Ok (v, s') ->
  s' = s /\ exists o, heap s !! p = Some o /\ data o = ObjUpval v.
Proof.
  unfold upvalue_at. intros H. apply bind_Ok in H as (o & s1 & H1 & H).
  apply deref_Ok in H1 as [-> Ho]. destruct (data o) eqn:Hd; try discriminate.
  injection H as <- <-. eauto.
Qed.

Lemma class_methods_Ok (p : Z) (s s' : Machine) (r : string * gmap string Value * Z) :
  class_methods p s = Ok (r, s') ->
  s' = s /\ exists o, heap s !! p = Some o /\ data o = ObjClass r.1.1 r.1.2 r.2.
Proof.
  unfold class_methods. intros H. apply bind_Ok in H as (o & s1 & H1 & H).
  apply deref_Ok in H1 as [-> Ho]. destruct (data o) eqn:Hd; try discriminate.
  injection H as <- <-. eauto.
Qed.

Lemma instance_of_Ok (v : Value) (s s' : Machine) (r : Z * gmap string Value) :
  instance_of v s = Ok (r, s') ->
  s' = s /\ exists o, heap s !! decodeObj v = Some o /\ data o = ObjInstance r.1 r.2.
Proof.
  unfold instance_of. intros H. apply bind_Ok in H as (o & s1 & H1 & H).
  apply deref_Ok in H1 as [-> Ho]. destruct (data o) eqn:Hd; try discriminate.
  injection H as <- <-. eauto.
Qed.

Lemma array_of_Ok (v : Value) (s s' : Machine) (r : list Value * Z) :
  array_of v s = Ok (r, s') ->
  s' = s /\ exists o, heap s !! decodeObj v = Some o /\ data o = ObjArray r.1 r.2.
Proof.
  unfold array_of. intros H. apply bind_Ok in H as (o & s1 & H1 & H).
  apply deref_Ok in H1 as [-> Ho]. destruct (data o) eqn:Hd; try discriminate.
  injection H as <- <-. eauto.
Qed.

Lemma store_Ok (p : Z) (d : ObjData) (s s' : Machine) (a : unit) :
  store p d s = Ok (a, s') ->
  exists o, heap s !! p = Some o /\ heap s' = <[p := set_data o d]> (heap s).
Proof.
  unfold store. intros H. destruct (heap s !! p) as [o |] eqn:Ho; [| discriminate].
  injection H as _ <-. eauto.
Qed.

(** A store that leaves the struct names of the object it writes as
    they are keeps the structs. *)
Lemma store_keeps (p : Z) (d : ObjData) (s s' : Machine) (a : unit) (o : Obj) :
  heap s !! p = Some o ->
  (forall names, names_of o = Some names -> names_of (set_data o d) = Some names) ->
  store p d s = Ok (a, s') ->
  keeps_structs (heap s) (heap s').
Proof.
  intros Ho Hn H. apply store_Ok in H as (o' & Ho' & ->).
  assert (o' = o) as -> by congruence.
  now apply (keeps_structs_insert _ _ o).
Qed.

Lemma names_of_instance (o : Obj) (names : gset string) :
  names_of o = Some names -> type o = INSTANCE.
Proof.
  unfold names_of, type. destruct (data o); try discriminate. reflexivity.
Qed.

Ltac reads_all_step :=
  cbv beta zeta;
  lazymatch goal with
  | |- reads (mbind _ _) => apply reads_bind; [| intros]
  | |- reads (mret _) => apply reads_ret
  | |- reads (match ?x with _ => _ end) => destruct x
  | |- reads _ =>
      solve [auto using reads_runtimeError, reads_fault, reads_lift, reads_get,
               reads_slot, reads_deref, reads_isOfType, reads_constant_at,
               reads_peek, reads_upvalue_at, reads_class_methods,
               reads_instance_of, reads_array_of, reads_string_of,
               reads_checkArrayBounds]
  end.

(** One step of a computation that returned: the first action of a bind
    is split off; when it only reads, the state it leaves is the one it
    started in, and when it only leaves the heap alone, the heap is. *)
Ltac step H :=
  let a := fresh "a" in
  let s1 := fresh "s" in
  let H1 := fresh "H" in
  apply bind_Ok in H as (a & s1 & H1 & H); cbv beta zeta in H;
  first
    [ match type of H1 with
      | ?m ?s = Ok (_, s1) =>
          let E := fresh in
          assert (E : s1 = s)
            by (refine ((_ : reads m) s _ s1 H1); solve [repeat reads_all_step]);
          subst s1
      end
    | match type of H1 with
      | ?m ?s = Ok (_, s1) =>
          let E := fresh "Hh" in
          assert (E : heap s1 = heap s)
            by (refine ((_ : pure m) s _ s1 H1); solve [pure_tac])
      end
    | idtac ].

(** The tail of a computation that leaves the heap alone. *)
Ltac pure_tail H :=
  match type of H with
  | ?m ?s = Ok (_, ?s') =>
      let E := fresh "Hh" in
      assert (E : heap s' = heap s)
        by (refine ((_ : pure m) s _ s' H); solve [pure_tac])
  end.

Ltac same_heap :=
  match goal with
  | |- keeps_structs ?h ?h' =>
      replace h' with h by congruence; apply keeps_structs_refl
  end.

Lemma not_a_struct (o : Obj) (t : ObjType) (d : ObjData) :
  type o = t -> t <> INSTANCE ->
  forall names, names_of o = Some names -> names_of (set_data o d) = Some names.
Proof. intros Ht Hne names Hn. apply names_of_instance in Hn. congruence. Qed.

Lemma keeps_op_SET_LOCAL : keeps (op_SET_LOCAL bytecode).
Proof.
  intros s a s' H. unfold op_SET_LOCAL in H.
  do 5 step H. destruct a3.
  - apply isOfType_Ok in H3 as (_ & o & Ho & Ht). rewrite <- Hh.
    eapply store_keeps; [exact Ho | | exact H].
    now apply (not_a_struct o UPVALUE).
  - pure_tail H. same_heap.
Qed.

Lemma keeps_op_SET_UPVALUE : keeps (op_SET_UPVALUE bytecode).
Proof.
  intros s a s' H. unfold op_SET_UPVALUE in H.
  do 5 step H.
  apply upvalue_at_Ok in H3 as (_ & o & Ho & Hd).
  apply (keeps_structs_trans _ (heap s1)); [same_heap |].
  eapply store_keeps; [exact Ho | | exact H].
  apply (not_a_struct o UPVALUE); [| discriminate]. unfold type. now rewrite Hd.
Qed.

Lemma keeps_place_write (l : Place) (v : Value) : keeps (place_write l v).
Proof.
  intros s a s' H. destruct l as [i | p | i | inst name | arr i]; cbn [place_write] in H.
  - pure_tail H. same_heap.
  - step H. apply upvalue_at_Ok in H0 as (_ & o & Ho & Hd).
    eapply store_keeps; [exact Ho | | exact H].
    apply (not_a_struct o UPVALUE); [| discriminate]. unfold type. now rewrite Hd.
  - pure_tail H. same_heap.
  - step H. apply deref_Ok in H0 as (_ & Ho).
    destruct (data a0) eqn:Hd; try discriminate.
    case_bool_decide as Hin; [| discriminate].
    eapply store_keeps; [exact Ho | | exact H].
    intros names. unfold names_of. rewrite Hd. cbn.
    destruct (klass =? nullptr); [| discriminate].
    intros Hn. injection Hn as <-. f_equal.
    apply dom_insert_lookup_L, Hin.
  - step H. apply deref_Ok in H0 as (_ & Ho).
    destruct (data a0) eqn:Hd; try discriminate.
    destruct (_ && _); [| discriminate].
    eapply store_keeps; [exact Ho | | exact H].
    apply (not_a_struct a0 ARRAY); [| discriminate]. unfold type. now rewrite Hd.
Qed.

Lemma keeps_defineMethod (name : string) : keeps (defineMethod name).
Proof.
  intros s a s' H. unfold defineMethod in H.
  do 3 step H. destruct a2 as [[cname methods] super].
  apply class_methods_Ok in H2 as (_ & o & Ho & Hd). cbn in Hd.
  apply bind_Ok in H as ([] & s1 & Hst & H).
  pure_tail H. rewrite Hh.
  eapply store_keeps; [exact Ho | | exact Hst].
  apply (not_a_struct o CLASS); [| discriminate]. unfold type. now rewrite Hd.
Qed.

Lemma keeps_op_INHERIT : keeps op_INHERIT.
Proof.
  intros s a s' H. unfold op_INHERIT in H.
  do 2 step H. destruct (negb a1); [discriminate |].
  do 2 step H. destruct a3 as [[? ?] ?]. step H.
  destruct a3 as [[cname methods] super].
  apply class_methods_Ok in H4 as (_ & o & Ho & Hd). cbn in Hd.
  eapply store_keeps; [exact Ho | | exact H].
  apply (not_a_struct o CLASS); [| discriminate]. unfold type. now rewrite Hd.
Qed.

(** A new object that is filled in after code that only allocates: to
    the objects that were there before, nothing has happened. *)
Lemma grows_new_then_store {A} (d0 : ObjData) (m : M A) (d : A -> ObjData) :
  grows m ->
  grows (p ← new_object fresh d0; a ← m; store p (d a)).
Proof.
  intros Hm s r s' H.
  apply bind_Ok in H as (p & s1 & Hnew & H).
  apply bind_Ok in H as (a & s2 & Hrun & H).
  apply new_object_Ok in Hnew as (_ & Hp & Hs1).
  apply Hm in Hrun. apply store_Ok in H as (o & _ & ->).
  apply map_subseteq_spec. intros q oq Hq.
  assert (q <> p) as Hne by congruence.
  rewrite lookup_insert_ne by congruence.
  assert (heap s1 !! q = Some oq) as Hq1
    by (rewrite Hs1, lookup_insert_ne by congruence; exact Hq).
  exact (lookup_weaken _ _ _ _ Hq1 Hrun).
Qed.

Lemma grows_make_closure (fn : Value) : grows (make_closure STACK_MAX bytecode fresh fn).
Proof.
  unfold make_closure. apply grows_bind; [apply pure_grows; solve [pure_tac] | intros o].
  destruct (data o); try (apply pure_grows; solve [pure_tac]).
  intros s a s' H.
  apply bind_Ok in H as (p & s1 & H1 & H).
  apply bind_Ok in H as (ups & s2 & H2 & H).
  apply bind_Ok in H as ([] & s3 & H3 & H).
  pure_tail H. rewrite Hh.
  apply (grows_new_then_store (ObjClosure (decodeObj fn) [])
           (closure_upvals bytecode fresh (Z.to_nat upvalueCount))
           (fun ups => ObjClosure (decodeObj fn) ups)
           (grows_closure_upvals _) s tt s3).
  unfold mbind, M_bind. rewrite H1, H2. exact H3.
Qed.

Lemma grows_create_struct (read : M string) :
  pure read -> grows (create_struct STACK_MAX bytecode fresh read).
Proof.
  intros Hr. unfold create_struct.
  apply grows_bind; [apply pure_grows; solve [pure_tac] | intros n].
  intros s a s' H.
  apply bind_Ok in H as (p & s1 & H1 & H).
  apply bind_Ok in H as (fs & s2 & H2 & H).
  apply bind_Ok in H as ([] & s3 & H3 & H).
  pure_tail H. rewrite Hh.
  apply (grows_new_then_store (ObjInstance nullptr ∅)
           (struct_fields read (Z.to_nat n) ∅)
           (fun fs => ObjInstance nullptr fs)
           (pure_grows _ (pure_struct_fields _ _ Hr _)) s tt s3).
  unfold mbind, M_bind. rewrite H1, H2. exact H3.
Qed.

Lemma grows_op_CREATE_ARRAY : grows (op_CREATE_ARRAY STACK_MAX bytecode fresh).
Proof.
  unfold op_CREATE_ARRAY.
  apply grows_bind; [apply pure_grows; solve [pure_tac] | intros n].
  intros s a s' H.
  apply bind_Ok in H as (p & s1 & H1 & H).
  apply bind_Ok in H as ([values k] & s2 & H2 & H).
  apply bind_Ok in H as ([] & s3 & H3 & H).
  pure_tail H. rewrite Hh.
  apply (grows_new_then_store (ObjArray (replicate (Z.to_nat n) encodeNil) 0)
           (array_values (Z.to_nat n) (replicate (Z.to_nat n) encodeNil) 0)
           (fun r => ObjArray r.1 r.2)
           (pure_grows _ (pure_array_values _ _ _)) s tt s3).
  unfold mbind, M_bind. rewrite H1, H2. exact H3.
Qed.

(** **** Code outside the sources

    Native functions, the concatenation of strings and the thread
    runtime are assumed to keep the structs. *)
Hypothesis runNative_keeps : forall f n, keeps (runNative f n).
Hypothesis concat_keeps : forall a b, keeps (concat a b).
Hypothesis newThread_keeps : keeps newThread.
Hypothesis launch_keeps : forall t child f, keeps (launch t child f).
Hypothesis wait_keeps : forall f, keeps (wait f).
Hypothesis eraseChildThread_keeps : forall t, keeps (eraseChildThread t).

Ltac keeps_known :=
  solve [auto using keeps_op_SET_LOCAL, keeps_op_SET_UPVALUE,
           keeps_place_write, keeps_defineMethod, keeps_op_INHERIT].
Ltac keeps_step :=
  cbv beta zeta;
  first
    [ keeps_known
    | lazymatch goal with
      | |- keeps (mbind _ _) => apply keeps_bind; [| intros]
      | |- keeps (match ?x with _ => _ end) => destruct x
      | |- keeps _ =>
          apply grows_keeps;
          first [ solve [auto using grows_make_closure, grows_create_struct,
                           grows_op_CREATE_ARRAY, grows_captureUpvalue,
                           pure_READ_STRING, pure_READ_STRING_LONG]
                | solve [grows_tac] ]
      end ].
Ltac keeps_tac := repeat keeps_step.

Lemma keeps_callValue (callee : Value) (n : Z) :
  keeps (callValue FRAMES_MAX fresh runNative callee n).
Proof. unfold callValue. keeps_tac. Qed.

Lemma keeps_invoke (name : string) (n : Z) :
  keeps (invoke FRAMES_MAX nativeMethods fresh runNative name n).
Proof. unfold invoke. keeps_tac; apply keeps_callValue. Qed.

Lemma keeps_property_of (inst : Value) (name : string) :
  keeps (property_of STACK_MAX nativeMethods fresh inst name).
Proof. unfold property_of, bindMethod, bindMethodToPrimitive. keeps_tac. Qed.

Lemma keeps_get_super_op (read : M string) :
  pure read -> keeps (get_super_op fresh read).
Proof. intros Hr. unfold get_super_op, bindMethod. keeps_tac. Qed.

Lemma keeps_invoke_op (read : M string) :
  pure read -> keeps (invoke_op FRAMES_MAX bytecode nativeMethods fresh runNative read).
Proof. intros Hr. unfold invoke_op. keeps_tac. apply keeps_invoke. Qed.

Lemma keeps_op_CALL : keeps (op_CALL FRAMES_MAX bytecode fresh runNative).
Proof. unfold op_CALL. keeps_tac. apply keeps_callValue. Qed.

Lemma keeps_op_ADD : keeps (op_ADD STACK_MAX double_arith double_of_int concat).
Proof. unfold op_ADD. keeps_tac. Qed.

Lemma keeps_op_INCREMENT :
  keeps (op_INCREMENT STACK_MAX bytecode constants double_arith double_of_int).
Proof. unfold op_INCREMENT, tryIncrement. keeps_tac. Qed.

(** **** Threads *)

Lemma keeps_on_thread {A} (t : Machine) (m : M A) : keeps m -> keeps (on_thread t m).
Proof.
  intros Hm s [a t'] s' H. unfold on_thread in H.
  destruct (m _) as [[a' t''] | e |] eqn:Hr; [| discriminate | discriminate].
  injection H as <- <- <-. exact (Hm _ _ _ Hr).
Qed.

Lemma keeps_startThread (values : list Value) :
  keeps (startThread STACK_MAX FRAMES_MAX fresh runNative values).
Proof. unfold startThread. keeps_tac. apply keeps_callValue. Qed.

Lemma keeps_op_LAUNCH_ASYNC :
  keeps (op_LAUNCH_ASYNC STACK_MAX FRAMES_MAX bytecode fresh runNative
           newThread unsettled launch).
Proof.
  unfold op_LAUNCH_ASYNC, copyVal. keeps_tac.
  apply keeps_on_thread. keeps_tac. apply keeps_startThread.
Qed.

Lemma keeps_forget_thread (f : Z) :
  keeps (o' ← deref f;
         match data o' with
         | ObjFuture _ val' => store f (ObjFuture nullptr val')
         | _ => fault
         end).
Proof.
  intros s a s' H. step H. apply deref_Ok in H0 as (_ & Ho).
  destruct (data a0) eqn:Hd; try discriminate.
  eapply store_keeps; [exact Ho | | exact H].
  apply (not_a_struct a0 FUTURE); [| discriminate]. unfold type. now rewrite Hd.
Qed.

Lemma keeps_deleteThread (f : Z) : keeps (deleteThread eraseChildThread f).
Proof.
  unfold deleteThread. apply keeps_bind; [keeps_tac | intros o].
  destruct (data o); try solve [keeps_tac].
  apply keeps_bind; [keeps_tac | intros [|]]; [apply keeps_forget_thread | keeps_tac].
Qed.

Lemma keeps_op_AWAIT : keeps (op_AWAIT STACK_MAX wait eraseChildThread).
Proof. unfold op_AWAIT. keeps_tac. apply keeps_deleteThread. Qed.

Lemma keeps_settle (val : Value) : keeps (settle fut val).
Proof.
  intros s a s' H. unfold settle in H. step H. apply deref_Ok in H0 as (_ & Ho).
  destruct (data a0) eqn:Hd; try discriminate.
  eapply store_keeps; [exact Ho | | exact H].
  apply (not_a_struct a0 FUTURE); [| discriminate]. unfold type. now rewrite Hd.
Qed.

Lemma keeps_RETURN_on_thread :
  keeps (RETURN_on_thread STACK_MAX eraseChildThread fut).
Proof.
  unfold RETURN_on_thread.
  apply keeps_bind; [apply pure_keeps; pure_tac | intros result].
  apply keeps_bind; [apply pure_keeps, pure_op_RETURN | intros ended].
  destruct (ended && negb (fut =? nullptr)); [| apply pure_keeps, pure_ret].
  apply keeps_bind; [apply keeps_settle | intros _].
  apply keeps_bind; [apply keeps_deleteThread | intros _].
  apply pure_keeps, pure_ret.
Qed.

(** **** The opcodes that write a field *)

Lemma keeps_writes_a_name (h h' : gmap Z Obj) (target : Z) :
  struct_names h target = None -> keeps_structs h h' -> writes_a_name h h'.
Proof.
  intros Ht H. exists target, String.EmptyString. intros p names Hp.
  rewrite bool_decide_eq_false_2 by congruence. exact (H p names Hp).
Qed.

Lemma store_field_writes_a_name (p : Z) (s s' : Machine) (a : unit) (o : Obj)
    (klass : Z) (fields : gmap string Value) (name : string) (v : Value) :
  heap s !! p = Some o ->
  data o = ObjInstance klass fields ->
  store p (ObjInstance klass (<[name := v]> fields)) s = Ok (a, s') ->
  writes_a_name (heap s) (heap s').
Proof.
  intros Ho Hd H. apply store_Ok in H as (o' & Ho' & ->).
  assert (o' = o) as -> by congruence.
  exists p, name. intros q names. unfold struct_names.
  destruct (decide (q = p)) as [-> | Hne].
  - rewrite bool_decide_eq_true_2 by reflexivity.
    rewrite Ho, lookup_insert_eq. unfold names_of. cbn. rewrite Hd.
    destruct (klass =? nullptr); [| discriminate].
    intros Hn. injection Hn as <-. now rewrite dom_insert_L.
  - rewrite bool_decide_eq_false_2 by assumption.
    rewrite lookup_insert_ne by congruence. auto.
Qed.

Lemma op_SET_writes_a_name (s s' : Machine) (a : unit) :
  op_SET s = Ok (a, s') -> writes_a_name (heap s) (heap s').
Proof.
  intros H. unfold op_SET in H. do 4 step H.
  assert (heap s1 = heap s) as Hs by congruence.
  rewrite <- Hs. clear Hh Hh0 Hs H0 H1.
  destruct a3.
  - step H. destruct a3 as [values n]. do 2 step H.
    apply array_of_Ok in H0 as (_ & o & Ho & Hd). cbn in Hd.
    apply (keeps_writes_a_name _ _ (decodeObj a1));
      [unfold struct_names, names_of; now rewrite Ho, Hd |].
    eapply store_keeps; [exact Ho | | exact H].
    apply (not_a_struct o ARRAY); [| discriminate]. unfold type. now rewrite Hd.
  - do 2 step H. destruct a4; [| discriminate].
    step H. destruct (negb a4); [discriminate |].
    step H. destruct a5 as [klass fields]. step H.
    apply instance_of_Ok in H5 as (_ & o & Ho & Hd). cbn in Hd.
    exact (store_field_writes_a_name _ _ _ _ o klass fields _ _ Ho Hd H).
Qed.

Lemma set_property_writes_a_name (read : M string) (s s' : Machine) (a : unit) :
  pure read ->
  set_property read s = Ok (a, s') -> writes_a_name (heap s) (heap s').
Proof.
  intros Hr H. unfold set_property in H. do 2 step H.
  destruct (negb a1); [discriminate |].
  step H. destruct a2 as [klass fields].
  apply instance_of_Ok in H2 as (_ & o & Ho & Hd). cbn in Hd.
  apply bind_Ok in H as (name & s1 & Hread & H).
  apply Hr in Hread. step H.
  assert (heap s1 = heap s) as Hs by congruence.
  rewrite <- Hs. rewrite <- Hread in Ho.
  exact (store_field_writes_a_name _ _ _ _ o klass fields _ _ Ho Hd H).
Qed.

(** **** Every opcode *)

Lemma DISPATCH_Ok (body : M unit) (s s' : Machine) (b : bool) :
  DISPATCH body s = Ok (b, s') -> body s = Ok (tt, s').
Proof.
  unfold DISPATCH. intros H. apply bind_Ok in H as ([] & s1 & H1 & H).
  now injection H as _ <-.
Qed.

Ltac unfold_handlers :=
  unfold op_POP, op_POPN, op_LOAD_INT, op_CONSTANT, op_CONSTANT_LONG, op_NIL,
    op_TRUE, op_FALSE, op_NEGATE, op_NOT, op_BIN_NOT, op_BITWISE_XOR,
    op_BITWISE_OR, op_BITWISE_AND, op_SUBTRACT, op_MULTIPLY, op_DIVIDE, op_MOD,
    op_BITSHIFT_LEFT, op_BITSHIFT_RIGHT, op_EQUAL, op_NOT_EQUAL, op_GREATER,
    op_GREATER_EQUAL, op_LESS, op_LESS_EQUAL, op_GET_NATIVE, op_DEFINE_GLOBAL,
    op_DEFINE_GLOBAL_LONG, op_GET_GLOBAL, op_GET_GLOBAL_LONG, op_SET_GLOBAL,
    op_SET_GLOBAL_LONG, op_GET_LOCAL, op_GET_UPVALUE, op_JUMP, op_JUMP_IF_FALSE,
    op_JUMP_IF_TRUE, op_JUMP_IF_FALSE_POP, op_LOOP_IF_TRUE, op_LOOP,
    op_JUMP_POPN, op_SWITCH, op_SWITCH_LONG, op_SUPER_INVOKE,
    op_SUPER_INVOKE_LONG, op_CLOSURE, op_CLOSURE_LONG, op_CLASS,
    op_GET_PROPERTY, op_GET_PROPERTY_LONG, op_CREATE_STRUCT,
    op_CREATE_STRUCT_LONG, op_METHOD, op_INVOKE, op_INVOKE_LONG, op_GET_SUPER,
    op_GET_SUPER_LONG.

(** The handlers of all opcodes but [SET], [SET_PROPERTY] and
    [SET_PROPERTY_LONG] keep the structs. *)
Lemma execute_keeps (op : OpCode.t) : writes_field op = false -> keeps (execute op).
Proof.
  intros Hop.
  destruct op; try discriminate Hop; cbn [Thread.execute]; unfold DISPATCH.
  all: unfold_handlers.
  all: try (apply pure_keeps;
            solve [pure_tac; auto using pure_op_RETURN, pure_op_GET,
                     pure_super_invoke_op, pure_READ_STRING, pure_READ_STRING_LONG,
                     pure_READ_CONSTANT, pure_READ_CONSTANT_LONG]).
  all: solve [keeps_tac;
              auto using keeps_op_INCREMENT, keeps_op_ADD, keeps_op_CALL,
                keeps_op_LAUNCH_ASYNC, keeps_op_AWAIT, keeps_RETURN_on_thread,
                keeps_property_of,
                keeps_invoke_op, keeps_get_super_op, pure_READ_STRING,
                pure_READ_STRING_LONG].
Qed.

Lemma execute_writes_a_name (op : OpCode.t) (s s' : Machine) (b : bool) :
  writes_field op = true ->
  execute op s = Ok (b, s') -> writes_a_name (heap s) (heap s').
Proof.
  intros Hop H. destruct op; try discriminate Hop; cbn [Thread.execute] in H;
    apply DISPATCH_Ok in H.
  - exact (op_SET_writes_a_name s s' tt H).
  - exact (set_property_writes_a_name _ s s' tt pure_READ_STRING H).
  - exact (set_property_writes_a_name _ s s' tt pure_READ_STRING_LONG H).
Qed.

End Frame.

(** Native functions, the concatenation of strings and the thread
    runtime are defined outside the sources.  What the handlers need of
    them: they keep the structs. *)
Definition outside_keeps_structs : Prop :=
  (forall f n, keeps (runNative f n))
  /\ (forall a b, keeps (concat a b))
  /\ keeps newThread
  /\ (forall t child f, keeps (launch t child f))
  /\ (forall f, keeps (wait f))
  /\ (forall t, keeps (eraseChildThread t)).


End WithVM.
(** *** Examples *)

(** An allocator for the examples: addresses go up from [0x1000]. *)
Definition bump (h : gmap Z Obj) : Z := 0x1000 + 16 * Z.of_nat (size h).

Definition no_natives : Builtin.t -> gmap string BuiltinMethod := fun _ => ∅.
Definition no_native_stub : Z -> Z -> M bool := fun _ _ => fault.

(** [let s = {a: 1}; s["b"] = 2;] with the strings ["a"] and ["b"] as
    constants 0 and 1: the operands of [CREATE_STRUCT] are the field count
    and the index of ["a"]. *)
Definition struct_code : list Z := [1; 0].
Definition struct_constants : list Value := [encodeObj 0x10; encodeObj 0x18].

Definition struct_machine : Machine :=
  {| stack := [encodeInt 1]; frames := []; frame := 0; ip := 0; slotStart := 0;
     constantOffset := 0; globals := [];
     heap := <[0x18 := new (ObjString "b")]> (<[0x10 := new (ObjString "a")]> ∅) |}.

Definition struct_script : M unit :=
  op_CREATE_STRUCT 256 struct_code struct_constants bump;;
  s ← pop;
  push 256 (encodeInt 2);; push 256 s;; push 256 (encodeObj 0x18);;
  op_SET.


(** The function
    [fn make() { let x = 5; let inc = fn() { x = 7; return x; };
                 let get = fn() { return x; }; inc(); get(); x; }]
    as the compiler lays it out: [make] from byte 0, [inc] from byte 20
    and [get] from byte 30.  The numbers of the opcodes are not known;
    the byte [0xee] stands where an opcode is and the operands follow
    it. *)
Definition closures_code : list Z :=
  [ 0xee; 0; 1; 1;       (* CLOSURE inc, capturing local 1 *)
    0xee; 1; 1; 1;       (* CLOSURE get, capturing local 1 *)
    0xee; 2;             (* GET_LOCAL 2 *)
    0xee; 0;             (* CALL 0 *)
    0xee;                (* POP *)
    0xee; 3;             (* GET_LOCAL 3 *)
    0xee; 0;             (* CALL 0 *)
    0xee; 1;             (* GET_LOCAL 1 *)
    0xee;
    0xee; 7;             (* inc: LOAD_INT 7 *)
    0xee; 0;             (*      SET_UPVALUE 0 *)
    0xee;                (*      POP *)
    0xee; 0;             (*      GET_UPVALUE 0 *)
    0xee;                (*      RETURN *)
    0xee; 0xee;
    0xee; 0;             (* get: GET_UPVALUE 0 *)
    0xee ].              (*      RETURN *)

Definition closures_constants : list Value := [encodeObj 0x10; encodeObj 0x18].

(** [make] has been called: its closure is in slot 0 and [x = 5] in slot 1. *)
Definition closures_machine : Machine :=
  {| stack := [encodeObj 0x28; encodeInt 5];
     frames := [CallFrame.mk 0x28 0 0]; frame := 0; ip := 0; slotStart := 0;
     constantOffset := 0; globals := [];
     heap := <[0x28 := new (ObjClosure 0x20 [])]>
               (<[0x20 := new (ObjFunc 0 0 0 0 "make")]>
                  (<[0x18 := new (ObjFunc 30 0 0 1 "get")]>
                     (<[0x10 := new (ObjFunc 20 0 0 1 "inc")]> ∅))) |}.

(** The dispatch loop reads the opcode byte and enters the handler. *)
Definition opcode : M unit := _ ← READ_BYTE closures_code; mret tt.

Definition closures_program : M (Value * Value * Value) :=
  opcode;; op_CLOSURE 256 closures_code closures_constants bump;;
  opcode;; op_CLOSURE 256 closures_code closures_constants bump;;
  opcode;; op_GET_LOCAL 256 closures_code;;
  opcode;; op_CALL 64 closures_code bump no_native_stub;;
  opcode;; op_LOAD_INT 256 closures_code;;
  opcode;; op_SET_UPVALUE closures_code;;
  opcode;; op_POP;;
  opcode;; op_GET_UPVALUE 256 closures_code;;
  seen_by_inc ← peek 0;
  opcode;; _ ← op_RETURN 256;
  opcode;; op_POP;;
  opcode;; op_GET_LOCAL 256 closures_code;;
  opcode;; op_CALL 64 closures_code bump no_native_stub;;
  opcode;; op_GET_UPVALUE 256 closures_code;;
  seen_by_get ← peek 0;
  opcode;; _ ← op_RETURN 256;
  opcode;; op_GET_LOCAL 256 closures_code;;
  seen_by_make ← peek 0;
  mret (seen_by_inc, seen_by_get, seen_by_make).

(** C1: two sibling closures that capture the same local do not share a
    cell.  Each [CLOSURE] runs [captureUpvalue] on the slot, and the second
    run wraps the cell of the first in a new cell.  After [inc] has written
    7 through its cell (at [0x1050]) and read 7 back, [get] reads through
    its own cell (at [0x1070]) and finds the first cell where the value
    should be, and so does [make] when it reads the local. *)
Theorem sibling_closures_do_not_share_a_cell :
  exists s',
    closures_program closures_machine
    = Ok ((encodeInt 7, encodeObj 0x1050, encodeObj 0x1050), s')
    /\ data <$> heap s' !! 0x1040 = Some (ObjClosure 0x10 [0x1050])
    /\ data <$> heap s' !! 0x1060 = Some (ObjClosure 0x18 [0x1070])
    /\ data <$> heap s' !! 0x1050 = Some (ObjUpval (encodeInt 7))
    /\ data <$> heap s' !! 0x1070 = Some (ObjUpval (encodeObj 0x1050))
    /\ stack s' !! 1%nat = Some (encodeObj 0x1070).
Proof.
  eexists. split; [vm_compute; reflexivity |].
  repeat split; vm_compute; reflexivity.
Qed.

(** [let a = []; a[0];] *)
Definition empty_array_machine : Machine :=
  {| stack := [encodeObj 0x10; encodeInt 0]; frames := []; frame := 0; ip := 0;
     slotStart := 0; constantOffset := 0; globals := [];
     heap := <[0x10 := new (ObjArray [] 0)]> ∅ |}.

Lemma op_GET_empty_array_witness : op_GET 256 empty_array_machine = Fault.
Proof.
  apply (op_GET_empty_array 256 empty_array_machine [] (encodeObj 0x10) 0 false 0).
  - reflexivity.
  - reflexivity.
  - vm_compute. reflexivity.
  - lia.
Defined.

(** The struct [{a: 1}] at [0x1020], about to run [s["b"] = 2]. *)
Definition set_machine : Machine :=
  {| stack := [encodeInt 2; encodeObj 0x1020; encodeObj 0x18]; frames := [];
     frame := 0; ip := 0; slotStart := 0; constantOffset := 0; globals := [];
     heap := <[0x1020 := new (ObjInstance nullptr (<["a"%string := encodeInt 1]> ∅))]>
               (<[0x18 := new (ObjString "b")]> (<[0x10 := new (ObjString "a")]> ∅)) |}.

(** The same struct, about to run [s["a"]++]: the operand of [INCREMENT]
    says postfix increment of a field under a key. *)
Definition increment_code : list Z := [25].

Definition increment_machine : Machine :=
  {| stack := [encodeObj 0x1020; encodeObj 0x10]; frames := [];
     frame := 0; ip := 0; slotStart := 0; constantOffset := 0; globals := [];
     heap := heap set_machine |}.

(** An allocator that returns an address that is not in use, and a
    runtime without native functions and without threads. *)
Definition unused_address (h : gmap Z Obj) : Z := fresh (dom h).
Definition no_double_arith : BinaryOp -> Z -> Z -> Z := fun _ _ _ => 0.
Definition no_string_concat : Z -> Z -> M Value := fun _ _ => fault.
Definition no_printing : gmap Z Obj -> ObjData -> string := fun _ _ => String.EmptyString.
Definition no_comparison : Comparison -> Z -> Z -> bool := fun _ _ _ => false.
Definition no_launch : Z -> Machine -> Z -> M unit := fun _ _ _ => fault.
Definition no_wait : Z -> M unit := fun _ => fault.
Definition no_child_threads : Z -> M bool := fun _ => fault.


End ThreadFacts.

(** ** Class declarations and inheritance *)

Module ClassFacts.
Import ValueHelpers Objects Thread ThreadFacts.

Ltac crun :=
  repeat first
    [ progress cbn [mbind mret Compiler.C_bind Compiler.C_ret]
    | progress unfold mbind, mret, Compiler.C_bind, Compiler.C_ret ].

(** The method table [visitClassDecl] builds: the declaration's own
    methods, later ones overwriting earlier ones of the same name. *)
Definition own_methods (ms : list (string * Z)) (acc : gmap string Value)
    : gmap string Value :=
  foldl (fun a m => <[m.1 := encodeObj m.2]> a) acc ms.

Lemma add_methods_run (ms : list (string * Z)) :
  forall (s : Compiler.Compiler) (klass : Z) (m : bool) (name : string)
         (acc : gmap string Value) (super : Z),
    Compiler.heap s !! klass = Some (mkObj m (ObjClass name acc super)) ->
    Compiler.add_methods klass ms s
    = Compiler.Done tt
        (Compiler.set_heap
           (<[klass := mkObj m (ObjClass name (own_methods ms acc) super)]> (Compiler.heap s)) s).
Proof.
  induction ms as [| x rest IH]; intros s klass m name acc super Hk.
  - cbn. crun. f_equal. destruct s as [c g d h r]. cbn in *.
    unfold Compiler.set_heap. cbn. f_equal. symmetry. now apply insert_id.
  - cbn [Compiler.add_methods]. crun. unfold Compiler.add_method at 1. rewrite Hk. cbn.
    rewrite (IH _ klass m name (<[x.1 := encodeObj x.2]> acc) super)
      by apply lookup_insert_eq.
    cbn. unfold Compiler.set_heap. cbn. rewrite insert_insert_eq. reflexivity.
Qed.

Section WithAllocator.
Variable fresh : gmap Z Obj -> Z.

(** Whatever the declaration inherits from, the class object that
    [visitClassDecl] stores in the class's global slot has the methods of
    the declaration and no others. *)
Lemma visitClassDecl_methods (decl : Compiler.ClassDecl) (s s' : Compiler.Compiler) :
  Compiler.visitClassDecl fresh decl s = Compiler.Done tt s' ->
  let klass := fresh (Compiler.heap s) in
  Compiler.heap s' !! klass
  = Some (new (ObjClass (Compiler.className decl)
                        (own_methods (Compiler.methods decl) ∅) nullptr))
  /\ snd <$> Compiler.globals s' !! Z.to_nat (Compiler.index decl) = Some (encodeObj klass).
Proof.
  unfold Compiler.visitClassDecl, Compiler.new_object. crun.
  set (klass := fresh (Compiler.heap s)).
  set (s1 := Compiler.set_heap _ s).
  assert (Compiler.heap s1 !! klass
          = Some (new (ObjClass (Compiler.className decl) ∅ nullptr))) as Hk
    by apply lookup_insert_eq.
  assert (forall (check : Compiler.C unit) (k : unit -> Compiler.C unit),
             (forall t, check s1 = Compiler.Done tt t -> t = s1) ->
             forall r, match check s1 with
                       | Compiler.Done a t => k a t
                       | Compiler.Thrown t => Compiler.Thrown t
                       | Compiler.Undefined => Compiler.Undefined
                       end = Compiler.Done tt r -> k tt s1 = Compiler.Done tt r) as Hskip.
  { intros check k Hsame r. destruct (check s1) as [[] t | t |] eqn:Hc; try discriminate.
    now rewrite (Hsame t eq_refl). }
  intros Hrun. apply Hskip in Hrun.
  2:{ intros t. destruct (Compiler.inherits decl); [| now intros [= <-]].
      crun.
      destruct (Compiler.resolved decl =? -1); [discriminate |].
      destruct (Compiler.resolved decl =? -2); [discriminate |]. cbn.
      unfold Compiler.global_at.
      destruct (0 <=? Compiler.resolved decl); [| discriminate].
      destruct (Compiler.globals s1 !! _) as [[gname val] |]; [| discriminate].
      unfold Compiler.isClass.
      destruct (isObjOfType _ _ _) as [[|] | |]; cbn; try discriminate.
      now intros [= <-]. }
  unfold Compiler.defineVar in Hrun.
  destruct ((0 <=? Compiler.index decl) && _); [| discriminate].
  rewrite (add_methods_run _ _ klass false (Compiler.className decl) ∅ nullptr) in Hrun
    by exact Hk.
  cbn in Hrun. unfold Compiler.global_at in Hrun. cbn in Hrun.
  destruct (0 <=? Compiler.index decl); [| discriminate].
  destruct (Compiler.globals s !! _) as [[gname val] |] eqn:Hg; [| discriminate].
  cbn in Hrun. injection Hrun as <-. cbn. split.
  - rewrite insert_insert_eq. apply lookup_insert_eq.
  - rewrite list_lookup_insert_eq by (now apply lookup_lt_Some in Hg). reflexivity.
Qed.

End WithAllocator.

(** The opcode [INHERIT], which the compiler never emits, does copy the
    method table of the superclass into the subclass. *)
Lemma op_INHERIT_copies (s : Machine) (below : list Value) (superclass sub : Value)
    (ms mb : bool) (sname bname : string) (smethods bmethods : gmap string Value)
    (ssuper bsuper : Z) :
  stack s = below ++ [superclass; sub] ->
  isObj superclass = true ->
  heap s !! decodeObj superclass = Some (mkObj ms (ObjClass sname smethods ssuper)) ->
  heap s !! decodeObj sub = Some (mkObj mb (ObjClass bname bmethods bsuper)) ->
  op_INHERIT s
  = Ok (tt, set_heap (<[decodeObj sub :=
                          mkObj mb (ObjClass bname (smethods ∪ bmethods) bsuper)]> (heap s)) s).
Proof.
  intros Hs Hobj Hsup Hsub. unfold op_INHERIT. run.
  assert (length (stack s) = (length below + 2)%nat) as Hlen
    by (rewrite Hs, length_app; reflexivity).
  rewrite (peek_lookup s 1 superclass).
  2:{ unfold stackTop. lia. }
  2:{ unfold stackTop. rewrite Hlen.
      replace (Z.to_nat (Z.of_nat (length below + 2) - 1 - 1)) with (length below) by lia.
      rewrite Hs. now rewrite list_lookup_middle. }
  rewrite (isOfType_true _ CLASS superclass (mkObj ms (ObjClass sname smethods ssuper)))
    by easy.
  cbn.
  rewrite (peek_top s (below ++ [superclass]) sub)
    by (rewrite Hs, <- app_assoc; reflexivity).
  unfold class_methods, deref, store. run. rewrite Hsup. cbn. rewrite Hsub. cbn.
  rewrite Hsub. reflexivity.
Qed.

(** *** The inheritance scenario with a method that is not overridden

    [class A { fn hello() { ... } }  class B : A { }  new B().hello();] *)

Definition classes_heap : gmap Z Obj :=
  <[0x38 := new (ObjClosure 0x30 [])]>
    (<[0x30 := new (ObjFunc 0 0 0 0 "script")]>
       (<[0x28 := new (ObjClass "A" (<["hello"%string := encodeObj 0x20]> ∅) nullptr)]>
          (<[0x20 := new (ObjClosure 0x18 [])]>
             (<[0x18 := new (ObjFunc 40 0 0 0 "hello")]>
                (<[0x10 := new (ObjString "hello")]> ∅))))).

(** The compiler after [class A]: [A] is in global slot 0, [B] is declared
    in slot 1 and not yet defined. *)
Definition classes_compiler : Compiler.Compiler :=
  {| Compiler.chunk := Compiler.mkChunk [] [];
     Compiler.globals := [("A"%string, encodeObj 0x28); ("B"%string, encodeNil)];
     Compiler.definedGlobals := [true; false];
     Compiler.heap := classes_heap;
     Compiler.reported := 0 |}.

Definition class_B : Compiler.ClassDecl :=
  {| Compiler.className := "B"; Compiler.index := 1; Compiler.inherits := true;
     Compiler.resolved := 0; Compiler.methods := [] |}.

(** [new C().hello()] for the class in global slot [k]:
    [GET_GLOBAL k; CALL 0; INVOKE 0 "hello"]. *)
Definition invoke_code (k : Z) : list Z := [0xee; k; 0xee; 0; 0xee; 0; 0].
Definition invoke_constants : list Value := [encodeObj 0x10].

Definition machine_of (c : Compiler.Compiler) : Machine :=
  {| stack := [encodeObj 0x38]; frames := [CallFrame.mk 0x38 0 0]; frame := 0;
     ip := 0; slotStart := 0; constantOffset := 0;
     globals := snd <$> Compiler.globals c; heap := Compiler.heap c |}.

Definition invoke_program (k : Z) : M unit :=
  _ ← READ_BYTE (invoke_code k);
  op_GET_GLOBAL 256 (invoke_code k);;
  _ ← READ_BYTE (invoke_code k);
  op_CALL 64 (invoke_code k) bump no_native_stub;;
  _ ← READ_BYTE (invoke_code k);
  op_INVOKE 64 (invoke_code k) invoke_constants no_natives bump no_native_stub.

(** C3: the class object compiled for [class B : A { }] has an empty
    method table, and invoking the inherited method on an instance of [B]
    signals code 4 (missing member); the same call on an instance of [A]
    enters [hello]. *)
Theorem inherited_method_is_missing :
  exists c s',
    Compiler.visitClassDecl bump class_B classes_compiler = Compiler.Done tt c
    /\ snd <$> Compiler.globals c !! 1%nat = Some (encodeObj 0x1060)
    /\ data <$> Compiler.heap c !! 0x1060 = Some (ObjClass "B" ∅ nullptr)
    /\ invoke_program 1 (machine_of c) = RuntimeError 4
    /\ invoke_program 0 (machine_of c) = Ok (tt, s')
    /\ frames s' = [CallFrame.mk 0x38 7 0; CallFrame.mk 0x20 40 1].
Proof.
  do 2 eexists. split; [vm_compute; reflexivity |].
  split; [vm_compute; reflexivity |].
  split; [vm_compute; reflexivity |].
  split; [vm_compute; reflexivity |].
  split; vm_compute; reflexivity.
Qed.

End ClassFacts.

(** ** Switch statements *)

Module SwitchFacts.
Import ValueHelpers Objects Thread ThreadFacts.

(** Numbers for the three opcodes the emitted code contains (the
    enumeration is not among the sources; any three distinct bytes do). *)
Definition OP_SWITCH : Z := 0x50.
Definition OP_SWITCH_LONG : Z := 0x51.
Definition OP_JUMP : Z := 0x40.

Definition compile (stmt : Compiler.SwitchStmt) (start : Compiler.Compiler)
    : Compiler.Outcome unit :=
  Compiler.visitSwitchStmt OP_SWITCH OP_SWITCH_LONG OP_JUMP bump stmt start.

Definition empty_compiler (h : gmap Z Obj) : Compiler.Compiler :=
  {| Compiler.chunk := Compiler.mkChunk [] []; Compiler.globals := [];
     Compiler.definedGlobals := []; Compiler.heap := h; Compiler.reported := 0 |}.

Definition case_ (constants : list Compiler.Literal) (body : list Z) : Compiler.CaseStmt :=
  {| Compiler.isDefault := false; Compiler.caseConstants := constants;
     Compiler.body := body; Compiler.bodyConstants := [] |}.

Definition default_ (body : list Z) : Compiler.CaseStmt :=
  {| Compiler.isDefault := true; Compiler.caseConstants := [];
     Compiler.body := body; Compiler.bodyConstants := [] |}.

(** [switch (x) { case 1: A  case 2 | 3: B  default: D }], each body
    standing for the code of its statements, and the same statement
    without the default case. *)
Definition with_default : Compiler.SwitchStmt :=
  {| Compiler.expr := [0xe0];
     Compiler.cases :=
       [ case_ [Compiler.LitNumber (encodeInt 1)] [0xa1; 0xa2];
         case_ [Compiler.LitNumber (encodeInt 2); Compiler.LitNumber (encodeInt 3)] [0xb1];
         default_ [0xd1; 0xd2; 0xd3] ];
     Compiler.hasDefault := true |}.

Definition without_default : Compiler.SwitchStmt :=
  {| Compiler.expr := [0xe0];
     Compiler.cases :=
       [ case_ [Compiler.LitNumber (encodeInt 1)] [0xa1; 0xa2];
         case_ [Compiler.LitNumber (encodeInt 2); Compiler.LitNumber (encodeInt 3)] [0xb1] ];
     Compiler.hasDefault := false |}.

(** The thread about to run the [SWITCH] that the chunk of [c] holds at
    byte 1, with the scrutinee on top of the stack. *)
Definition at_switch (c : Compiler.Compiler) (scrutinee : Value) : Machine :=
  {| stack := [encodeNil; scrutinee]; frames := []; frame := 0; ip := 2;
     slotStart := 0; constantOffset := 0; globals := []; heap := Compiler.heap c |}.

Definition run_switch (c : Compiler.Compiler) (scrutinee : Value) : Result (unit * Machine) :=
  op_SWITCH (Compiler.bytecode (Compiler.chunk c)) (Compiler.constants (Compiler.chunk c))
    (at_switch c scrutinee).

(** Where control is after the [SWITCH], and the byte found there. *)
Definition target (c : Compiler.Compiler) (scrutinee : Value) : option (Z * option Z) :=
  match run_switch c scrutinee with
  | Ok (_, s) => Some (ip s, Compiler.bytecode (Compiler.chunk c) !! Z.to_nat (ip s))
  | _ => None
  end.

(** With a default case: a scrutinee that is one of the constants goes to
    the body of its case, any other to the body of the default case. *)
Lemma switch_with_default :
  exists c,
    compile with_default (empty_compiler ∅) = Compiler.Done tt c
    /\ length (Compiler.bytecode (Compiler.chunk c)) = 30%nat
    /\ target c (encodeInt 1) = Some (15, Some 0xa1)
    /\ target c (encodeInt 2) = Some (20, Some 0xb1)
    /\ target c (encodeInt 3) = Some (20, Some 0xb1)
    /\ target c (encodeInt 9) = Some (24, Some 0xd1)
    /\ target c encodeNil = Some (24, Some 0xd1).
Proof.
  eexists. split; [vm_compute; reflexivity |].
  repeat split; vm_compute; reflexivity.
Qed.

(** C2: without a default case the jump slot of the default keeps its
    placeholder [0xffff]: the statement ends at byte 24, and a scrutinee
    that matches no constant sends control 65535 bytes past the slot, to
    byte 65550.  Matching scrutinees still reach their bodies. *)
Theorem switch_without_default_overshoots :
  exists c,
    compile without_default (empty_compiler ∅) = Compiler.Done tt c
    /\ length (Compiler.bytecode (Compiler.chunk c)) = 24%nat
    /\ Compiler.bytecode (Compiler.chunk c) !! 13%nat = Some 0xff
    /\ Compiler.bytecode (Compiler.chunk c) !! 14%nat = Some 0xff
    /\ target c (encodeInt 1) = Some (15, Some 0xa1)
    /\ target c (encodeInt 3) = Some (20, Some 0xb1)
    /\ target c (encodeInt 9) = Some (65550, None).
Proof.
  eexists. split; [vm_compute; reflexivity |].
  repeat split; vm_compute; reflexivity.
Qed.

(** [switch (x) { case "a": A  default: D }]; the scrutinee is another
    string object with the contents ["a"]. *)
Definition on_string : Compiler.SwitchStmt :=
  {| Compiler.expr := [0xe0];
     Compiler.cases := [ case_ [Compiler.LitString "a"] [0xa1]; default_ [0xd1] ];
     Compiler.hasDefault := true |}.

(** The scan compares the 64-bit words, so a string constant is matched by
    the very object of the constant only: a string with the same contents,
    which [equals] takes for equal, goes to the default case. *)
Lemma switch_on_equal_string :
  exists c,
    compile on_string (empty_compiler (<[0x10 := new (ObjString "a")]> ∅))
    = Compiler.Done tt c
    /\ Compiler.constants (Compiler.chunk c) = [encodeObj 0x1010]
    /\ equals Z.eqb (fun _ _ => ""%string) (Compiler.heap c)
         (encodeObj 0x10) (encodeObj 0x1010) = Ok true
    /\ target c (encodeObj 0x1010) = Some (9, Some 0xa1)
    /\ target c (encodeObj 0x10) = Some (13, Some 0xd1).
Proof.
  eexists. split; [vm_compute; reflexivity |].
  repeat split; vm_compute; reflexivity.
Qed.

End SwitchFacts.

(** ** The mark phase and reachability *)

Module MarkFacts.
Import ValueHelpers Objects GC GCFacts.

Section Reach.
Variable trace : ObjData -> list Z.

(** The objects that can be reached from the entries of the mark stack
    through the references that tracing an object hands to [markObj]. *)
Inductive reachable (m : gmap Z Obj) (roots : list Z) : Z -> Prop :=
| reachable_root (p : Z) : p ∈ roots -> reachable m roots p
| reachable_step (p q : Z) (o : Obj) :
    reachable m roots p -> m !! p = Some o -> q ∈ trace (data o) ->
    reachable m roots q.

(** Every reference of a marked object is marked or waits on the stack. *)
Definition closed (m : gmap Z Obj) (stack : list Z) : Prop :=
  forall p o q, m !! p = Some o -> marked o = true -> q ∈ trace (data o) ->
    is_marked m q = true \/ q ∈ stack.

Definition same_data (m m' : gmap Z Obj) : Prop :=
  forall p, data <$> m' !! p = data <$> m !! p.

Lemma reachable_mono (m m1 : gmap Z Obj) (roots roots1 : list Z) (p : Z) :
  same_data m m1 ->
  (forall r, r ∈ roots1 -> reachable m roots r) ->
  reachable m1 roots1 p -> reachable m roots p.
Proof.
  intros Hdata Hroots Hp. induction Hp as [p Hp | p q o _ IH Ho Hq].
  - now apply Hroots.
  - specialize (Hdata p). rewrite Ho in Hdata. cbn in Hdata.
    destruct (m !! p) as [o0 |] eqn:Ho0; [| discriminate].
    cbn in Hdata. injection Hdata as Hd.
    apply (reachable_step m roots p q o0 IH Ho0). now rewrite <- Hd.
Qed.

Lemma is_marked_insert (m : gmap Z Obj) (ptr p : Z) (o : Obj) :
  is_marked (<[ptr := set_marked true o]> m) p
  = if decide (ptr = p) then true else is_marked m p.
Proof.
  unfold is_marked. destruct (decide (ptr = p)) as [-> | Hne].
  - now rewrite lookup_insert_eq.
  - now rewrite lookup_insert_ne.
Qed.

(** The mark loop with enough turns, on a heap in which everything that
    can be reached is allocated. *)
Lemma mark_run (fuel : nat) :
  forall (m : gmap Z Obj) (stack : list Z),
    (length stack + pending trace m <= fuel)%nat ->
    (forall p, reachable m stack p -> is_Some (m !! p)) ->
    exists m',
      mark trace fuel m stack = Some (Ok (m', []))
      /\ same_data m m'
      /\ (forall p, is_marked m p = true -> is_marked m' p = true)
      /\ (forall p, p ∈ stack -> is_marked m' p = true)
      /\ (closed m stack -> closed m' [])
      /\ (forall p, is_marked m' p = true ->
            is_marked m p = true \/ reachable m stack p).
Proof.
  induction fuel as [| fuel IH]; intros m stack Hfuel Halloc.
  - destruct stack as [| x stack]; [| cbn in Hfuel; lia].
    exists m. cbn. repeat split; auto.
    + intros p Hp. set_solver.
  - destruct (rev stack) as [| ptr below] eqn:Hrev.
    + assert (stack = []) as -> by (rewrite <- (rev_involutive stack), Hrev; reflexivity).
      exists m. cbn. repeat split; auto.
      intros p Hp. set_solver.
    + assert (stack = rev below ++ [ptr]) as Hstack
        by (rewrite <- (rev_involutive stack), Hrev; reflexivity).
      cbn [mark]. rewrite Hrev.
      destruct (Halloc ptr) as [o Ho]; [apply reachable_root; set_solver |].
      rewrite Ho.
      destruct (marked o) eqn:Hm.
      * (* already marked: the entry is dropped *)
        destruct (IH m (rev below)) as (m' & Hrun & Hdata & Hmono & Hstk & Hclosed & Hback).
        { subst stack. rewrite length_app in Hfuel. cbn in Hfuel. lia. }
        { intros p Hp. apply Halloc.
          apply (reachable_mono m m stack (rev below) p); [easy | | exact Hp].
          intros r Hr. apply reachable_root. set_solver. }
        exists m'. split; [exact Hrun |]. split; [exact Hdata |].
        split; [exact Hmono |]. split; [| split].
        -- intros p Hp. subst stack. apply elem_of_app in Hp as [Hp | Hp].
           ++ now apply Hstk.
           ++ apply list_elem_of_singleton in Hp as ->. apply Hmono.
              unfold is_marked. now rewrite Ho.
        -- intros Hc. apply Hclosed. intros p op q Hp Hmp Hq.
           destruct (Hc p op q Hp Hmp Hq) as [? | Hin]; [now left |].
           subst stack. apply elem_of_app in Hin as [Hin | Hin]; [now right |].
           apply list_elem_of_singleton in Hin as ->. left.
           unfold is_marked. now rewrite Ho.
        -- intros p Hp. destruct (Hback p Hp) as [? | Hr]; [now left |].
           right. apply (reachable_mono m m stack (rev below) p); [easy | | exact Hr].
           intros r Hin. apply reachable_root. set_solver.
      * (* unmarked: the object is marked and its references are pushed *)
        set (m1 := <[ptr := set_marked true o]> m).
        assert (same_data m m1) as Hd1.
        { intros p. unfold m1. destruct (decide (ptr = p)) as [<- | Hne].
          - rewrite lookup_insert_eq, Ho. reflexivity.
          - now rewrite lookup_insert_ne. }
        assert (forall r, r ∈ rev below ++ trace (data o) -> reachable m stack r) as Hroots1.
        { intros r Hr. apply elem_of_app in Hr as [Hr | Hr].
          - apply reachable_root. set_solver.
          - apply (reachable_step m stack ptr r o); [| exact Ho | exact Hr].
            apply reachable_root. set_solver. }
        destruct (IH m1 (rev below ++ trace (data o)))
          as (m' & Hrun & Hdata & Hmono & Hstk & Hclosed & Hback).
        { rewrite (pending_mark trace m ptr o Ho Hm) in Hfuel. fold m1 in Hfuel.
          subst stack. rewrite !length_app in *. cbn in Hfuel. lia. }
        { intros p Hp.
          destruct (Halloc p (reachable_mono m m1 stack _ p Hd1 Hroots1 Hp)) as [op Hop].
          specialize (Hd1 p). rewrite Hop in Hd1.
          destruct (m1 !! p); [eauto | discriminate]. }
        exists m'. split; [exact Hrun |]. split; [| split; [| split; [| split]]].
        -- intros p. rewrite (Hdata p). apply Hd1.
        -- intros p Hp. apply Hmono. unfold m1. rewrite is_marked_insert.
           destruct (decide (ptr = p)); [reflexivity | exact Hp].
        -- intros p Hp. subst stack. apply elem_of_app in Hp as [Hp | Hp].
           ++ apply Hstk. set_solver.
           ++ apply list_elem_of_singleton in Hp as ->. apply Hmono.
              unfold m1. rewrite is_marked_insert. now rewrite decide_True.
        -- intros Hc. apply Hclosed. intros p op q Hp Hmp Hq.
           unfold m1 in Hp |- *. rewrite is_marked_insert.
           destruct (decide (ptr = p)) as [<- | Hne].
           ++ rewrite lookup_insert_eq in Hp. injection Hp as <-. cbn in Hq.
              right. set_solver.
           ++ rewrite lookup_insert_ne in Hp by assumption.
              destruct (Hc p op q Hp Hmp Hq) as [Hmq | Hin].
              ** left. now destruct (decide (ptr = q)).
              ** subst stack. apply elem_of_app in Hin as [Hin | Hin].
                 --- right. set_solver.
                 --- apply list_elem_of_singleton in Hin as ->. left.
                     now rewrite decide_True.
        -- intros p Hp. destruct (Hback p Hp) as [Hm1 | Hr].
           ++ unfold m1 in Hm1. rewrite is_marked_insert in Hm1.
              destruct (decide (ptr = p)) as [<- | Hne]; [| now left].
              right. apply reachable_root. set_solver.
           ++ right. exact (reachable_mono m m1 stack _ p Hd1 Hroots1 Hr).
Qed.

Lemma marked_reachable (m m' : gmap Z Obj) (roots : list Z) (p : Z) :
  same_data m m' -> closed m' [] ->
  (forall r, r ∈ roots -> is_marked m' r = true) ->
  reachable m roots p -> is_marked m' p = true.
Proof.
  intros Hdata Hclosed Hroots Hp. induction Hp as [p Hp | p q o _ IH Ho Hq].
  - now apply Hroots.
  - unfold is_marked in IH. destruct (m' !! p) as [o' |] eqn:Ho'; [| discriminate].
    specialize (Hdata p). rewrite Ho, Ho' in Hdata. cbn in Hdata.
    injection Hdata as Hd.
    destruct (Hclosed p o' q Ho' IH) as [? | Hin]; [now rewrite Hd | assumption |].
    now apply elem_of_nil in Hin.
Qed.

(** Everything reachable is allocated when the roots are and every
    reference of every object is. *)
Lemma reachable_allocated (m : gmap Z Obj) (roots : list Z) :
  Forall (fun r => is_Some (m !! r)) roots ->
  map_Forall (fun _ o => Forall (fun q => is_Some (m !! q)) (trace (data o))) m ->
  forall p, reachable m roots p -> is_Some (m !! p).
Proof.
  intros Hroots Hrefs p Hp. induction Hp as [p Hp | p q o _ _ Ho Hq].
  - rewrite Forall_forall in Hroots. now apply Hroots.
  - specialize (Hrefs p o Ho). cbn in Hrefs. rewrite Forall_forall in Hrefs.
    now apply Hrefs.
Qed.

(** X1: on a heap whose objects are all unmarked and in which every
    object that can be reached from the mark stack is allocated, the mark
    loop ends with an empty stack, an object is marked afterwards exactly
    when it can be reached from the entries the stack held, and no
    payload has changed. *)
Theorem mark_marks_reachable (m : gmap Z Obj) (roots : list Z) :
  (forall p o, m !! p = Some o -> marked o = false) ->
  (forall p, reachable m roots p -> is_Some (m !! p)) ->
  exists fuel m',
    mark trace fuel m roots = Some (Ok (m', []))
    /\ (forall p, is_marked m' p = true <-> reachable m roots p)
    /\ (forall p, data <$> m' !! p = data <$> m !! p).
Proof.
  intros Hunmarked Halloc.
  destruct (mark_run (length roots + pending trace m) m roots (le_n _) Halloc)
    as (m' & Hrun & Hdata & _ & Hstk & Hclosed & Hback).
  exists (length roots + pending trace m)%nat, m'.
  split; [exact Hrun |]. split; [| exact Hdata].
  intros p. split.
  - intros Hp. destruct (Hback p Hp) as [Hm | Hr]; [| exact Hr].
    unfold is_marked in Hm. destruct (m !! p) as [o |] eqn:Ho; [| discriminate].
    rewrite (Hunmarked p o Ho) in Hm. discriminate.
  - apply (marked_reachable m m' roots p Hdata); [| exact Hstk].
    apply Hclosed. intros q o r Hq Hm. rewrite (Hunmarked q o Hq) in Hm. discriminate.
Qed.

End Reach.

(** *** A whole collection *)

Section Collect.
Variable trace : ObjData -> list Z.
Variable getSize : ObjData -> Z.

Lemma size_at_nonneg (m : gmap Z Obj) (p : Z) :
  (forall d, 0 <= getSize d) -> 0 <= size_at getSize m p.
Proof. intros Hpos. unfold size_at. destruct (m !! p); [apply Hpos | lia]. Qed.

Lemma sumZ_filter_bound (m : gmap Z Obj) (P : Z -> Prop)
    `{!forall x, Decision (P x)} (l : list Z) :
  (forall d, 0 <= getSize d) ->
  0 <= sumZ (map (size_at getSize m) (filter P l))
    <= sumZ (map (size_at getSize m) l).
Proof.
  intros Hpos. induction l as [| x l IH]; [cbn; lia |].
  rewrite filter_cons. pose proof (size_at_nonneg m x Hpos).
  destruct (decide (P x)); cbn [map sumZ foldr] in *; unfold sumZ in *; lia.
Qed.

(** X2: a collection on a heap of unmarked objects keeps exactly the
    registered objects that can be reached from the roots of the VM (and
    from what the mark stack already held), unchanged and unmarked, and
    destroys the registered objects that cannot be reached; afterwards
    [heapSize] is the sum of the sizes of the survivors, the intern map
    holds the strings that can be reached, the mark stack is empty and
    the request to collect is withdrawn. *)
Theorem collect_keeps_reachable (w : World) (v : VM) :
  vm w = Some v ->
  (forall p o, mem w !! p = Some o -> marked o = false) ->
  (forall p, reachable trace (mem w) (markStack (gc w) ++ roots v) p ->
             is_Some (mem w !! p)) ->
  NoDup (objects (gc w)) ->
  (forall p, p ∈ objects (gc w) -> is_Some (mem w !! p)) ->
  map_Forall (fun _ p => is_Some (mem w !! p)) (interned (gc w)) ->
  (forall d, 0 <= getSize d) ->
  sumZ (map (size_at getSize (mem w)) (objects (gc w))) < 2 ^ 64 ->
  exists fuel w',
    collect trace getSize fuel w = Some (Ok w')
    /\ (forall p, p ∈ objects (gc w) ->
          reachable trace (mem w) (markStack (gc w) ++ roots v) p ->
          p ∈ objects (gc w') /\ mem w' !! p = mem w !! p)
    /\ (forall p, p ∈ objects (gc w) ->
          ~ reachable trace (mem w) (markStack (gc w) ++ roots v) p ->
          (p ∉ objects (gc w')) /\ mem w' !! p = None)
    /\ heapSize (gc w') = sumZ (map (size_at getSize (mem w')) (objects (gc w')))
    /\ (forall s p, interned (gc w') !! s = Some p
          <-> interned (gc w) !! s = Some p
              /\ reachable trace (mem w) (markStack (gc w) ++ roots v) p)
    /\ markStack (gc w') = []
    /\ shouldCollect (gc w') = false.
Proof.
  intros Hvm Hunmarked Halloc Hnd Hobjs Hint Hpos Hsum.
  destruct (mark_run trace _ (mem w) (markStack (gc w) ++ roots v) (le_n _) Halloc)
    as (m2 & Hmark & Hdata & _ & Hstk & Hclosed & Hback).
  set (fuel := (length (markStack (gc w) ++ roots v) + pending trace (mem w))%nat) in *.
  assert (forall p, is_marked m2 p = true
                    <-> reachable trace (mem w) (markStack (gc w) ++ roots v) p) as Hiff.
  { intros p. split.
    - intros Hp. destruct (Hback p Hp) as [Hm | Hr]; [| exact Hr].
      unfold is_marked in Hm. destruct (mem w !! p) as [o |] eqn:Ho; [| discriminate].
      rewrite (Hunmarked p o Ho) in Hm. discriminate.
    - apply (marked_reachable trace (mem w) m2 _ p Hdata); [| exact Hstk].
      apply Hclosed. intros q o r Hq Hm. rewrite (Hunmarked q o Hq) in Hm.
      discriminate. }
  assert (forall p, is_Some (mem w !! p) -> is_Some (m2 !! p)) as Hsome.
  { intros p [o Ho]. specialize (Hdata p). rewrite Ho in Hdata.
    destruct (m2 !! p); [eauto | discriminate]. }
  assert (forall p, size_at getSize m2 p = size_at getSize (mem w) p) as Hsize.
  { intros p. unfold size_at. specialize (Hdata p).
    destruct (m2 !! p), (mem w !! p); cbn in Hdata; congruence. }
  destruct (prune_interned_spec m2 (interned (gc w))) as (i' & Hprune & Hi').
  { intros s p Hp. apply Hsome. exact (Hint s p Hp). }
  destruct (sweep_objects_spec getSize (objects (gc w)) m2 [] 0 Hnd)
    as (m3 & Hrun & Hin & Hout); [intros p Hp; apply Hsome, Hobjs, Hp | lia |].
  rewrite !app_nil_r, Z.add_0_l in Hrun.
  pose proof (sumZ_filter_bound m2 (fun p => is_marked m2 p = true) (objects (gc w)) Hpos)
    as Hbound.
  rewrite (map_ext _ _ Hsize (objects (gc w))) in Hbound.
  unfold wrap64 in Hrun. rewrite Z.mod_small in Hrun by lia.
  assert (forall p, p ∈ filter (fun p => is_marked m2 p = true) (objects (gc w)) ->
            size_at getSize m3 p = size_at getSize m2 p) as Hsize3.
  { intros p Hp. apply list_elem_of_filter in Hp as [Hm Hp].
    unfold size_at. rewrite (Hin p Hp). unfold swept. unfold is_marked in Hm.
    destruct (m2 !! p) as [o |]; [| discriminate]. now rewrite Hm. }
  exists fuel. eexists. unfold collect, markRoots. rewrite Hvm. cbn.
  rewrite Hmark. unfold sweep. cbn. rewrite Hprune, Hrun. cbn.
  split; [reflexivity |].
  match goal with
  | |- context [if ?c then ?a else ?b] => replace (if c then a else b) with b
      by (destruct c; reflexivity)
  end.
  cbn. split; [| split; [| split; [| split; [| split]]]].
  - intros p Hp Hr. apply Hiff in Hr. split.
    + apply list_elem_of_filter. auto.
    + rewrite (Hin p Hp). unfold swept. unfold is_marked in Hr.
      specialize (Hdata p).
      destruct (m2 !! p) as [o2 |]; [| discriminate]. rewrite Hr.
      destruct (mem w !! p) as [o |] eqn:Ho; [| discriminate].
      cbn in Hdata. injection Hdata as Hd.
      pose proof (Hunmarked p o Ho) as Hm.
      destruct o as [mk d], o2 as [mk2 d2]. cbn in *. now subst.
  - intros p Hp Hr. assert (is_marked m2 p = false) as Hm.
    { destruct (is_marked m2 p) eqn:Hm; [| reflexivity].
      exfalso. apply Hr, Hiff, Hm. }
    split.
    + intros Hq. apply list_elem_of_filter in Hq as [Hq _]. congruence.
    + rewrite (Hin p Hp). unfold swept. unfold is_marked in Hm.
      destruct (m2 !! p) as [o2 |]; [now rewrite Hm | reflexivity].
  - f_equal. apply map_ext_in. intros p Hp. apply list_elem_of_In in Hp.
    symmetry. now apply Hsize3.
  - intros s p. rewrite Hi'. now rewrite Hiff.
  - reflexivity.
  - reflexivity.
Qed.

(** A block that could not be allocated is registered as a null entry,
    and the object loop of [sweep] reads the mark of every entry. *)
Lemma sweep_objects_null (n : nat) :
  forall (m : gmap Z Obj) (objs : list Z) (size : Z),
    m !! nullptr = None ->
    nullptr ∈ take n objs ->
    sweep_objects getSize n m objs size = Fault.
Proof.
  induction n as [| n IH]; intros m objs size Hnull Hin.
  - rewrite take_0 in Hin. now apply elem_of_nil in Hin.
  - cbn [sweep_objects].
    destruct (objs !! n) as [obj |] eqn:Hobj; [| reflexivity].
    destruct (m !! obj) as [o |] eqn:Ho; [| reflexivity].
    assert (obj <> nullptr) as Hne by congruence.
    rewrite (take_S_r objs n obj Hobj) in Hin.
    apply elem_of_app in Hin as [Hin | Hin];
      [| apply list_elem_of_singleton in Hin; congruence].
    destruct (marked o); cbn [negb].
    + apply IH; [now rewrite lookup_insert_ne | exact Hin].
    + apply IH; [now rewrite lookup_delete_ne |].
      apply lookup_lt_Some in Hobj.
      rewrite delete_take_drop, take_app_length' by (rewrite length_take; lia).
      exact Hin.
Qed.

Lemma mark_keeps_unallocated (fuel : nat) :
  forall (m m' : gmap Z Obj) (stack stack' : list Z) (p : Z),
    mark trace fuel m stack = Some (Ok (m', stack')) ->
    m !! p = None -> m' !! p = None.
Proof.
  induction fuel as [| fuel IH]; intros m m' stack stack' p Hrun Hp.
  - cbn in Hrun. destruct (rev stack); [| discriminate]. now injection Hrun as <- _.
  - cbn [mark] in Hrun. destruct (rev stack) as [| ptr below].
    + now injection Hrun as <- _.
    + destruct (m !! ptr) as [o |] eqn:Ho; [| discriminate].
      destruct (marked o).
      * exact (IH _ _ _ _ p Hrun Hp).
      * apply (IH _ _ _ _ p Hrun). rewrite lookup_insert_ne; [exact Hp | congruence].
Qed.

Lemma mark_no_error (fuel : nat) :
  forall (m : gmap Z Obj) (stack : list Z) (c : Z),
    mark trace fuel m stack <> Some (RuntimeError c).
Proof.
  induction fuel as [| fuel IH]; intros m stack c; cbn [mark].
  - destruct (rev stack); discriminate.
  - destruct (rev stack) as [| ptr below]; [discriminate |].
    destruct (m !! ptr) as [o |]; [| discriminate].
    destruct (marked o); apply IH.
Qed.

Lemma collect_null_entry (w : World) (fuel : nat) :
  mem w !! nullptr = None ->
  nullptr ∈ objects (gc w) ->
  collect trace getSize fuel w = None \/ collect trace getSize fuel w = Some Fault.
Proof.
  intros Hnull Hin. unfold collect, markRoots.
  destruct (vm w) as [v |]; [| now right]. cbn.
  destruct (mark _ _ _ _) as [[[m2 stack2] | c |] |] eqn:Hmark; [| | now right | now left].
  - pose proof (mark_keeps_unallocated _ _ _ _ _ nullptr Hmark Hnull) as Hnull2.
    unfold sweep. unfold prune_interned. cbn.
    destruct (bool_decide _); [| now right].
    rewrite sweep_objects_null; [now right | exact Hnull2 |].
    now rewrite firstn_all.
  - now apply mark_no_error in Hmark.
Qed.

(** X3: after an allocation that failed, no collection completes
    normally: [alloc] has registered the null pointer among the objects,
    and the sweep reads the mark of every entry, so the collection ends
    in a fault. *)
Theorem collect_after_failed_alloc (size : Z) (w : World) :
  mem w !! nullptr = None ->
  (exists fuel, collect trace getSize fuel (alloc size None w).2 = Some Fault)
  /\ (forall fuel w', collect trace getSize fuel (alloc size None w).2 <> Some (Ok w')).
Proof.
  intros Hnull.
  assert (forall fuel,
            collect trace getSize fuel (alloc size None w).2 = None
            \/ collect trace getSize fuel (alloc size None w).2 = Some Fault) as Hnever.
  { intros fuel. apply collect_null_entry; [exact Hnull |].
    unfold alloc. cbn. destruct (_ <? _); cbn; set_solver. }
  split.
  - destruct (collect_returns trace getSize (alloc size None w).2) as (fuel & r & Hr).
    exists fuel. destruct (Hnever fuel) as [H | H]; congruence.
  - intros fuel w' H. destruct (Hnever fuel); congruence.
Qed.

End Collect.

(** A closure with its function and one upvalue cell, rooted in the VM,
    and a string nothing refers to; tracing a closure hands over its
    function and its cells. *)
Definition closure_trace (d : ObjData) : list Z :=
  match d with
  | ObjClosure f upvals => f :: upvals
  | _ => []
  end.

Definition closure_mem : gmap Z Obj :=
  <[0x40 := new (ObjString "garbage")]>
    (<[0x30 := new (ObjUpval (encodeInt 1))]>
       (<[0x20 := new (ObjFunc 0 0 0 1 "f")]>
          (<[0x10 := new (ObjClosure 0x20 [0x30])]> ∅))).

Definition closure_world : World :=
  {| gc := {| heapSize := 64; heapSizeLimit := HEAP_START_SIZE * 1024;
              shouldCollect := true; objects := [0x10; 0x20; 0x30; 0x40];
              markStack := []; interned := <["garbage" := 0x40]> ∅ |};
     mem := closure_mem;
     systemErrors := [];
     vm := Some {| pauseRequested := true; roots := [0x10] |} |}.

Lemma closure_mem_unmarked (p : Z) (o : Obj) :
  closure_mem !! p = Some o -> marked o = false.
Proof.
  assert (map_Forall (fun _ o => marked o = false) closure_mem) as H by compute_done.
  exact (H p o).
Qed.

Lemma closure_mem_allocated (p : Z) :
  reachable closure_trace closure_mem [0x10] p -> is_Some (closure_mem !! p).
Proof. apply reachable_allocated; compute_done. Qed.

Lemma mark_marks_reachable_witness :
  exists fuel m',
    mark closure_trace fuel closure_mem [0x10] = Some (Ok (m', []))
    /\ (forall p, is_marked m' p = true <-> reachable closure_trace closure_mem [0x10] p)
    /\ (forall p, data <$> m' !! p = data <$> closure_mem !! p).
Proof.
  apply (mark_marks_reachable closure_trace closure_mem [0x10]).
  - exact closure_mem_unmarked.
  - exact closure_mem_allocated.
Defined.

Lemma collect_keeps_reachable_witness :
  exists fuel w',
    collect closure_trace (fun _ => 16) fuel closure_world = Some (Ok w')
    /\ (forall p, p ∈ [0x10; 0x20; 0x30; 0x40] ->
          reachable closure_trace closure_mem [0x10] p ->
          p ∈ objects (gc w') /\ mem w' !! p = closure_mem !! p)
    /\ (forall p, p ∈ [0x10; 0x20; 0x30; 0x40] ->
          ~ reachable closure_trace closure_mem [0x10] p ->
          (p ∉ objects (gc w')) /\ mem w' !! p = None)
    /\ heapSize (gc w') = sumZ (map (size_at (fun _ => 16) (mem w')) (objects (gc w')))
    /\ (forall s p, interned (gc w') !! s = Some p
          <-> interned (gc closure_world) !! s = Some p
              /\ reachable closure_trace closure_mem [0x10] p)
    /\ markStack (gc w') = []
    /\ shouldCollect (gc w') = false.
Proof.
  apply (collect_keeps_reachable closure_trace (fun _ => 16) closure_world
           {| pauseRequested := true; roots := [0x10] |}).
  - reflexivity.
  - exact closure_mem_unmarked.
  - exact closure_mem_allocated.
  - compute_done.
  - apply Forall_forall. compute_done.
  - compute_done.
  - intros d. lia.
  - compute_done.
Defined.

Lemma collect_after_failed_alloc_witness :
  mem closure_world !! nullptr = None
  /\ (exists fuel,
        collect closure_trace (fun _ => 16) fuel (alloc 64 None closure_world).2
        = Some Fault)
  /\ (forall fuel w',
        collect closure_trace (fun _ => 16) fuel (alloc 64 None closure_world).2
        <> Some (Ok w')).
Proof.
  split; [reflexivity |].
  apply (collect_after_failed_alloc closure_trace (fun _ => 16) 64 closure_world).
  reflexivity.
Defined.

End MarkFacts.

(** ** More about the handlers of the dispatch loop *)

Module HandlerFacts.
Import ValueHelpers Objects ValueFacts Thread ThreadFacts.

Section WithVM.
Variable STACK_MAX : Z.
Variable FRAMES_MAX : Z.
Variable bytecode : list Z.
Variable constants : list Value.
Variable nativeMethods : Builtin.t -> gmap string BuiltinMethod.
Variable fresh : gmap Z Obj -> Z.
Variable runNative : Z -> Z -> M bool.

(** *** Calls and returns *)

Lemma READ_BYTE_at (s : Machine) (b : Z) :
  0 <= ip s -> bytecode !! Z.to_nat (ip s) = Some b ->
  READ_BYTE bytecode s = Ok (b, set_ip (ip s + 1) s).
Proof.
  intros Hip Hb. unfold READ_BYTE. apply Z.leb_le in Hip. now rewrite Hip, Hb.
Qed.

Lemma push_room (s : Machine) (v : Value) :
  stackTop s < STACK_MAX ->
  push STACK_MAX v s = Ok (tt, set_stack (stack s ++ [v]) s).
Proof.
  intros Hroom. unfold push.
  destruct (Z.leb_spec STACK_MAX (stackTop s)); [lia | reflexivity].
Qed.

Lemma peek_at (s : Machine) (below above : list Value) (v : Value) :
  stack s = below ++ v :: above ->
  peek (Z.of_nat (length above)) s = Ok (v, s).
Proof.
  intros Hs. apply peek_lookup; unfold stackTop; rewrite Hs, length_app; cbn; [lia |].
  replace (Z.to_nat (Z.of_nat (length below + S (length above)) - 1
                     - Z.of_nat (length above))) with (length below) by lia.
  now rewrite list_lookup_middle.
Qed.

(** The frame of a caller and what [LOAD_FRAME] reads through it. *)
Definition frame_of (h : gmap Z Obj) (f : CallFrame.t) (constantsOffset : Z) : Prop :=
  exists mc fn upvals mf off arity ucount name,
    h !! CallFrame.closure f = Some (mkObj mc (ObjClosure fn upvals))
    /\ h !! fn = Some (mkObj mf (ObjFunc off constantsOffset arity ucount name)).

Lemma LOAD_FRAME_top (s : Machine) (fs : list CallFrame.t) (f : CallFrame.t) (co : Z) :
  frames s = fs ++ [f] -> frame_of (heap s) f co ->
  LOAD_FRAME s
  = Ok (tt, set_registers (length fs) (CallFrame.ip f) (CallFrame.slots f) co s).
Proof.
  intros Hf (mc & fn & upvals & mf & off & arity & ucount & name & Hc & Hfn).
  unfold LOAD_FRAME, get. run. rewrite Hf, length_app. cbn [length].
  rewrite Nat.add_1_r. cbn.
  rewrite (list_lookup_middle fs [] f (length fs)) by reflexivity. cbn.
  unfold closure_of, deref. run. rewrite Hc. cbn. rewrite Hfn. reflexivity.
Qed.

(** [CALL argc] on a closure of that arity. *)
Lemma op_CALL_closure (s : Machine) (fs : list CallFrame.t) (f0 : CallFrame.t)
    (below args : list Value) (callee : Value) (mc mf : bool) (fn : Z)
    (upvals : list Z) (off coff ucount : Z) (name : string) :
  frames s = fs ++ [f0] -> frame s = length fs ->
  0 <= ip s -> bytecode !! Z.to_nat (ip s) = Some (Z.of_nat (length args)) ->
  stack s = below ++ callee :: args ->
  isObj callee = true ->
  heap s !! decodeObj callee = Some (mkObj mc (ObjClosure fn upvals)) ->
  heap s !! fn = Some (mkObj mf (ObjFunc off coff (Z.of_nat (length args)) ucount name)) ->
  Z.of_nat (length fs) + 1 <> FRAMES_MAX ->
  op_CALL FRAMES_MAX bytecode fresh runNative s
  = Ok (tt, set_registers (S (length fs)) off (Z.of_nat (length below)) coff
              (set_frames (fs ++ [CallFrame.mk (CallFrame.closure f0) (ip s + 1)
                                               (CallFrame.slots f0);
                                  CallFrame.mk (decodeObj callee) off
                                               (Z.of_nat (length below))])
                          (set_ip (ip s + 1) s))).
Proof.
  intros Hfs Hfr Hip Hb Hs Hobj Hc Hfn Hmax.
  unfold op_CALL. run.
  rewrite (READ_BYTE_at s _ Hip Hb).
  unfold STORE_FRAME. cbn. rewrite Hfr, Hfs.
  rewrite (list_lookup_middle fs [] f0 (length fs)) by reflexivity. cbn.
  rewrite (peek_at _ below args callee) by exact Hs.
  unfold callValue. rewrite Hobj. unfold deref. run. cbn. rewrite Hc. cbn.
  unfold call, closure_of, function_arity, deref, get, modify. run. cbn.
  rewrite Hc. cbn. rewrite Hfn. cbn. rewrite Z.eqb_refl. cbn.
  rewrite insert_app_r_alt by lia. rewrite Nat.sub_diag. cbn [list_insert insert].
  rewrite length_app. cbn [length].
  destruct (Z.eqb_spec (Z.of_nat (length fs + 1)) FRAMES_MAX) as [Heq | _]; [lia |].
  cbn.
  erewrite LOAD_FRAME_top;
    [| reflexivity | cbn; do 8 eexists; split; eassumption].
  cbn. rewrite length_app. cbn. unfold stackTop. cbn. rewrite Hs, length_app. cbn.
  unfold set_registers, set_frames. cbn. rewrite <- app_assoc. cbn.
  replace (Z.of_nat (length below + S (length args)) - Z.of_nat (length args) - 1)
    with (Z.of_nat (length below)) by lia.
  rewrite Nat.add_1_r. reflexivity.
Qed.

(** [RETURN] from a frame that has a caller. *)
Lemma op_RETURN_nested (s : Machine) (fs : list CallFrame.t) (f ftop : CallFrame.t)
    (below rest : list Value) (result : Value) (co : Z) :
  frames s = fs ++ [f; ftop] ->
  slotStart s = Z.of_nat (length below) ->
  stack s = below ++ rest ++ [result] ->
  frame_of (heap s) f co ->
  Z.of_nat (length below) < STACK_MAX ->
  op_RETURN STACK_MAX s
  = Ok (false, set_registers (length fs) (CallFrame.ip f) (CallFrame.slots f) co
                 (set_stack (below ++ [result]) (set_frames (fs ++ [f]) s))).
Proof.
  intros Hfs Hslot Hs Hframe Hroom. unfold op_RETURN. run.
  rewrite (pop_top s (below ++ rest) result) by (now rewrite Hs, app_assoc).
  unfold get, modify. cbn. rewrite Hfs, length_app. cbn [length].
  replace (length fs + 2)%nat with (S (S (length fs))) by lia.
  cbn. rewrite Hslot, Nat2Z.id.
  rewrite take_app_length.
  assert (take (S (length fs)) (fs ++ [f; ftop]) = fs ++ [f]) as ->.
  { change (fs ++ [f; ftop]) with (fs ++ [f] ++ [ftop]). rewrite app_assoc.
    apply take_app_length'. rewrite length_app. cbn. lia. }
  rewrite push_room by (unfold stackTop; cbn; lia).
  cbn. erewrite LOAD_FRAME_top; [reflexivity | reflexivity | exact Hframe].
Qed.

(** X4: a call and the return from it: [CALL argc] on a closure of arity
    [argc] enters the function with its frame based at the callee's
    slot, and when the function returns, whatever it has left on the
    stack above that slot, the caller goes on just behind the operand of
    [CALL] with its own registers and with the callee and the arguments
    replaced by the result. *)
Theorem call_then_return (s : Machine) (fs : list CallFrame.t) (f0 : CallFrame.t)
    (below args : list Value) (callee : Value) (mc mf : bool) (fn : Z)
    (upvals : list Z) (off coff ucount co0 : Z) (name : string) :
  frames s = fs ++ [f0] -> frame s = length fs ->
  frame_of (heap s) f0 co0 ->
  0 <= ip s -> bytecode !! Z.to_nat (ip s) = Some (Z.of_nat (length args)) ->
  stack s = below ++ callee :: args ->
  isObj callee = true ->
  heap s !! decodeObj callee = Some (mkObj mc (ObjClosure fn upvals)) ->
  heap s !! fn = Some (mkObj mf (ObjFunc off coff (Z.of_nat (length args)) ucount name)) ->
  Z.of_nat (length fs) + 1 <> FRAMES_MAX ->
  Z.of_nat (length below) < STACK_MAX ->
  exists s1,
    op_CALL FRAMES_MAX bytecode fresh runNative s = Ok (tt, s1)
    /\ ip s1 = off /\ constantOffset s1 = coff
    /\ slotStart s1 = Z.of_nat (length below)
    /\ stack s1 = stack s /\ heap s1 = heap s
    /\ forall (s2 : Machine) (rest : list Value) (result : Value),
         frames s2 = frames s1 -> slotStart s2 = slotStart s1 ->
         stack s2 = below ++ rest ++ [result] ->
         frame_of (heap s2) f0 co0 ->
         exists s3,
           op_RETURN STACK_MAX s2 = Ok (false, s3)
           /\ stack s3 = below ++ [result]
           /\ ip s3 = ip s + 1
           /\ slotStart s3 = CallFrame.slots f0
           /\ constantOffset s3 = co0
           /\ frame s3 = frame s
           /\ length (frames s3) = length (frames s)
           /\ heap s3 = heap s2.
Proof.
  intros Hfs Hfr Hf0 Hip Hb Hs Hobj Hc Hfn Hmax Hroom.
  eexists. split; [now apply (op_CALL_closure s fs f0 below args callee mc mf fn upvals
                                off coff ucount name) |].
  cbn. repeat (split; [reflexivity |]).
  intros s2 rest result Hfs2 Hslot2 Hs2 Hf2.
  eexists. split.
  - eapply (op_RETURN_nested s2 fs (CallFrame.mk (CallFrame.closure f0) (ip s + 1)
                                      (CallFrame.slots f0)) _ below rest result co0);
      [rewrite Hfs2; reflexivity | exact Hslot2 | exact Hs2 | exact Hf2 | exact Hroom].
  - cbn. rewrite Hfs, Hfr, !length_app. cbn. repeat split; reflexivity.
Qed.

(** [RETURN] from the outermost frame ends the thread's run: the frame is
    dropped and nothing is pushed. *)
Lemma op_RETURN_outermost (s : Machine) (f : CallFrame.t)
    (below : list Value) (result : Value) :
  frames s = [f] -> stack s = below ++ [result] ->
  op_RETURN STACK_MAX s = Ok (true, set_frames [] (set_stack below s)).
Proof.
  intros Hfs Hs. unfold op_RETURN. run.
  rewrite (pop_top s below result Hs). unfold get, modify. cbn. rewrite Hfs. reflexivity.
Qed.

(** *** Arithmetic on integers *)

Section Arithmetic.
Variable double_arith : BinaryOp -> Z -> Z -> Z.
Variable double_neg : Z -> Z.
Variable double_of_int : Z -> Z.
Variable concat : Z -> Z -> M Value.

Lemma isNumber_encodeInt (n : Z) : isNumber (encodeInt n) = true.
Proof. unfold isNumber. rewrite isInt_encodeInt. apply orb_true_r. Qed.

Lemma isObj_encodeInt (n : Z) : isObj (encodeInt n) = false.
Proof. unfold isObj. now rewrite getType_encodeInt. Qed.

Lemma peek_two (s : Machine) (below : list Value) (x y : Value) :
  stack s = below ++ [x; y] ->
  peek 1 s = Ok (x, s) /\ peek 0 s = Ok (y, s).
Proof.
  intros Hs. split.
  - exact (peek_at s below [y] x Hs).
  - apply (peek_at s (below ++ [x]) [] y). now rewrite <- app_assoc.
Qed.

(** [a = v; --stackTop] for the reference [a = peek(1)]. *)
Lemma binary_result (s : Machine) (below : list Value) (x y v : Value) :
  stack s = below ++ [x; y] ->
  (poke 1 v;; popn 1) s = Ok (tt, set_stack (below ++ [v]) s).
Proof.
  intros Hs. unfold poke, popn, get. run.
  assert (stackTop s = Z.of_nat (length below) + 2) as Htop
    by (unfold stackTop; rewrite Hs, length_app; cbn; lia).
  rewrite set_slot_run by lia. cbn.
  unfold stackTop. cbn. rewrite length_insert. fold (stackTop s). rewrite Htop.
  cbn [Z.leb Z.compare andb].
  destruct (Z.leb_spec 1 (Z.of_nat (length below) + 2)); [| lia].
  do 2 f_equal. unfold set_stack. cbn. f_equal.
  replace (Z.to_nat (Z.of_nat (length below) + 2 - 1 - 1)) with (length below) by lia.
  replace (Z.to_nat (Z.of_nat (length below) + 2 - 1)) with (S (length below)) by lia.
  rewrite Hs. rewrite insert_app_r_alt by lia. rewrite Nat.sub_diag. cbn.
  change (below ++ [v; y]) with (below ++ [v] ++ [y]). rewrite app_assoc.
  apply take_app_length'. rewrite length_app. cbn. lia.
Qed.

Lemma BINARY_OP_ints (op : BinaryOp) (s : Machine) (below : list Value) (a b : Z) :
  stack s = below ++ [encodeInt a; encodeInt b] ->
  INT_MIN <= a <= INT_MAX -> INT_MIN <= b <= INT_MAX ->
  BINARY_OP double_arith double_of_int op s
  = match int_arith op a b with
    | Some r => Ok (tt, set_stack (below ++ [encodeInt r]) s)
    | None => Fault
    end.
Proof.
  intros Hs Ha Hb. unfold INT_MIN, INT_MAX in *.
  destruct (peek_two s below _ _ Hs) as [Hp1 Hp0].
  unfold BINARY_OP. run. rewrite Hp1, Hp0.
  rewrite !isNumber_encodeInt, !isInt_encodeInt. cbn [negb orb andb].
  rewrite !decodeInt_encodeInt by lia.
  destruct (int_arith op a b) as [r |] eqn:Hr; cbn; [| reflexivity].
  assert ((INT_MIN <=? r) && (r <=? INT_MAX) = true) as ->.
  { destruct op; cbn in Hr; unfold int_in_range in Hr;
      repeat match type of Hr with
             | (if ?c then _ else _) = _ => destruct c eqn:?; try discriminate
             end;
      injection Hr as <-; assumption. }
  exact (binary_result s below _ _ _ Hs).
Qed.

Lemma op_ADD_ints (s : Machine) (below : list Value) (a b : Z) :
  stack s = below ++ [encodeInt a; encodeInt b] ->
  op_ADD STACK_MAX double_arith double_of_int concat s
  = BINARY_OP double_arith double_of_int OpAdd s.
Proof.
  intros Hs. destruct (peek_two s below _ _ Hs) as [Hp1 Hp0].
  unfold op_ADD. run. rewrite Hp0, Hp1. now rewrite !isNumber_encodeInt.
Qed.

(** X5: [ADD], [SUBTRACT] and [MULTIPLY] on two ints replace them by the
    int result when it fits in 32 bits.  When it does not, the behaviour
    is undefined: the operation is carried out in [int] and overflows
    before the range test that would turn the result into a double. *)
Theorem int_arithmetic_overflow (s : Machine) (below : list Value) (a b : Z) :
  stack s = below ++ [encodeInt a; encodeInt b] ->
  INT_MIN <= a <= INT_MAX -> INT_MIN <= b <= INT_MAX ->
  let result (r : Z) : Result (unit * Machine) :=
    if (INT_MIN <=? r) && (r <=? INT_MAX)
    then Ok (tt, set_stack (below ++ [encodeInt r]) s) else Fault in
  op_ADD STACK_MAX double_arith double_of_int concat s = result (a + b)
  /\ op_SUBTRACT double_arith double_of_int s = result (a - b)
  /\ op_MULTIPLY double_arith double_of_int s = result (a * b).
Proof.
  intros Hs Ha Hb result. subst result. cbn beta.
  rewrite (op_ADD_ints s below a b Hs).
  unfold op_SUBTRACT, op_MULTIPLY.
  rewrite !(BINARY_OP_ints _ s below a b Hs Ha Hb). cbn.
  unfold int_in_range.
  repeat split; now destruct (_ && _).
Qed.

(** X6: [DIVIDE] on two ints is the division of integers, truncated
    toward zero, and [MOD] its remainder (with the sign of the dividend).
    A zero divisor signals no error: the behaviour of both is undefined,
    as is that of [INT_MIN / -1] and [INT_MIN % -1]. *)
Theorem int_division (s : Machine) (below : list Value) (a b : Z) :
  stack s = below ++ [encodeInt a; encodeInt b] ->
  INT_MIN <= a <= INT_MAX -> INT_MIN <= b <= INT_MAX ->
  (b <> 0 -> ~ (a = INT_MIN /\ b = -1) ->
   op_DIVIDE double_arith double_of_int s
   = Ok (tt, set_stack (below ++ [encodeInt (Z.quot a b)]) s)
   /\ op_MOD s = Ok (tt, set_stack (below ++ [encodeInt (Z.rem a b)]) s)
   /\ a = b * Z.quot a b + Z.rem a b
   /\ Z.abs (Z.rem a b) < Z.abs b)
  /\ (b = 0 \/ (a = INT_MIN /\ b = -1) ->
      op_DIVIDE double_arith double_of_int s = Fault /\ op_MOD s = Fault).
Proof.
  intros Hs Ha Hb.
  destruct (peek_two s below _ _ Hs) as [Hp1 Hp0].
  assert (op_MOD s = match int_bitwise OpMod a b with
                     | Some r => Ok (tt, set_stack (below ++ [encodeInt r]) s)
                     | None => Fault
                     end) as Hmod.
  { unfold op_MOD, INT_BINARY_OP. run. rewrite Hp1, Hp0.
    rewrite !isInt_encodeInt. cbn [negb orb].
    unfold INT_MIN, INT_MAX in *. rewrite !decodeInt_encodeInt by lia.
    destruct (int_bitwise OpMod a b); cbn; [| reflexivity].
    exact (binary_result s below _ _ _ Hs). }
  unfold op_DIVIDE. rewrite (BINARY_OP_ints _ s below a b Hs Ha Hb), Hmod. cbn.
  unfold int_in_range, INT_MIN, INT_MAX in *.
  split.
  - intros Hnz Hmin.
    destruct (Z.eqb_spec b 0) as [? | _]; [contradiction |].
    assert (- 2 ^ 31 <= Z.quot a b <= 2 ^ 31 - 1) as Hq.
    { destruct (Z.eq_dec b (-1)) as [-> | Hb1].
      - assert (a <> - 2 ^ 31) by (intros ->; now apply Hmin).
        change (Z.quot a (-1)) with (Z.quot a (Z.opp 1)).
        rewrite Z.quot_opp_r by lia. rewrite Z.quot_1_r. lia.
      - destruct (Z.eq_dec b 1) as [-> | Hb2]; [rewrite Z.quot_1_r; lia |].
        pose proof (Z.quot_abs a b Hnz) as Habs.
        destruct (Z.eq_dec a 0) as [-> | Ha0]; [rewrite Z.quot_0_l by lia; lia |].
        assert (Z.abs (Z.quot a b) < Z.abs a); [| lia].
        rewrite <- Habs. apply Z.quot_lt; lia. }
    replace ((- 2 ^ 31 <=? Z.quot a b) && (Z.quot a b <=? 2 ^ 31 - 1)) with true
      by (symmetry; apply andb_true_intro; split; apply Z.leb_le; lia).
    replace ((a =? - 2 ^ 31) && (b =? -1)) with false.
    2:{ symmetry. apply andb_false_iff.
        destruct (Z.eqb_spec a (- 2 ^ 31)), (Z.eqb_spec b (-1)); auto.
        exfalso. now apply Hmin. }
    repeat split.
    + apply Z.quot_rem'.
    + apply Z.rem_bound_abs. exact Hnz.
  - intros [-> | [-> ->]]; [now cbn |]. now cbn.
Qed.

(** *** [INCREMENT] *)

Lemma set_global_run (s : Machine) (index : Z) (v : Value) :
  0 <= index < Z.of_nat (length (globals s)) ->
  set_global index v s = Ok (tt, set_globals (<[Z.to_nat index := v]> (globals s)) s).
Proof.
  intros Hi. unfold set_global.
  replace ((0 <=? index) && (index <? Z.of_nat (length (globals s)))) with true
    by (symmetry; apply andb_true_intro; split; [apply Z.leb_le | apply Z.ltb_lt]; lia).
  reflexivity.
Qed.

Lemma increment_add_int (n sign : Z) (s : Machine) :
  INT_MIN <= n <= INT_MAX -> INT_MIN <= n + sign <= INT_MAX ->
  increment_add double_arith double_of_int (encodeInt n) sign s
  = Ok (encodeInt (n + sign), s).
Proof.
  intros Hn Hn'. unfold increment_add. rewrite isInt_encodeInt. run.
  unfold INT_MIN, INT_MAX in *. rewrite decodeInt_encodeInt by lia.
  cbn. unfold int_in_range, INT_MIN, INT_MAX.
  replace ((- 2 ^ 31 <=? n + sign) && (n + sign <=? 2 ^ 31 - 1)) with true
    by (symmetry; apply andb_true_intro; split; apply Z.leb_le; lia).
  reflexivity.
Qed.

Lemma increment_add_overflow (n sign : Z) (s : Machine) :
  INT_MIN <= n <= INT_MAX ->
  (INT_MIN <=? n + sign) && (n + sign <=? INT_MAX) = false ->
  increment_add double_arith double_of_int (encodeInt n) sign s = Fault.
Proof.
  intros Hn Hn'. unfold increment_add. rewrite isInt_encodeInt. run.
  unfold INT_MIN, INT_MAX in Hn. rewrite decodeInt_encodeInt by lia.
  cbn. unfold int_in_range. rewrite Hn'. reflexivity.
Qed.

(** X7: [INCREMENT] on a local that holds an int (and no upvalue cell):
    when the int one higher, or one lower for a decrement, fits in 32
    bits, the slot receives it, the prefix form pushes the new value
    and the postfix form the old one, and [ip] is past the two operand
    bytes; when it does not fit, the behaviour is undefined (the
    addition is carried out in [int] and overflows). *)
Theorem INCREMENT_local (s : Machine) (inc prefix : bool) (slot_ n : Z) :
  0 <= ip s ->
  bytecode !! Z.to_nat (ip s)
  = Some ((if inc then 1 else 0) + (if prefix then 2 else 0)) ->
  bytecode !! Z.to_nat (ip s + 1) = Some slot_ ->
  0 <= slotStart s + slot_ ->
  stack s !! Z.to_nat (slotStart s + slot_) = Some (encodeInt n) ->
  INT_MIN <= n <= INT_MAX ->
  stackTop s < STACK_MAX ->
  op_INCREMENT STACK_MAX bytecode constants double_arith double_of_int s
  = if (INT_MIN <=? n + (if inc then 1 else -1))
       && (n + (if inc then 1 else -1) <=? INT_MAX)
    then Ok (tt, set_stack
                   (<[Z.to_nat (slotStart s + slot_)
                      := encodeInt (n + (if inc then 1 else -1))]> (stack s)
                    ++ [encodeInt (if prefix then n + (if inc then 1 else -1) else n)])
                   (set_ip (ip s + 2) s))
    else Fault.
Proof.
  intros Hip Harg Hslot Hk Hv Hn Hroom.
  apply lookup_lt_Some in Hv as Hlt.
  unfold op_INCREMENT. run. rewrite (READ_BYTE_at s _ Hip Harg).
  set (sign := if inc then 1 else -1) in *.
  assert ((if Z.land ((if inc then 1 else 0) + (if prefix then 2 else 0)) 1 =? 1
           then 1 else -1) = sign) as -> by (now destruct inc, prefix).
  assert ((Z.land ((if inc then 1 else 0) + (if prefix then 2 else 0)) 2 =? 2) = prefix)
    as -> by (now destruct inc, prefix).
  assert (Z.shiftr ((if inc then 1 else 0) + (if prefix then 2 else 0)) 2 = 0)
    as -> by (now destruct inc, prefix).
  cbn [Z.eqb].
  rewrite (READ_BYTE_at _ slot_) by (cbn; first [lia | exact Hslot]).
  unfold get. cbn.
  rewrite (slot_lookup _ _ (encodeInt n)) by (cbn; assumption).
  rewrite isOfType_immediate by apply isObj_encodeInt. cbn.
  unfold tryIncrement, place_read, place_write. run.
  rewrite (slot_lookup _ _ (encodeInt n)) by (cbn; assumption).
  rewrite isNumber_encodeInt. cbn [negb].
  destruct ((INT_MIN <=? n + sign) && (n + sign <=? INT_MAX)) eqn:Hfit.
  - assert (INT_MIN <= n + sign <= INT_MAX) as Hn'
      by (apply andb_prop in Hfit as [H1 H2];
          apply Z.leb_le in H1; apply Z.leb_le in H2; lia).
    destruct prefix.
    + rewrite increment_add_int by assumption.
      rewrite set_slot_run by (unfold stackTop; cbn; lia). cbn.
      rewrite push_room by (unfold stackTop in *; cbn; rewrite length_insert; lia).
      unfold set_stack, set_ip. cbn. do 3 f_equal. lia.
    + rewrite push_room by (unfold stackTop in *; cbn; lia). cbn.
      rewrite increment_add_int by assumption.
      rewrite set_slot_run by (unfold stackTop; cbn; rewrite length_app; cbn; lia).
      cbn. rewrite insert_app_l by lia.
      unfold set_stack, set_ip. cbn. do 3 f_equal. lia.
  - destruct prefix.
    + rewrite increment_add_overflow by assumption. reflexivity.
    + rewrite push_room by (unfold stackTop in *; cbn; lia). cbn.
      rewrite increment_add_overflow by assumption. reflexivity.
Qed.

(** X8: [INCREMENT] on a global with a 16-bit index (the form the
    compiler emits for the globals from 256 on) reads the two bytes of the
    index into a [byte]: the global that is changed is the one at the
    index modulo 256, and the global that was meant keeps its value. *)
Theorem INCREMENT_global_long (s : Machine) (inc prefix : bool) (index n : Z) :
  0 <= ip s ->
  bytecode !! Z.to_nat (ip s)
  = Some ((if inc then 1 else 0) + (if prefix then 2 else 0) + 12) ->
  short_at bytecode (ip s + 1) index ->
  globals s !! Z.to_nat (index mod 256) = Some (encodeInt n) ->
  INT_MIN <= n <= INT_MAX ->
  INT_MIN <= n + (if inc then 1 else -1) <= INT_MAX ->
  stackTop s < STACK_MAX ->
  exists s',
    op_INCREMENT STACK_MAX bytecode constants double_arith double_of_int s = Ok (tt, s')
    /\ globals s'
       = <[Z.to_nat (index mod 256) := encodeInt (n + (if inc then 1 else -1))]> (globals s)
    /\ stack s'
       = stack s ++ [encodeInt (if prefix then n + (if inc then 1 else -1) else n)]
    /\ ip s' = ip s + 3
    /\ (256 <= index -> globals s' !! Z.to_nat index = globals s !! Z.to_nat index).
Proof.
  intros Hip Harg Hidx Hv Hn Hn' Hroom.
  apply lookup_lt_Some in Hv as Hlt.
  assert (0 <= index mod 256 < 256) as Hmod by (apply Z.mod_pos_bound; lia).
  unfold op_INCREMENT. run. rewrite (READ_BYTE_at s _ Hip Harg).
  set (sign := if inc then 1 else -1) in *.
  assert ((if Z.land ((if inc then 1 else 0) + (if prefix then 2 else 0) + 12) 1 =? 1
           then 1 else -1) = sign) as -> by (now destruct inc, prefix).
  assert ((Z.land ((if inc then 1 else 0) + (if prefix then 2 else 0) + 12) 2 =? 2)
          = prefix) as -> by (now destruct inc, prefix).
  assert (Z.shiftr ((if inc then 1 else 0) + (if prefix then 2 else 0) + 12) 2 = 3)
    as -> by (now destruct inc, prefix).
  cbn [Z.eqb Pos.eqb].
  rewrite (READ_SHORT_at bytecode _ index) by exact Hidx.
  unfold tryIncrement, place_read, place_write, global_at, get. run. cbn.
  rewrite Hv. cbn. rewrite isNumber_encodeInt. cbn [negb].
  destruct prefix.
  - rewrite increment_add_int by assumption.
    rewrite set_global_run by (cbn; lia). cbn.
    rewrite push_room by (unfold stackTop in *; cbn; lia).
    eexists. split; [reflexivity |]. cbn.
    repeat split; [lia |].
    intros Hbig. apply list_lookup_insert_ne. lia.
  - rewrite push_room by (unfold stackTop in *; cbn; lia). cbn.
    rewrite increment_add_int by assumption.
    rewrite set_global_run by (cbn; lia). cbn.
    eexists. split; [reflexivity |]. cbn.
    repeat split; [lia |].
    intros Hbig. apply list_lookup_insert_ne. lia.
Qed.

End Arithmetic.

(** *** Locals *)

Lemma isOfType_heap (t : ObjType) (x : Value) (s s' : Machine) (b : bool) :
  isOfType t x s = Ok (b, s) ->
  (isObj x = true -> heap s' !! decodeObj x = heap s !! decodeObj x) ->
  isOfType t x s' = Ok (b, s').
Proof.
  unfold isOfType, isObjOfType. intros H Hh.
  destruct (isObj x); [| now injection H as <-].
  rewrite Hh by reflexivity.
  destruct (heap s !! decodeObj x); [| discriminate]. now injection H as <-.
Qed.

(** X9: what [SET_LOCAL] stores in a local, [GET_LOCAL] on the same
    local pushes: through the slot when the slot holds a plain value and
    the value stored is no upvalue cell, and through the upvalue cell,
    leaving the slot alone, when the local has been captured.  When a
    plain slot receives a value that is itself an upvalue cell,
    [GET_LOCAL] pushes the content of that cell, not the value stored. *)
Theorem SET_LOCAL_then_GET_LOCAL (s : Machine) (below : list Value)
    (top old : Value) (slot_ i2 : Z) :
  0 <= ip s -> bytecode !! Z.to_nat (ip s) = Some slot_ ->
  0 <= i2 -> bytecode !! Z.to_nat i2 = Some slot_ ->
  stack s = below ++ [top] ->
  0 <= slotStart s + slot_ ->
  stack s !! Z.to_nat (slotStart s + slot_) = Some old ->
  stackTop s < STACK_MAX ->
  (isOfType UPVALUE old s = Ok (false, s) ->
   isOfType UPVALUE top s = Ok (false, s) ->
   exists s1,
     op_SET_LOCAL bytecode s = Ok (tt, s1)
     /\ stack s1 = <[Z.to_nat (slotStart s + slot_) := top]> (stack s)
     /\ heap s1 = heap s
     /\ op_GET_LOCAL STACK_MAX bytecode (set_ip i2 s1)
        = Ok (tt, set_stack (stack s1 ++ [top]) (set_ip (i2 + 1) s1)))
  /\ (forall (m : bool) (v : Value),
        isOfType UPVALUE old s = Ok (false, s) ->
        isObj top = true ->
        heap s !! decodeObj top = Some (mkObj m (ObjUpval v)) ->
        exists s1,
          op_SET_LOCAL bytecode s = Ok (tt, s1)
          /\ stack s1 = <[Z.to_nat (slotStart s + slot_) := top]> (stack s)
          /\ heap s1 = heap s
          /\ op_GET_LOCAL STACK_MAX bytecode (set_ip i2 s1)
             = Ok (tt, set_stack (stack s1 ++ [v]) (set_ip (i2 + 1) s1)))
  /\ (forall (m : bool) (v : Value),
        isObj old = true ->
        heap s !! decodeObj old = Some (mkObj m (ObjUpval v)) ->
        exists s1,
          op_SET_LOCAL bytecode s = Ok (tt, s1)
          /\ stack s1 = stack s
          /\ heap s1 = <[decodeObj old := mkObj m (ObjUpval top)]> (heap s)
          /\ op_GET_LOCAL STACK_MAX bytecode (set_ip i2 s1)
             = Ok (tt, set_stack (stack s1 ++ [top]) (set_ip (i2 + 1) s1))).
Proof.
  intros Hip Hb Hi2 Hb2 Hs Hk Hold Hroom.
  apply lookup_lt_Some in Hold as Hlt.
  assert (isOfType UPVALUE old s = Ok (false, s) ->
          op_SET_LOCAL bytecode s
          = Ok (tt, set_stack (<[Z.to_nat (slotStart s + slot_) := top]> (stack s))
                      (set_ip (ip s + 1) s))) as Hset.
  { intros Hplain.
    unfold op_SET_LOCAL. run. rewrite (READ_BYTE_at s _ Hip Hb). unfold get. cbn.
    rewrite (slot_lookup _ _ old) by (cbn; assumption).
    rewrite (isOfType_heap _ _ s _ false Hplain) by reflexivity. cbn.
    rewrite (peek_top _ below top) by exact Hs.
    rewrite set_slot_run by (unfold stackTop; cbn; lia). reflexivity. }
  split; [| split].
  - intros Hplain Htop. eexists. split; [exact (Hset Hplain) |].
    cbn. split; [reflexivity | split; [reflexivity |]].
    unfold op_GET_LOCAL. run.
    rewrite (READ_BYTE_at _ slot_) by (cbn; first [lia | exact Hb2]).
    unfold get. cbn.
    rewrite (slot_lookup _ _ top)
      by (cbn; first [lia | now apply list_lookup_insert_eq]).
    rewrite (isOfType_heap _ _ s _ false Htop) by reflexivity. cbn.
    rewrite push_room by (unfold stackTop in *; cbn; rewrite length_insert; lia).
    unfold set_stack, set_ip. cbn. reflexivity.
  - intros m v Hplain Hobj Hcell. eexists. split; [exact (Hset Hplain) |].
    cbn. split; [reflexivity | split; [reflexivity |]].
    unfold op_GET_LOCAL. run.
    rewrite (READ_BYTE_at _ slot_) by (cbn; first [lia | exact Hb2]).
    unfold get. cbn.
    rewrite (slot_lookup _ _ top)
      by (cbn; first [lia | now apply list_lookup_insert_eq]).
    rewrite (isOfType_true _ UPVALUE top (mkObj m (ObjUpval v)))
      by (cbn; first [assumption | reflexivity]).
    cbn. unfold upvalue_of, deref. run. cbn. rewrite Hcell. cbn.
    rewrite push_room by (unfold stackTop in *; cbn; rewrite length_insert; lia).
    reflexivity.
  - intros m v Hobj Hcell. eexists. split.
    + unfold op_SET_LOCAL. run. rewrite (READ_BYTE_at s _ Hip Hb). unfold get. cbn.
      rewrite (slot_lookup _ _ old) by (cbn; assumption).
      rewrite (isOfType_true _ UPVALUE old (mkObj m (ObjUpval v))) by easy. cbn.
      rewrite (peek_top _ below top) by exact Hs.
      unfold store. cbn. rewrite Hcell. reflexivity.
    + cbn. split; [reflexivity | split; [reflexivity |]].
      unfold op_GET_LOCAL. run.
      rewrite (READ_BYTE_at _ slot_) by (cbn; first [lia | exact Hb2]).
      unfold get. cbn.
      rewrite (slot_lookup _ _ old) by (cbn; assumption).
      rewrite (isOfType_true _ UPVALUE old (mkObj m (ObjUpval top)))
        by (cbn; first [assumption | apply lookup_insert_eq | reflexivity]).
      cbn. unfold upvalue_of, deref. run. cbn. rewrite lookup_insert_eq. cbn.
      rewrite push_room by (unfold stackTop in *; cbn; lia).
      reflexivity.
Qed.

(** *** Arrays *)

(** The number of elements that are heap pointers, which [numOfHeapPtr]
    is meant to be. *)
Definition heap_pointers (values : list Value) : Z :=
  Z.of_nat (length (filter (fun v => isObj v = true) values)).

Lemma heap_pointers_app (l k : list Value) :
  heap_pointers (l ++ k) = heap_pointers l + heap_pointers k.
Proof. unfold heap_pointers. rewrite filter_app, length_app. lia. Qed.

Lemma heap_pointers_single (v : Value) :
  heap_pointers [v] = if isObj v then 1 else 0.
Proof.
  unfold heap_pointers. rewrite filter_cons, filter_nil.
  destruct (isObj v) eqn:Hv.
  - now rewrite decide_True.
  - now rewrite decide_False by discriminate.
Qed.

(** The loop of [CREATE_ARRAY] with the last [i] elements still on the
    stack. *)
Lemma array_values_run (vals : list Value) (i : nat) :
  forall (s : Machine) (below filled : list Value) (n : Z),
    (i <= length vals)%nat ->
    stack s = below ++ take i vals ->
    length filled = length vals ->
    array_values i filled n s
    = Ok ((take i vals ++ drop i filled, n + heap_pointers (take i vals)),
          set_stack below s).
Proof.
  induction i as [| i IH]; intros s below filled n Hi Hs Hlen.
  - cbn. rewrite take_0 in *. rewrite app_nil_r in Hs. cbn. rewrite drop_0.
    unfold mret, M_ret. do 2 f_equal; [f_equal; unfold heap_pointers; cbn; lia |].
    destruct s. cbn in *. now subst.
  - destruct (lookup_lt_is_Some_2 vals i) as [v Hv]; [lia |].
    rewrite (take_S_r vals i v Hv) in *.
    cbn [array_values]. run.
    rewrite (pop_top s (below ++ take i vals) v) by (now rewrite Hs, app_assoc).
    rewrite (IH _ below (<[i := v]> filled)
               (if isObj v then n + 1 else n)); cbn;
      [| lia | reflexivity | now rewrite length_insert].
    do 2 f_equal. f_equal.
    + rewrite <- app_assoc. f_equal.
      rewrite (drop_S (<[i := v]> filled) v i)
        by (apply list_lookup_insert_eq; lia).
      cbn. f_equal. now rewrite drop_insert_lt by lia.
    + rewrite heap_pointers_app, heap_pointers_single. destruct (isObj v); lia.
Qed.

(** X10: [CREATE_ARRAY n] builds an array of the [n] values on top of the
    stack, in the order in which they were pushed, counts the heap
    pointers among them in [numOfHeapPtr], and leaves the array in their
    place. *)
Theorem op_CREATE_ARRAY_values (s : Machine) (below vals : list Value) :
  0 <= ip s ->
  bytecode !! Z.to_nat (ip s) = Some (Z.of_nat (length vals)) ->
  stack s = below ++ vals ->
  Z.of_nat (length below) < STACK_MAX ->
  op_CREATE_ARRAY STACK_MAX bytecode fresh s
  = Ok (tt, set_heap (<[fresh (heap s) := new (ObjArray vals (heap_pointers vals))]> (heap s))
              (set_ip (ip s + 1) (set_stack (below ++ [encodeObj (fresh (heap s))]) s))).
Proof.
  intros Hip Hb Hs Hroom. unfold op_CREATE_ARRAY. run.
  rewrite (READ_BYTE_at s _ Hip Hb). rewrite Nat2Z.id.
  unfold new_object. cbn.
  rewrite (array_values_run vals (length vals) _ below); cbn;
    [| lia | now rewrite firstn_all | now rewrite length_replicate].
  rewrite firstn_all, drop_ge by (rewrite length_replicate; lia).
  rewrite app_nil_r, Z.add_0_l.
  unfold store. cbn. rewrite lookup_insert_eq. cbn.
  rewrite push_room by (unfold stackTop; cbn; lia).
  cbn. rewrite insert_insert_eq. reflexivity.
Qed.

Lemma heap_pointers_insert (values : list Value) (i : nat) (old val : Value) :
  values !! i = Some old ->
  heap_pointers (<[i := val]> values)
  = heap_pointers values + (if isObj val then 1 else 0) - (if isObj old then 1 else 0).
Proof.
  intros Hold. apply lookup_lt_Some in Hold as Hlt.
  rewrite <- (take_drop_middle values i old Hold) at 2.
  rewrite insert_take_drop by exact Hlt.
  rewrite !heap_pointers_app.
  change (val :: drop (S i) values) with ([val] ++ drop (S i) values).
  change (old :: drop (S i) values) with ([old] ++ drop (S i) values).
  rewrite !heap_pointers_app, !heap_pointers_single. lia.
Qed.

(** X11: [SET] on an array with an index in range stores the value at
    that index and nowhere else, keeps [numOfHeapPtr] the number of heap
    pointers among the elements when it was that number before, and
    leaves the value on the stack; [GET] with the same index then pushes
    that value. *)
Theorem array_SET_then_GET (s : Machine) (below : list Value) (val callee : Value)
    (i : Z) (m : bool) (values : list Value) (n : Z) :
  stack s = below ++ [val; callee; encodeInt i] ->
  isObj callee = true ->
  heap s !! decodeObj callee = Some (mkObj m (ObjArray values n)) ->
  0 <= i < Z.of_nat (length values) -> i < 2 ^ 31 ->
  Z.of_nat (length values) < 2 ^ 64 ->
  exists s1 n',
    op_SET s = Ok (tt, s1)
    /\ stack s1 = below ++ [val]
    /\ heap s1 = <[decodeObj callee :=
                    mkObj m (ObjArray (<[Z.to_nat i := val]> values) n')]> (heap s)
    /\ (n = heap_pointers values ->
        n' = heap_pointers (<[Z.to_nat i := val]> values))
    /\ forall (s2 : Machine) (below2 : list Value),
         heap s2 = heap s1 ->
         stack s2 = below2 ++ [callee; encodeInt i] ->
         Z.of_nat (length below2) < STACK_MAX ->
         op_GET STACK_MAX s2 = Ok (tt, set_stack (below2 ++ [val]) s2).
Proof.
  intros Hs Hobj Ho Hi Hi32 Hlen.
  destruct (lookup_lt_is_Some_2 values (Z.to_nat i)) as [old Hold]; [lia |].
  destruct (pop_two s (below ++ [val]) callee (encodeInt i)) as [Hp1 Hp2];
    [rewrite Hs, <- app_assoc; reflexivity |].
  eexists. eexists. split.
  - unfold op_SET. run. rewrite Hp1, Hp2.
    rewrite (peek_top _ below val) by reflexivity.
    rewrite (isOfType_true _ ARRAY callee (mkObj m (ObjArray values n))) by easy.
    cbn. unfold array_of, deref. run. cbn. rewrite Ho. cbn.
    rewrite checkArrayBounds_in_range by assumption. cbn. rewrite Hold. cbn.
    unfold store. cbn. rewrite Ho. reflexivity.
  - cbn. split; [reflexivity | split; [reflexivity | split]].
    + intros ->. rewrite (heap_pointers_insert values _ old val Hold).
      destruct (isObj val), (isObj old); cbn; lia.
    + intros s2 below2 Hh Hs2 Hroom.
      destruct (pop_two s2 below2 callee (encodeInt i) Hs2) as [Hq1 Hq2].
      unfold op_GET. run. rewrite Hq1, Hq2.
      erewrite (isOfType_true _ ARRAY callee);
        [| exact Hobj | cbn; rewrite Hh; apply lookup_insert_eq | reflexivity].
      cbn. unfold array_of, deref. run. cbn. rewrite Hh. cbn.
      rewrite lookup_insert_eq. cbn.
      rewrite checkArrayBounds_in_range by (rewrite ?length_insert; assumption).
      cbn. rewrite list_lookup_insert_eq by lia. cbn.
      rewrite push_room by (unfold stackTop; cbn; lia). reflexivity.
Qed.

(** *** Struct literals *)

Lemma fields_of_notin (names : list string) :
  forall (acc : gmap string Value) (vals : list Value) (name : string),
    name ∉ names -> fields_of acc names vals !! name = acc !! name.
Proof.
  induction names as [| n rest IH]; intros acc vals name Hnot; [reflexivity |].
  destruct vals as [| v vs]; [reflexivity |].
  unfold fields_of. cbn. fold (fields_of (<[n := v]> acc) rest vs).
  rewrite IH by set_solver. apply lookup_insert_ne. set_solver.
Qed.

Lemma fields_of_last (names : list string) :
  forall (acc : gmap string Value) (vals : list Value) (k : nat) (name : string) (v : Value),
    names !! k = Some name -> vals !! k = Some v ->
    (forall j, (k < j)%nat -> names !! j <> Some name) ->
    fields_of acc names vals !! name = Some v.
Proof.
  induction names as [| n rest IH]; intros acc vals k name v Hn Hv Hlast;
    [discriminate |].
  destruct vals as [| v0 vs]; [discriminate |].
  unfold fields_of. cbn. fold (fields_of (<[n := v0]> acc) rest vs).
  destruct k as [| k]; cbn in Hn, Hv.
  - injection Hn as ->. injection Hv as ->.
    rewrite fields_of_notin; [apply lookup_insert_eq |].
    intros Hin. apply list_elem_of_lookup in Hin as [j Hj].
    apply (Hlast (S j)); [lia | exact Hj].
  - apply (IH _ vs k name v Hn Hv). intros j Hj. apply (Hlast (S j)). lia.
Qed.

(** X12: the struct that [CREATE_STRUCT] builds gives the field named by
    its k-th operand the k-th value from the top of the stack, and has no
    other field; when a name occurs more than once among the operands,
    its last occurrence decides. *)
Theorem op_CREATE_STRUCT_values (s : Machine) (names : list string)
    (vals below : list Value) :
  0 <= ip s ->
  bytecode !! Z.to_nat (ip s) = Some (Z.of_nat (length names)) ->
  names_at bytecode constants (heap s) (constantOffset s) (ip s + 1) names ->
  length vals = length names ->
  stack s = below ++ rev vals ->
  heap s !! fresh (heap s) = None ->
  Z.of_nat (length below) < STACK_MAX ->
  exists s' fields,
    op_CREATE_STRUCT STACK_MAX bytecode constants fresh s = Ok (tt, s')
    /\ stack s' = below ++ [encodeObj (fresh (heap s))]
    /\ heap s' !! fresh (heap s) = Some (new (ObjInstance nullptr fields))
    /\ (forall k name v,
          names !! k = Some name -> vals !! k = Some v ->
          (forall j, (k < j)%nat -> names !! j <> Some name) ->
          fields !! name = Some v)
    /\ (forall name, name ∉ names -> fields !! name = None).
Proof.
  intros Hip Hb Hn Hlen Hs Hfresh Hroom.
  destruct (op_CREATE_STRUCT_fields STACK_MAX bytecode constants fresh
              s names vals below) as [Hrun _]; try assumption.
  eexists. eexists. split; [exact Hrun |]. cbn.
  split; [reflexivity | split; [apply lookup_insert_eq | split]].
  - intros k name v. apply fields_of_last.
  - intros name Hnot. rewrite fields_of_notin by exact Hnot. apply lookup_empty.
Qed.

(** *** Instances, fields and methods *)

Lemma poke_at (s : Machine) (below above : list Value) (old v : Value) :
  stack s = below ++ old :: above ->
  poke (Z.of_nat (length above)) v s = Ok (tt, set_stack (below ++ v :: above) s).
Proof.
  intros Hs. unfold poke, get. run.
  assert (stackTop s - 1 - Z.of_nat (length above) = Z.of_nat (length below)) as ->
    by (unfold stackTop; rewrite Hs, length_app; cbn; lia).
  rewrite set_slot_run by (unfold stackTop; rewrite Hs, length_app; cbn; lia).
  rewrite Nat2Z.id, Hs. rewrite insert_app_r_alt by lia. rewrite Nat.sub_diag.
  reflexivity.
Qed.

Lemma call_run (s : Machine) (closure fn : Z) (mc mf : bool) (upvals : list Z)
    (off coff arity ucount : Z) (name : string) :
  heap s !! closure = Some (mkObj mc (ObjClosure fn upvals)) ->
  heap s !! fn = Some (mkObj mf (ObjFunc off coff arity ucount name)) ->
  Z.of_nat (length (frames s)) <> FRAMES_MAX ->
  call FRAMES_MAX closure arity s
  = Ok (tt, set_frames (frames s ++ [CallFrame.mk closure off (stackTop s - arity - 1)]) s).
Proof.
  intros Hc Hfn Hmax. unfold call, closure_of, function_arity, deref, get, modify. run.
  rewrite Hc. cbn. rewrite Hfn. cbn. rewrite Z.eqb_refl. cbn.
  destruct (Z.eqb_spec (Z.of_nat (length (frames s))) FRAMES_MAX); [contradiction |].
  reflexivity.
Qed.

(** X13: [invoke] looks in the fields of an instance before it looks in
    the methods of its class: a field that holds a closure is called,
    whatever the class defines under that name, and the closure takes the
    place of the receiver in slot 0 of the new frame. *)
Theorem invoke_field_shadows_method (s : Machine) (below args : list Value)
    (inst f : Value) (mi mc mf : bool) (klass : Z) (fields : gmap string Value)
    (fieldName : string) (fn : Z) (upvals : list Z) (off coff ucount : Z)
    (name : string) :
  stack s = below ++ inst :: args ->
  isObj inst = true ->
  heap s !! decodeObj inst = Some (mkObj mi (ObjInstance klass fields)) ->
  fields !! fieldName = Some f ->
  isObj f = true ->
  heap s !! decodeObj f = Some (mkObj mc (ObjClosure fn upvals)) ->
  heap s !! fn = Some (mkObj mf (ObjFunc off coff (Z.of_nat (length args)) ucount name)) ->
  Z.of_nat (length (frames s)) <> FRAMES_MAX ->
  invoke FRAMES_MAX nativeMethods fresh runNative fieldName
    (Z.of_nat (length args)) s
  = Ok (tt, set_frames (frames s ++ [CallFrame.mk (decodeObj f) off
                                        (Z.of_nat (length below))])
              (set_stack (below ++ f :: args) s)).
Proof.
  intros Hs Hobj Hi Hfield Hfobj Hc Hfn Hmax. unfold invoke. run.
  rewrite (peek_at s below args inst Hs).
  rewrite (isOfType_true _ INSTANCE inst (mkObj mi (ObjInstance klass fields))) by easy.
  cbn. unfold instance_of, deref. run. rewrite Hi. cbn. rewrite Hfield. cbn.
  rewrite (poke_at s below args inst f Hs).
  unfold callValue. rewrite Hfobj. unfold deref. run. cbn. rewrite Hc. cbn.
  rewrite (call_run _ (decodeObj f) fn mc mf upvals off coff _ ucount name)
    by (cbn; assumption).
  cbn. unfold stackTop. cbn. rewrite length_app. cbn.
  replace (Z.of_nat (length below + S (length args)) - Z.of_nat (length args) - 1)
    with (Z.of_nat (length below)) by lia.
  reflexivity.
Qed.

(** X14: [GET_PROPERTY] pops the instance before [bindMethod] reads the
    receiver from the top of the stack: when the name is a method of the
    instance's class and no field, the bound method that is pushed holds
    the value that lay under the instance as its receiver, and that
    value is gone from the stack. *)
Theorem GET_PROPERTY_binds_value_below (s : Machine) (below : list Value)
    (x inst : Value) (mi mk mc : bool) (klass : Z) (fields methods : gmap string Value)
    (cname name : string) (super i : Z) (c method : Value) :
  stack s = below ++ [x; inst] ->
  0 <= ip s -> bytecode !! Z.to_nat (ip s) = Some i ->
  0 <= constantOffset s + i ->
  constants !! Z.to_nat (constantOffset s + i) = Some c ->
  heap s !! decodeObj c = Some (mkObj mc (ObjString name)) ->
  isObj inst = true ->
  heap s !! decodeObj inst = Some (mkObj mi (ObjInstance klass fields)) ->
  fields !! name = None ->
  klass <> nullptr ->
  heap s !! klass = Some (mkObj mk (ObjClass cname methods super)) ->
  methods !! name = Some method ->
  op_GET_PROPERTY STACK_MAX bytecode constants nativeMethods fresh s
  = Ok (tt, set_stack (below ++ [encodeObj (fresh (heap s))])
              (set_heap (<[fresh (heap s) :=
                             new (ObjBoundMethod x (decodeObj method))]> (heap s))
                        (set_ip (ip s + 1) s))).
Proof.
  intros Hs Hip Hb Hk Hc Hstr Hobj Hi Hfield Hklass Hcls Hm.
  unfold op_GET_PROPERTY. run.
  rewrite (pop_top s (below ++ [x]) inst) by (now rewrite Hs, <- app_assoc).
  rewrite (READ_STRING_at bytecode constants _ i c mc name) by (cbn; assumption).
  unfold property_of. run.
  rewrite (isOfType_true _ INSTANCE inst (mkObj mi (ObjInstance klass fields))) by easy.
  cbn. unfold instance_of, deref. run. cbn. rewrite Hi. cbn. rewrite Hfield.
  destruct (Z.eqb_spec klass nullptr) as [? | _]; [contradiction |]. cbn.
  unfold bindMethod, class_methods, deref. run. cbn. rewrite Hcls. cbn. rewrite Hm.
  rewrite (peek_top _ below x) by reflexivity.
  unfold new_object. cbn.
  rewrite (poke_at _ below [] x (encodeObj (fresh (heap s)))) by reflexivity.
  reflexivity.
Qed.

(** X15: calling a class that defines no constructor: without arguments
    the callee's slot receives a new instance of the class with no
    fields; with arguments code 2 is signalled. *)
Theorem callValue_class_without_constructor (s : Machine) (below args : list Value)
    (callee : Value) (mk : bool) (cname : string) (methods : gmap string Value)
    (super : Z) :
  stack s = below ++ callee :: args ->
  isObj callee = true ->
  heap s !! decodeObj callee = Some (mkObj mk (ObjClass cname methods super)) ->
  methods !! cname = None ->
  callValue FRAMES_MAX fresh runNative callee (Z.of_nat (length args)) s
  = match args with
    | [] => Ok (tt, set_stack (below ++ [encodeObj (fresh (heap s))])
                      (set_heap (<[fresh (heap s) :=
                                     new (ObjInstance (decodeObj callee) ∅)]> (heap s)) s))
    | _ :: _ => RuntimeError 2
    end.
Proof.
  intros Hs Hobj Hc Hctor. unfold callValue. rewrite Hobj. unfold deref. run.
  rewrite Hc. cbn. unfold new_object. cbn.
  rewrite (poke_at _ below args callee (encodeObj (fresh (heap s)))) by exact Hs.
  cbn. rewrite Hctor. destruct args; reflexivity.
Qed.

(** *** Switch dispatch, both encodings *)

(** The operands of [SWITCH_LONG] from [i] on are the two-byte indices of
    the constants [cs]. *)
Inductive case_constants_long_at (co : Z) : Z -> list Value -> Prop :=
| case_constants_long_nil (i : Z) : case_constants_long_at co i []
| case_constants_long_cons (i k : Z) (c : Value) (rest : list Value) :
    short_at bytecode i k ->
    0 <= co + k -> constants !! Z.to_nat (co + k) = Some c ->
    case_constants_long_at co (i + 2) rest ->
    case_constants_long_at co i (c :: rest).

Lemma READ_CONSTANT_LONG_at (s : Machine) (k : Z) (c : Value) :
  short_at bytecode (ip s) k ->
  0 <= constantOffset s + k -> constants !! Z.to_nat (constantOffset s + k) = Some c ->
  READ_CONSTANT_LONG bytecode constants s = Ok (c, set_ip (ip s + 2) s).
Proof.
  intros Hk Hco Hc. unfold READ_CONSTANT_LONG. run.
  rewrite (READ_SHORT_at bytecode s k Hk). unfold constant_at. cbn.
  apply Z.leb_le in Hco. now rewrite Hco, Hc.
Qed.

Lemma switch_scan_long_run (cs : list Value) :
  forall (s : Machine) (i : Z) (val : Value),
    case_constants_long_at (constantOffset s) (ip s) cs ->
    exists ip',
      switch_scan (READ_CONSTANT_LONG bytecode constants) (length cs) i val s
      = Ok ((fun j => i + j) <$> first_match val cs, set_ip ip' s).
Proof.
  induction cs as [| c rest IH]; intros s i val Hcs.
  - exists (ip s). cbn. unfold mret, M_ret. do 2 f_equal. now destruct s.
  - inversion Hcs as [| i' k c' rest' Hk Hco Hc Hrest]; subst.
    cbn [length switch_scan first_match]. run.
    rewrite (READ_CONSTANT_LONG_at s k c) by assumption.
    destruct (val =? c).
    + exists (ip s + 2). cbn. now rewrite Z.add_0_r.
    + destruct (IH (set_ip (ip s + 2) s) (i + 1) val Hrest) as [ip' Hrun].
      exists ip'. rewrite Hrun. f_equal. f_equal.
      destruct (first_match val rest); cbn; f_equal. lia.
Qed.

(** X16: [SWITCH] and [SWITCH_LONG] pop the scrutinee and continue where
    the jump says that is stored for the first case constant that is the
    same 64-bit word as the scrutinee; when no constant is, they take the
    jump stored in the last slot, that of the default.  The jump slots
    follow the constant indices, which take one byte each after [SWITCH]
    and two after [SWITCH_LONG]. *)
Theorem SWITCH_takes_first_match (s : Machine) (below : list Value) (val : Value)
    (cs : list Value) (jmp : Z) :
  stack s = below ++ [val] ->
  short_at bytecode (ip s) (Z.of_nat (length cs)) ->
  let case_ := default (Z.of_nat (length cs)) (first_match val cs) in
  (case_constants_at bytecode constants (constantOffset s) (ip s + 2) cs ->
   short_at bytecode (ip s + 2 + Z.of_nat (length cs) + 2 * case_) jmp ->
   op_SWITCH bytecode constants s
   = Ok (tt, set_ip (ip s + 2 + Z.of_nat (length cs) + 2 * case_ + 2 + jmp)
               (set_stack below s)))
  /\ (case_constants_long_at (constantOffset s) (ip s + 2) cs ->
      short_at bytecode (ip s + 2 + 2 * Z.of_nat (length cs) + 2 * case_) jmp ->
      op_SWITCH_LONG bytecode constants s
      = Ok (tt, set_ip (ip s + 2 + 2 * Z.of_nat (length cs) + 2 * case_ + 2 + jmp)
                  (set_stack below s))).
Proof.
  intros Hs Hn case_. split.
  - intros Hcs Hjmp.
    exact (op_SWITCH_target bytecode constants s below val cs jmp Hs Hn Hcs Hjmp).
  - intros Hcs Hjmp. unfold op_SWITCH_LONG, switch_on. run.
    rewrite (pop_top s below val Hs).
    rewrite (READ_SHORT_at bytecode _ (Z.of_nat (length cs))) by exact Hn.
    unfold get. cbn. rewrite Nat2Z.id.
    destruct (switch_scan_long_run cs (set_ip (ip s + 2) (set_stack below s)) 0 val Hcs)
      as [ip' Hrun].
    rewrite Hrun. cbn. unfold modify. cbn.
    set (target := match (fun j => 0 + j) <$> first_match val cs with
                   | Some j => ip s + 2 + Z.of_nat (length cs) * 2 + j * 2
                   | None => ip s + 2 + Z.of_nat (length cs) * 2 + Z.of_nat (length cs) * 2
                   end).
    assert (target = ip s + 2 + 2 * Z.of_nat (length cs) + 2 * case_) as ->.
    { subst target case_. destruct (first_match val cs); cbn; lia. }
    rewrite (READ_SHORT_at bytecode _ jmp) by exact Hjmp.
    reflexivity.
Qed.

End WithVM.

(** *** Inheritance *)

(** X26: [INHERIT] gives the subclass every method of the superclass,
    also under a name for which the subclass has a method of its own: of
    two methods of one name that of the superclass stays.  The other
    methods of the subclass, its name, the other objects and the stack
    are left as they were. *)
Theorem INHERIT_superclass_wins (s : Machine) (below : list Value)
    (superclass sub : Value) (ms mb : bool) (sname bname : string)
    (smethods bmethods : gmap string Value) (ssuper bsuper : Z) :
  stack s = below ++ [superclass; sub] ->
  isObj superclass = true ->
  heap s !! decodeObj superclass = Some (mkObj ms (ObjClass sname smethods ssuper)) ->
  heap s !! decodeObj sub = Some (mkObj mb (ObjClass bname bmethods bsuper)) ->
  exists s' methods,
    op_INHERIT s = Ok (tt, s')
    /\ stack s' = stack s
    /\ heap s' !! decodeObj sub = Some (mkObj mb (ObjClass bname methods bsuper))
    /\ (forall p, p <> decodeObj sub -> heap s' !! p = heap s !! p)
    /\ (forall name method, smethods !! name = Some method ->
          methods !! name = Some method)
    /\ (forall name, smethods !! name = None -> methods !! name = bmethods !! name).
Proof.
  intros Hs Hobj Hsup Hsub.
  exists (set_heap (<[decodeObj sub :=
                        mkObj mb (ObjClass bname (smethods ∪ bmethods) bsuper)]> (heap s)) s),
         (smethods ∪ bmethods).
  split; [eapply ClassFacts.op_INHERIT_copies; eassumption |].
  cbn. repeat split.
  - apply lookup_insert_eq.
  - intros p Hp. apply lookup_insert_ne. congruence.
  - intros name method Hm. apply lookup_union_Some_l. exact Hm.
  - intros name Hm. apply lookup_union_r. exact Hm.
Qed.

(** *** Examples *)

(** The frame of [main], a closure [f] of one parameter whose code starts
    at 7, and a class [Point] without methods. *)
Definition frames_heap : gmap Z Obj :=
  <[0x50 := new (ObjClass "Point" ∅ nullptr)]>
    (<[0x40 := new (ObjFunc 7 3 1 0 "f")]>
       (<[0x30 := new (ObjClosure 0x40 [])]>
          (<[0x20 := new (ObjFunc 0 0 0 0 "main")]>
             (<[0x10 := new (ObjClosure 0x20 [])]> ∅)))).

Definition frames_machine (values : list Value) (i : Z) : Machine :=
  {| stack := values; frames := [CallFrame.mk 0x10 0 0]; frame := 0; ip := i;
     slotStart := 0; constantOffset := 0; globals := [encodeInt 41];
     heap := frames_heap |}.

(** Doubles are not needed where both operands are ints. *)
Definition no_doubles : BinaryOp -> Z -> Z -> Z := fun _ _ _ => 0.
Definition no_concat : Z -> Z -> M Value := fun _ _ => fault.

Lemma call_then_return_witness :
  exists s1,
    op_CALL 64 [0xee; 1] bump no_native_stub
      (frames_machine [encodeObj 0x30; encodeInt 5] 1) = Ok (tt, s1)
    /\ ip s1 = 7 /\ constantOffset s1 = 3 /\ slotStart s1 = 0
    /\ forall (s2 : Machine) (rest : list Value) (result : Value),
         frames s2 = frames s1 -> slotStart s2 = slotStart s1 ->
         stack s2 = rest ++ [result] ->
         frame_of (heap s2) (CallFrame.mk 0x10 0 0) 0 ->
         exists s3,
           op_RETURN 256 s2 = Ok (false, s3)
           /\ stack s3 = [result] /\ ip s3 = 2 /\ slotStart s3 = 0
           /\ constantOffset s3 = 0.
Proof.
  destruct (call_then_return 256 64 [0xee; 1] bump no_native_stub
              (frames_machine [encodeObj 0x30; encodeInt 5] 1)
              [] (CallFrame.mk 0x10 0 0) [] [encodeInt 5] (encodeObj 0x30)
              false false 0x40 [] 7 3 0 0 "f")
    as (s1 & Hcall & Hip & Hco & Hslot & _ & _ & Hreturn).
  - reflexivity.
  - reflexivity.
  - exists false, 0x20, [], false, 0, 0, 0, "main"%string. split; reflexivity.
  - compute_done.
  - reflexivity.
  - reflexivity.
  - vm_compute. reflexivity.
  - reflexivity.
  - reflexivity.
  - compute_done.
  - compute_done.
  - exists s1. repeat split; try assumption.
    intros s2 rest result Hframes Hstart Hstack Hframe.
    destruct (Hreturn s2 rest result Hframes Hstart Hstack Hframe)
      as (s3 & Hret & Hs & Hi & Hsl & Hc & _).
    exists s3. repeat split; assumption.
Defined.

Lemma int_arithmetic_overflow_witness :
  op_ADD 256 no_doubles id no_concat
    (frames_machine [encodeInt INT_MAX; encodeInt 1] 0) = Fault
  /\ op_SUBTRACT no_doubles id (frames_machine [encodeInt INT_MAX; encodeInt 1] 0)
     = Ok (tt, set_stack [encodeInt (INT_MAX - 1)]
                 (frames_machine [encodeInt INT_MAX; encodeInt 1] 0))
  /\ op_MULTIPLY no_doubles id (frames_machine [encodeInt INT_MAX; encodeInt 1] 0)
     = Ok (tt, set_stack [encodeInt INT_MAX]
                 (frames_machine [encodeInt INT_MAX; encodeInt 1] 0)).
Proof.
  apply (int_arithmetic_overflow 256 no_doubles id no_concat
           (frames_machine [encodeInt INT_MAX; encodeInt 1] 0) [] INT_MAX 1).
  - reflexivity.
  - compute_done.
  - compute_done.
Defined.

Lemma int_division_witness :
  (op_DIVIDE no_doubles id (frames_machine [encodeInt (-7); encodeInt 2] 0)
   = Ok (tt, set_stack [encodeInt (-3)] (frames_machine [encodeInt (-7); encodeInt 2] 0))
   /\ op_MOD (frames_machine [encodeInt (-7); encodeInt 2] 0)
      = Ok (tt, set_stack [encodeInt (-1)] (frames_machine [encodeInt (-7); encodeInt 2] 0)))
  /\ op_DIVIDE no_doubles id (frames_machine [encodeInt 1; encodeInt 0] 0) = Fault
  /\ op_MOD (frames_machine [encodeInt 1; encodeInt 0] 0) = Fault.
Proof.
  split.
  - destruct (proj1 (int_division no_doubles id
                       (frames_machine [encodeInt (-7); encodeInt 2] 0) [] (-7) 2
                       eq_refl ltac:(compute_done)
                       ltac:(compute_done)))
      as (Hdiv & Hmod & _).
    + compute_done.
    + compute_done.
    + split; [exact Hdiv | exact Hmod].
  - apply (proj2 (int_division no_doubles id
                    (frames_machine [encodeInt 1; encodeInt 0] 0) [] 1 0
                    eq_refl ltac:(compute_done)
                    ltac:(compute_done))).
    now left.
Defined.

(** [i++] on the local in slot 1, holding 5. *)
Lemma INCREMENT_local_witness :
  op_INCREMENT 256 [1; 1] [] no_doubles id
    (frames_machine [encodeObj 0x10; encodeInt 5] 0)
  = Ok (tt, set_stack [encodeObj 0x10; encodeInt 6; encodeInt 5]
              (set_ip 2 (frames_machine [encodeObj 0x10; encodeInt 5] 0))).
Proof.
  apply (INCREMENT_local 256 [1; 1] [] no_doubles id
           (frames_machine [encodeObj 0x10; encodeInt 5] 0) true false 1 5).
  - compute_done.
  - reflexivity.
  - reflexivity.
  - compute_done.
  - reflexivity.
  - compute_done.
  - compute_done.
Defined.

(** [++g] compiled for the global 256: the global 0 is changed. *)
Lemma INCREMENT_global_long_witness :
  exists s',
    op_INCREMENT 256 [15; 1; 0] [] no_doubles id (frames_machine [] 0) = Ok (tt, s')
    /\ globals s' = [encodeInt 42]
    /\ stack s' = [encodeInt 42]
    /\ ip s' = 3.
Proof.
  destruct (INCREMENT_global_long 256 [15; 1; 0] [] no_doubles id
              (frames_machine [] 0) true true 256 41)
    as (s' & Hrun & Hglobals & Hstack & Hip & _).
  - compute_done.
  - reflexivity.
  - exists 1, 0. repeat split; compute_done.
  - reflexivity.
  - compute_done.
  - compute_done.
  - compute_done.
  - exists s'. repeat split; assumption.
Defined.

(** A local in slot 1 that has been captured: the slot holds the cell. *)
Definition captured_machine : Machine :=
  {| stack := [encodeObj 0x10; encodeObj 0x60; encodeInt 9];
     frames := [CallFrame.mk 0x10 0 0]; frame := 0; ip := 0; slotStart := 0;
     constantOffset := 0; globals := [];
     heap := <[0x60 := new (ObjUpval (encodeInt 5))]> frames_heap |}.

Lemma SET_LOCAL_then_GET_LOCAL_witness :
  exists s1,
    op_SET_LOCAL [1] captured_machine = Ok (tt, s1)
    /\ stack s1 = stack captured_machine
    /\ heap s1 = <[0x60 := new (ObjUpval (encodeInt 9))]> (heap captured_machine)
    /\ op_GET_LOCAL 256 [1] (set_ip 0 s1)
       = Ok (tt, set_stack (stack s1 ++ [encodeInt 9]) (set_ip 1 s1)).
Proof.
  apply (proj2 (proj2 (SET_LOCAL_then_GET_LOCAL 256 [1] captured_machine
                         [encodeObj 0x10; encodeObj 0x60] (encodeInt 9)
                         (encodeObj 0x60) 1 0
                         ltac:(compute_done) eq_refl ltac:(compute_done) eq_refl
                         eq_refl ltac:(compute_done) eq_refl ltac:(compute_done)))
           false (encodeInt 5)).
  - reflexivity.
  - reflexivity.
Defined.

Lemma op_CREATE_ARRAY_values_witness :
  op_CREATE_ARRAY 256 [2] bump
    (frames_machine [encodeObj 0x10; encodeInt 1; encodeObj 0x30] 0)
  = Ok (tt, set_heap (<[bump frames_heap :=
                          new (ObjArray [encodeInt 1; encodeObj 0x30] 1)]> frames_heap)
              (set_ip 1 (set_stack [encodeObj 0x10; encodeObj (bump frames_heap)]
                           (frames_machine [encodeObj 0x10; encodeInt 1; encodeObj 0x30] 0)))).
Proof.
  apply (op_CREATE_ARRAY_values 256 [2] bump
           (frames_machine [encodeObj 0x10; encodeInt 1; encodeObj 0x30] 0)
           [encodeObj 0x10] [encodeInt 1; encodeObj 0x30]).
  - compute_done.
  - reflexivity.
  - reflexivity.
  - compute_done.
Defined.

(** [a[1] = f] on the array [[1, 2]]. *)
Definition array_machine : Machine :=
  {| stack := [encodeObj 0x30; encodeObj 0x70; encodeInt 1];
     frames := [CallFrame.mk 0x10 0 0]; frame := 0; ip := 0; slotStart := 0;
     constantOffset := 0; globals := [];
     heap := <[0x70 := new (ObjArray [encodeInt 1; encodeInt 2] 0)]> frames_heap |}.

Lemma array_SET_then_GET_witness :
  exists s1 n',
    op_SET array_machine = Ok (tt, s1)
    /\ stack s1 = [encodeObj 0x30]
    /\ heap s1 = <[0x70 := new (ObjArray [encodeInt 1; encodeObj 0x30] n')]>
                   (heap array_machine)
    /\ n' = 1
    /\ op_GET 256 (set_stack [encodeObj 0x70; encodeInt 1] s1)
       = Ok (tt, set_stack [encodeObj 0x30] (set_stack [encodeObj 0x70; encodeInt 1] s1)).
Proof.
  destruct (array_SET_then_GET 256 array_machine [] (encodeObj 0x30) (encodeObj 0x70) 1
              false [encodeInt 1; encodeInt 2] 0)
    as (s1 & n' & Hset & Hstack & Hheap & Hcount & Hget).
  - reflexivity.
  - reflexivity.
  - reflexivity.
  - compute_done.
  - compute_done.
  - compute_done.
  - exists s1, n'. repeat split.
    + exact Hset.
    + exact Hstack.
    + exact Hheap.
    + rewrite Hcount; reflexivity.
    + apply (Hget (set_stack [encodeObj 0x70; encodeInt 1] s1) []).
      * reflexivity.
      * reflexivity.
      * compute_done.
Defined.

Lemma op_CREATE_STRUCT_values_witness :
  exists s' fields,
    op_CREATE_STRUCT 256 struct_code struct_constants bump struct_machine = Ok (tt, s')
    /\ stack s' = [encodeObj (bump (heap struct_machine))]
    /\ heap s' !! bump (heap struct_machine) = Some (new (ObjInstance nullptr fields))
    /\ fields !! "a"%string = Some (encodeInt 1)
    /\ fields !! "b"%string = None.
Proof.
  destruct (op_CREATE_STRUCT_values 256 struct_code struct_constants bump no_native_stub
              struct_machine ["a"%string] [encodeInt 1] [])
    as (s' & fields & Hrun & Hstack & Hheap & Hfield & Hother).
  - compute_done.
  - reflexivity.
  - eapply (names_at_cons _ _ _ _ 1 0 (encodeObj 0x10) false).
    + compute_done.
    + reflexivity.
    + compute_done.
    + reflexivity.
    + reflexivity.
    + constructor.
  - reflexivity.
  - reflexivity.
  - reflexivity.
  - compute_done.
  - exists s', fields. repeat split.
    + exact Hrun.
    + exact Hstack.
    + exact Hheap.
    + apply (Hfield 0%nat "a"%string (encodeInt 1)); [reflexivity | reflexivity |].
      intros [| j] Hj; [lia | discriminate].
    + apply Hother. set_solver.
Defined.

(** An instance of a class with the methods [f] and [g] whose field [f]
    holds the closure at [0x30]; the string ["g"] is constant 0. *)
Definition instance_heap : gmap Z Obj :=
  <[0x90 := new (ObjString "g")]>
    (<[0x80 := new (ObjInstance 0x58 (<["f"%string := encodeObj 0x30]> ∅))]>
       (<[0x58 := new (ObjClass "Shape"
                         (<["g"%string := encodeObj 0x30]>
                            (<["f"%string := encodeObj 0x10]> ∅)) nullptr)]>
          frames_heap)).

Definition instance_machine (values : list Value) : Machine :=
  {| stack := values; frames := [CallFrame.mk 0x10 0 0]; frame := 0; ip := 0;
     slotStart := 0; constantOffset := 0; globals := []; heap := instance_heap |}.

Lemma invoke_field_shadows_method_witness :
  invoke 64 no_natives bump no_native_stub "f" 1
    (instance_machine [encodeObj 0x80; encodeInt 5])
  = Ok (tt, set_frames [CallFrame.mk 0x10 0 0; CallFrame.mk 0x30 7 0]
              (set_stack [encodeObj 0x30; encodeInt 5]
                 (instance_machine [encodeObj 0x80; encodeInt 5]))).
Proof.
  apply (invoke_field_shadows_method 64 no_natives bump no_native_stub
           (instance_machine [encodeObj 0x80; encodeInt 5]) [] [encodeInt 5]
           (encodeObj 0x80) (encodeObj 0x30) false false false 0x58
           (<["f"%string := encodeObj 0x30]> ∅) "f" 0x40 [] 7 3 0 "f").
  - reflexivity.
  - reflexivity.
  - reflexivity.
  - reflexivity.
  - reflexivity.
  - reflexivity.
  - reflexivity.
  - compute_done.
Defined.

(** [x.g] is never compiled with a value under the instance that is to
    be the receiver; here the int 5 lies there. *)
Lemma GET_PROPERTY_binds_value_below_witness :
  op_GET_PROPERTY 256 [0] [encodeObj 0x90] no_natives bump
    (instance_machine [encodeInt 5; encodeObj 0x80])
  = Ok (tt, set_stack [encodeObj (bump instance_heap)]
              (set_heap (<[bump instance_heap :=
                             new (ObjBoundMethod (encodeInt 5) 0x30)]> instance_heap)
                 (set_ip 1 (instance_machine [encodeInt 5; encodeObj 0x80])))).
Proof.
  apply (GET_PROPERTY_binds_value_below 256 [0] [encodeObj 0x90] no_natives bump
           (instance_machine [encodeInt 5; encodeObj 0x80]) [] (encodeInt 5)
           (encodeObj 0x80) false false false 0x58
           (<["f"%string := encodeObj 0x30]> ∅)
           (<["g"%string := encodeObj 0x30]> (<["f"%string := encodeObj 0x10]> ∅))
           "Shape" "g" nullptr 0 (encodeObj 0x90) (encodeObj 0x30)).
  - reflexivity.
  - compute_done.
  - reflexivity.
  - compute_done.
  - reflexivity.
  - reflexivity.
  - reflexivity.
  - reflexivity.
  - reflexivity.
  - compute_done.
  - reflexivity.
  - reflexivity.
Defined.

Lemma callValue_class_without_constructor_witness :
  callValue 64 bump no_native_stub (encodeObj 0x50) 0 (frames_machine [encodeObj 0x50] 0)
  = Ok (tt, set_stack [encodeObj (bump frames_heap)]
              (set_heap (<[bump frames_heap := new (ObjInstance 0x50 ∅)]> frames_heap)
                 (frames_machine [encodeObj 0x50] 0))).
Proof.
  apply (callValue_class_without_constructor 64 bump no_native_stub
           (frames_machine [encodeObj 0x50] 0) [] [] (encodeObj 0x50) false "Point" ∅
           nullptr).
  - reflexivity.
  - reflexivity.
  - reflexivity.
  - reflexivity.
Defined.

(** [switch] with the cases 7 and 8 and a default, on the value 8. *)
Definition switch_bytes : list Z := [0; 2; 0; 1; 0; 10; 0; 20; 0; 30].

Lemma SWITCH_takes_first_match_witness :
  op_SWITCH switch_bytes [encodeInt 7; encodeInt 8] (frames_machine [encodeInt 8] 0)
  = Ok (tt, set_ip 28 (set_stack [] (frames_machine [encodeInt 8] 0))).
Proof.
  apply (proj1 (SWITCH_takes_first_match switch_bytes [encodeInt 7; encodeInt 8]
                  (frames_machine [encodeInt 8] 0) [] (encodeInt 8)
                  [encodeInt 7; encodeInt 8] 20 eq_refl
                  ltac:(exists 0, 2; repeat split; compute_done))).
  - eapply (case_constants_cons _ _ _ 2 0); [compute_done | reflexivity | compute_done
                                            | reflexivity |].
    eapply (case_constants_cons _ _ _ 3 1); [compute_done | reflexivity | compute_done
                                            | reflexivity |].
    constructor.
  - exists 0, 20. repeat split; compute_done.
Defined.

(** A superclass and a subclass that both define [area]. *)
Definition classes_heap : gmap Z Obj :=
  <[0x60 := new (ObjClass "Square" (<["area"%string := encodeObj 0x30]> ∅) nullptr)]>
    (<[0x58 := new (ObjClass "Shape"
                      (<["area"%string := encodeObj 0x10]>
                         (<["name"%string := encodeObj 0x10]> ∅)) nullptr)]> ∅).

Definition classes_machine : Machine :=
  {| stack := [encodeObj 0x58; encodeObj 0x60]; frames := []; frame := 0; ip := 0;
     slotStart := 0; constantOffset := 0; globals := []; heap := classes_heap |}.

Lemma INHERIT_superclass_wins_witness :
  exists s' methods,
    op_INHERIT classes_machine = Ok (tt, s')
    /\ heap s' !! 0x60 = Some (new (ObjClass "Square" methods nullptr))
    /\ methods !! "area"%string = Some (encodeObj 0x10)
    /\ methods !! "name"%string = Some (encodeObj 0x10).
Proof.
  destruct (INHERIT_superclass_wins classes_machine [] (encodeObj 0x58) (encodeObj 0x60)
              false false "Shape" "Square"
              (<["area"%string := encodeObj 0x10]> (<["name"%string := encodeObj 0x10]> ∅))
              (<["area"%string := encodeObj 0x30]> ∅) nullptr nullptr)
    as (s' & methods & Hrun & _ & Hsub & _ & Hsuper & _).
  - reflexivity.
  - reflexivity.
  - reflexivity.
  - reflexivity.
  - exists s', methods. repeat split.
    + exact Hrun.
    + exact Hsub.
    + apply Hsuper. reflexivity.
    + apply Hsuper. reflexivity.
Defined.

Lemma captureUpvalue_twice_witness :
  let s := frames_machine [encodeObj 0x10; encodeInt 5] 0 in
  let p1 := bump (heap s) in
  let h1 := <[p1 := new (ObjUpval (encodeInt 5))]> (heap s) in
  let p2 := bump h1 in
  (a ← captureUpvalue bump 1; b ← captureUpvalue bump 1; mret (a, b)) s
  = Ok ((p1, p2),
        set_stack [encodeObj 0x10; encodeObj p2]
          (set_heap (<[p2 := new (ObjUpval (encodeObj p1))]> h1) s)).
Proof.
  apply (captureUpvalue_twice bump (frames_machine [encodeObj 0x10; encodeInt 5] 0) 1
           (encodeInt 5)).
  - compute_done.
  - reflexivity.
Defined.

Lemma op_GET_index_out_of_range_witness :
  op_GET 256 (set_stack [encodeObj 0x70; encodeInt 2] array_machine) = RuntimeError 9.
Proof.
  apply (op_GET_index_out_of_range 256
           (set_stack [encodeObj 0x70; encodeInt 2] array_machine) []
           (encodeObj 0x70) 2 false [encodeInt 1; encodeInt 2] 0).
  - reflexivity.
  - reflexivity.
  - reflexivity.
  - compute_done.
  - discriminate.
  - right. compute_done.
Defined.

End HandlerFacts.

(** ** What the compiler emits and what the interpreter reads *)

Module EmitFacts.
Import ValueHelpers Objects ValueFacts Compiler Thread ThreadFacts HandlerFacts.

Ltac crun :=
  repeat first
    [ progress cbn [mbind mret Compiler.C_bind Compiler.C_ret]
    | progress unfold mbind, mret, Compiler.C_bind, Compiler.C_ret ].

(** The bytes of the chunk being compiled, and the compiler with other
    bytes. *)
Definition code_of (c : Compiler.Compiler) : list Z :=
  Compiler.bytecode (Compiler.chunk c).

Definition with_code (bytes : list Z) (c : Compiler.Compiler) : Compiler.Compiler :=
  Compiler.set_chunk (Compiler.mkChunk bytes (Compiler.constants (Compiler.chunk c))) c.

Definition byte (b : Z) : Z := b mod 256.

Lemma emitByte_run (b : Z) (c : Compiler.Compiler) :
  Compiler.emitByte b c = Compiler.Done tt (with_code (code_of c ++ [byte b]) c).
Proof. reflexivity. Qed.

Lemma with_code_code (bytes : list Z) (c : Compiler.Compiler) :
  code_of (with_code bytes c) = bytes.
Proof. reflexivity. Qed.

Lemma with_code_twice (b1 b2 : list Z) (c : Compiler.Compiler) :
  with_code b2 (with_code b1 c) = with_code b2 c.
Proof. reflexivity. Qed.

Lemma emit_all_emitByte_run (l : list Z) :
  forall c : Compiler.Compiler,
    Compiler.emit_all Compiler.emitByte l c
    = Compiler.Done tt (with_code (code_of c ++ map byte l) c).
Proof.
  induction l as [| b l IH]; intros c.
  - cbn. crun. rewrite app_nil_r. now destruct c as [[bc cs] g d h r].
  - cbn [Compiler.emit_all]. crun. rewrite emitByte_run, IH.
    rewrite with_code_code, with_code_twice, <- app_assoc. reflexivity.
Qed.

(** A 16-bit number and the two bytes that [emit16Bit] and [patchJump]
    store for it. *)
Lemma high_low_bytes (n : Z) :
  0 <= n <= Compiler.UINT16_MAX ->
  0 <= byte (Z.land (Z.shiftr n 8) 0xff) < 256
  /\ 0 <= byte (Z.land n 0xff) < 256
  /\ n = 256 * byte (Z.land (Z.shiftr n 8) 0xff) + byte (Z.land n 0xff).
Proof.
  intros Hn. unfold Compiler.UINT16_MAX in Hn. unfold byte.
  change 0xff with (Z.ones 8). rewrite !Z.land_ones by lia.
  rewrite Z.shiftr_div_pow2 by lia. change (2 ^ 8) with 256.
  rewrite !Z.mod_mod by lia.
  rewrite (Z.mod_small (n / 256)) by (split; [apply Z.div_pos; lia | apply Z.div_lt_upper_bound; lia]).
  pose proof (Z.mod_pos_bound n 256 ltac:(lia)).
  pose proof (Z.div_mod n 256 ltac:(lia)).
  assert (0 <= n / 256 < 256)
    by (split; [apply Z.div_pos; lia | apply Z.div_lt_upper_bound; lia]).
  lia.
Qed.

Lemma short_at_middle (pre post : list Z) (n : Z) :
  0 <= n <= Compiler.UINT16_MAX ->
  short_at (pre ++ byte (Z.land (Z.shiftr n 8) 0xff) :: byte (Z.land n 0xff) :: post)
           (Z.of_nat (length pre)) n.
Proof.
  intros Hn. destruct (high_low_bytes n Hn) as (Hhi & Hlo & Hsum).
  exists (byte (Z.land (Z.shiftr n 8) 0xff)), (byte (Z.land n 0xff)).
  repeat split; try lia.
  - rewrite Nat2Z.id. now apply list_lookup_middle.
  - replace (Z.to_nat (Z.of_nat (length pre) + 1)) with (S (length pre)) by lia.
    change (pre ++ ?a :: ?b :: post) with (pre ++ [a] ++ b :: post).
    rewrite app_assoc. apply list_lookup_middle. rewrite length_app. cbn. lia.
Qed.

Section WithOpcodes.
Variable STACK_MAX : Z.

(** The jump emitted, the code jumped over and the patch. *)
Definition forward_jump (jumpType : Z) (code : list Z) : Compiler.C unit :=
  j ← Compiler.emitJump jumpType;
  Compiler.emit_all Compiler.emitByte code;;
  Compiler.patchJump j.

Lemma size_run (c : Compiler.Compiler) :
  Compiler.size c = Compiler.Done (Z.of_nat (length (code_of c))) c.
Proof. reflexivity. Qed.

Lemma emitJump_run (c : Compiler.Compiler) (jumpType : Z) :
  Compiler.emitJump jumpType c
  = Compiler.Done (Z.of_nat (length (code_of c)) + 1)
      (with_code (code_of c ++ [byte jumpType; 255; 255]) c).
Proof.
  unfold Compiler.emitJump, Compiler.emitBytes. crun.
  rewrite !emitByte_run, size_run, !with_code_code, !with_code_twice.
  rewrite <- !app_assoc. cbn [app]. f_equal.
  rewrite !length_app. cbn [length]. lia.
Qed.

(** [patchJump] on the placeholder at the end of [pre], with [post]
    emitted since. *)
Lemma patchJump_run (c : Compiler.Compiler) (pre post : list Z) (a b : Z) :
  code_of c = pre ++ a :: b :: post ->
  Z.of_nat (length post) <= Compiler.UINT16_MAX ->
  Compiler.patchJump (Z.of_nat (length pre)) c
  = Compiler.Done tt
      (with_code (pre ++ byte (Z.land (Z.shiftr (Z.of_nat (length post)) 8) 0xff)
                      :: byte (Z.land (Z.of_nat (length post)) 0xff) :: post) c).
Proof.
  intros Hcode Hlen. unfold Compiler.patchJump. crun. rewrite size_run. rewrite Hcode.
  rewrite length_app. cbn [length].
  replace (Z.of_nat (length pre + S (S (length post))) - Z.of_nat (length pre) - 2)
    with (Z.of_nat (length post)) by lia.
  destruct (Z.ltb_spec Compiler.UINT16_MAX (Z.of_nat (length post))); [lia |].
  unfold Compiler.set_byte, with_code, code_of in *. crun. rewrite Hcode.
  rewrite length_app. cbn [length].
  replace ((0 <=? Z.of_nat (length pre))
           && (Z.of_nat (length pre) <? Z.of_nat (length pre + S (S (length post)))))
    with true
    by (symmetry; apply andb_true_intro; split; [apply Z.leb_le | apply Z.ltb_lt]; lia).
  cbn. rewrite length_insert, length_app. cbn [length].
  replace ((0 <=? Z.of_nat (length pre) + 1)
           && (Z.of_nat (length pre) + 1 <? Z.of_nat (length pre + S (S (length post)))))
    with true
    by (symmetry; apply andb_true_intro; split; [apply Z.leb_le | apply Z.ltb_lt]; lia).
  unfold Compiler.set_chunk. cbn. do 3 f_equal. rewrite Nat2Z.id.
  replace (Z.to_nat (Z.of_nat (length pre) + 1)) with (length pre + 1)%nat by lia.
  rewrite (insert_app_r_alt pre _ (length pre)) by lia. rewrite Nat.sub_diag.
  rewrite insert_app_r. reflexivity.
Qed.

Lemma forward_jump_run (c : Compiler.Compiler) (jumpType : Z) (code : list Z) :
  Z.of_nat (length code) <= Compiler.UINT16_MAX ->
  forward_jump jumpType code c
  = Compiler.Done tt
      (with_code ((code_of c ++ [byte jumpType])
                  ++ byte (Z.land (Z.shiftr (Z.of_nat (length code)) 8) 0xff)
                  :: byte (Z.land (Z.of_nat (length code)) 0xff)
                  :: map byte code) c).
Proof.
  intros Hlen. unfold forward_jump. crun.
  rewrite emitJump_run, emit_all_emitByte_run, with_code_code, with_code_twice.
  replace (Z.of_nat (length (code_of c)) + 1)
    with (Z.of_nat (length (code_of c ++ [byte jumpType])))
    by (rewrite length_app; cbn; lia).
  rewrite (patchJump_run _ (code_of c ++ [byte jumpType]) (map byte code) 255 255).
  - now rewrite length_map, with_code_twice.
  - rewrite with_code_code, <- !app_assoc. reflexivity.
  - now rewrite length_map.
Qed.

(** The 16-bit operand stored behind [pre] inside the code block, which
    holds the chunk between the code of other functions. *)
Lemma READ_SHORT_emitted (s : Machine) (before pre post after : list Z) (n : Z) :
  0 <= n <= Compiler.UINT16_MAX ->
  ip s = Z.of_nat (length before + length pre) ->
  READ_SHORT (before ++ (pre ++ byte (Z.land (Z.shiftr n 8) 0xff)
                             :: byte (Z.land n 0xff) :: post) ++ after) s
  = Ok (n, set_ip (ip s + 2) s).
Proof.
  intros Hn Hip. apply READ_SHORT_at. rewrite Hip.
  rewrite <- !app_assoc, (app_assoc before pre). cbn [app].
  rewrite <- length_app. apply short_at_middle. exact Hn.
Qed.

(** X17: a forward jump that [emitJump] emits and [patchJump] patches
    after more code has been emitted takes the interpreter to the first
    byte behind that code, wherever the chunk lies in the code block:
    [JUMP] always, and [JUMP_IF_FALSE_POP] when the value it pops is
    falsey (it goes on with the code otherwise).  When more than 65535
    bytes were emitted in between, [patchJump] reports an error and
    throws. *)
Theorem forward_jump_lands (c : Compiler.Compiler) (jumpType : Z) (code : list Z) :
  let n0 := Z.of_nat (length (code_of c)) in
  let n1 := n0 + 3 + Z.of_nat (length code) in
  (Z.of_nat (length code) <= Compiler.UINT16_MAX ->
   exists c',
     forward_jump jumpType code c = Compiler.Done tt c'
     /\ Z.of_nat (length (code_of c')) = n1
     /\ take (length (code_of c)) (code_of c') = code_of c
     /\ (forall (before after : list Z) (s : Machine),
           ip s = Z.of_nat (length before) + n0 + 1 ->
           op_JUMP (before ++ code_of c' ++ after) s
           = Ok (tt, set_ip (Z.of_nat (length before) + n1) s))
     /\ (forall (before after : list Z) (s : Machine) (below : list Value) (v : Value),
           ip s = Z.of_nat (length before) + n0 + 1 -> stack s = below ++ [v] ->
           op_JUMP_IF_FALSE_POP (before ++ code_of c' ++ after) s
           = Ok (tt, set_ip (Z.of_nat (length before)
                             + (if isFalsey v then n1 else n0 + 3))
                       (set_stack below s))))
  /\ (Compiler.UINT16_MAX < Z.of_nat (length code) ->
      exists c', forward_jump jumpType code c = Compiler.Thrown c'
                 /\ Compiler.reported c' = S (Compiler.reported c)).
Proof.
  intros n0 n1. split.
  - intros Hlen. eexists. split; [exact (forward_jump_run c jumpType code Hlen) |].
    rewrite with_code_code.
    assert (forall (before after : list Z) (s : Machine),
              ip s = Z.of_nat (length before) + n0 + 1 ->
              READ_SHORT (before ++ ((code_of c ++ [byte jumpType])
                          ++ byte (Z.land (Z.shiftr (Z.of_nat (length code)) 8) 0xff)
                          :: byte (Z.land (Z.of_nat (length code)) 0xff)
                          :: map byte code) ++ after) s
              = Ok (Z.of_nat (length code),
                    set_ip (Z.of_nat (length before) + n0 + 3) s)) as Hread.
    { intros before after s Hip. rewrite READ_SHORT_emitted.
      - do 3 f_equal. lia.
      - lia.
      - rewrite Hip, length_app. cbn. lia. }
    split; [| split; [| split]].
    + rewrite !length_app. cbn [length]. rewrite length_map. lia.
    + rewrite <- app_assoc. now apply take_app_length'.
    + intros before after s Hip. unfold op_JUMP. run. rewrite (Hread _ _ s Hip).
      unfold Thread.modify. cbn. unfold set_ip. cbn. do 3 f_equal. lia.
    + intros before after s below v Hip Hs. unfold op_JUMP_IF_FALSE_POP. run.
      rewrite (Hread _ _ s Hip).
      rewrite (pop_top _ below v) by exact Hs.
      destruct (isFalsey v); cbn.
      * unfold jump_by, Thread.modify. cbn. unfold set_ip, set_stack. cbn.
        do 3 f_equal. lia.
      * unfold set_ip, set_stack. cbn. do 3 f_equal. lia.
  - intros Hlen. unfold forward_jump. crun.
    rewrite emitJump_run, emit_all_emitByte_run, with_code_code, with_code_twice.
    unfold Compiler.patchJump. crun. rewrite size_run, with_code_code.
    rewrite !length_app, length_map. cbn [length].
    replace (Z.of_nat (length (code_of c) + 3 + length code)
             - (Z.of_nat (length (code_of c)) + 1) - 2)
      with (Z.of_nat (length code)) by lia.
    destruct (Z.ltb_spec Compiler.UINT16_MAX (Z.of_nat (length code))); [| lia].
    eexists. split; reflexivity.
Qed.

(** X18: the backward jump that [emitLoop] emits takes the interpreter
    to [start] when the value [LOOP_IF_TRUE] pops is not falsey, and on
    to the next instruction when it is.  When the jump would span more
    than 65535 bytes, [emitLoop] reports an error and throws. *)
Theorem emitLoop_lands (OP_LOOP_IF_TRUE : Z) (c : Compiler.Compiler) (start : Z) :
  let n := Z.of_nat (length (code_of c)) in
  0 <= start <= n ->
  (n - start + 3 <= Compiler.UINT16_MAX ->
   exists c',
     Compiler.emitLoop OP_LOOP_IF_TRUE start c = Compiler.Done tt c'
     /\ Z.of_nat (length (code_of c')) = n + 3
     /\ take (length (code_of c)) (code_of c') = code_of c
     /\ code_of c' !! length (code_of c) = Some (byte OP_LOOP_IF_TRUE)
     /\ (forall (before after : list Z) (s : Machine) (below : list Value) (v : Value),
           ip s = Z.of_nat (length before) + n + 1 -> stack s = below ++ [v] ->
           op_LOOP_IF_TRUE (before ++ code_of c' ++ after) s
           = Ok (tt, set_ip (Z.of_nat (length before)
                             + (if isFalsey v then n + 3 else start))
                       (set_stack below s))))
  /\ (Compiler.UINT16_MAX < n - start + 3 ->
      exists c', Compiler.emitLoop OP_LOOP_IF_TRUE start c = Compiler.Thrown c'
                 /\ Compiler.reported c' = S (Compiler.reported c)).
Proof.
  intros n Hstart.
  assert (Z.of_nat (length (code_of c ++ [byte OP_LOOP_IF_TRUE])) - start + 2
          = n - start + 3) as Hoff by (rewrite length_app; cbn; lia).
  split.
  - intros Hlen. eexists. split.
    + unfold Compiler.emitLoop. crun.
      rewrite emitByte_run, size_run, with_code_code, Hoff.
      destruct (Z.ltb_spec Compiler.UINT16_MAX (n - start + 3)); [lia |].
      unfold Compiler.emit16Bit, Compiler.emitBytes. crun.
      rewrite !emitByte_run, !with_code_code, !with_code_twice. reflexivity.
    + rewrite with_code_code. split; [| split; [| split]].
      * rewrite !length_app. cbn. lia.
      * rewrite <- !app_assoc. now apply take_app_length'.
      * rewrite <- !app_assoc. now apply list_lookup_middle.
      * intros before after s below v Hip Hs. unfold op_LOOP_IF_TRUE. run.
        rewrite <- (app_assoc (code_of c ++ [byte OP_LOOP_IF_TRUE])). cbn [app].
        rewrite <- (app_nil_r (_ :: _ :: [])).
        change ((?a :: ?b :: []) ++ []) with (a :: b :: []).
        rewrite (READ_SHORT_emitted s before (code_of c ++ [byte OP_LOOP_IF_TRUE]) []
                   after (n - start + 3))
          by (first [lia | rewrite Hip, length_app; cbn; lia]).
        rewrite (pop_top _ below v) by exact Hs.
        destruct (isFalsey v); cbn.
        -- unfold set_ip, set_stack. cbn. do 3 f_equal. lia.
        -- unfold jump_by, Thread.modify. cbn. unfold set_ip, set_stack. cbn.
           do 3 f_equal. lia.
  - intros Hlen. unfold Compiler.emitLoop. crun.
    rewrite emitByte_run, size_run, with_code_code, Hoff.
    destruct (Z.ltb_spec Compiler.UINT16_MAX (n - start + 3)); [| lia].
    eexists. split; reflexivity.
Qed.

(** X19: the instruction that [emitConstant] emits for a value makes the
    interpreter push that value, wherever the chunk's code and
    constants lie in the code block: [CONSTANT] with a one-byte index
    for the first 256 constants of a chunk, [CONSTANT_LONG] with a
    two-byte index up to the 65536th.  For a further constant
    [makeConstant] reports an error and throws. *)
Theorem emitConstant_pushes (OP_CONSTANT OP_CONSTANT_LONG : Z)
    (c : Compiler.Compiler) (v : Value) :
  let k := Z.of_nat (length (Compiler.constants (Compiler.chunk c))) in
  let n := Z.of_nat (length (code_of c)) in
  (k <= Compiler.UINT16_MAX ->
   exists c',
     Compiler.emitConstant OP_CONSTANT OP_CONSTANT_LONG v c = Compiler.Done tt c'
     /\ Compiler.constants (Compiler.chunk c')
        = Compiler.constants (Compiler.chunk c) ++ [v]
     /\ take (length (code_of c)) (code_of c') = code_of c
     /\ code_of c' !! length (code_of c)
        = Some (byte (if k <=? 255 then OP_CONSTANT else OP_CONSTANT_LONG))
     /\ (forall (before after : list Z) (kbefore kafter : list Value) (s : Machine),
           ip s = Z.of_nat (length before) + n + 1 ->
           constantOffset s = Z.of_nat (length kbefore) ->
           stackTop s < STACK_MAX ->
           (if k <=? 255 then op_CONSTANT else op_CONSTANT_LONG)
             STACK_MAX (before ++ code_of c' ++ after)
             (kbefore ++ Compiler.constants (Compiler.chunk c') ++ kafter) s
           = Ok (tt, set_stack (stack s ++ [v])
                       (set_ip (Z.of_nat (length before + length (code_of c'))) s))))
  /\ (Compiler.UINT16_MAX < k ->
      exists c', Compiler.emitConstant OP_CONSTANT OP_CONSTANT_LONG v c
                 = Compiler.Thrown c'
                 /\ Compiler.reported c' = S (Compiler.reported c)).
Proof.
  intros k n.
  assert (forall (kbefore kafter : list Value),
            (kbefore ++ (Compiler.constants (Compiler.chunk c) ++ [v]) ++ kafter)
              !! Z.to_nat (Z.of_nat (length kbefore) + k) = Some v) as Hconst.
  { intros kbefore kafter. subst k.
    replace (Z.to_nat (Z.of_nat (length kbefore)
                       + Z.of_nat (length (Compiler.constants (Compiler.chunk c)))))
      with (length (kbefore ++ Compiler.constants (Compiler.chunk c)))
      by (rewrite length_app; lia).
    rewrite <- !app_assoc, (app_assoc kbefore). now apply list_lookup_middle. }
  unfold Compiler.emitConstant, Compiler.makeConstant, Compiler.addConstant. crun.
  fold k. unfold Compiler.SHORT_CONSTANT_LIMIT. split.
  - intros Hk. destruct (Z.ltb_spec Compiler.UINT16_MAX k); [lia |]. crun.
    destruct (Z.leb_spec k 255) as [Hshort | Hlong].
    + eexists. split.
      { unfold Compiler.emitBytes. crun. rewrite !emitByte_run. reflexivity. }
      rewrite with_code_code. cbn.
      split; [reflexivity | split; [| split]].
      * fold (code_of c). rewrite <- !app_assoc. now apply take_app_length'.
      * fold (code_of c). rewrite <- !app_assoc. now apply list_lookup_middle.
      * intros before after kbefore kafter s Hip Hco Hroom. fold (code_of c).
        unfold op_CONSTANT. run.
        rewrite (READ_CONSTANT_at _ _ s (byte k) v).
        -- cbn. rewrite push_room by (unfold stackTop in *; cbn; lia).
           unfold set_stack, set_ip. cbn. do 3 f_equal.
           rewrite Hip, !length_app. cbn. lia.
        -- lia.
        -- rewrite Hip.
           replace (Z.to_nat (Z.of_nat (length before) + n + 1))
             with (length (before ++ code_of c ++ [byte OP_CONSTANT]))
             by (rewrite !length_app; cbn; lia).
           rewrite <- !app_assoc. cbn [app].
           change (before ++ code_of c ++ byte OP_CONSTANT :: byte k :: after)
             with (before ++ code_of c ++ [byte OP_CONSTANT] ++ byte k :: after).
           rewrite !app_assoc. apply list_lookup_middle.
           now rewrite <- !app_assoc.
        -- unfold byte. rewrite Z.mod_small by lia. lia.
        -- unfold byte. rewrite Z.mod_small by lia. rewrite Hco. apply Hconst.
    + eexists. split.
      { unfold Compiler.emitByteAnd16Bit, Compiler.emit16Bit, Compiler.emitBytes. crun.
        rewrite !emitByte_run, !with_code_code, !with_code_twice. reflexivity. }
      rewrite with_code_code. cbn.
      split; [reflexivity | split; [| split]].
      * fold (code_of c). rewrite <- !app_assoc. now apply take_app_length'.
      * fold (code_of c). rewrite <- !app_assoc. now apply list_lookup_middle.
      * intros before after kbefore kafter s Hip Hco Hroom. fold (code_of c).
        unfold op_CONSTANT_LONG, READ_CONSTANT_LONG. run.
        rewrite <- (app_assoc (code_of c ++ [byte OP_CONSTANT_LONG])). cbn [app].
        rewrite (READ_SHORT_emitted s before (code_of c ++ [byte OP_CONSTANT_LONG]) []
                   after k)
          by (first [lia | rewrite Hip, length_app; cbn; lia]).
        unfold constant_at. cbn. rewrite Hco.
        replace (0 <=? Z.of_nat (length kbefore) + k) with true
          by (symmetry; apply Z.leb_le; lia).
        rewrite Hconst. cbn.
        rewrite push_room by (unfold stackTop in *; cbn; lia).
        unfold set_stack, set_ip. cbn. do 3 f_equal.
        rewrite Hip, !length_app. cbn. lia.
  - intros Hk. destruct (Z.ltb_spec Compiler.UINT16_MAX k); [| lia].
    eexists. split; reflexivity.
Qed.

End WithOpcodes.

(** *** Struct literals, compiled and run *)

Section StructLiterals.
Variable STACK_MAX : Z.
Variable fresh : gmap Z Obj -> Z.

(** The allocator gives unused addresses that fit the 48 bits of a boxed
    pointer for the strings of [names], allocated one after the other. *)
Fixpoint fresh_for (h : gmap Z Obj) (names : list string) : Prop :=
  match names with
  | [] => True
  | name :: rest =>
      h !! fresh h = None /\ 0 <= fresh h < 2 ^ 48
      /\ fresh_for (<[fresh h := new (ObjString name)]> h) rest
  end.

(** The number of constants that the entries of a struct literal add to
    the chunk: those of each expression and one for each name. *)
Fixpoint entry_constants (fields : list StructEntry) : Z :=
  match fields with
  | [] => 0
  | e :: rest => Z.of_nat (length (entryConstants e)) + 1 + entry_constants rest
  end.

Definition entries_code (fields : list StructEntry) : list Z :=
  concat (map (fun e => map byte (entryCode e)) fields).

Lemma entry_constants_nonneg (fields : list StructEntry) : 0 <= entry_constants fields.
Proof. induction fields; cbn; lia. Qed.

Lemma emit_entry_run (e : StructEntry) (c : Compiler.Compiler) :
  emit_entry e c
  = Compiler.Done tt
      (Compiler.set_chunk
         (mkChunk (code_of c ++ map byte (entryCode e))
                  (Compiler.constants (chunk c) ++ entryConstants e)) c).
Proof.
  unfold emit_entry. crun. rewrite emit_all_emitByte_run. reflexivity.
Qed.

(** The loop over the fields: the indices of the names are appended to
    the ones gathered so far, each the index of a constant that is a
    string object with the name as contents. *)
Lemma struct_entries_run (fields : list StructEntry) :
  forall (c : Compiler.Compiler) (nums : list Z) (isLong : bool),
    fresh_for (Compiler.heap c) (map entryName fields) ->
    Z.of_nat (length (Compiler.constants (chunk c))) + entry_constants fields <= 256 ->
    exists c' nums' more,
      struct_entries fresh fields (nums, isLong) c = Compiler.Done (nums ++ nums', isLong) c'
      /\ length nums' = length fields
      /\ code_of c' = code_of c ++ entries_code fields
      /\ Compiler.constants (chunk c') = Compiler.constants (chunk c) ++ more
      /\ Z.of_nat (length more) = entry_constants fields
      /\ Compiler.heap c ⊆ Compiler.heap c'
      /\ Compiler.reported c' = Compiler.reported c
      /\ forall i num e,
           nums' !! i = Some num -> fields !! i = Some e ->
           0 <= num <= 255
           /\ exists p, Compiler.constants (chunk c') !! Z.to_nat num = Some (encodeObj p)
                        /\ 0 <= p < 2 ^ 48
                        /\ Compiler.heap c' !! p = Some (new (ObjString (entryName e))).
Proof.
  induction fields as [| e rest IH]; intros c nums isLong Hfresh Hroom.
  - exists c, [], []. unfold entries_code. cbn. rewrite !app_nil_r.
    do 7 (split; [reflexivity |]). intros i num e Hn. discriminate.
  - cbn [map fresh_for] in Hfresh. destruct Hfresh as (Hunused & Hrange & Hfresh).
    cbn [entry_constants] in Hroom.
    pose proof (entry_constants_nonneg rest) as Hrest.
    cbn [struct_entries]. crun. rewrite emit_entry_run.
    unfold identifierConstant, new_object, makeConstant, addConstant. crun. cbn.
    set (p := fresh (Compiler.heap c)) in *.
    set (num := Z.of_nat (length (Compiler.constants (chunk c) ++ entryConstants e))).
    assert (Hnum : 0 <= num <= 255) by (unfold num; rewrite length_app; lia).
    replace (UINT16_MAX <? num) with false by (unfold UINT16_MAX; lia).
    replace (SHORT_CONSTANT_LIMIT <? num) with false by (unfold SHORT_CONSTANT_LIMIT; lia).
    rewrite orb_false_r.
    match goal with
    | |- context [struct_entries fresh rest _ ?x] => set (c2 := x)
    end.
    destruct (IH c2 (nums ++ [num]) isLong) as
      (c' & nums' & more & Hrun & Hlen & Hcode & Hconsts & Hmore & Hheap & Hrep & Hnames).
    { exact Hfresh. }
    { cbn. rewrite !length_app. cbn. lia. }
    exists c', (num :: nums'), (entryConstants e ++ [encodeObj p] ++ more).
    rewrite Hrun, <- app_assoc. cbn [app].
    split; [reflexivity |].
    split; [cbn; now rewrite Hlen |].
    split; [rewrite Hcode; unfold entries_code; cbn; now rewrite <- app_assoc |].
    split; [rewrite Hconsts; cbn; now rewrite <- !app_assoc |].
    split; [rewrite !length_app; cbn [length]; cbn [entry_constants]; lia |].
    split; [etrans; [| exact Hheap]; cbn; apply insert_subseteq; exact Hunused |].
    split; [exact Hrep |].
    intros [| i] num0 e0 Hn He; cbn in Hn, He; [| apply (Hnames i num0 e0 Hn He)].
    injection Hn as <-. injection He as <-. split; [lia |].
    exists p. split; [| split; [lia |]].
    + rewrite Hconsts. cbn. unfold num. rewrite Nat2Z.id.
      rewrite lookup_app_l by (rewrite !length_app; cbn; lia).
      apply list_lookup_middle. reflexivity.
    + eapply lookup_weaken; [| exact Hheap]. cbn. apply lookup_insert_eq.
Qed.

Lemma rev_lookup_Some {A} (l : list A) (i : nat) (x : A) :
  rev l !! i = Some x <-> l !! (length l - S i)%nat = Some x /\ (i < length l)%nat.
Proof. rewrite rev_alt. apply reverse_lookup_Some. Qed.

Lemma names_at_operands (constants : list Value) (h : gmap Z Obj) (co : Z)
    (ops : list Z) :
  forall (names : list string) (pre post : list Z),
    length ops = length names ->
    (forall i num name,
       ops !! i = Some num -> names !! i = Some name ->
       0 <= co + num
       /\ exists c mc, constants !! Z.to_nat (co + num) = Some c
                       /\ h !! decodeObj c = Some (mkObj mc (ObjString name))) ->
    names_at (pre ++ ops ++ post) constants h co (Z.of_nat (length pre)) names.
Proof.
  induction ops as [| op ops IH]; intros names pre post Hlen Hops.
  - destruct names; [constructor | discriminate].
  - destruct names as [| name names]; [discriminate |].
    destruct (Hops 0%nat op name eq_refl eq_refl) as (Hk & c & mc & Hc & Hs).
    eapply (names_at_cons _ _ _ _ _ op c mc); try eassumption.
    + lia.
    + rewrite Nat2Z.id. apply list_lookup_middle. reflexivity.
    + replace (Z.of_nat (length pre) + 1) with (Z.of_nat (length (pre ++ [op])))
        by (rewrite length_app; cbn; lia).
      replace (pre ++ (op :: ops) ++ post) with ((pre ++ [op]) ++ ops ++ post)
        by (now rewrite <- app_assoc).
      apply IH; [cbn in Hlen; lia |].
      intros i num n Hi Hn. apply (Hops (S i) num n Hi Hn).
Qed.

End StructLiterals.

(** *** Examples *)

(** A chunk of two bytes, and a loop back to its start. *)
Definition loop_compiler : Compiler.Compiler :=
  Compiler.mkCompiler (Compiler.mkChunk [0xee; 0xee] []) [] [] ∅ 0.

Lemma emitLoop_lands_witness :
  exists c',
    Compiler.emitLoop 0x20 0 loop_compiler = Compiler.Done tt c'
    /\ Z.of_nat (length (code_of c')) = 5
    /\ op_LOOP_IF_TRUE (code_of c') (frames_machine [encodeBool true] 3)
       = Ok (tt, set_ip 0 (set_stack [] (frames_machine [encodeBool true] 3))).
Proof.
  destruct (proj1 (emitLoop_lands 0x20 loop_compiler 0 ltac:(compute_done)))
    as (c' & Hrun & Hlen & _ & _ & Hjump).
  - compute_done.
  - exists c'. repeat split; [exact Hrun | exact Hlen |].
    specialize (Hjump [] [] (frames_machine [encodeBool true] 3) [] (encodeBool true)
                  eq_refl eq_refl).
    rewrite app_nil_r in Hjump. exact Hjump.
Defined.

(** The literal [{a: 1, a: 2}] in an empty chunk, and the machine that
    has run the code of the two expressions. *)
Definition literal_compiler : Compiler.Compiler :=
  Compiler.mkCompiler (Compiler.mkChunk [] []) [] [] ∅ 0.

Definition literal_fields : list StructEntry :=
  [mkStructEntry "a" [0xee; 1] []; mkStructEntry "a" [0xee; 2] []].

Definition literal_machine : Machine :=
  {| stack := [encodeInt 1; encodeInt 2]; frames := []; frame := 0; ip := 5;
     slotStart := 0; constantOffset := 0; globals := [];
     heap := <[0x1010 := new (ObjString "a")]> (<[0x1000 := new (ObjString "a")]> ∅) |}.


End EmitFacts.

(** ** Locals, scopes and upvalues of the compiler *)

Module ScopeFacts.
Import Scopes.

Ltac srun :=
  repeat first
    [ progress cbn [mbind mret C_bind C_ret]
    | progress unfold mbind, mret, C_bind, C_ret ].

Section Settled.
Variable LOCAL_MAX : Z.

(** The compiler with another info for the function being compiled. *)
Definition with_current (f : CurrentChunkInfo) (s : Compiler) : Compiler :=
  {| current := f; enclosing := enclosing s; reported := reported s |}.

(** The locals in use. *)
Definition in_use (f : CurrentChunkInfo) : list Local :=
  take (Z.to_nat (localCount f)) (locals f).

(** The array of locals has [LOCAL_MAX] entries, the number in use lies
    within it, and every local in use has been initialised in a scope
    that is still open. *)
Definition settled (f : CurrentChunkInfo) : Prop :=
  Z.of_nat (length (locals f)) = LOCAL_MAX
  /\ 0 <= localCount f <= LOCAL_MAX
  /\ 0 <= scopeDepth f
  /\ Forall (fun l => 0 <= depth l <= scopeDepth f) (in_use f).

Lemma modify_current_run (g : CurrentChunkInfo -> CurrentChunkInfo) (s : Compiler) :
  modify_current g s = Done tt (with_current (g (current s)) s).
Proof. reflexivity. Qed.

(** The loop of [resolveLocal] looks at the locals below [i] only and
    leaves the compiler as it is. *)
Lemma resolveLocal_from_ext (f g : CurrentChunkInfo) (name_ : string) (i : nat)
    (s t : Compiler) (r : Z) :
  (forall j, (j < i)%nat -> locals f !! j = locals g !! j) ->
  resolveLocal_from f name_ i s = Done r s ->
  resolveLocal_from g name_ i t = Done r t.
Proof.
  revert r. induction i as [| i IH]; intros r Hsame Hrun.
  - cbn in *. unfold mret, C_ret in *. congruence.
  - cbn [resolveLocal_from] in *. unfold mbind, C_bind in *.
    rewrite <- (Hsame i) by lia.
    destruct (locals f !! i) as [local |]; cbn in *; [| discriminate].
    destruct (String.eqb name_ (name local)).
    + destruct (depth local =? -1); [discriminate |].
      unfold mret, C_ret in *. congruence.
    + apply IH; [| exact Hrun]. intros j Hj. apply Hsame. lia.
Qed.

End Settled.

Ltac sinfo :=
  cbn [with_current current enclosing reported scopeDepth localCount locals bytecode
       upvalues upvalueCount hasCapturedLocals set_bytecode set_localCount set_locals
       set_scopeDepth set_upvalues set_hasCapturedLocals info_at name depth isCaptured].

(** *** Declaring locals ([declareVar], [addLocal], [markInit],
    [resolveLocal]) *)

Section Declarations.
Variable LOCAL_MAX : Z.

Lemma beginScope_run (s : Compiler) :
  beginScope s
  = Done tt (with_current (set_scopeDepth (scopeDepth (current s) + 1) (current s)) s).
Proof. reflexivity. Qed.

(** The loop of [declareVar] stops at the first local of an outer scope. *)
Lemma declared_in_scope_outer (f : CurrentChunkInfo) (x : string) (n : nat)
    (s : Compiler) :
  (n <= length (locals f))%nat ->
  Forall (fun l => 0 <= depth l < scopeDepth f) (take n (locals f)) ->
  declared_in_scope f x n s = Done tt s.
Proof.
  intros Hlen Hall. destruct n as [| n]; [reflexivity |].
  cbn [declared_in_scope]. unfold mbind, C_bind.
  destruct (lookup_lt_is_Some_2 (locals f) n ltac:(lia)) as [l Hl].
  rewrite Hl. cbn.
  assert (Hd : 0 <= depth l < scopeDepth f).
  { rewrite Forall_forall in Hall. apply Hall.
    apply (list_elem_of_lookup_2 _ n). rewrite lookup_take_lt by lia. exact Hl. }
  replace (depth l =? -1) with false by lia.
  replace (depth l <? scopeDepth f) with true by lia.
  reflexivity.
Qed.

Lemma addLocal_run (s : Compiler) (x : string) (old : Local) :
  let f := current s in
  0 <= localCount f -> localCount f <> LOCAL_MAX ->
  locals f !! Z.to_nat (localCount f) = Some old ->
  addLocal LOCAL_MAX x s
  = Done tt (with_current
               (set_localCount (localCount f + 1)
                  (set_locals (<[Z.to_nat (localCount f) :=
                                   mkLocal x (-1) (isCaptured old)]> (locals f)) f)) s).
Proof.
  intros f H0 Hmax Hold. unfold addLocal, local_at. srun. cbn.
  fold f. replace (localCount f =? LOCAL_MAX) with false by lia.
  replace (0 <=? localCount f) with true by lia.
  rewrite Hold. reflexivity.
Qed.

Lemma markInit_run (s : Compiler) (top : Local) :
  let f := current s in
  scopeDepth f <> 0 -> 1 <= localCount f ->
  locals f !! Z.to_nat (localCount f - 1) = Some top ->
  markInit s
  = Done tt (with_current
               (set_locals (<[Z.to_nat (localCount f - 1) :=
                                mkLocal (name top) (scopeDepth f) (isCaptured top)]>
                              (locals f)) f) s).
Proof.
  intros f Hd Hc Htop. unfold markInit, local_at. srun. cbn. fold f.
  replace (scopeDepth f =? 0) with false by lia.
  replace (0 <=? localCount f - 1) with true by lia.
  rewrite Htop. reflexivity.
Qed.

(** The info once [name_] has been declared and initialised in a new
    scope. *)
Definition declared (x : string) (f : CurrentChunkInfo) : CurrentChunkInfo :=
  let n := Z.to_nat (localCount f) in
  let captured := match locals f !! n with Some l => isCaptured l | None => false end in
  set_locals (<[n := mkLocal x (scopeDepth f + 1) captured]> (locals f))
    (set_localCount (localCount f + 1) (set_scopeDepth (scopeDepth f + 1) f)).

Lemma declare_in_new_scope_run (s : Compiler) (x : string) :
  settled LOCAL_MAX (current s) -> localCount (current s) < LOCAL_MAX ->
  (beginScope;; declareVar LOCAL_MAX x;; markInit) s
  = Done tt (with_current (declared x (current s)) s).
Proof.
  intros (Hlen & Hcount & Hdepth & Hall) Hroom.
  set (f := current s) in *.
  destruct (lookup_lt_is_Some_2 (locals f) (Z.to_nat (localCount f)) ltac:(lia))
    as [old Hold].
  change ((beginScope;; declareVar LOCAL_MAX x;; markInit) s)
    with (match beginScope s with
          | Done _ s1 =>
              match declareVar LOCAL_MAX x s1 with
              | Done _ s2 => markInit s2
              | Thrown s2 => Thrown s2
              | Undefined => Undefined
              end
          | Thrown s1 => Thrown s1
          | Undefined => Undefined
          end).
  rewrite beginScope_run. fold f.
  unfold declareVar. srun.
  cbn [info_at with_current current scopeDepth set_scopeDepth localCount].
  replace (scopeDepth f + 1 =? 0) with false by lia.
  rewrite declared_in_scope_outer; cycle 1.
  { cbn. lia. }
  { cbn. eapply Forall_impl; [exact Hall |]. cbn. intros l Hl. lia. }
  erewrite addLocal_run; cycle 1.
  { cbn. lia. }
  { cbn. lia. }
  { cbn. exact Hold. }
  erewrite markInit_run; cycle 1.
  { cbn. lia. }
  { cbn. lia. }
  { cbn. replace (Z.to_nat (localCount f + 1 - 1)) with (Z.to_nat (localCount f)) by lia.
    apply list_lookup_insert_eq. apply lookup_lt_Some in Hold. exact Hold. }
  cbn. unfold declared, with_current. cbn. rewrite Hold.
  replace (Z.to_nat (localCount f + 1 - 1)) with (Z.to_nat (localCount f)) by lia.
  rewrite list_insert_insert_eq. reflexivity.
Qed.


Lemma settled_declared (f : CurrentChunkInfo) (x : string) :
  settled LOCAL_MAX f -> localCount f < LOCAL_MAX -> settled LOCAL_MAX (declared x f).
Proof.
  intros (Hlen & Hcount & Hdepth & Hall) Hroom. unfold settled, declared, in_use in *. cbn.
  rewrite length_insert. repeat split; try lia.
  replace (Z.to_nat (localCount f + 1)) with (S (Z.to_nat (localCount f))) by lia.
  destruct (lookup_lt_is_Some_2 (locals f) (Z.to_nat (localCount f)) ltac:(lia))
    as [old Hold]. rewrite Hold.
  erewrite take_S_r by (apply list_lookup_insert_eq; apply lookup_lt_Some in Hold; exact Hold).
  rewrite take_insert_ge by lia.
  apply Forall_app. split.
  - eapply Forall_impl; [exact Hall |]. cbn. intros l Hl. lia.
  - apply Forall_singleton. cbn. lia.
Qed.

(** X20: a variable declared and initialised in a new scope takes the next
    slot, and from then on its name resolves to that slot, also when a
    local of an outer scope has the same name; every other name resolves
    as before.  Declaring the name again in the same scope is reported
    and throws. *)
Theorem declare_shadows (s : Compiler) (x : string) :
  settled LOCAL_MAX (current s) -> localCount (current s) < LOCAL_MAX ->
  let s1 := with_current (declared x (current s)) s in
  (beginScope;; declareVar LOCAL_MAX x;; markInit) s = Done tt s1
  /\ settled LOCAL_MAX (current s1)
  /\ resolveLocal 0 x s1 = Done (localCount (current s)) s1
  /\ (forall y r, y <> x -> resolveLocal 0 y s = Done r s -> resolveLocal 0 y s1 = Done r s1)
  /\ declareVar LOCAL_MAX x s1
     = Thrown {| current := current s1; enclosing := enclosing s1;
                 reported := S (reported s1) |}.
Proof.
  intros Hsettled Hroom s1.
  split; [apply declare_in_new_scope_run; assumption |].
  split; [apply settled_declared; assumption |].
  destruct Hsettled as (Hlen & Hcount & Hdepth & Hall).
  set (f := current s) in *.
  assert (Hn : (Z.to_nat (localCount f) < length (locals f))%nat) by lia.
  assert (Htop : locals (declared x f) !! Z.to_nat (localCount f)
                 = Some (mkLocal x (scopeDepth f + 1)
                           match locals f !! Z.to_nat (localCount f) with
                           | Some l => isCaptured l | None => false end)).
  { cbn. apply list_lookup_insert_eq. exact Hn. }
  assert (Hc : Z.to_nat (localCount (declared x f)) = S (Z.to_nat (localCount f))).
  { cbn. lia. }
  repeat split.
  - unfold resolveLocal. srun. cbn [info_at s1 with_current current].
    rewrite Hc. cbn [resolveLocal_from]. srun. rewrite Htop. cbn.
    rewrite String.eqb_refl. replace (scopeDepth f + 1 =? -1) with false by lia.
    f_equal. lia.
  - intros y r Hy Hrun. unfold resolveLocal in *. srun.
    cbn [info_at s1 with_current current] in *. fold f in Hrun.
    rewrite Hc. cbn [resolveLocal_from]. srun. rewrite Htop. cbn.
    replace (String.eqb y x) with false by (symmetry; now apply String.eqb_neq).
    eapply resolveLocal_from_ext; [| exact Hrun].
    intros j Hj. cbn. rewrite list_lookup_insert_ne by lia. reflexivity.
  - unfold declareVar. srun. cbn [info_at s1 with_current current].
    replace (scopeDepth (declared x f) =? 0) with false by (cbn; lia).
    rewrite Hc. cbn [declared_in_scope]. srun. rewrite Htop. cbn.
    replace (scopeDepth f + 1 <? scopeDepth f + 1) with false by lia.
    rewrite andb_false_r. rewrite String.eqb_refl. reflexivity.
Qed.

End Declarations.

(** *** Blocks ([visitBlockStmt], [visitVarDecl], [endScope]) *)

Section Blocks.
Variable LOCAL_MAX : Z.
Variable OP_POP : Z.
Variable OP_POPN : Z.
Variable OP_NIL : Z.
Variable OP_SET_GLOBAL : Z.
Variable OP_SET_GLOBAL_LONG : Z.
Variable findGlobal : string -> C Z.
Variable defineGlobal : Z -> C unit.

Lemma emitByte_info_run (b : Z) (s : Compiler) :
  emitByte b s
  = Done tt (with_current (set_bytecode (bytecode (current s) ++ [b mod 256]) (current s)) s).
Proof. reflexivity. Qed.

(** The loop of [declareVar] passes the locals of other names and stops
    at the first local of an outer scope. *)
Lemma declared_in_scope_fresh (f : CurrentChunkInfo) (x : string) (n m : nat)
    (s : Compiler) :
  (m <= n <= length (locals f))%nat ->
  (forall i l, (m <= i < n)%nat -> locals f !! i = Some l -> name l <> x) ->
  (m = 0%nat \/ exists l, locals f !! (m - 1)%nat = Some l
                          /\ depth l <> -1 /\ depth l < scopeDepth f) ->
  declared_in_scope f x n s = Done tt s.
Proof.
  intros Hmn Hnames Hstop. induction n as [| n IH].
  - reflexivity.
  - cbn [declared_in_scope]. unfold mbind, C_bind.
    destruct (lookup_lt_is_Some_2 (locals f) n ltac:(lia)) as [l Hl].
    rewrite Hl. cbn.
    destruct (negb (depth l =? -1) && (depth l <? scopeDepth f)) eqn:Hbreak;
      [reflexivity |].
    destruct (decide (m = S n)) as [-> | Hne].
    + destruct Hstop as [| (l' & Hl' & H1 & H2)]; [lia |].
      replace (S n - 1)%nat with n in Hl' by lia.
      assert (l' = l) as -> by congruence.
      replace (depth l =? -1) with false in Hbreak by lia.
      replace (depth l <? scopeDepth f) with true in Hbreak by lia.
      discriminate.
    + replace (String.eqb x (name l)) with false.
      * apply IH; [lia |]. intros i l' Hi. apply Hnames. lia.
      * symmetry. apply String.eqb_neq. intros ->. apply (Hnames n l); [lia | exact Hl | reflexivity].
Qed.

(** The loop of [endScope] drops the locals deeper than the scope depth
    and stops at the first one that is not. *)
Lemma locals_kept_run (f : CurrentChunkInfo) (n m : nat) (s : Compiler) :
  (m <= n <= length (locals f))%nat ->
  (forall i l, (m <= i < n)%nat -> locals f !! i = Some l -> scopeDepth f < depth l) ->
  (m = 0%nat \/ exists l, locals f !! (m - 1)%nat = Some l /\ depth l <= scopeDepth f) ->
  locals_kept f n s = Done m s.
Proof.
  intros Hmn Hdeep Hstop. induction n as [| n IH].
  - replace m with 0%nat by lia. reflexivity.
  - cbn [locals_kept]. unfold mbind, C_bind.
    destruct (lookup_lt_is_Some_2 (locals f) n ltac:(lia)) as [l Hl].
    rewrite Hl. cbn.
    destruct (decide (m = S n)) as [-> | Hne].
    + destruct Hstop as [| (l' & Hl' & H1)]; [lia |].
      replace (S n - 1)%nat with n in Hl' by lia.
      assert (l' = l) as -> by congruence.
      replace (scopeDepth f <? depth l) with false by lia. reflexivity.
    + replace (scopeDepth f <? depth l) with true
        by (symmetry; apply Z.ltb_lt; apply (Hdeep n l); [lia | exact Hl]).
      apply IH; [lia |]. intros i l' Hi. apply Hdeep. lia.
Qed.

(** The bytes that [endScope] emits for [k] locals. *)
Definition pops (k : Z) : list Z :=
  if k =? 0 then [] else if k =? 1 then [OP_POP mod 256]
  else [OP_POPN mod 256; k mod 256].

Lemma endScope_run (s : Compiler) (m : nat) :
  let f := current s in
  0 <= localCount f ->
  (m <= Z.to_nat (localCount f) <= length (locals f))%nat ->
  (forall i l, (m <= i < Z.to_nat (localCount f))%nat -> locals f !! i = Some l ->
               scopeDepth f - 1 < depth l) ->
  (m = 0%nat \/ exists l, locals f !! (m - 1)%nat = Some l /\ depth l <= scopeDepth f - 1) ->
  endScope OP_POP OP_POPN s
  = Done tt (with_current
               (set_bytecode (bytecode f ++ pops (localCount f - Z.of_nat m))
                  (set_localCount (Z.of_nat m) (set_scopeDepth (scopeDepth f - 1) f))) s).
Proof.
  intros f H0 Hm Hdeep Hstop. unfold endScope. srun.
  rewrite modify_current_run.
  cbn [info_at with_current current localCount set_scopeDepth]. fold f.
  destruct (Z.leb_spec (localCount f) 0) as [Hle | Hgt].
  - assert (m = 0%nat) as -> by lia.
    unfold pops. replace (localCount f - Z.of_nat 0) with 0 by lia.
    unfold with_current, set_bytecode, set_localCount. cbn. rewrite app_nil_r.
    unfold set_scopeDepth. do 3 f_equal. lia.
  - rewrite (locals_kept_run _ _ m); cycle 1.
    { cbn. lia. }
    { cbn. exact Hdeep. }
    { cbn. exact Hstop. }
    cbn [set_info_at]. unfold pops.
    destruct (Z.ltb_spec 0 (localCount f - Z.of_nat m)) as [Hpop | Hnone].
    + replace (localCount f - Z.of_nat m =? 0) with false by lia.
      destruct (localCount f - Z.of_nat m =? 1); [reflexivity |].
      unfold emitBytes. srun. rewrite !emitByte_info_run. unfold with_current, set_bytecode. cbn.
      rewrite <- app_assoc. reflexivity.
    + replace (localCount f - Z.of_nat m =? 0) with true by lia.
      unfold with_current, set_bytecode. cbn. rewrite app_nil_r. reflexivity.
Qed.

(** [f] is [f0] with the variables [xs] declared, without initialiser,
    in a new scope. *)
Definition in_block (f0 : CurrentChunkInfo) (xs : list string) (f : CurrentChunkInfo)
    : Prop :=
  let c := Z.to_nat (localCount f0) in
  length (locals f) = length (locals f0)
  /\ localCount f = localCount f0 + Z.of_nat (length xs)
  /\ scopeDepth f = scopeDepth f0 + 1
  /\ (forall i, (i < c)%nat -> locals f !! i = locals f0 !! i)
  /\ (forall j x, xs !! j = Some x ->
        exists l, locals f !! (c + j)%nat = Some l
                  /\ name l = x /\ depth l = scopeDepth f0 + 1)
  /\ bytecode f = bytecode f0 ++ replicate (length xs) (OP_NIL mod 256).

Lemma in_block_start (f0 : CurrentChunkInfo) :
  in_block f0 [] (set_scopeDepth (scopeDepth f0 + 1) f0).
Proof.
  unfold in_block. cbn. repeat split; try lia.
  - intros j x Hx. discriminate.
  - now rewrite app_nil_r.
Qed.

Lemma in_block_inner (f0 f : CurrentChunkInfo) (xs : list string) (i : nat) (l : Local) :
  in_block f0 xs f ->
  (Z.to_nat (localCount f0) <= i < Z.to_nat (localCount f0) + length xs)%nat ->
  locals f !! i = Some l ->
  name l ∈ xs /\ depth l = scopeDepth f0 + 1.
Proof.
  intros (_ & _ & _ & _ & Bin & _) Hi Hl.
  destruct (lookup_lt_is_Some_2 xs (i - Z.to_nat (localCount f0)) ltac:(lia)) as [x Hx].
  destruct (Bin _ _ Hx) as (l' & Hl' & Hname & Hd).
  replace (Z.to_nat (localCount f0) + (i - Z.to_nat (localCount f0)))%nat with i in Hl' by lia.
  assert (l' = l) as -> by congruence.
  split; [| exact Hd]. rewrite Hname. eapply list_elem_of_lookup_2. exact Hx.
Qed.

Lemma in_block_outer (f0 f : CurrentChunkInfo) (xs : list string) :
  settled LOCAL_MAX f0 -> in_block f0 xs f ->
  Z.to_nat (localCount f0) = 0%nat
  \/ exists l, locals f !! (Z.to_nat (localCount f0) - 1)%nat = Some l
               /\ 0 <= depth l <= scopeDepth f0.
Proof.
  intros (Hlen & Hcount & Hdepth & Hall) (_ & _ & _ & Bout & _).
  destruct (Z.to_nat (localCount f0)) as [| c] eqn:Hc; [now left | right].
  replace (S c - 1)%nat with c by lia.
  destruct (lookup_lt_is_Some_2 (locals f0) c ltac:(lia)) as [l Hl].
  exists l. split; [rewrite Bout by lia; exact Hl |].
  rewrite Forall_forall in Hall. apply Hall. unfold in_use.
  apply (list_elem_of_lookup_2 _ c). rewrite lookup_take_lt by lia. exact Hl.
Qed.

Lemma visitVarDecl_local (s : Compiler) (f0 : CurrentChunkInfo) (xs : list string)
    (x : string) :
  settled LOCAL_MAX f0 -> in_block f0 xs (current s) -> x ∉ xs ->
  localCount f0 + Z.of_nat (length xs) < LOCAL_MAX ->
  exists f', visitVarDecl LOCAL_MAX OP_POP OP_NIL OP_SET_GLOBAL OP_SET_GLOBAL_LONG
               findGlobal defineGlobal x None s
             = Done tt (with_current f' s)
             /\ in_block f0 (xs ++ [x]) f'.
Proof.
  intros Hsettled Hblock Hfresh Hroom.
  pose proof (in_block_outer _ _ _ Hsettled Hblock) as Hout.
  pose proof (fun i l => in_block_inner _ _ xs i l Hblock) as Hin.
  destruct Hsettled as (Hlen & Hcount & Hdepth & Hall).
  destruct Hblock as (Bl & Bc & Bd & Bout & Bin & Bcode).
  set (f := current s) in *. set (c := Z.to_nat (localCount f0)) in *.
  assert (Hn : Z.to_nat (localCount f) = (c + length xs)%nat) by lia.
  destruct (lookup_lt_is_Some_2 (locals f) (Z.to_nat (localCount f)) ltac:(lia))
    as [old Hold].
  unfold visitVarDecl, parseVar, declareVar, defineVar. srun.
  cbn [info_at]. fold f.
  replace (scopeDepth f =? 0) with false by lia.
  rewrite (declared_in_scope_fresh _ _ _ c); cycle 1.
  { lia. }
  { intros i l Hi Hl <-. apply Hfresh. apply (Hin i l); [lia | exact Hl]. }
  { destruct Hout as [| (l & Hl & Hd)]; [now left | right].
    exists l. repeat split; [exact Hl | lia | lia]. }
  erewrite addLocal_run; [| fold f; lia | fold f; lia | exact Hold].
  fold f. sinfo.
  replace (0 <? scopeDepth f) with true by lia.
  rewrite emitByte_info_run. sinfo.
  replace (0 <? scopeDepth f) with true by lia.
  erewrite markInit_run; cycle 1.
  { cbn. lia. }
  { cbn. lia. }
  { cbn. replace (Z.to_nat (localCount f + 1 - 1)) with (Z.to_nat (localCount f)) by lia.
    apply list_lookup_insert_eq. apply lookup_lt_Some in Hold. exact Hold. }
  sinfo.
  replace (0 <? scopeDepth f) with true by lia.
  eexists. split; [reflexivity |].
  replace (Z.to_nat (localCount f + 1 - 1)) with (Z.to_nat (localCount f)) by lia.
  rewrite list_insert_insert_eq.
  unfold in_block. cbn. fold c. rewrite !length_insert, length_app. cbn.
  repeat split.
  - exact Bl.
  - lia.
  - exact Bd.
  - intros i Hi. rewrite list_lookup_insert_ne by lia. apply Bout. exact Hi.
  - intros j y Hy. destruct (decide (j = length xs)) as [-> | Hne].
    + rewrite lookup_app_r in Hy by lia. rewrite Nat.sub_diag in Hy. cbn in Hy.
      injection Hy as <-. rewrite <- Hn. eexists. split.
      * apply list_lookup_insert_eq. apply lookup_lt_Some in Hold. exact Hold.
      * cbn. split; [reflexivity | lia].
    + assert (Hj : (j < length xs)%nat).
      { apply lookup_lt_Some in Hy. rewrite length_app in Hy. cbn in Hy. lia. }
      rewrite lookup_app_l in Hy by exact Hj.
      rewrite list_lookup_insert_ne by lia. apply Bin. exact Hy.
  - rewrite Bcode, <- app_assoc. f_equal.
    replace (length xs + 1)%nat with (S (length xs)) by lia.
    rewrite replicate_S_end. reflexivity.
Qed.

Lemma accept_each_locals (s : Compiler) (f0 : CurrentChunkInfo) (xs ys : list string) :
  settled LOCAL_MAX f0 -> in_block f0 xs (current s) -> NoDup (xs ++ ys) ->
  localCount f0 + Z.of_nat (length (xs ++ ys)) <= LOCAL_MAX ->
  exists f', accept_each
               (map (fun x => visitVarDecl LOCAL_MAX OP_POP OP_NIL OP_SET_GLOBAL
                                OP_SET_GLOBAL_LONG findGlobal defineGlobal x None) ys) s
             = Done tt (with_current f' s)
             /\ in_block f0 (xs ++ ys) f'.
Proof.
  intros Hsettled. revert s xs. induction ys as [| y ys IH]; intros s xs Hblock Hnodup Hroom.
  - exists (current s). rewrite app_nil_r. split; [| exact Hblock]. now destruct s.
  - cbn [map accept_each]. srun.
    rewrite length_app in Hroom. cbn in Hroom.
    destruct (visitVarDecl_local s f0 xs y Hsettled Hblock) as (f1 & -> & Hblock1).
    { apply NoDup_app in Hnodup as (_ & Hdisj & _). intros Hin.
      apply (Hdisj y Hin). left. }
    { lia. }
    destruct (IH (with_current f1 s) (xs ++ [y])) as (f2 & Hrun & Hblock2).
    { exact Hblock1. }
    { rewrite <- app_assoc. exact Hnodup. }
    { rewrite !length_app. cbn. lia. }
    exists f2. rewrite Hrun. split; [reflexivity |].
    rewrite <- app_assoc in Hblock2. exact Hblock2.
Qed.

(** X21: compiling a block of declarations without initialiser of [xs],
    pairwise different names, emits one [NIL] for each and then what
    [endScope] emits to pop them: nothing for no local, [POP] for one,
    [POPN] with the number as one byte otherwise.  The scope depth and
    the locals in use are afterwards as before the block. *)
Theorem block_of_declarations (s : Compiler) (xs : list string) :
  let f0 := current s in
  settled LOCAL_MAX f0 -> NoDup xs ->
  localCount f0 + Z.of_nat (length xs) <= LOCAL_MAX ->
  exists f',
    visitBlockStmt OP_POP OP_POPN
      (map (fun x => visitVarDecl LOCAL_MAX OP_POP OP_NIL OP_SET_GLOBAL OP_SET_GLOBAL_LONG
                       findGlobal defineGlobal x None) xs) s
    = Done tt (with_current f' s)
    /\ localCount f' = localCount f0
    /\ scopeDepth f' = scopeDepth f0
    /\ in_use f' = in_use f0
    /\ bytecode f'
       = bytecode f0 ++ replicate (length xs) (OP_NIL mod 256)
           ++ pops (Z.of_nat (length xs)).
Proof.
  intros f0 Hsettled Hnodup Hroom.
  unfold visitBlockStmt. srun. rewrite beginScope_run. fold f0.
  destruct (accept_each_locals
              (with_current (set_scopeDepth (scopeDepth f0 + 1) f0) s) f0 [] xs)
    as (f1 & -> & Hblock).
  { exact Hsettled. }
  { apply in_block_start. }
  { exact Hnodup. }
  { exact Hroom. }
  cbn [app] in Hblock.
  pose proof (in_block_outer _ _ _ Hsettled Hblock) as Hout.
  pose proof (fun i l => in_block_inner _ _ xs i l Hblock) as Hin.
  destruct Hsettled as (Hlen & Hcount & Hdepth & Hall).
  destruct Hblock as (Bl & Bc & Bd & Bout & Bin & Bcode).
  rewrite (endScope_run _ (Z.to_nat (localCount f0))); cycle 1.
  { cbn. lia. }
  { cbn. lia. }
  { cbn. intros i l Hi Hl. destruct (Hin i l) as [_ Hd]; [lia | exact Hl | lia]. }
  { cbn. destruct Hout as [| (l & Hl & Hd)]; [now left | right].
    exists l. split; [exact Hl | lia]. }
  eexists. split; [reflexivity |]. cbn. repeat split.
  - lia.
  - lia.
  - unfold in_use. cbn. rewrite Z2Nat.id by lia.
    apply list_eq. intros i.
    destruct (decide (i < Z.to_nat (localCount f0))%nat) as [Hi | Hi].
    + rewrite !lookup_take_lt by lia. apply Bout. exact Hi.
    + rewrite !lookup_take_ge by lia. reflexivity.
  - rewrite Bcode, <- app_assoc. do 3 f_equal. lia.
Qed.

End Blocks.

(** *** Upvalues ([resolveUpvalue], [addUpvalue]) *)

Section Upvalues.
Variable UPVAL_MAX : Z.

Lemma find_upvalue_found (ups : list Upvalue) (idx : Z) (b : bool) (i j : Z) :
  find_upvalue ups idx b i = Some j ->
  i <= j < i + Z.of_nat (length ups)
  /\ ups !! Z.to_nat (j - i) = Some (mkUpvalue idx b).
Proof.
  revert i. induction ups as [| u ups IH]; intros i Hfind; [discriminate |].
  cbn [find_upvalue] in Hfind.
  destruct ((index u =? idx) && Bool.eqb (isLocal u) b) eqn:Hmatch.
  - injection Hfind as <-. cbn [length]. split; [lia |].
    rewrite Z.sub_diag. cbn. apply andb_true_iff in Hmatch as [Hi Hb].
    apply Z.eqb_eq in Hi. apply Bool.eqb_prop in Hb. destruct u. cbn in *. subst. reflexivity.
  - destruct (IH _ Hfind) as [Hr Hl]. cbn [length]. split; [lia |].
    replace (Z.to_nat (j - i)) with (S (Z.to_nat (j - (i + 1)))) by lia. exact Hl.
Qed.

Lemma find_upvalue_app (ups : list Upvalue) (u : Upvalue) (idx : Z) (b : bool) (i : Z) :
  find_upvalue ups idx b i = None ->
  find_upvalue (ups ++ [u]) idx b i
  = if (index u =? idx) && Bool.eqb (isLocal u) b
    then Some (i + Z.of_nat (length ups)) else None.
Proof.
  revert i. induction ups as [| v ups IH]; intros i Hfind.
  - cbn. rewrite Z.add_0_r. reflexivity.
  - cbn [find_upvalue app] in *.
    destruct ((index v =? idx) && Bool.eqb (isLocal v) b); [discriminate |].
    rewrite IH by exact Hfind. cbn [length].
    replace (i + 1 + Z.of_nat (length ups)) with (i + Z.of_nat (S (length ups))) by lia.
    reflexivity.
Qed.

(** What [addUpvalue] returns is the index of the pair among the
    upvalues in use, and asking again returns it again and changes
    nothing; the infos of the enclosing functions are never touched. *)
Lemma addUpvalue_holds (s s' : Compiler) (idx : Z) (b : bool) (r : Z) :
  addUpvalue UPVAL_MAX idx b s = Done r s' ->
  0 <= r < upvalueCount (current s')
  /\ upvalues (current s') !! Z.to_nat r = Some (mkUpvalue idx b)
  /\ enclosing s' = enclosing s
  /\ addUpvalue UPVAL_MAX idx b s' = Done r s'.
Proof.
  unfold addUpvalue. srun. cbn [info_at]. set (f := current s).
  destruct (find_upvalue (take (Z.to_nat (upvalueCount f)) (upvalues f)) idx b 0)
    as [j |] eqn:Hfind.
  - intros Hrun. injection Hrun as <- <-. fold f.
    destruct (find_upvalue_found _ _ _ _ _ Hfind) as [Hr Hl].
    rewrite Z.sub_0_r in Hl. rewrite length_take in Hr.
    rewrite lookup_take_lt in Hl by lia.
    repeat split; [lia | lia | exact Hl | rewrite Hfind; reflexivity].
  - destruct (Z.ltb_spec (Z.of_nat (length (upvalues f))) (upvalueCount f)); [discriminate |].
    destruct (Z.eqb_spec (upvalueCount f) UPVAL_MAX); [discriminate |].
    destruct (Z.ltb_spec (upvalueCount f) 0); [discriminate |].
    destruct (upvalues f !! Z.to_nat (upvalueCount f)) as [old |] eqn:Hold; [| discriminate].
    cbn. intros Hrun. injection Hrun as <- <-. sinfo.
    pose proof (lookup_lt_Some _ _ _ Hold) as Hlt.
    repeat split; [lia | lia | apply list_lookup_insert_eq; exact Hlt |].
    replace (Z.to_nat (upvalueCount f + 1)) with (S (Z.to_nat (upvalueCount f))) by lia.
    erewrite take_S_r by (apply list_lookup_insert_eq; exact Hlt).
    rewrite take_insert_ge by lia.
    rewrite find_upvalue_app by exact Hfind. cbn.
    rewrite Z.eqb_refl, Bool.eqb_reflx. cbn.
    rewrite length_take. do 2 f_equal. lia.
Qed.

Lemma addUpvalue_runs (s : Compiler) (idx : Z) (b : bool) :
  let f := current s in
  0 <= upvalueCount f < UPVAL_MAX ->
  upvalueCount f < Z.of_nat (length (upvalues f)) ->
  exists r s', addUpvalue UPVAL_MAX idx b s = Done r s'.
Proof.
  intros f Hcount Hlen. unfold addUpvalue. srun. cbn [info_at]. fold f.
  destruct (find_upvalue _ idx b 0) as [j |]; [now eexists _, _ |].
  replace (Z.of_nat (length (upvalues f)) <? upvalueCount f) with false by lia.
  replace (upvalueCount f =? UPVAL_MAX) with false by lia.
  replace (upvalueCount f <? 0) with false by lia.
  destruct (lookup_lt_is_Some_2 (upvalues f) (Z.to_nat (upvalueCount f)) ltac:(lia))
    as [old ->].
  cbn. now eexists _, _.
Qed.

Lemma addUpvalue_new (s : Compiler) (idx : Z) (b : bool) :
  let f := current s in
  0 <= upvalueCount f -> upvalueCount f <> UPVAL_MAX ->
  upvalueCount f < Z.of_nat (length (upvalues f)) ->
  find_upvalue (take (Z.to_nat (upvalueCount f)) (upvalues f)) idx b 0 = None ->
  addUpvalue UPVAL_MAX idx b s
  = Done (upvalueCount f)
      (with_current
         (set_upvalues (<[Z.to_nat (upvalueCount f) := mkUpvalue idx b]> (upvalues f))
            (upvalueCount f + 1) f) s).
Proof.
  intros f H0 Hmax Hlen Hfind. unfold addUpvalue. srun. cbn [info_at]. fold f.
  rewrite Hfind.
  replace (Z.of_nat (length (upvalues f)) <? upvalueCount f) with false by lia.
  replace (upvalueCount f =? UPVAL_MAX) with false by lia.
  replace (upvalueCount f <? 0) with false by lia.
  destruct (lookup_lt_is_Some_2 (upvalues f) (Z.to_nat (upvalueCount f)) ltac:(lia))
    as [old ->].
  reflexivity.
Qed.

(** What the loop of [resolveLocal] returns: the compiler is as it was,
    and the result is [-1] or the index of an initialised local of that
    name. *)
Lemma resolveLocal_from_found (f : CurrentChunkInfo) (x : string) (n : nat)
    (s s' : Compiler) (r : Z) :
  resolveLocal_from f x n s = Done r s' ->
  s' = s
  /\ (r = -1 \/ (0 <= r < Z.of_nat n
                 /\ exists l, locals f !! Z.to_nat r = Some l /\ name l = x)).
Proof.
  induction n as [| n IH]; cbn [resolveLocal_from]; srun.
  - intros Hrun. injection Hrun as <- <-. split; [reflexivity | now left].
  - destruct (locals f !! n) as [l |] eqn:Hl; cbn; [| discriminate].
    destruct (String.eqb_spec x (name l)) as [-> | Hne].
    + destruct (depth l =? -1); [discriminate |].
      intros Hrun. injection Hrun as <- <-. split; [reflexivity | right].
      split; [lia |]. exists l. rewrite Nat2Z.id. split; [exact Hl | reflexivity].
    + intros Hrun. destruct (IH Hrun) as [-> [-> | (Hr & Hfound)]].
      * split; [reflexivity | now left].
      * split; [reflexivity | right]. split; [lia | exact Hfound].
Qed.

(** The local [i] of [f], marked as captured. *)
Definition capture (i : Z) (f : CurrentChunkInfo) : CurrentChunkInfo :=
  match locals f !! Z.to_nat i with
  | Some l =>
      set_hasCapturedLocals true
        (set_locals (<[Z.to_nat i := mkLocal (name l) (depth l) true]> (locals f)) f)
  | None => f
  end.

Definition with_enclosing (fs : list CurrentChunkInfo) (s : Compiler) : Compiler :=
  {| current := current s; enclosing := fs; reported := reported s |}.

Lemma resolveLocal_from_capture (f : CurrentChunkInfo) (x : string) (i : Z) (n : nat)
    (s t : Compiler) (r : Z) :
  resolveLocal_from f x n s = Done r s ->
  resolveLocal_from (capture i f) x n t = Done r t.
Proof.
  unfold capture. destruct (locals f !! Z.to_nat i) as [c |] eqn:Hc; cycle 1.
  { revert r. induction n as [| n IH]; intros r; cbn [resolveLocal_from]; srun.
    - congruence.
    - destruct (locals f !! n); cbn; [| discriminate].
      destruct (String.eqb x (name l)); [| apply IH].
      destruct (depth l =? -1); [discriminate | congruence]. }
  revert r. induction n as [| n IH]; intros r; cbn [resolveLocal_from]; srun.
  - congruence.
  - sinfo. destruct (decide (n = Z.to_nat i)) as [-> | Hne].
    + rewrite list_lookup_insert_eq by (eapply lookup_lt_Some; exact Hc).
      rewrite Hc. cbn.
      destruct (String.eqb x (name c)); [| apply IH].
      destruct (depth c =? -1); [discriminate | congruence].
    + rewrite list_lookup_insert_ne by lia.
      destruct (locals f !! n) as [l |]; cbn; [| discriminate].
      destruct (String.eqb x (name l)); [| apply IH].
      destruct (depth l =? -1); [discriminate | congruence].
Qed.

Lemma capture_twice (i : Z) (f : CurrentChunkInfo) : capture i (capture i f) = capture i f.
Proof.
  unfold capture at 2 3. destruct (locals f !! Z.to_nat i) as [c |] eqn:Hc; cycle 1.
  { unfold capture. now rewrite Hc. }
  unfold capture. sinfo.
  rewrite list_lookup_insert_eq by (eapply lookup_lt_Some; exact Hc).
  cbn. rewrite list_insert_insert_eq. reflexivity.
Qed.

(** One step of [resolveUpvalue] when the name is a local of the
    enclosing function. *)
Lemma resolveUpvalue_from_local (n func : nat) (x : string) (s : Compiler)
    (f1 : CurrentChunkInfo) (i : Z) :
  enclosing s !! func = Some f1 ->
  resolveLocal (S func) x s = Done i s -> i <> -1 ->
  resolveUpvalue_from UPVAL_MAX (S n) func x s
  = addUpvalue UPVAL_MAX (i mod 256) true
      (with_enclosing (<[func := capture i f1]> (enclosing s)) s).
Proof.
  intros Hf1 Hlocal Hi. cbn [resolveUpvalue_from]. srun. rewrite Hlocal.
  replace (i =? -1) with false by lia. cbn [negb info_at]. rewrite Hf1.
  unfold resolveLocal in Hlocal. unfold mbind, C_bind in Hlocal. cbn [info_at] in Hlocal.
  rewrite Hf1 in Hlocal.
  destruct (resolveLocal_from_found _ _ _ _ _ _ Hlocal) as [_ [-> | (Hr & l & Hl & _)]];
    [lia |].
  unfold local_at. replace (0 <=? i) with true by lia. rewrite Hl. cbn.
  rewrite bool_decide_eq_true_2 by (eapply lookup_lt_Some; exact Hf1).
  unfold capture. rewrite Hl. reflexivity.
Qed.

(** One step of [resolveUpvalue] when the name is no local of the
    enclosing function. *)
Lemma resolveUpvalue_from_outer (n func : nat) (x : string) (s : Compiler) :
  resolveLocal (S func) x s = Done (-1) s ->
  resolveUpvalue_from UPVAL_MAX (S n) func x s
  = match resolveUpvalue_from UPVAL_MAX n (S func) x s with
    | Done upvalue s' =>
        if upvalue =? -1 then Done (-1) s'
        else addUpvalue UPVAL_MAX (upvalue mod 256) false s'
    | Thrown s' => Thrown s'
    | Undefined => Undefined
    end.
Proof.
  intros Hlocal. cbn [resolveUpvalue_from]. srun. rewrite Hlocal. cbn.
  destruct (resolveUpvalue_from UPVAL_MAX n (S func) x s) as [r s' | |]; try reflexivity.
  destruct (r =? -1); reflexivity.
Qed.

Lemma resolveLocal_enclosing (func : nat) (x : string) (s : Compiler) (i : Z) :
  resolveLocal (S func) x s = Done i s ->
  exists f1, enclosing s !! func = Some f1
             /\ resolveLocal_from f1 x (Z.to_nat (localCount f1)) s = Done i s.
Proof.
  unfold resolveLocal. unfold mbind, C_bind. cbn [info_at].
  destruct (enclosing s !! func) as [f1 |]; [| discriminate].
  intros Hrun. now exists f1.
Qed.

Lemma capture_localCount (i : Z) (f : CurrentChunkInfo) :
  localCount (capture i f) = localCount f.
Proof. unfold capture. now destruct (locals f !! Z.to_nat i). Qed.

Lemma capture_captured (i : Z) (f : CurrentChunkInfo) (l : Local) :
  locals f !! Z.to_nat i = Some l ->
  hasCapturedLocals (capture i f) = true
  /\ locals (capture i f) !! Z.to_nat i = Some (mkLocal (name l) (depth l) true).
Proof.
  intros Hl. unfold capture. rewrite Hl. sinfo. split; [reflexivity |].
  apply list_lookup_insert_eq. eapply lookup_lt_Some. exact Hl.
Qed.

(** X22: a name that is an initialised local [i] of the enclosing
    function resolves to an upvalue of the current function that holds
    [(i mod 256, true)]; the local and its function are marked as
    captured.  Resolving the name again gives the same index and changes
    nothing. *)
Theorem capture_enclosing_local (s : Compiler) (x : string) (i : Z) :
  let f := current s in
  resolveLocal 1 x s = Done i s -> i <> -1 ->
  0 <= upvalueCount f < UPVAL_MAX -> upvalueCount f < Z.of_nat (length (upvalues f)) ->
  exists r s',
    resolveUpvalue UPVAL_MAX 0 x s = Done r s'
    /\ 0 <= r < upvalueCount (current s')
    /\ upvalues (current s') !! Z.to_nat r = Some (mkUpvalue (i mod 256) true)
    /\ (exists f1 l, enclosing s' !! 0%nat = Some f1 /\ hasCapturedLocals f1 = true
                     /\ locals f1 !! Z.to_nat i = Some l
                     /\ name l = x /\ isCaptured l = true)
    /\ resolveUpvalue UPVAL_MAX 0 x s' = Done r s'.
Proof.
  intros f Hlocal Hi Hcount Hlen.
  destruct (resolveLocal_enclosing _ _ _ _ Hlocal) as (f1 & Hf1 & Hfrom).
  destruct (resolveLocal_from_found _ _ _ _ _ _ Hfrom) as [_ [-> | (Hr & l & Hl & Hname)]];
    [lia |].
  pose proof (lookup_lt_Some _ _ _ Hf1) as Hdeep.
  set (s1 := with_enclosing (<[0%nat := capture i f1]> (enclosing s)) s).
  destruct (addUpvalue_runs s1 (i mod 256) true Hcount Hlen) as (r & s' & Hadd).
  destruct (addUpvalue_holds _ _ _ _ _ Hadd) as (Hrange & Hup & Henc & Hagain).
  assert (Hf1' : enclosing s' !! 0%nat = Some (capture i f1)).
  { rewrite Henc. cbn. apply list_lookup_insert_eq. exact Hdeep. }
  destruct (capture_captured i f1 l Hl) as [Hflag Hl'].
  exists r, s'. repeat split; try lia.
  - unfold resolveUpvalue, get. srun.
    destruct (length (enclosing s) - 0)%nat as [| k] eqn:Hk; [lia |].
    rewrite (resolveUpvalue_from_local k 0 x s f1 i Hf1 Hlocal Hi). exact Hadd.
  - exact Hup.
  - exists (capture i f1), (mkLocal (name l) (depth l) true). now repeat split.
  - unfold resolveUpvalue, get. srun.
    destruct (length (enclosing s') - 0)%nat as [| k] eqn:Hk;
      [rewrite Henc in Hk; cbn in Hk; rewrite length_insert in Hk; lia |].
    rewrite (resolveUpvalue_from_local k 0 x s' (capture i f1) i Hf1'); [| | exact Hi].
    + rewrite capture_twice, list_insert_id by exact Hf1'.
      replace (with_enclosing (enclosing s') s') with s' by now destruct s'.
      exact Hagain.
    + unfold resolveLocal. unfold mbind, C_bind. cbn [info_at]. rewrite Hf1'.
      rewrite capture_localCount. eapply resolveLocal_from_capture. exact Hfrom.
Qed.

(** X23: for a name that is a local [i] two functions out, both upvalues
    are recorded in the current function, since [addUpvalue] always works
    on [current]: in a function without upvalues the result is upvalue 1,
    the current function holds [(i mod 256, true)] and [(0, false)], and
    the function in between records nothing. *)
Theorem capture_two_levels (s : Compiler) (x : string) (i : Z) :
  let f := current s in
  resolveLocal 1 x s = Done (-1) s -> resolveLocal 2 x s = Done i s -> i <> -1 ->
  upvalueCount f = 0 -> (2 <= length (upvalues f))%nat ->
  UPVAL_MAX <> 0 -> UPVAL_MAX <> 1 ->
  exists s',
    resolveUpvalue UPVAL_MAX 0 x s = Done 1 s'
    /\ upvalueCount (current s') = 2
    /\ take 2 (upvalues (current s')) = [mkUpvalue (i mod 256) true; mkUpvalue 0 false]
    /\ enclosing s' !! 0%nat = enclosing s !! 0%nat
    /\ (exists f2 l, enclosing s' !! 1%nat = Some f2 /\ hasCapturedLocals f2 = true
                     /\ locals f2 !! Z.to_nat i = Some l
                     /\ name l = x /\ isCaptured l = true).
Proof.
  intros f Hmiddle Houter Hi Hcount Hlen Hmax0 Hmax1.
  destruct (resolveLocal_enclosing _ _ _ _ Hmiddle) as (f1 & Hf1 & _).
  destruct (resolveLocal_enclosing _ _ _ _ Houter) as (f2 & Hf2 & Hfrom).
  destruct (resolveLocal_from_found _ _ _ _ _ _ Hfrom) as [_ [-> | (Hr & l & Hl & Hname)]];
    [lia |].
  pose proof (lookup_lt_Some _ _ _ Hf2) as Hdeep.
  destruct (capture_captured i f2 l Hl) as [Hflag Hl'].
  destruct (upvalues f) as [| u0 [| u1 ups]] eqn:Hups; cbn in Hlen; try lia.
  set (s1 := with_enclosing (<[1%nat := capture i f2]> (enclosing s)) s).
  set (s2 := with_current
               (set_upvalues (mkUpvalue (i mod 256) true :: u1 :: ups) 1 f) s1).
  set (s3 := with_current
               (set_upvalues (mkUpvalue (i mod 256) true :: mkUpvalue 0 false :: ups) 2 f) s1).
  assert (Hadd1 : addUpvalue UPVAL_MAX (i mod 256) true s1 = Done 0 s2).
  { rewrite addUpvalue_new; cbn [s1 with_enclosing current]; fold f;
      rewrite ?Hcount, ?Hups; cbn [length]; try lia; reflexivity. }
  assert (Hadd2 : addUpvalue UPVAL_MAX (0 mod 256) false s2 = Done 1 s3).
  { rewrite addUpvalue_new; cbn [s2 with_current current upvalueCount upvalues set_upvalues];
      cbn [length]; try lia; try reflexivity.
    change (Z.to_nat 1) with 1%nat. cbn. rewrite andb_false_r. reflexivity. }
  exists s3. split.
  - unfold resolveUpvalue, get. srun.
    destruct (length (enclosing s) - 0)%nat as [| [| k]] eqn:Hk; [lia | lia |].
    rewrite (resolveUpvalue_from_outer (S k) 0 x s Hmiddle).
    rewrite (resolveUpvalue_from_local k 1 x s f2 i Hf2 Houter Hi).
    fold s1. rewrite Hadd1. cbn [Z.eqb]. exact Hadd2.
  - cbn. repeat split.
    + rewrite list_lookup_insert_ne by lia. reflexivity.
    + exists (capture i f2), (mkLocal (name l) (depth l) true).
      rewrite list_lookup_insert_eq by exact Hdeep. now repeat split.
Qed.

End Upvalues.

(** *** Examples *)

(** A function with room for four locals and four upvalues whose slot 0
    is taken by the function itself; [outer_info] has the local [x] in
    slot 1. *)
Definition inner_info : CurrentChunkInfo :=
  {| locals := [mkLocal "" 1 false; mkLocal "" 0 false; mkLocal "" 0 false;
                mkLocal "" 0 false];
     localCount := 1; scopeDepth := 1;
     upvalues := replicate 4 (mkUpvalue 0 false); upvalueCount := 0;
     hasCapturedLocals := false; bytecode := [] |}.

Definition outer_info : CurrentChunkInfo :=
  {| locals := [mkLocal "" 1 false; mkLocal "x" 1 false; mkLocal "" 0 false;
                mkLocal "" 0 false];
     localCount := 2; scopeDepth := 1;
     upvalues := replicate 4 (mkUpvalue 0 false); upvalueCount := 0;
     hasCapturedLocals := false; bytecode := [] |}.

Definition compiling (f : CurrentChunkInfo) (outside : list CurrentChunkInfo) : Compiler :=
  {| current := f; enclosing := outside; reported := 0 |}.

Definition no_globals : string -> C Z := fun _ => undefined.
Definition no_global : Z -> C unit := fun _ => undefined.

Lemma settled_outer_info : settled 4 outer_info.
Proof. repeat split; compute_done. Qed.

Lemma declare_shadows_witness :
  let s1 := with_current (declared "x" outer_info) (compiling outer_info []) in
  (beginScope;; declareVar 4 "x";; markInit) (compiling outer_info []) = Done tt s1
  /\ settled 4 (current s1)
  /\ resolveLocal 0 "x" s1 = Done 2 s1
  /\ (forall y r, y <> "x"%string ->
        resolveLocal 0 y (compiling outer_info []) = Done r (compiling outer_info []) ->
        resolveLocal 0 y s1 = Done r s1)
  /\ declareVar 4 "x" s1
     = Thrown {| current := current s1; enclosing := enclosing s1;
                 reported := S (reported s1) |}.
Proof.
  apply (declare_shadows 4 (compiling outer_info []) "x").
  - exact settled_outer_info.
  - compute_done.
Defined.

Lemma block_of_declarations_witness :
  exists f',
    visitBlockStmt 0x10 0x11
      (map (fun x => visitVarDecl 4 0x10 0x01 0x30 0x31 no_globals no_global x None)
         ["a"%string; "b"%string])
      (compiling outer_info [])
    = Done tt (with_current f' (compiling outer_info []))
    /\ localCount f' = 2
    /\ scopeDepth f' = 1
    /\ in_use f' = in_use outer_info
    /\ bytecode f' = [0x01; 0x01; 0x11; 2].
Proof.
  apply (block_of_declarations 4 0x10 0x11 0x01 0x30 0x31 no_globals no_global
           (compiling outer_info []) ["a"%string; "b"%string]).
  - exact settled_outer_info.
  - repeat constructor; set_solver.
  - compute_done.
Defined.

Lemma capture_enclosing_local_witness :
  exists r s',
    resolveUpvalue 4 0 "x" (compiling inner_info [outer_info]) = Done r s'
    /\ 0 <= r < upvalueCount (current s')
    /\ upvalues (current s') !! Z.to_nat r = Some (mkUpvalue (1 mod 256) true)
    /\ (exists f1 l, enclosing s' !! 0%nat = Some f1 /\ hasCapturedLocals f1 = true
                     /\ locals f1 !! Z.to_nat 1 = Some l
                     /\ name l = "x"%string /\ isCaptured l = true)
    /\ resolveUpvalue 4 0 "x" s' = Done r s'.
Proof.
  apply (capture_enclosing_local 4 (compiling inner_info [outer_info]) "x" 1).
  - reflexivity.
  - compute_done.
  - compute_done.
  - compute_done.
Defined.

Lemma capture_two_levels_witness :
  exists s',
    resolveUpvalue 4 0 "x" (compiling inner_info [inner_info; outer_info]) = Done 1 s'
    /\ upvalueCount (current s') = 2
    /\ take 2 (upvalues (current s')) = [mkUpvalue (1 mod 256) true; mkUpvalue 0 false]
    /\ enclosing s' !! 0%nat = Some inner_info
    /\ (exists f2 l, enclosing s' !! 1%nat = Some f2 /\ hasCapturedLocals f2 = true
                     /\ locals f2 !! Z.to_nat 1 = Some l
                     /\ name l = "x"%string /\ isCaptured l = true).
Proof.
  apply (capture_two_levels 4 (compiling inner_info [inner_info; outer_info]) "x" 1).
  - reflexivity.
  - reflexivity.
  - compute_done.
  - reflexivity.
  - compute_done.
  - compute_done.
  - compute_done.
Defined.

End ScopeFacts.

(** ** Declarations at the top level, compiled and run *)

Module DeclFacts.
Import ValueHelpers Objects ValueFacts Thread ThreadFacts HandlerFacts EmitFacts.

Section WithOpcodes.
Variable STACK_MAX : Z.
Variable LOCAL_MAX : Z.
Variable OP_POP : Z.
Variable OP_NIL : Z.
Variable OP_SET_GLOBAL : Z.
Variable OP_SET_GLOBAL_LONG : Z.
Variable findGlobal : string -> Scopes.C Z.
Variable defineGlobal : Z -> Scopes.C unit.

(** The dispatch loop reads a byte and enters the handler of the opcode
    with that number. *)
Definition dispatch (program : list Z) (opcode : Z) (handler : M unit) : M unit :=
  b ← READ_BYTE program; if b =? byte opcode then handler else fault.

(** The code of a declaration without initialiser of the global [g]. *)
Definition global_declaration (g : Z) : list Z :=
  byte OP_NIL
  :: (if g <=? 255 then [byte OP_SET_GLOBAL; byte g]
      else [byte OP_SET_GLOBAL_LONG; byte (Z.land (Z.shiftr g 8) 0xff);
            byte (Z.land g 0xff)])
  ++ [byte OP_POP].

Lemma visitVarDecl_global (s : Scopes.Compiler) (x : string) (g : Z) :
  let f := Scopes.current s in
  Scopes.scopeDepth f = 0 ->
  (forall t, findGlobal x t = Scopes.Done g t) ->
  (forall t, defineGlobal g t = Scopes.Done tt t) ->
  0 <= g <= 65535 ->
  Scopes.visitVarDecl LOCAL_MAX OP_POP OP_NIL OP_SET_GLOBAL OP_SET_GLOBAL_LONG
    findGlobal defineGlobal x None s
  = Scopes.Done tt
      (ScopeFacts.with_current
         (Scopes.set_bytecode (Scopes.bytecode f ++ global_declaration g) f) s).
Proof.
  intros f Hdepth Hfind Hdefine Hg.
  unfold Scopes.visitVarDecl, Scopes.parseVar, Scopes.declareVar, Scopes.defineVar.
  unfold mbind, mret, Scopes.C_bind, Scopes.C_ret. cbn [Scopes.info_at]. fold f.
  rewrite Hdepth. cbn [Z.eqb]. cbv beta iota. fold f.
  rewrite Hdepth. change (0 <? 0) with false. cbv beta iota.
  rewrite Hfind. rewrite (Z.mod_small g) by lia.
  unfold Scopes.emitByte at 1. rewrite ScopeFacts.modify_current_run.
  cbn [ScopeFacts.with_current Scopes.current Scopes.scopeDepth Scopes.set_bytecode].
  fold f. rewrite Hdepth. change (0 <? 0) with false. cbv beta iota.
  rewrite Hdefine.
  cbn [ScopeFacts.with_current Scopes.current Scopes.scopeDepth Scopes.set_bytecode].
  rewrite Hdepth. change (0 <? 0) with false. cbv beta iota.
  unfold global_declaration, Compiler.SHORT_CONSTANT_LIMIT.
  destruct (g <=? 255).
  - unfold Scopes.emitBytes, Scopes.emitByte.
    unfold mbind, Scopes.C_bind. rewrite !ScopeFacts.modify_current_run.
    unfold ScopeFacts.with_current, Scopes.set_bytecode, byte. cbn.
    rewrite <- !app_assoc. reflexivity.
  - unfold Scopes.emitByteAnd16Bit, Scopes.emit16Bit, Scopes.emitBytes, Scopes.emitByte.
    unfold mbind, Scopes.C_bind. rewrite !ScopeFacts.modify_current_run.
    unfold ScopeFacts.with_current, Scopes.set_bytecode, byte. cbn.
    rewrite <- !app_assoc. reflexivity.
Qed.

Lemma dispatch_at (program pre post : list Z) (opcode : Z) (handler : M unit)
    (s : Machine) :
  program = pre ++ byte opcode :: post -> ip s = Z.of_nat (length pre) ->
  dispatch program opcode handler s = handler (set_ip (ip s + 1) s).
Proof.
  intros -> Hip. unfold dispatch. unfold mbind, M_bind.
  rewrite (READ_BYTE_at _ s (byte opcode)).
  - cbn. now rewrite Z.eqb_refl.
  - lia.
  - rewrite Hip, Nat2Z.id. apply list_lookup_middle. reflexivity.
Qed.

(** X27: a declaration without initialiser at the top level, of a
    variable that is global [g], is compiled to [NIL], [SET_GLOBAL g]
    (or [SET_GLOBAL_LONG] with [g] in two bytes from 256 on) and [POP];
    running the three instructions stores nil in global [g], changes no
    other global and leaves the stack as it was. *)
Theorem global_declaration_stores (s : Scopes.Compiler) (x : string) (g : Z) :
  let f := Scopes.current s in
  Scopes.scopeDepth f = 0 ->
  (forall t, findGlobal x t = Scopes.Done g t) ->
  (forall t, defineGlobal g t = Scopes.Done tt t) ->
  0 <= g <= 65535 ->
  Scopes.visitVarDecl LOCAL_MAX OP_POP OP_NIL OP_SET_GLOBAL OP_SET_GLOBAL_LONG
    findGlobal defineGlobal x None s
  = Scopes.Done tt
      (ScopeFacts.with_current
         (Scopes.set_bytecode (Scopes.bytecode f ++ global_declaration g) f) s)
  /\ forall (before after : list Z) (m : Machine),
       ip m = Z.of_nat (length before + length (Scopes.bytecode f)) ->
       g < Z.of_nat (length (globals m)) ->
       stackTop m < STACK_MAX ->
       let program := before ++ (Scopes.bytecode f ++ global_declaration g) ++ after in
       (dispatch program OP_NIL (op_NIL STACK_MAX);;
        (if g <=? 255 then dispatch program OP_SET_GLOBAL (op_SET_GLOBAL program)
         else dispatch program OP_SET_GLOBAL_LONG (op_SET_GLOBAL_LONG program));;
        dispatch program OP_POP op_POP) m
       = Ok (tt, set_globals (<[Z.to_nat g := encodeNil]> (globals m))
                   (set_ip (ip m + Z.of_nat (length (global_declaration g))) m)).
Proof.
  intros f Hdepth Hfind Hdefine Hg.
  split; [apply visitVarDecl_global; assumption |].
  intros before after m Hip Hglobals Hroom program.
  set (pre := before ++ Scopes.bytecode f).
  assert (Hpre : ip m = Z.of_nat (length pre)) by (unfold pre; rewrite length_app; exact Hip).
  assert (Hprogram : program = pre ++ global_declaration g ++ after).
  { unfold program, pre. now rewrite <- !app_assoc. }
  clearbody program pre. clear Hip. subst program.
  unfold mbind, M_bind.
  rewrite (dispatch_at _ pre (tl (global_declaration g) ++ after) OP_NIL)
    by (reflexivity || exact Hpre).
  unfold op_NIL. rewrite push_room by exact Hroom.
  unfold global_declaration.
  destruct (Z.leb_spec g 255) as [Hshort | Hlong].
  - rewrite (dispatch_at _ (pre ++ [byte OP_NIL]) (byte g :: byte OP_POP :: after)
               OP_SET_GLOBAL)
      by (cbn; rewrite <- ?app_assoc, ?length_app; cbn; first [reflexivity | lia]).
    unfold op_SET_GLOBAL. unfold mbind, M_bind.
    rewrite (READ_BYTE_at _ _ (byte g)); cycle 1.
    { cbn. lia. }
    { cbn. replace (Z.to_nat (ip m + 1 + 1)) with (length pre + 2)%nat by lia.
      change (pre ++ ?a :: ?b :: ?c) with (pre ++ [a; b] ++ c).
      rewrite lookup_app_r by lia. now replace (length pre + 2 - length pre)%nat with 2%nat by lia. }
    rewrite (peek_top _ (stack m) encodeNil) by reflexivity.
    unfold byte at 1. rewrite (Z.mod_small g) by lia.
    rewrite set_global_run by (cbn; lia).
    rewrite (dispatch_at _ (pre ++ [byte OP_NIL; byte OP_SET_GLOBAL; byte g]) after OP_POP)
      by (cbn; rewrite <- ?app_assoc, ?length_app; cbn; first [reflexivity | lia]).
    unfold op_POP, popn, stackTop. cbn. rewrite length_app. cbn.
    rewrite (proj2 (Z.leb_le 1 _)) by lia.
    replace (Z.to_nat (Z.of_nat (length (stack m) + 1) - 1)) with (length (stack m)) by lia.
    rewrite take_app_length. unfold set_globals, set_ip, set_stack. cbn.
    do 3 f_equal. lia.
  - rewrite (dispatch_at _ (pre ++ [byte OP_NIL])
               (byte (Z.land (Z.shiftr g 8) 0xff) :: byte (Z.land g 0xff)
                :: byte OP_POP :: after) OP_SET_GLOBAL_LONG)
      by (cbn; rewrite <- ?app_assoc, ?length_app; cbn; first [reflexivity | lia]).
    unfold op_SET_GLOBAL_LONG. unfold mbind, M_bind.
    rewrite (READ_SHORT_at _ _ g); cycle 1.
    { cbn [ip set_ip set_stack].
      replace (ip m + 1 + 1) with (Z.of_nat (length (pre ++ [byte OP_NIL; byte OP_SET_GLOBAL_LONG])))
        by (rewrite length_app; cbn; lia).
      match goal with
      | |- short_at ?p _ _ =>
          replace p with ((pre ++ [byte OP_NIL; byte OP_SET_GLOBAL_LONG])
                          ++ byte (Z.land (Z.shiftr g 8) 0xff) :: byte (Z.land g 0xff)
                          :: byte OP_POP :: after)
            by (cbn; rewrite <- ?app_assoc; reflexivity)
      end.
      apply short_at_middle. unfold Compiler.UINT16_MAX. lia. }
    rewrite (peek_top _ (stack m) encodeNil) by reflexivity.
    rewrite set_global_run by (cbn; lia).
    rewrite (dispatch_at _ (pre ++ [byte OP_NIL; byte OP_SET_GLOBAL_LONG;
                                    byte (Z.land (Z.shiftr g 8) 0xff);
                                    byte (Z.land g 0xff)]) after OP_POP)
      by (cbn; rewrite <- ?app_assoc, ?length_app; cbn; first [reflexivity | lia]).
    unfold op_POP, popn, stackTop. cbn. rewrite length_app. cbn.
    rewrite (proj2 (Z.leb_le 1 _)) by lia.
    replace (Z.to_nat (Z.of_nat (length (stack m) + 1) - 1)) with (length (stack m)) by lia.
    rewrite take_app_length. unfold set_globals, set_ip, set_stack. cbn.
    do 3 f_equal. lia.
Qed.
End WithOpcodes.

(** *** Examples *)

(** The compiler at the top level of a file in which [x] is global 300,
    and a machine with 301 globals. *)
Definition top_level : Scopes.Compiler :=
  {| Scopes.current :=
       {| Scopes.locals := replicate 4 (Scopes.mkLocal "" 0 false);
          Scopes.localCount := 0; Scopes.scopeDepth := 0;
          Scopes.upvalues := []; Scopes.upvalueCount := 0;
          Scopes.hasCapturedLocals := false; Scopes.bytecode := [] |};
     Scopes.enclosing := []; Scopes.reported := 0 |}.

Definition find_x : string -> Scopes.C Z := fun _ t => Scopes.Done 300 t.
Definition define_x : Z -> Scopes.C unit := fun _ t => Scopes.Done tt t.

Definition globals_machine : Machine :=
  {| stack := []; frames := []; frame := 0; ip := 0; slotStart := 0;
     constantOffset := 0; globals := replicate 301 (encodeInt 0); heap := ∅ |}.

Lemma global_declaration_stores_witness :
  let code := [0x01; 0x31; 1; 44; 0x10] in
  Scopes.visitVarDecl 4 0x10 0x01 0x30 0x31 find_x define_x "x" None top_level
  = Scopes.Done tt
      (ScopeFacts.with_current (Scopes.set_bytecode code (Scopes.current top_level))
         top_level)
  /\ (dispatch code 0x01 (op_NIL 256);;
      dispatch code 0x31 (op_SET_GLOBAL_LONG code);;
      dispatch code 0x10 op_POP) globals_machine
     = Ok (tt, set_globals (<[300%nat := encodeNil]> (globals globals_machine))
                 (set_ip 5 globals_machine)).
Proof.
  destruct (global_declaration_stores 256 4 0x10 0x01 0x30 0x31 find_x define_x
              top_level "x" 300 eq_refl (fun _ => eq_refl) (fun _ => eq_refl)
              ltac:(compute_done))
    as [Hcompile Hrun].
  split; [exact Hcompile |].
  exact (Hrun [] [] globals_machine eq_refl ltac:(compute_done) ltac:(compute_done)).
Defined.

End DeclFacts.
